(** * picoclaw RAG: indexing pipeline and trigger decision

    A shallow embedding of [pkg/rag] (chunker, index manifest, indexer,
    trigger decision) together with the properties its specification
    states about it.

    Conventions.
    - A Go [string] is a byte sequence: it is modelled as [string], whose
      characters are the 8-bit [ascii] values, so [String.length] is Go's
      [len].
    - A Go [int] is modelled as [Z].  Every integer the modelled code
      computes is a length, an index or a counter bounded by the size of
      its input, so no 64-bit operation wraps, with one exception: the
      time-out of an HTTP client is a product in [int64] nanoseconds, and
      is reduced with [GoTime.int64].
    - A Go [error] is modelled by its message. *)

From Stdlib Require Import ZArith Ascii String List Bool Lia.
From stdpp Require Import base tactics option list gmap strings pretty.

Open Scope string_scope.
Open Scope Z_scope.

(** ** The parts of Go's standard library the package calls *)

Module GoStrings.

Definition bytes (s : string) : list ascii := list_ascii_of_string s.
Definition of_bytes (l : list ascii) : string := string_of_list_ascii l.

Definition byte_eqb (a b : ascii) : bool := Ascii.eqb a b.

Fixpoint bytes_prefix (p l : list ascii) : bool :=
  match p, l with
  | [], _ => true
  | a :: p', b :: l' => byte_eqb a b && bytes_prefix p' l'
  | _ :: _, [] => false
  end.

(** [strings.HasPrefix(s, prefix)] *)
Definition HasPrefix (s prefix : string) : bool :=
  bytes_prefix (bytes prefix) (bytes s).

(** [strings.HasSuffix(s, suffix)] *)
Definition HasSuffix (s suffix : string) : bool :=
  bytes_prefix (rev (bytes suffix)) (rev (bytes s)).

(** [s[n:]] for [0 <= n <= len(s)] *)
Definition from (n : nat) (s : string) : string :=
  of_bytes (drop n (bytes s)).

(** [s[:n]] for [0 <= n <= len(s)] *)
Definition upto (n : nat) (s : string) : string :=
  of_bytes (take n (bytes s)).

(** [strings.TrimPrefix(s, prefix)] *)
Definition TrimPrefix (s prefix : string) : string :=
  if HasPrefix s prefix then from (String.length prefix) s else s.

(** [strings.TrimSuffix(s, suffix)] *)
Definition TrimSuffix (s suffix : string) : string :=
  if HasSuffix s suffix
  then upto (String.length s - String.length suffix) s
  else s.

(** [strings.Contains(s, substr)] *)
Fixpoint bytes_contains (sub l : list ascii) : bool :=
  bytes_prefix sub l ||
  match l with
  | [] => false
  | _ :: l' => bytes_contains sub l'
  end.

Definition Contains (s substr : string) : bool :=
  bytes_contains (bytes substr) (bytes s).

Definition b (n : nat) : ascii := ascii_of_nat n.

(** The UTF-8 encodings of the code points for which [unicode.IsSpace]
    holds: TAB, LF, VT, FF, CR, SPACE, U+0085, U+00A0, U+1680,
    U+2000..U+200A, U+2028, U+2029, U+202F, U+205F, U+3000.  The decoder
    accepts no other encoding of them. *)
Definition space_runes : list (list ascii) :=
  [ [b 9]; [b 10]; [b 11]; [b 12]; [b 13]; [b 32];
    [b 194; b 133]; [b 194; b 160];
    [b 225; b 154; b 128];
    [b 226; b 128; b 128]; [b 226; b 128; b 129]; [b 226; b 128; b 130];
    [b 226; b 128; b 131]; [b 226; b 128; b 132]; [b 226; b 128; b 133];
    [b 226; b 128; b 134]; [b 226; b 128; b 135]; [b 226; b 128; b 136];
    [b 226; b 128; b 137]; [b 226; b 128; b 138];
    [b 226; b 128; b 168]; [b 226; b 128; b 169]; [b 226; b 128; b 175];
    [b 226; b 129; b 159];
    [b 227; b 128; b 128] ].

(** Drop leading runes while one of [runes] is a prefix; [fuel] bounds the
    number of runes dropped and is the length of the input. *)
Fixpoint drop_runes (runes : list (list ascii)) (fuel : nat)
    (l : list ascii) : list ascii :=
  match fuel with
  | O => l
  | S fuel' =>
      match List.find (fun r => bytes_prefix r l) runes with
      | Some r => drop_runes runes fuel' (drop (length r) l)
      | None => l
      end
  end.

Definition trim_left (l : list ascii) : list ascii :=
  drop_runes space_runes (length l) l.

(** From the right the decoder steps back to the last rune start, so a
    trailing space rune is exactly a suffix that is one of the
    encodings. *)
Definition trim_right (l : list ascii) : list ascii :=
  rev (drop_runes (map (@rev ascii) space_runes) (length l) (rev l)).

(** [strings.TrimSpace(s)] *)
Definition TrimSpace (s : string) : string :=
  of_bytes (trim_right (trim_left (bytes s))).

(** [strings.Split(s, "\n")]: never empty, one more element than there
    are line feeds. *)
Fixpoint split_lf (cur : list ascii) (l : list ascii) : list string :=
  match l with
  | [] => [of_bytes (rev cur)]
  | c :: l' =>
      if byte_eqb c (b 10)
      then of_bytes (rev cur) :: split_lf [] l'
      else split_lf (c :: cur) l'
  end.

Definition SplitLF (s : string) : list string := split_lf [] (bytes s).

(** [strings.Join(elems, sep)] *)
Fixpoint Join (elems : list string) (sep : string) : string :=
  match elems with
  | [] => ""
  | [e] => e
  | e :: rest => e +:+ sep +:+ Join rest sep
  end.

(** [strings.ToLower] on a string of ASCII bytes: the upper-case letters
    are mapped to lower case.  On other input the function consults the
    Unicode case tables, which are not part of the package; the
    definitions that call [ToLower] take it as a parameter, and this is
    the instance used on ASCII input. *)
Definition lower_byte (c : ascii) : ascii :=
  let n := nat_of_ascii c in
  if (65 <=? n)%nat && (n <=? 90)%nat then ascii_of_nat (n + 32) else c.

Definition ToLowerASCII (s : string) : string :=
  of_bytes (map lower_byte (bytes s)).

End GoStrings.

Module GoFilepath.

Import GoStrings.

Definition slash : ascii := b 47.
Definition dot : ascii := b 46.

(** Strip trailing separators. *)
Fixpoint strip_leading_slashes (l : list ascii) : list ascii :=
  match l with
  | c :: l' => if byte_eqb c slash then strip_leading_slashes l' else l
  | [] => []
  end.

(** The bytes up to the first separator. *)
Fixpoint until_slash (l : list ascii) : list ascii :=
  match l with
  | c :: l' => if byte_eqb c slash then [] else c :: until_slash l'
  | [] => []
  end.

(** [filepath.Base(path)] on a system whose separator is [/]. *)
Definition Base (path : string) : string :=
  if String.eqb path "" then "."
  else
    let r := strip_leading_slashes (rev (bytes path)) in
    let last := rev (until_slash r) in
    match last with
    | [] => "/"
    | _ => of_bytes last
    end.

(** The reversed extension of a reversed path: scan from the end until a
    separator (no extension) or a dot (the extension starts there). *)
Fixpoint ext_rev (l : list ascii) (acc : list ascii) : list ascii :=
  match l with
  | [] => []
  | c :: l' =>
      if byte_eqb c slash then []
      else if byte_eqb c dot then c :: acc
      else ext_rev l' (c :: acc)
  end.

(** [filepath.Ext(path)] *)
Definition Ext (path : string) : string :=
  of_bytes (ext_rev (rev (bytes path)) []).

End GoFilepath.

(** ** Trigger decision *)

Record RagTriggerConfig := {
  ForcePrefixes : list string;
  SkipPrefixes : list string;
  Auto : bool;
  AutoKeywords : list string
}.

Record TriggerDecision := {
  CleanedMessage : string;
  ShouldSearch : bool;
  Forced : bool;
  Skipped : bool;
  MatchedKeyword : string
}.

Fixpoint matchPrefix (message : string) (prefixes : list string)
    : string * bool :=
  match prefixes with
  | [] => ("", false)
  | prefix :: rest =>
      if String.eqb prefix "" then matchPrefix message rest
      else if GoStrings.HasPrefix message prefix then (prefix, true)
      else matchPrefix message rest
  end.

Section Trigger.

(** [strings.ToLower] *)
Variable ToLower : string -> string.

Fixpoint matchKeyword_loop (lower : string) (keywords : list string)
    : string :=
  match keywords with
  | [] => ""
  | kw :: rest =>
      if String.eqb kw "" then matchKeyword_loop lower rest
      else if GoStrings.Contains lower (ToLower kw) then kw
      else matchKeyword_loop lower rest
  end.

Definition matchKeyword (message : string) (keywords : list string)
    : string :=
  match keywords with
  | [] => ""
  | _ => matchKeyword_loop (ToLower message) keywords
  end.

Definition DecideTrigger (message : string) (cfg : RagTriggerConfig)
    : TriggerDecision :=
  let trimmed := GoStrings.TrimSpace message in
  if String.eqb trimmed "" then
    {| CleanedMessage := message; ShouldSearch := false; Forced := false;
       Skipped := false; MatchedKeyword := "" |}
  else
    match matchPrefix trimmed (ForcePrefixes cfg) with
    | (prefix, true) =>
        {| CleanedMessage :=
             GoStrings.TrimSpace (GoStrings.TrimPrefix trimmed prefix);
           ShouldSearch := true; Forced := true;
           Skipped := false; MatchedKeyword := "" |}
    | (_, false) =>
        match matchPrefix trimmed (SkipPrefixes cfg) with
        | (prefix, true) =>
            {| CleanedMessage :=
                 GoStrings.TrimSpace (GoStrings.TrimPrefix trimmed prefix);
               ShouldSearch := false; Forced := false;
               Skipped := true; MatchedKeyword := "" |}
        | (_, false) =>
            let clean := trimmed in
            if negb (Auto cfg) then
              {| CleanedMessage := clean; ShouldSearch := false;
                 Forced := false; Skipped := false; MatchedKeyword := "" |}
            else
              let keyword := matchKeyword clean (AutoKeywords cfg) in
              if negb (String.eqb keyword "") then
                {| CleanedMessage := clean; ShouldSearch := true;
                   Forced := false; Skipped := false;
                   MatchedKeyword := keyword |}
              else
                {| CleanedMessage := clean; ShouldSearch := false;
                   Forced := false; Skipped := false; MatchedKeyword := "" |}
        end
    end.

End Trigger.


(** ** Chunker *)

Record chunk := {
  Path : string;
  Heading : string;
  StartLine : Z;
  EndLine : Z;
  Content : string
}.

(** [len(s)] of a string and of a slice, as Go [int]s. *)
Definition len (s : string) : Z := Z.of_nat (String.length s).
Definition len_slice {A} (l : list A) : Z := Z.of_nat (length l).

(** [lines[i]] for an index within bounds. *)
Definition line_at (lines : list string) (i : Z) : string :=
  nth (Z.to_nat i) lines "".

(** [lines[lo:hi]] for [0 <= lo <= hi <= len(lines)]. *)
Definition slice {A} (l : list A) (lo hi : Z) : list A :=
  take (Z.to_nat hi - Z.to_nat lo)%nat (drop (Z.to_nat lo) l).

Definition joinHeading (stack : list string) : string :=
  GoStrings.Join (List.filter (fun h => negb (String.eqb h "")) stack) " > ".

(** The number of leading [#] bytes. *)
Fixpoint heading_level (l : list ascii) : nat :=
  match l with
  | c :: l' =>
      if GoStrings.byte_eqb c (GoStrings.b 35) then S (heading_level l') else O
  | [] => O
  end.

(** [stack[level-1] = title] followed by the loop that empties the entries
    [level .. len(stack)-1]. *)
Definition set_level (level : nat) (title : string) (stack : list string)
    : list string :=
  (take level (<[pred level := title]> stack)
     ++ replicate (length stack - level)%nat "")%list.

(** The body of the loop of [headingsByLine] up to the assignment of
    [headings[i]]: the stack after [line]. *)
Definition heading_step (stack : list string) (line : string) : list string :=
  let trimmed := GoStrings.TrimSpace line in
  if GoStrings.HasPrefix trimmed "#" then
    let level := heading_level (GoStrings.bytes trimmed) in
    if (0 <? level)%nat && (level <=? 6)%nat then
      let title := GoStrings.TrimSpace (GoStrings.from level trimmed) in
      if negb (String.eqb title "") then set_level level title stack
      else stack
    else stack
  else stack.

Fixpoint headings_from (stack : list string) (lines : list string)
    : list string :=
  match lines with
  | [] => []
  | line :: rest =>
      let stack' := heading_step stack line in
      joinHeading stack' :: headings_from stack' rest
  end.

Definition headingsByLine (lines : list string) : list string :=
  headings_from (replicate 6 "") lines.

(** The inner loop of [chunkMarkdown] that accepts lines: the value of [i]
    when it ends.  An iteration increments [i], which is at most
    [len(lines)], so [fuel = len(lines)] iterations are never used up. *)
Fixpoint accept_lines (fuel : nat) (lines : list string)
    (chunkSize i charCount : Z) : Z :=
  match fuel with
  | O => i
  | S fuel' =>
      if i <? len_slice lines then
        let lineLen := len (line_at lines i) + 1 in
        if (0 <? charCount) && (chunkSize <? charCount + lineLen) then i
        else accept_lines fuel' lines chunkSize (i + 1) (charCount + lineLen)
      else i
  end.

(** The walk back over the lines of the closed chunk: the value of [j] when
    the loop ends.  An iteration decrements [j], which starts at most
    [len(lines) - 1] and stays at least [start - 1 >= -1]. *)
Fixpoint walk_back (fuel : nat) (lines : list string)
    (chunkOverlap start j overlapChars : Z) : Z :=
  match fuel with
  | O => j
  | S fuel' =>
      if start <=? j then
        let overlapChars' := overlapChars + (len (line_at lines j) + 1) in
        if chunkOverlap <=? overlapChars' then j
        else walk_back fuel' lines chunkOverlap start (j - 1) overlapChars'
      else j
  end.

(** Where the scan resumes after a chunk [start .. i-1] was closed. *)
Definition resume_at (lines : list string) (chunkOverlap start i : Z) : Z :=
  if 0 <? chunkOverlap then
    let j := walk_back (S (length lines)) lines chunkOverlap start (i - 1) 0 in
    let j := if j <? start then start else j in
    if j <? i then j else i
  else i.

(** The outer loop of [chunkMarkdown].  The source loop has no bound; the
    model runs at most [fuel] iterations and answers [None] when the loop
    has not ended by then. *)
Fixpoint chunk_loop (fuel : nat) (path : string)
    (lines headings : list string) (chunkSize chunkOverlap : Z)
    (i : Z) (chunks : list chunk) : option (list chunk) :=
  match fuel with
  | O => None
  | S fuel' =>
      if i <? len_slice lines then
        let start := i in
        let i := accept_lines (length lines) lines chunkSize i 0 in
        let end_ := i - 1 in
        if end_ <? start then Some chunks
        else
          let heading := line_at headings start in
          let heading :=
            if String.eqb heading ""
            then GoStrings.TrimSuffix (GoFilepath.Base path) (GoFilepath.Ext path)
            else heading in
          let text :=
            GoStrings.TrimSpace (GoStrings.Join (slice lines start i) "
") in
          let chunks :=
            if negb (String.eqb text "") then
              (chunks ++ [ {| Path := path; Heading := heading;
                              StartLine := start + 1; EndLine := end_ + 1;
                              Content := text |} ])%list
            else chunks in
          if len_slice lines <=? i then Some chunks
          else
            chunk_loop fuel' path lines headings chunkSize chunkOverlap
              (resume_at lines chunkOverlap start i) chunks
      else Some chunks
  end.

Definition chunkMarkdown (fuel : nat) (path content : string)
    (chunkSize chunkOverlap : Z) : option (list chunk) :=
  let chunkSize := if chunkSize <=? 0 then 800 else chunkSize in
  let chunkOverlap := if chunkOverlap <? 0 then 0 else chunkOverlap in
  let chunkOverlap :=
    if chunkSize <=? chunkOverlap then Z.quot chunkSize 2 else chunkOverlap in
  let lines := GoStrings.SplitLF content in
  let headings := headingsByLine lines in
  chunk_loop fuel path lines headings chunkSize chunkOverlap 0 [].

(** ** File discovery: glob patterns *)

Module utf8.

(** The value of a byte. *)
Definition bv (c : ascii) : Z := Z.of_N (N_of_ascii c).

Definition RuneError : Z := 65533.

Definition is_cont (c : ascii) : bool := (128 <=? bv c) && (bv c <=? 191).

(** For a first byte that starts a sequence of several bytes: the length
    of the sequence, the range accepted for the second byte (the tables
    [first] and [acceptRanges]) and the marker bits of the first byte. *)
Definition first (s0 : Z) : option (nat * Z * Z * Z) :=
  if (194 <=? s0) && (s0 <=? 223) then Some (2%nat, 128, 191, 192)
  else if s0 =? 224 then Some (3%nat, 160, 191, 224)
  else if (225 <=? s0) && (s0 <=? 236) then Some (3%nat, 128, 191, 224)
  else if s0 =? 237 then Some (3%nat, 128, 159, 224)
  else if (238 <=? s0) && (s0 <=? 239) then Some (3%nat, 128, 191, 224)
  else if s0 =? 240 then Some (4%nat, 144, 191, 240)
  else if (241 <=? s0) && (s0 <=? 243) then Some (4%nat, 128, 191, 240)
  else if s0 =? 244 then Some (4%nat, 128, 143, 240)
  else None.

(** The bytes after the first: the second within its range, the others
    continuation bytes. *)
Definition accepted (lo hi : Z) (mid : list ascii) : bool :=
  match mid with
  | s1 :: more => (lo <=? bv s1) && (bv s1 <=? hi) && forallb is_cont more
  | [] => false
  end.

(** The code point: six bits from each byte after the first. *)
Definition rune_value (lead : Z) (mid : list ascii) : Z :=
  fold_left (fun acc c => acc * 64 + (bv c - 128)) mid lead.

(** [utf8.DecodeRuneInString] on a non-empty input: the code point and the
    number of bytes it takes; a byte that starts no valid sequence, or
    whose sequence is cut short or out of range, is [RuneError] of
    width 1. *)
Definition DecodeRune (s0 : ascii) (rest : list ascii) : Z * nat :=
  if bv s0 <? 128 then (bv s0, 1%nat)
  else
    match first (bv s0) with
    | None => (RuneError, 1%nat)
    | Some (sz, lo, hi, mask) =>
        let mid := take (sz - 1) rest in
        if (length mid =? sz - 1)%nat && accepted lo hi mid
        then (rune_value (bv s0 - mask) mid, sz)
        else (RuneError, 1%nat)
    end.

(** The runes of a string with their widths, as a [range] loop or the
    regular expression engine reads them. *)
Fixpoint decode (fuel : nat) (l : list ascii) : list (Z * nat) :=
  match fuel, l with
  | S fuel', s0 :: rest =>
      let rn := DecodeRune s0 rest in
      rn :: decode fuel' (drop (snd rn) l)
  | _, _ => []
  end.

Definition runes_of (l : list ascii) : list Z := map fst (decode (length l) l).

Definition runes (s : string) : list Z := runes_of (GoStrings.bytes s).

(** [utf8.ValidString] *)
Definition ValidString (s : string) : bool :=
  forallb (fun rn => negb ((fst rn =? RuneError) && (snd rn =? 1)%nat))
    (decode (String.length s) (GoStrings.bytes s)).

End utf8.

Module regexp.

(** The regular expressions that [globToRegex] writes, anchored at both
    ends: a sequence of items, each a literal rune, [.], [.*] or [[^/]*]. *)
Inductive item :=
| Lit (r : Z)
| AnyNotNL
| StarAnyNotNL
| StarNotSlash.

Definition Regexp := list item.

Definition rune_of (c : ascii) : Z := utf8.bv c.

(** The characters with a meaning of their own in the syntax. *)
Definition is_meta (r : Z) : bool :=
  existsb (Z.eqb r)
    (map rune_of
       ["\"; "."; "+"; "*"; "?"; "("; ")"; "|"; "["; "]"; "{"; "}"; "^"; "$"]%char).

(** The items of the runes between [^] and the final [$].  An escaped
    punctuation character is that character; the parser rejects what is
    outside the fragment.  The runes are those of ["$"] (36), ["*"] (42),
    ["."] (46), ["/"] (47), ["["] (91), ["\"] (92), ["]"] (93) and
    ["^"] (94). *)
Fixpoint parse_items (fuel : nat) (l : list Z) : option (list item) :=
  match fuel with
  | O => None
  | S fuel' =>
      match l with
      | [] => None
      | c :: rest =>
          if (c =? 36) && match rest with [] => true | _ => false end
          then Some []
          else if c =? 92 then
            match rest with
            | c' :: rest' =>
                if is_meta c' then cons (Lit c') <$> parse_items fuel' rest'
                else None
            | [] => None
            end
          else if c =? 46 then
            match rest with
            | c' :: rest' =>
                if c' =? 42 then cons StarAnyNotNL <$> parse_items fuel' rest'
                else cons AnyNotNL <$> parse_items fuel' rest
            | [] => cons AnyNotNL <$> parse_items fuel' rest
            end
          else if c =? 91 then
            match rest with
            | c1 :: c2 :: c3 :: c4 :: rest' =>
                if (c1 =? 94) && (c2 =? 47) && (c3 =? 93) && (c4 =? 42)
                then cons StarNotSlash <$> parse_items fuel' rest'
                else None
            | _ => None
            end
          else if is_meta c then None
          else cons (Lit c) <$> parse_items fuel' rest
      end
  end.

(** [regexp.Compile] on the fragment: the expression must be valid UTF-8
    and start with [^]. *)
Definition Compile (expr : string) : option Regexp :=
  if utf8.ValidString expr then
    match utf8.runes expr with
    | c :: body => if c =? 94 then parse_items (S (length body)) body else None
    | [] => None
    end
  else None.

(** A starred class before the continuation [k]: the class takes any
    number of leading runes it accepts. *)
Fixpoint match_star (accepts : Z -> bool) (k : list Z -> bool) (s : list Z)
    : bool :=
  k s ||
  match s with
  | r :: s' => accepts r && match_star accepts k s'
  | [] => false
  end.

(** Whether the whole of [s] matches the items.  [.] matches any rune but
    the line feed, also the [RuneError] read for an invalid byte. *)
Fixpoint match_items (items : list item) (s : list Z) : bool :=
  match items with
  | [] => match s with [] => true | _ => false end
  | Lit r :: items' =>
      match s with
      | r' :: s' => (r =? r') && match_items items' s'
      | [] => false
      end
  | AnyNotNL :: items' =>
      match s with
      | r' :: s' => negb (r' =? 10) && match_items items' s'
      | [] => false
      end
  | StarAnyNotNL :: items' =>
      match_star (fun r => negb (r =? 10)) (match_items items') s
  | StarNotSlash :: items' =>
      match_star (fun r => negb (r =? 47)) (match_items items') s
  end.

(** [re.MatchString(s)] *)
Definition MatchString (re : Regexp) (s : string) : bool :=
  match_items re (utf8.runes s).

End regexp.

(** The loop of [globToRegex] over the bytes of the pattern. *)
Fixpoint globToRegex_loop (pattern : list ascii) : list ascii :=
  match pattern with
  | [] => []
  | ch :: rest =>
      if GoStrings.byte_eqb ch "*" then
        match rest with
        | ch' :: rest' =>
            if GoStrings.byte_eqb ch' "*"
            then (GoStrings.bytes ".*" ++ globToRegex_loop rest')%list
            else (GoStrings.bytes "[^/]*" ++ globToRegex_loop rest)%list
        | [] => (GoStrings.bytes "[^/]*" ++ globToRegex_loop rest)%list
        end
      else if GoStrings.byte_eqb ch "?" then "."%char :: globToRegex_loop rest
      else if GoStrings.byte_eqb ch "." then
        ("\" :: "." :: globToRegex_loop rest)%char%list
      else if existsb (GoStrings.byte_eqb ch)
                ["+"; "("; ")"; "["; "]"; "{"; "}"; "|"; "^"; "$"; "\"]%char
      then "\"%char :: ch :: globToRegex_loop rest
      else ch :: globToRegex_loop rest
  end.

(** The expression [globToRegex] hands to [regexp.Compile];
    [filepath.ToSlash] changes nothing where the separator is [/]. *)
Definition globToRegex_source (pattern : string) : string :=
  "^" +:+ GoStrings.of_bytes (globToRegex_loop (GoStrings.bytes pattern)) +:+ "$".

Definition globToRegex (pattern : string) : option regexp.Regexp :=
  regexp.Compile (globToRegex_source pattern).

Fixpoint compilePatterns (patterns : list string) : list regexp.Regexp :=
  match patterns with
  | [] => []
  | pat :: rest =>
      let pat := GoStrings.TrimSpace pat in
      if String.eqb pat "" then compilePatterns rest
      else
        match globToRegex pat with
        | None => compilePatterns rest
        | Some re => re :: compilePatterns rest
        end
  end.

Definition matchesAny (path : string) (patterns : list regexp.Regexp) : bool :=
  existsb (fun re => regexp.MatchString re path) patterns.

(** ** Index manifest, summary and configuration *)

Definition error := string.

Record indexState := {
  Version : Z;
  UpdatedAt : string;
  Collection : string;
  EmbeddingModel : string;
  EmbeddingDimension : Z;
  ChunkSize : Z;
  ChunkOverlap : Z;
  IncludePatterns : list string;
  ExcludePatterns : list string;
  Files : gmap string Z
}.

Definition set_Files (files : gmap string Z) (st : indexState) : indexState :=
  {| Version := Version st; UpdatedAt := UpdatedAt st;
     Collection := Collection st; EmbeddingModel := EmbeddingModel st;
     EmbeddingDimension := EmbeddingDimension st;
     ChunkSize := ChunkSize st; ChunkOverlap := ChunkOverlap st;
     IncludePatterns := IncludePatterns st;
     ExcludePatterns := ExcludePatterns st; Files := files |}.

Definition set_EmbeddingDimension (dim : Z) (st : indexState) : indexState :=
  {| Version := Version st; UpdatedAt := UpdatedAt st;
     Collection := Collection st; EmbeddingModel := EmbeddingModel st;
     EmbeddingDimension := dim;
     ChunkSize := ChunkSize st; ChunkOverlap := ChunkOverlap st;
     IncludePatterns := IncludePatterns st;
     ExcludePatterns := ExcludePatterns st; Files := Files st |}.

Definition set_UpdatedAt (now : string) (st : indexState) : indexState :=
  {| Version := Version st; UpdatedAt := now;
     Collection := Collection st; EmbeddingModel := EmbeddingModel st;
     EmbeddingDimension := EmbeddingDimension st;
     ChunkSize := ChunkSize st; ChunkOverlap := ChunkOverlap st;
     IncludePatterns := IncludePatterns st;
     ExcludePatterns := ExcludePatterns st; Files := Files st |}.

Record IndexSummary := {
  TotalFiles : Z;
  IndexedFiles : Z;
  UpdatedFiles : Z;
  RemovedFiles : Z;
  SkippedFiles : Z;
  Chunks : Z
}.

Record IndexOptions := { ReindexAll : bool }.

Record fileEntry := {
  AbsPath : string;
  RelPath : string;
  MTime : Z
}.

Module config.

(** Modelled from the spec: [config.RagConfig] is declared in a package
    that is not among the sources; these are the fields the indexer reads,
    with the types its uses of them require. *)
Record RagConfig := {
  VaultPath : string;
  ChunkSize : Z;
  ChunkOverlap : Z;
  IncludePatterns : list string;
  ExcludePatterns : list string;
  EmbeddingDimension : Z
}.

End config.

(** The payload attached to a point: the entries of the map literal. *)
Record payload := {
  payload_path : string;
  payload_heading : string;
  payload_start_line : Z;
  payload_end_line : Z;
  payload_content : string;
  payload_mtime : Z
}.

Fixpoint stringSliceEqual_loop (a b : list string) : bool :=
  match a, b with
  | x :: a', y :: b' =>
      if negb (String.eqb x y) then false else stringSliceEqual_loop a' b'
  | _, _ => true
  end.

Definition stringSliceEqual (a b : list string) : bool :=
  if negb (len_slice a =? len_slice b) then false
  else stringSliceEqual_loop a b.

(** What [filepath.WalkDir] hands to the callback for one entry of the
    tree, with the results of the calls the callback makes on it:
    [filepath.Rel(root, path)] and [d.Info()] followed by
    [ModTime().UnixNano()]. *)
Record WalkEntry := {
  walk_path : string;
  walk_err : option error;
  walk_IsDir : bool;
  walk_Rel : error + string;
  walk_ModTime : error + Z
}.

(** The file system as the run observes it. *)
Record FileSystem := {
  UserHomeDir : string;
  Stat_IsDir : string -> bool;
  WalkDir : string -> list WalkEntry;
  ReadFile : string -> error + string;
  Now_RFC3339 : string;
  MkdirAll_WriteFile : string -> string -> option error
}.

(** Library functions the package calls and whose definitions are not
    modelled: the values they return are parameters of the development.
    [range_keys] is the order in which a [range] loop visits the keys of a
    map; the language leaves it open, it is some enumeration of the
    keys. *)
Class GoRuntime := {
  sha1_hex : string -> string;
  json_Unmarshal : string -> option indexState;
  json_MarshalIndent : indexState -> error + string;
  filepath_Join : list string -> string;
  filepath_Clean : string -> string;
  range_keys : gmap string Z -> list string;
  range_keys_perm : forall m, range_keys m ≡ₚ (map_to_list m).*1
}.

(** ** Indexer *)

(** The result of a computation: it returned a value, it returned an
    error, it stopped on a run-time panic, or it had not ended when the
    iteration bound was reached. *)
Inductive outcome (A : Type) :=
| Returned (a : A)
| Failed (err : error)
| Panicked
| OutOfFuel.

Arguments Returned {A} a.
Arguments Failed {A} err.
Arguments Panicked {A}.
Arguments OutOfFuel {A}.

Section Indexer.

Context `{GoRuntime}.

(** The components of a vector. *)
Variable float64 : Type.

(** The state of the remote services behind the two clients. *)
Variable Remote : Type.

Record QdrantPoint := {
  ID : string;
  Vector : list float64;
  Payload : payload
}.

(** The embedding client as the indexer uses it. *)
Record EmbeddingClient := {
  Model : string;
  BatchSize : Z;
  EmbedBatch : list string -> Remote -> (error + list (list float64)) * Remote
}.

(** The vector-store client as the indexer uses it. *)
Record QdrantClient := {
  qdrant_Collection : string;
  EnsureCollection : Z -> bool -> Remote -> option error * Remote;
  Upsert : list QdrantPoint -> Remote -> option error * Remote;
  DeleteByPath : string -> Remote -> option error * Remote
}.

(** The calls of a run that leave the process, recorded in the order in
    which they are made, each with the file of the per-file pass during
    which it is made and with its error, if any. *)
Inductive call :=
| CallEnsureCollection (dimension : Z) (recreate : bool)
| CallDeleteByPath (path : string)
| CallEmbedBatch (texts : list string)
| CallUpsert (points : list QdrantPoint)
| CallReadFile (path : string)
| CallSaveIndexState (path : string) (state : indexState).

Record event := {
  during : option string;
  what : call;
  failure : option error
}.

(** A computation acts on the remote state and emits events. *)
Definition M (A : Type) : Type := Remote -> outcome A * Remote * list event.

Local Instance M_ret : MRet M := fun A a r => (Returned a, r, []).

Local Instance M_bind : MBind M := fun A B k m r =>
  match m r with
  | (Returned a, r', evs) =>
      match k a r' with
      | (o, r'', evs') => (o, r'', (evs ++ evs')%list)
      end
  | (Failed e, r', evs) => (Failed e, r', evs)
  | (Panicked, r', evs) => (Panicked, r', evs)
  | (OutOfFuel, r', evs) => (OutOfFuel, r', evs)
  end.

Definition fail {A} (e : error) : M A := fun r => (Failed e, r, []).
Definition panic {A} : M A := fun r => (Panicked, r, []).
Definition out_of_fuel {A} : M A := fun r => (OutOfFuel, r, []).

(** A call that returns only an error. *)
Definition remote_call (file : option string) (c : call)
    (op : Remote -> option error * Remote) : M unit :=
  fun r =>
    match op r with
    | (e, r') =>
        (match e with None => Returned tt | Some msg => Failed msg end, r',
         [ {| during := file; what := c; failure := e |} ])
    end.

Variable cfg : config.RagConfig.
Variable workspace : string.
Variable embedder : EmbeddingClient.
Variable qdrant : QdrantClient.
Variable fs : FileSystem.

Definition call_EnsureCollection (file : option string) (dim : Z)
    (recreate : bool) : M unit :=
  remote_call file (CallEnsureCollection dim recreate)
    (EnsureCollection qdrant dim recreate).

Definition call_DeleteByPath (file : option string) (path : string) : M unit :=
  remote_call file (CallDeleteByPath path) (DeleteByPath qdrant path).

Definition call_Upsert (file : option string) (points : list QdrantPoint)
    : M unit :=
  remote_call file (CallUpsert points) (Upsert qdrant points).

Definition call_EmbedBatch (file : option string) (texts : list string)
    : M (list (list float64)) :=
  fun r =>
    match EmbedBatch embedder texts r with
    | (inl msg, r') =>
        (Failed msg, r',
         [ {| during := file; what := CallEmbedBatch texts;
              failure := Some msg |} ])
    | (inr embeddings, r') =>
        (Returned embeddings, r',
         [ {| during := file; what := CallEmbedBatch texts;
              failure := None |} ])
    end.

(** [os.ReadFile] in the per-file pass, with the error wrapped as the run
    returns it. *)
Definition call_ReadFile (file : option string) (path : string) : M string :=
  fun r =>
    match ReadFile fs path with
    | inl msg =>
        (Failed ("failed to read " +:+ path +:+ ": " +:+ msg), r,
         [ {| during := file; what := CallReadFile path;
              failure := Some msg |} ])
    | inr content =>
        (Returned content, r,
         [ {| during := file; what := CallReadFile path; failure := None |} ])
    end.

Definition loadIndexState (path : string) : option indexState :=
  match ReadFile fs path with
  | inl _ => None
  | inr data => json_Unmarshal data
  end.

Definition saveIndexState (path : string) (state : indexState) : M unit :=
  let state := set_UpdatedAt (Now_RFC3339 fs) state in
  match json_MarshalIndent state with
  | inl msg => fail msg
  | inr data =>
      fun r =>
        let e := MkdirAll_WriteFile fs path data in
        (match e with None => Returned tt | Some msg => Failed msg end, r,
         [ {| during := None; what := CallSaveIndexState path state;
              failure := e |} ])
  end.

Definition expandHome (path : string) : string :=
  match path with
  | "" => path
  | String c rest =>
      if GoStrings.byte_eqb c "~" then
        match rest with
        | String c1 rest1 =>
            if GoStrings.byte_eqb c1 "/"
            then filepath_Join [UserHomeDir fs; rest1]
            else UserHomeDir fs
        | "" => UserHomeDir fs
        end
      else path
  end.

(** The callback of [listMarkdownFiles] over the entries that
    [filepath.WalkDir] visits; an error it returns ends the walk. *)
Fixpoint walk_entries (includeRegex excludeRegex : list regexp.Regexp)
    (entries : list WalkEntry) (files : list fileEntry)
    : error + list fileEntry :=
  match entries with
  | [] => inr files
  | d :: rest =>
      match walk_err d with
      | Some e => inl e
      | None =>
          if walk_IsDir d then walk_entries includeRegex excludeRegex rest files
          else if negb (String.eqb (GoFilepath.Ext (walk_path d)) ".md")
          then walk_entries includeRegex excludeRegex rest files
          else
            match walk_Rel d with
            | inl e => inl e
            | inr rel =>
                if matchesAny rel excludeRegex
                then walk_entries includeRegex excludeRegex rest files
                else if (0 <? len_slice includeRegex)
                        && negb (matchesAny rel includeRegex)
                then walk_entries includeRegex excludeRegex rest files
                else
                  match walk_ModTime d with
                  | inl e => inl e
                  | inr mtime =>
                      walk_entries includeRegex excludeRegex rest
                        (files ++ [ {| AbsPath := walk_path d; RelPath := rel;
                                       MTime := mtime |} ])
                  end
            end
      end
  end.

Definition listMarkdownFiles (root : string)
    (includePatterns excludePatterns : list string) : error + list fileEntry :=
  let root := filepath_Clean root in
  let includeRegex := compilePatterns includePatterns in
  let excludeRegex := compilePatterns excludePatterns in
  walk_entries includeRegex excludeRegex (WalkDir fs root) [].

Definition hashPointID (path : string) (startLine endLine : Z) : string :=
  sha1_hex (path +:+ ":" +:+ pretty startLine +:+ ":" +:+ pretty endLine).

(** The decision between a full rebuild and an incremental run, from the
    caller's option and the manifest that was loaded, if any. *)
Definition reindexAll_of (opts : IndexOptions) (state : option indexState)
    : bool :=
  let reindexAll := ReindexAll opts in
  let reindexAll :=
    match state with None => true | Some _ => reindexAll end in
  match state with
  | Some state =>
      if negb reindexAll then
        let reindexAll :=
          if negb (String.eqb (EmbeddingModel state) (Model embedder))
          then true else reindexAll in
        let reindexAll :=
          if negb (ChunkSize state =? config.ChunkSize cfg)
             || negb (ChunkOverlap state =? config.ChunkOverlap cfg)
          then true else reindexAll in
        let reindexAll :=
          if negb (stringSliceEqual (IncludePatterns state)
                     (config.IncludePatterns cfg))
             || negb (stringSliceEqual (ExcludePatterns state)
                        (config.ExcludePatterns cfg))
          then true else reindexAll in
        let reindexAll :=
          if negb (String.eqb (Collection state) (qdrant_Collection qdrant))
          then true else reindexAll in
        reindexAll
      else reindexAll
  | None => reindexAll
  end.

(** The closure [ensureCollection] of [run]; it writes the dimension into
    the manifest in memory. *)
Definition ensureCollection (reindexAll : bool) (file : option string)
    (dim : Z) (state : indexState) : M indexState :=
  if dim <=? 0 then fail "invalid embedding dimension"
  else
    _ ← call_EnsureCollection file dim reindexAll;
    mret (set_EmbeddingDimension dim state).

Definition add_RemovedFiles (n : Z) (s : IndexSummary) : IndexSummary :=
  {| TotalFiles := TotalFiles s; IndexedFiles := IndexedFiles s;
     UpdatedFiles := UpdatedFiles s; RemovedFiles := RemovedFiles s + n;
     SkippedFiles := SkippedFiles s; Chunks := Chunks s |}.

Definition add_SkippedFiles (n : Z) (s : IndexSummary) : IndexSummary :=
  {| TotalFiles := TotalFiles s; IndexedFiles := IndexedFiles s;
     UpdatedFiles := UpdatedFiles s; RemovedFiles := RemovedFiles s;
     SkippedFiles := SkippedFiles s + n; Chunks := Chunks s |}.

Definition add_UpdatedFiles (n : Z) (s : IndexSummary) : IndexSummary :=
  {| TotalFiles := TotalFiles s; IndexedFiles := IndexedFiles s;
     UpdatedFiles := UpdatedFiles s + n; RemovedFiles := RemovedFiles s;
     SkippedFiles := SkippedFiles s; Chunks := Chunks s |}.

Definition add_IndexedFiles (n : Z) (s : IndexSummary) : IndexSummary :=
  {| TotalFiles := TotalFiles s; IndexedFiles := IndexedFiles s + n;
     UpdatedFiles := UpdatedFiles s; RemovedFiles := RemovedFiles s;
     SkippedFiles := SkippedFiles s; Chunks := Chunks s |}.

Definition add_Chunks (n : Z) (s : IndexSummary) : IndexSummary :=
  {| TotalFiles := TotalFiles s; IndexedFiles := IndexedFiles s;
     UpdatedFiles := UpdatedFiles s; RemovedFiles := RemovedFiles s;
     SkippedFiles := SkippedFiles s; Chunks := Chunks s + n |}.

(** The removal pass: the [range] loop over the file set of the manifest,
    in the order [paths]. *)
Fixpoint remove_missing (currentFiles : gmap string Z) (paths : list string)
    (state : indexState) (summary : IndexSummary)
    : M (indexState * IndexSummary) :=
  match paths with
  | [] => mret (state, summary)
  | path :: rest =>
      match currentFiles !! path with
      | Some _ => remove_missing currentFiles rest state summary
      | None =>
          _ ← call_DeleteByPath None path;
          remove_missing currentFiles rest
            (set_Files (delete path (Files state)) state)
            (add_RemovedFiles 1 summary)
      end
  end.

Definition make_points (file : fileEntry) (batch : list chunk)
    (embeddings : list (list float64)) : list QdrantPoint :=
  zip_with
    (fun ch emb =>
       {| ID := hashPointID (RelPath file) (StartLine ch) (EndLine ch);
          Vector := emb;
          Payload :=
            {| payload_path := Path ch; payload_heading := Heading ch;
               payload_start_line := StartLine ch;
               payload_end_line := EndLine ch;
               payload_content := Content ch;
               payload_mtime := MTime file |} |})
    batch embeddings.

(** The loop over the batches of the chunks of one file, from the chunk
    of index [start].  The slice expression [chunks[start:end]] and the
    index expression [embeddings[0]] panic out of range. *)
Fixpoint embed_batches (fuel : nat) (reindexAll : bool) (file : fileEntry)
    (chunks : list chunk) (start : Z) (state : indexState)
    (summary : IndexSummary) : M (indexState * IndexSummary) :=
  if start <? len_slice chunks then
    match fuel with
    | O => out_of_fuel
    | S fuel' =>
        let batchSize := BatchSize embedder in
        let end_ := start + batchSize in
        let end_ := if len_slice chunks <? end_ then len_slice chunks else end_ in
        if end_ <? start then panic
        else
          let batch := slice chunks start end_ in
          let texts := map Content batch in
          embeddings ← call_EmbedBatch (Some (RelPath file)) texts;
          if negb (len_slice embeddings =? len_slice batch)
          then fail "embedding result size mismatch"
          else
            state ←
              (if EmbeddingDimension state =? 0 then
                 match embeddings with
                 | [] => panic
                 | first :: _ =>
                     let dimension := len_slice first in
                     if (0 <? config.EmbeddingDimension cfg)
                        && negb (config.EmbeddingDimension cfg =? dimension)
                     then
                       fail ("embedding dimension mismatch: got "
                             +:+ pretty dimension +:+ " expected "
                             +:+ pretty (config.EmbeddingDimension cfg))
                     else
                       ensureCollection reindexAll (Some (RelPath file))
                         dimension state
                 end
               else mret state);
            let points := make_points file batch embeddings in
            let summary := add_Chunks (len_slice batch) summary in
            _ ← call_Upsert (Some (RelPath file)) points;
            embed_batches fuel' reindexAll file chunks (start + batchSize)
              state summary
    end
  else mret (state, summary).

(** The body of the per-file loop. *)
Definition index_file (fuel : nat) (reindexAll : bool) (file : fileEntry)
    (state : indexState) (summary : IndexSummary)
    : M (indexState * IndexSummary) :=
  let mt := MTime file in
  if negb reindexAll
     && match Files state !! RelPath file with
        | Some prev => prev =? mt
        | None => false
        end
  then mret (state, add_SkippedFiles 1 summary)
  else
    content ← call_ReadFile (Some (RelPath file)) (AbsPath file);
    match chunkMarkdown fuel (RelPath file) content
            (config.ChunkSize cfg) (config.ChunkOverlap cfg) with
    | None => out_of_fuel
    | Some chunks =>
        if len_slice chunks =? 0 then
          mret (set_Files (<[RelPath file := mt]> (Files state)) state, summary)
        else
          _ ← call_DeleteByPath (Some (RelPath file)) (RelPath file);
          ' (state, summary) ←
            embed_batches fuel reindexAll file chunks 0 state summary;
          let summary :=
            if bool_decide (is_Some (Files state !! RelPath file))
               && negb reindexAll
            then add_UpdatedFiles 1 summary
            else add_IndexedFiles 1 summary in
          mret (set_Files (<[RelPath file := mt]> (Files state)) state, summary)
    end.

Fixpoint index_files (fuel : nat) (reindexAll : bool) (files : list fileEntry)
    (state : indexState) (summary : IndexSummary)
    : M (indexState * IndexSummary) :=
  match files with
  | [] => mret (state, summary)
  | file :: rest =>
      ' (state, summary) ← index_file fuel reindexAll file state summary;
      index_files fuel reindexAll rest state summary
  end.

(** The manifest a run starts from when none was loaded. *)
Definition fresh_state : indexState :=
  {| Version := 1; UpdatedAt := ""; Collection := ""; EmbeddingModel := "";
     EmbeddingDimension := 0; ChunkSize := 0; ChunkOverlap := 0;
     IncludePatterns := []; ExcludePatterns := []; Files := ∅ |}.

(** The configuration stamped into the manifest before it is saved. *)
Definition stamp (state : indexState) : indexState :=
  {| Version := Version state; UpdatedAt := UpdatedAt state;
     Collection := qdrant_Collection qdrant;
     EmbeddingModel := Model embedder;
     EmbeddingDimension := EmbeddingDimension state;
     ChunkSize := config.ChunkSize cfg;
     ChunkOverlap := config.ChunkOverlap cfg;
     IncludePatterns := config.IncludePatterns cfg;
     ExcludePatterns := config.ExcludePatterns cfg;
     Files := Files state |}.

Definition current_files (files : list fileEntry) : gmap string Z :=
  foldl (fun m f => <[RelPath f := MTime f]> m) ∅ files.

Definition statePath : string :=
  filepath_Join [workspace; "rag"; "index_state.json"].

(** The run from the first use of the collection to the end of the
    per-file pass, given the decision, the files found and the manifest in
    memory. *)
Definition sync_passes (fuel : nat) (reindexAll : bool) (files : list fileEntry)
    (state : indexState) : M (indexState * IndexSummary) :=
  let currentFiles := current_files files in
  let dimension := EmbeddingDimension state in
  let dimension :=
    if (dimension =? 0) && (0 <? config.EmbeddingDimension cfg)
    then config.EmbeddingDimension cfg else dimension in
  state ←
    (if 0 <? dimension then ensureCollection reindexAll None dimension state
     else mret state);
  let summary :=
    {| TotalFiles := len_slice files; IndexedFiles := 0; UpdatedFiles := 0;
       RemovedFiles := 0; SkippedFiles := 0; Chunks := 0 |} in
  let state := if reindexAll then set_Files ∅ state else state in
  ' (state, summary) ←
    remove_missing currentFiles (range_keys (Files state)) state summary;
  index_files fuel reindexAll files state summary.

(** The passes, then the manifest is stamped and saved. *)
Definition run_passes (fuel : nat) (reindexAll : bool) (files : list fileEntry)
    (state : indexState) : M IndexSummary :=
  ' (state, summary) ← sync_passes fuel reindexAll files state;
  let state := stamp state in
  _ ← saveIndexState statePath state;
  mret summary.

Definition run (fuel : nat) (opts : IndexOptions) : M IndexSummary :=
  let vaultPath := expandHome (config.VaultPath cfg) in
  if String.eqb vaultPath "" then fail "rag.vault_path is required"
  else if negb (Stat_IsDir fs vaultPath)
  then fail ("vault path not found: " +:+ vaultPath)
  else
    let loaded := loadIndexState statePath in
    let reindexAll := reindexAll_of opts loaded in
    match listMarkdownFiles vaultPath (config.IncludePatterns cfg)
            (config.ExcludePatterns cfg) with
    | inl e => fail e
    | inr files =>
        let state :=
          match loaded with Some state => state | None => fresh_state end in
        run_passes fuel reindexAll files state
    end.

End Indexer.

#[global] Existing Instance M_ret.
#[global] Existing Instance M_bind.

Arguments ID {float64} _.
Arguments Vector {float64} _.
Arguments Payload {float64} _.
Arguments Model {float64 Remote} _.
Arguments BatchSize {float64 Remote} _.
Arguments EmbedBatch {float64 Remote} _ _ _.
Arguments qdrant_Collection {float64 Remote} _.
Arguments EnsureCollection {float64 Remote} _ _ _ _.
Arguments Upsert {float64 Remote} _ _ _.
Arguments DeleteByPath {float64 Remote} _ _ _.
Arguments CallEnsureCollection {float64} _ _.
Arguments CallDeleteByPath {float64} _.
Arguments CallEmbedBatch {float64} _.
Arguments CallUpsert {float64} _.
Arguments CallReadFile {float64} _.
Arguments CallSaveIndexState {float64} _ _.
Arguments during {float64} _.
Arguments what {float64} _.
Arguments failure {float64} _.
Arguments fail {float64 Remote A} _ _.
Arguments panic {float64 Remote A} _.
Arguments out_of_fuel {float64 Remote A} _.
Arguments remote_call {float64 Remote} _ _ _ _.
Arguments call_EnsureCollection {float64 Remote} _ _ _ _ _.
Arguments call_DeleteByPath {float64 Remote} _ _ _ _.
Arguments call_Upsert {float64 Remote} _ _ _ _.
Arguments call_EmbedBatch {float64 Remote} _ _ _ _.
Arguments call_ReadFile {float64 Remote} _ _ _ _.
Arguments loadIndexState {H} _ _.
Arguments saveIndexState {H float64 Remote} _ _ _ _.
Arguments expandHome {H} _ _.
Arguments listMarkdownFiles {H} _ _ _ _.
Arguments hashPointID {H} _ _ _.
Arguments reindexAll_of {float64 Remote} _ _ _ _ _.
Arguments ensureCollection {float64 Remote} _ _ _ _ _ _.
Arguments remove_missing {float64 Remote} _ _ _ _ _ _.
Arguments make_points {H float64} _ _ _.
Arguments embed_batches {H float64 Remote} _ _ _ _ _ _ _ _ _ _ _.
Arguments index_file {H float64 Remote} _ _ _ _ _ _ _ _ _ _.
Arguments index_files {H float64 Remote} _ _ _ _ _ _ _ _ _ _.
Arguments stamp {float64 Remote} _ _ _ _.
Arguments statePath {H} _.
Arguments sync_passes {H float64 Remote} _ _ _ _ _ _ _ _ _.
Arguments run_passes {H float64 Remote} _ _ _ _ _ _ _ _ _ _.
Arguments run {H float64 Remote} _ _ _ _ _ _ _ _.

(** * Properties *)

(** ** Strings *)

Definition is_literal_prefix (p s : string) : Prop := exists r, s = p +:+ r.
Definition is_substring (sub s : string) : Prop :=
  exists l r, s = l +:+ sub +:+ r.

Lemma bytes_app (s t : string) :
  GoStrings.bytes (s +:+ t) = (GoStrings.bytes s ++ GoStrings.bytes t)%list.
Proof. induction s as [|c s IH]; simpl; [reflexivity | now rewrite IH]. Qed.

Lemma of_bytes_app (l k : list ascii) :
  GoStrings.of_bytes (l ++ k) = GoStrings.of_bytes l +:+ GoStrings.of_bytes k.
Proof. induction l as [|c l IH]; simpl; [reflexivity | now rewrite IH]. Qed.

Lemma of_bytes_bytes (s : string) : GoStrings.of_bytes (GoStrings.bytes s) = s.
Proof. apply string_of_list_ascii_of_string. Qed.

Lemma bytes_of_bytes (l : list ascii) : GoStrings.bytes (GoStrings.of_bytes l) = l.
Proof. apply list_ascii_of_string_of_list_ascii. Qed.

Lemma bytes_prefix_spec (p l : list ascii) :
  GoStrings.bytes_prefix p l = true <-> exists r, l = (p ++ r)%list.
Proof.
  revert l. induction p as [|a p IH]; intros l; simpl.
  - split; [intros _; now exists l | reflexivity].
  - destruct l as [|c l].
    + split; [discriminate | intros [r Hr]; discriminate].
    + rewrite andb_true_iff, IH. unfold GoStrings.byte_eqb.
      rewrite Ascii.eqb_eq. split.
      * intros [-> [r ->]]. now exists r.
      * intros [r Hr]. injection Hr as -> ->. split; [reflexivity | now exists r].
Qed.

Lemma HasPrefix_spec (s p : string) :
  GoStrings.HasPrefix s p = true <-> is_literal_prefix p s.
Proof.
  unfold GoStrings.HasPrefix, is_literal_prefix. rewrite bytes_prefix_spec.
  split.
  - intros [r Hr]. exists (GoStrings.of_bytes r).
    rewrite <- (of_bytes_bytes s), Hr, of_bytes_app, of_bytes_bytes.
    reflexivity.
  - intros [r ->]. exists (GoStrings.bytes r). apply bytes_app.
Qed.

Lemma bytes_contains_spec (sub l : list ascii) :
  GoStrings.bytes_contains sub l = true
  <-> exists a r, l = (a ++ sub ++ r)%list.
Proof.
  induction l as [|c l IH].
  - simpl. rewrite orb_false_r, bytes_prefix_spec. split.
    + intros [r Hr]. now exists [], r.
    + intros (a & r & H). destruct a; [now exists r | discriminate].
  - simpl. rewrite orb_true_iff, bytes_prefix_spec, IH. split.
    + intros [[r Hr] | (a & r & ->)].
      * now exists [], r.
      * now exists (c :: a), r.
    + intros (a & r & H). destruct a as [|c' a].
      * left. now exists r.
      * right. injection H as -> ->. now exists a, r.
Qed.

Lemma Contains_spec (s sub : string) :
  GoStrings.Contains s sub = true <-> is_substring sub s.
Proof.
  unfold GoStrings.Contains, is_substring. rewrite bytes_contains_spec. split.
  - intros (a & r & H). exists (GoStrings.of_bytes a), (GoStrings.of_bytes r).
    rewrite <- (of_bytes_bytes s), H, !of_bytes_app, of_bytes_bytes.
    reflexivity.
  - intros (a & r & ->). exists (GoStrings.bytes a), (GoStrings.bytes r).
    now rewrite !bytes_app.
Qed.

Lemma eqb_empty_false (s : string) : s <> "" -> String.eqb s "" = false.
Proof. intros H. now apply String.eqb_neq. Qed.

(** ** Trigger decision *)

(** [p] is the first entry of [l], in list order, for which [holds]. *)
Definition first_match (holds : string -> Prop) (l : list string) (p : string)
    : Prop :=
  exists before after,
    l = (before ++ p :: after)%list /\ holds p
    /\ Forall (fun q => ~ holds q) before.

(** A configured prefix hits a message when it is not the empty string and
    the message starts with it. *)
Definition prefix_hit (t p : string) : Prop :=
  p <> "" /\ is_literal_prefix p t.

(** A configured keyword hits a message when it is not the empty string and
    its lower-case form occurs in the lower-case form of the message. *)
Definition keyword_hit (ToLower : string -> string) (t kw : string) : Prop :=
  kw <> "" /\ is_substring (ToLower kw) (ToLower t).

Definition decision_forced (clean : string) : TriggerDecision :=
  {| CleanedMessage := clean; ShouldSearch := true; Forced := true;
     Skipped := false; MatchedKeyword := "" |}.

Definition decision_skipped (clean : string) : TriggerDecision :=
  {| CleanedMessage := clean; ShouldSearch := false; Forced := false;
     Skipped := true; MatchedKeyword := "" |}.

Definition decision_keyword (clean kw : string) : TriggerDecision :=
  {| CleanedMessage := clean; ShouldSearch := true; Forced := false;
     Skipped := false; MatchedKeyword := kw |}.

Lemma prefix_hit_dec (t p : string) :
  (String.eqb p "" = false /\ GoStrings.HasPrefix t p = true)
  <-> prefix_hit t p.
Proof.
  unfold prefix_hit. rewrite String.eqb_neq, HasPrefix_spec. reflexivity.
Qed.

Lemma prefix_miss (t p : string) :
  ~ prefix_hit t p ->
  String.eqb p "" = true \/ GoStrings.HasPrefix t p = false.
Proof.
  intros H. destruct (String.eqb p "") eqn:E; [now left | right].
  destruct (GoStrings.HasPrefix t p) eqn:E'; [|reflexivity].
  exfalso. apply H, prefix_hit_dec. now split.
Qed.

Lemma matchPrefix_none (t : string) (l : list string) :
  Forall (fun q => ~ prefix_hit t q) l -> matchPrefix t l = ("", false).
Proof.
  induction 1 as [|q l Hq _ IH]; simpl; [reflexivity|].
  destruct (prefix_miss _ _ Hq) as [-> | E]; [exact IH|].
  rewrite E. now destruct (String.eqb q "").
Qed.

Lemma matchPrefix_first (t : string) (l : list string) (p : string) :
  first_match (prefix_hit t) l p -> matchPrefix t l = (p, true).
Proof.
  intros (before & after & -> & Hp & Hb).
  induction Hb as [|q before Hq _ IH]; simpl.
  - apply prefix_hit_dec in Hp as [-> ->]. reflexivity.
  - destruct (prefix_miss _ _ Hq) as [-> | E]; [exact IH|].
    rewrite E. now destruct (String.eqb q "").
Qed.

Lemma first_match_exists (t : string) (l : list string) :
  (exists p, In p l /\ prefix_hit t p) ->
  exists p, first_match (prefix_hit t) l p.
Proof.
  induction l as [|q l IH]; intros (p & Hin & Hp); [destruct Hin|].
  destruct (String.eqb q "") eqn:E1.
  - destruct Hin as [<- | Hin].
    + destruct Hp as [Hne _]. apply String.eqb_eq in E1. contradiction.
    + destruct IH as (p' & b' & a' & -> & Hp' & Hb'); [now exists p|].
      exists p', (q :: b'), a'. repeat split; try apply Hp'.
      constructor; [|exact Hb'].
      intros [Hne _]. apply String.eqb_eq in E1. contradiction.
  - destruct (GoStrings.HasPrefix t q) eqn:E2.
    + exists q, [], l. repeat split.
      * now apply String.eqb_neq.
      * now apply HasPrefix_spec.
      * constructor.
    + destruct Hin as [<- | Hin].
      * destruct Hp as [_ Hp]. apply HasPrefix_spec in Hp. congruence.
      * destruct IH as (p' & b' & a' & -> & Hp' & Hb'); [now exists p|].
        exists p', (q :: b'), a'. repeat split; try apply Hp'.
        constructor; [|exact Hb'].
        intros [_ Hq]. apply HasPrefix_spec in Hq. congruence.
Qed.

Lemma prefix_hit_nonempty (t p : string) :
  prefix_hit t p -> String.eqb t "" = false.
Proof.
  intros [Hne [r ->]]. apply String.eqb_neq.
  destruct p; [contradiction | discriminate].
Qed.

Section TriggerFacts.

Variable ToLower : string -> string.

Lemma keyword_miss (t kw : string) :
  ~ keyword_hit ToLower t kw ->
  String.eqb kw "" = true
  \/ GoStrings.Contains (ToLower t) (ToLower kw) = false.
Proof.
  intros H. destruct (String.eqb kw "") eqn:E; [now left | right].
  destruct (GoStrings.Contains _ _) eqn:E'; [|reflexivity].
  exfalso. apply H. split; [now apply String.eqb_neq|].
  now apply Contains_spec.
Qed.

Lemma matchKeyword_first (t : string) (l : list string) (kw : string) :
  first_match (keyword_hit ToLower t) l kw -> matchKeyword ToLower t l = kw.
Proof.
  intros (before & after & -> & [Hne Hsub] & Hb).
  assert (matchKeyword_loop ToLower (ToLower t) (before ++ kw :: after) = kw)
    as Hloop.
  { induction Hb as [|q before Hq _ IH]; simpl.
    - rewrite eqb_empty_false by assumption.
      apply Contains_spec in Hsub. now rewrite Hsub.
    - destruct (keyword_miss _ _ Hq) as [-> | E]; [exact IH|].
      rewrite E. now destruct (String.eqb q ""). }
  unfold matchKeyword. destruct before; exact Hloop.
Qed.

Lemma matchKeyword_loop_result (lower : string) (l : list string) :
  let kw := matchKeyword_loop ToLower lower l in
  kw = "" \/ (kw <> "" /\ In kw l).
Proof.
  induction l as [|q l IH]; simpl; [now left|].
  destruct (String.eqb q "") eqn:E.
  - destruct IH as [IH | [IH1 IH2]]; [now left | right; auto].
  - destruct (GoStrings.Contains lower (ToLower q)).
    + right. split; [now apply String.eqb_neq | now left].
    + destruct IH as [IH | [IH1 IH2]]; [now left | right; auto].
Qed.

(** C10: the flags of every decision are consistent: [Forced] and
    [Skipped] are never both set, [Forced] implies [ShouldSearch],
    [Skipped] excludes [ShouldSearch], a reported keyword implies
    [ShouldSearch], and no keyword is reported with [Forced] or
    [Skipped]. *)
Theorem DecideTrigger_flags_consistent
    (message : string) (cfg : RagTriggerConfig) :
  let d := DecideTrigger ToLower message cfg in
  (Forced d && Skipped d = false)
  /\ (Forced d = true -> ShouldSearch d = true)
  /\ (Skipped d = true -> ShouldSearch d = false)
  /\ (MatchedKeyword d <> "" -> ShouldSearch d = true)
  /\ (Forced d = true \/ Skipped d = true -> MatchedKeyword d = "").
Proof.
  unfold DecideTrigger.
  destruct (String.eqb (GoStrings.TrimSpace message) "");
    [simpl; repeat split; (discriminate || congruence || tauto)|].
  destruct (matchPrefix _ (ForcePrefixes cfg)) as [p1 [|]];
    [simpl; repeat split; (discriminate || congruence || tauto)|].
  destruct (matchPrefix _ (SkipPrefixes cfg)) as [p2 [|]];
    [simpl; repeat split; (discriminate || congruence || tauto)|].
  destruct (Auto cfg); simpl;
    [|repeat split; (discriminate || congruence || tauto)].
  destruct (String.eqb (matchKeyword _ _ _) ""); simpl;
    repeat split; try (discriminate || congruence || tauto);
    intros [H | H]; discriminate.
Qed.

(** C3, as amended: the decision is taken on the trimmed message [t];
    an entry of a prefix list counts only when it is not the empty
    string.  The first force prefix that hits [t] decides (search,
    forced), whatever the skip prefixes and keywords are; when no force
    prefix hits, the first skip prefix that hits decides (no search,
    skipped), whatever the keywords are; when neither list hits and
    automatic matching is on, the first keyword that hits decides.  A
    list that has a hit has a first one. *)
Theorem DecideTrigger_priority (message : string) (cfg : RagTriggerConfig) :
  let t := GoStrings.TrimSpace message in
  let d := DecideTrigger ToLower message cfg in
  (forall p, first_match (prefix_hit t) (ForcePrefixes cfg) p ->
     d = decision_forced (GoStrings.TrimSpace (GoStrings.TrimPrefix t p)))
  /\ (Forall (fun q => ~ prefix_hit t q) (ForcePrefixes cfg) ->
      forall p, first_match (prefix_hit t) (SkipPrefixes cfg) p ->
      d = decision_skipped (GoStrings.TrimSpace (GoStrings.TrimPrefix t p)))
  /\ (Forall (fun q => ~ prefix_hit t q) (ForcePrefixes cfg) ->
      Forall (fun q => ~ prefix_hit t q) (SkipPrefixes cfg) ->
      t <> "" -> Auto cfg = true ->
      forall kw, first_match (keyword_hit ToLower t) (AutoKeywords cfg) kw ->
      d = decision_keyword t kw)
  /\ (forall l, (exists p, In p l /\ prefix_hit t p) ->
      exists p, first_match (prefix_hit t) l p).
Proof.
  intros t d. subst d. unfold DecideTrigger. fold t.
  split; [|split; [|split]].
  - intros p Hp.
    assert (String.eqb t "" = false) as ->.
    { destruct Hp as (? & ? & _ & H & _). exact (prefix_hit_nonempty _ _ H). }
    now rewrite (matchPrefix_first _ _ _ Hp).
  - intros Hf p Hp.
    assert (String.eqb t "" = false) as ->.
    { destruct Hp as (? & ? & _ & H & _). exact (prefix_hit_nonempty _ _ H). }
    rewrite (matchPrefix_none _ _ Hf).
    now rewrite (matchPrefix_first _ _ _ Hp).
  - intros Hf Hs Hne Hauto kw Hkw.
    rewrite (eqb_empty_false _ Hne).
    rewrite (matchPrefix_none _ _ Hf), (matchPrefix_none _ _ Hs), Hauto.
    simpl. rewrite (matchKeyword_first _ _ _ Hkw).
    destruct Hkw as (? & ? & _ & [Hk _] & _).
    now rewrite (eqb_empty_false _ Hk).
  - apply first_match_exists.
Qed.

End TriggerFacts.

Definition cfg_search : RagTriggerConfig :=
  {| ForcePrefixes := ["/search"];
     SkipPrefixes := ["/search"; "/nosearch"];
     Auto := true;
     AutoKeywords := ["tell"; "x"] |}.

(** The force prefix wins on a message that a skip prefix and a keyword hit
    too. *)
Lemma DecideTrigger_priority_witness :
  DecideTrigger GoStrings.ToLowerASCII "/search tell me about X" cfg_search
  = decision_forced "tell me about X".
Proof.
  apply (proj1 (DecideTrigger_priority GoStrings.ToLowerASCII
                  "/search tell me about X" cfg_search) "/search").
  exists [], []. split; [reflexivity|]. split; [|constructor].
  split; [discriminate|]. exists " tell me about X". reflexivity.
Defined.

(** C3 as stated fails on an empty configured prefix: the empty string is a
    literal prefix of the message ["hello"], yet the decision is not
    forced. *)
Lemma DecideTrigger_empty_force_prefix :
  let cfg := {| ForcePrefixes := [""]; SkipPrefixes := []; Auto := false;
                AutoKeywords := [] |} in
  let t := GoStrings.TrimSpace "hello" in
  (In "" (ForcePrefixes cfg) /\ is_literal_prefix "" t
   /\ GoStrings.HasPrefix t "" = true)
  /\ Forced (DecideTrigger GoStrings.ToLowerASCII "hello" cfg) = false
  /\ ShouldSearch (DecideTrigger GoStrings.ToLowerASCII "hello" cfg) = false.
Proof.
  cbv zeta. split; [split; [now left | split]|split]; try reflexivity.
  exists "hello". reflexivity.
Qed.

Lemma DecideTrigger_flags_consistent_witness :
  let d := DecideTrigger GoStrings.ToLowerASCII "please tell me" cfg_search in
  MatchedKeyword d = "tell" /\ ShouldSearch d = true.
Proof.
  cbv zeta. split; [reflexivity|].
  apply (DecideTrigger_flags_consistent GoStrings.ToLowerASCII).
  discriminate.
Defined.

(** ** Chunker *)

Lemma accept_lines_range (fuel : nat) (lines : list string)
    (chunkSize i charCount : Z) :
  i <= len_slice lines ->
  i <= accept_lines fuel lines chunkSize i charCount <= len_slice lines.
Proof.
  revert i charCount. induction fuel as [|fuel IH]; intros i cc Hi; simpl.
  - lia.
  - destruct (i <? len_slice lines) eqn:E; [|lia].
    apply Z.ltb_lt in E.
    destruct (_ && _); [lia|].
    specialize (IH (i + 1) (cc + (len (line_at lines i) + 1))). lia.
Qed.

(** With an empty chunk the first line is always accepted. *)
Lemma accept_lines_progress (fuel : nat) (lines : list string)
    (chunkSize i : Z) :
  i < len_slice lines ->
  i + 1 <= accept_lines (S fuel) lines chunkSize i 0.
Proof.
  intros Hi. simpl.
  apply Z.ltb_lt in Hi as E. rewrite E. simpl.
  pose proof (accept_lines_range fuel lines chunkSize (i + 1)
                (0 + (len (line_at lines i) + 1))). lia.
Qed.

Lemma resume_at_range (lines : list string) (chunkOverlap start i : Z) :
  start <= i -> start <= resume_at lines chunkOverlap start i <= i.
Proof.
  intros H. unfold resume_at. destruct (0 <? chunkOverlap); [|lia].
  set (j := walk_back _ _ _ _ _ _).
  destruct (j <? start) eqn:E1.
  - destruct (start <? i) eqn:E2; lia.
  - apply Z.ltb_ge in E1. destruct (j <? i) eqn:E2; [|lia].
    apply Z.ltb_lt in E2. lia.
Qed.

(** A chunk closed at [start .. i-1] before the end of the input, from
    which the scan resumes at [start] again, is closed for ever: no number
    of iterations ends the loop. *)
Lemma chunk_loop_stuck (path : string) (lines headings : list string)
    (chunkSize chunkOverlap start : Z) :
  let i := accept_lines (length lines) lines chunkSize start 0 in
  start < i -> i < len_slice lines ->
  resume_at lines chunkOverlap start i = start ->
  forall fuel chunks,
    chunk_loop fuel path lines headings chunkSize chunkOverlap start chunks
    = None.
Proof.
  intros i Hlo Hhi Hres fuel.
  induction fuel as [|fuel IH]; intros chunks; [reflexivity|].
  cbn [chunk_loop]. fold i.
  replace (start <? len_slice lines) with true
    by (symmetry; apply Z.ltb_lt; lia).
  replace (i - 1 <? start) with false by (symmetry; apply Z.ltb_ge; lia).
  replace (len_slice lines <=? i) with false
    by (symmetry; apply Z.leb_gt; lia).
  rewrite Hres. apply IH.
Qed.

Definition two_long_lines : string := "aaaaaaaa
bbbbbbbb".

(** C1 fails on the code: on two lines of eight characters with
    [chunkSize = 10] and [chunkOverlap = 5] the first chunk is line 1
    alone, the walk back over it meets the overlap budget on that very
    line, the scan resumes at line 1, and the loop closes the same chunk
    again without end: whatever the number of iterations allowed,
    [chunkMarkdown] has not returned. *)
Theorem chunkMarkdown_overlap_never_returns :
  forall fuel, chunkMarkdown fuel "notes.md" two_long_lines 10 5 = None.
Proof.
  intros fuel. unfold chunkMarkdown.
  change (if 10 <=? 0 then 800 else 10) with 10.
  change (if 5 <? 0 then 0 else 5) with 5.
  change (if 10 <=? 5 then Z.quot 10 2 else 5) with 5.
  apply chunk_loop_stuck; vm_compute; reflexivity.
Qed.

(** The same happens on the six-line document of the heading example with
    [chunkSize = 12] and [chunkOverlap = 5], from line 4 on. *)
Definition heading_doc : string := "# A
text
## B
more
# C
end".

Lemma chunkMarkdown_heading_doc_never_returns :
  forall fuel, chunkMarkdown fuel "doc.md" heading_doc 12 5 = None.
Proof.
  intros fuel. unfold chunkMarkdown.
  change (if 12 <=? 0 then 800 else 12) with 12.
  change (if 5 <? 0 then 0 else 5) with 5.
  change (if 12 <=? 5 then Z.quot 12 2 else 5) with 5.
  set (lines := GoStrings.SplitLF heading_doc).
  set (hs := headingsByLine lines).
  pose proof (chunk_loop_stuck "doc.md" lines hs 12 5 3) as Hstuck.
  assert (forall f chunks, chunk_loop f "doc.md" lines hs 12 5 3 chunks = None)
    as H3 by (apply Hstuck; vm_compute; reflexivity).
  destruct fuel as [|[|[|fuel]]]; try reflexivity.
  cbn [chunk_loop].
  change (0 <? len_slice lines) with true. cbv iota.
  change (accept_lines (length lines) lines 12 0 0) with 2.
  change (2 - 1 <? 0) with false. cbv iota.
  change (len_slice lines <=? 2) with false. cbv iota.
  change (resume_at lines 5 0 2) with 1.
  change (1 <? len_slice lines) with true. cbv iota.
  change (accept_lines (length lines) lines 12 1 0) with 3.
  change (3 - 1 <? 1) with false. cbv iota.
  change (len_slice lines <=? 3) with false. cbv iota.
  change (resume_at lines 5 1 3) with 2.
  change (2 <? len_slice lines) with true. cbv iota.
  change (accept_lines (length lines) lines 12 2 0) with 4.
  change (4 - 1 <? 2) with false. cbv iota.
  change (len_slice lines <=? 4) with false. cbv iota.
  change (resume_at lines 5 2 4) with 3.
  apply H3.
Qed.

(** Without overlap the scan position grows with every chunk, and the loop
    ends within one iteration per line. *)
Lemma chunk_loop_no_overlap (path : string) (lines headings : list string)
    (chunkSize chunkOverlap : Z) :
  chunkOverlap <= 0 ->
  forall (n : nat) (i : Z) (chunks : list chunk),
    0 <= i -> len_slice lines - i <= Z.of_nat n ->
    exists out, forall fuel, (n < fuel)%nat ->
      chunk_loop fuel path lines headings chunkSize chunkOverlap i chunks
      = Some out.
Proof.
  intros Hco n. induction n as [|n IH]; intros i chunks Hi Hn.
  - exists chunks. intros [|fuel] Hf; [lia|]. cbn [chunk_loop].
    replace (i <? len_slice lines) with false
      by (symmetry; apply Z.ltb_ge; lia). reflexivity.
  - destruct (i <? len_slice lines) eqn:E.
    2:{ exists chunks. intros [|fuel] Hf; [lia|]. cbn [chunk_loop].
        now rewrite E. }
    apply Z.ltb_lt in E.
    assert (exists k, length lines = S k) as [k Hk].
    { unfold len_slice in E. destruct lines; [simpl in E; lia | eauto]. }
    pose proof (accept_lines_progress k lines chunkSize i E) as Hp.
    pose proof (accept_lines_range (S k) lines chunkSize i 0
                  ltac:(lia)) as Hr.
    rewrite <- Hk in Hp, Hr.
    set (i1 := accept_lines (length lines) lines chunkSize i 0) in *.
    set (heading :=
           if String.eqb (line_at headings i) ""
           then GoStrings.TrimSuffix (GoFilepath.Base path) (GoFilepath.Ext path)
           else line_at headings i).
    set (text := GoStrings.TrimSpace (GoStrings.Join (slice lines i i1) "
")).
    set (chunks' :=
           if negb (String.eqb text "") then
             (chunks ++ [ {| Path := path; Heading := heading;
                             StartLine := i + 1; EndLine := i1 - 1 + 1;
                             Content := text |} ])%list
           else chunks).
    destruct (IH i1 chunks' ltac:(lia) ltac:(lia)) as [out Hout].
    exists (if len_slice lines <=? i1 then chunks' else out).
    intros [|fuel] Hf; [lia|]. cbn [chunk_loop].
    apply Z.ltb_lt in E as E'. rewrite E'. fold i1.
    replace (i1 - 1 <? i) with false by (symmetry; apply Z.ltb_ge; lia).
    fold heading. fold text. fold chunks'.
    destruct (len_slice lines <=? i1); [reflexivity|].
    unfold resume_at.
    replace (0 <? chunkOverlap) with false
      by (symmetry; apply Z.ltb_ge; lia).
    apply Hout. lia.
Qed.

Theorem chunkMarkdown_no_overlap_returns (path content : string)
    (chunkSize chunkOverlap : Z) :
  chunkOverlap <= 0 ->
  exists chunks, forall fuel,
    (length (GoStrings.SplitLF content) < fuel)%nat ->
    chunkMarkdown fuel path content chunkSize chunkOverlap = Some chunks.
Proof.
  intros Hco. unfold chunkMarkdown.
  set (cs := if chunkSize <=? 0 then 800 else chunkSize).
  assert (0 < cs) as Hcs.
  { subst cs. destruct (chunkSize <=? 0) eqn:E; [lia|].
    now apply Z.leb_gt in E. }
  set (co0 := if chunkOverlap <? 0 then 0 else chunkOverlap).
  assert (co0 = 0) as ->.
  { subst co0. destruct (chunkOverlap <? 0) eqn:E; [reflexivity|].
    apply Z.ltb_ge in E. lia. }
  replace (cs <=? 0) with false by (symmetry; apply Z.leb_gt; lia).
  apply chunk_loop_no_overlap with (n := length (GoStrings.SplitLF content));
    unfold len_slice; lia.
Qed.

(** *** Headings *)

(** The heading a chunk starting at (0-based) line [start] is given. *)
Definition heading_of (path : string) (headings : list string) (start : Z)
    : string :=
  let h := line_at headings start in
  if String.eqb h "" then
    GoStrings.TrimSuffix (GoFilepath.Base path) (GoFilepath.Ext path)
  else h.

(** What [chunkMarkdown] guarantees of each chunk it returns. *)
Definition chunk_ok (path : string) (lines : list string) (c : chunk) : Prop :=
  Path c = path
  /\ 1 <= StartLine c <= EndLine c /\ EndLine c <= len_slice lines
  /\ Heading c = heading_of path (headingsByLine lines) (StartLine c - 1)
  /\ Content c =
       GoStrings.TrimSpace
         (GoStrings.Join (slice lines (StartLine c - 1) (EndLine c)) "
")
  /\ Content c <> "".

Lemma chunk_loop_ok (path : string) (lines : list string)
    (chunkSize chunkOverlap : Z) (fuel : nat) :
  forall (i : Z) (chunks out : list chunk),
    0 <= i ->
    Forall (chunk_ok path lines) chunks ->
    chunk_loop fuel path lines (headingsByLine lines) chunkSize chunkOverlap
      i chunks = Some out ->
    Forall (chunk_ok path lines) out.
Proof.
  induction fuel as [|fuel IH]; intros i chunks out Hi Hall; [discriminate|].
  cbn [chunk_loop].
  destruct (i <? len_slice lines) eqn:E; [|intros [= <-]; exact Hall].
  apply Z.ltb_lt in E.
  pose proof (accept_lines_range (length lines) lines chunkSize i 0
                ltac:(lia)) as Hr.
  set (i1 := accept_lines (length lines) lines chunkSize i 0) in *.
  destruct (i1 - 1 <? i) eqn:E1; [intros [= <-]; exact Hall|].
  apply Z.ltb_ge in E1.
  set (text := GoStrings.TrimSpace (GoStrings.Join (slice lines i i1) "
")).
  match goal with
  | |- context [if negb (String.eqb text "") then ?a else chunks] =>
      set (chunks' := if negb (String.eqb text "") then a else chunks)
  end.
  assert (Forall (chunk_ok path lines) chunks') as Hall'.
  { subst chunks'. destruct (String.eqb text "") eqn:Et; simpl; [exact Hall|].
    apply Forall_app. split; [exact Hall|].
    constructor; [|constructor].
    unfold chunk_ok; simpl.
    replace (i + 1 - 1) with i by lia.
    replace (i1 - 1 + 1) with i1 by lia.
    repeat split; try lia; try reflexivity.
    now apply String.eqb_neq. }
  destruct (len_slice lines <=? i1); [intros [= <-]; exact Hall'|].
  apply IH; [|exact Hall'].
  pose proof (resume_at_range lines chunkOverlap i i1 ltac:(lia)). lia.
Qed.

(** The entry [k] of the stack after a heading of the given level. *)
Lemma set_level_lookup (level : nat) (title : string) (stack : list string)
    (k : nat) :
  length stack = 6%nat -> (1 <= level <= 6)%nat -> (k < 6)%nat ->
  nth k (set_level level title stack) "" =
    if (k <? pred level)%nat then nth k stack ""
    else if (k =? pred level)%nat then title
    else "".
Proof.
  intros Hlen Hlevel Hk.
  destruct stack as [|s0 [|s1 [|s2 [|s3 [|s4 [|s5 [|s6 stack]]]]]]];
    try discriminate.
  destruct level as [|[|[|[|[|[|[|level]]]]]]]; try lia;
    destruct k as [|[|[|[|[|[|k]]]]]]; try lia; reflexivity.
Qed.

Lemma headings_from_nth (lines : list string) :
  forall (stack : list string) (k : nat),
    (k < length lines)%nat ->
    nth k (headings_from stack lines) "" =
      joinHeading (fold_left heading_step (take (S k) lines) stack).
Proof.
  induction lines as [|line lines IH]; intros stack k Hk; simpl in Hk; [lia|].
  destruct k as [|k]; simpl.
  - destruct lines; reflexivity.
  - apply IH. lia.
Qed.

(** A heading line, in the words of the specification: trimmed, the line
    is [level] number signs, at least one and at most six, followed by a
    text that does not go on with a number sign and that, trimmed, is the
    non-empty [title]. *)
Definition heading_line (line : string) (level : nat) (title : string)
    : Prop :=
  exists rest,
    GoStrings.bytes (GoStrings.TrimSpace line)
    = (replicate level "#"%char ++ rest)%list
    /\ (1 <= level <= 6)%nat
    /\ head rest <> Some "#"%char
    /\ title = GoStrings.TrimSpace (GoStrings.of_bytes rest)
    /\ title <> "".

Lemma heading_level_replicate (n : nat) (rest : list ascii) :
  head rest <> Some "#"%char ->
  heading_level (replicate n "#"%char ++ rest) = n.
Proof.
  intros Hrest. induction n as [|n IH]; cbn [replicate app heading_level].
  - destruct rest as [|c rest]; [reflexivity|]. cbn [heading_level].
    destruct (Ascii.eqb_spec c (GoStrings.b 35)) as [-> | Hne];
      [|unfold GoStrings.byte_eqb;
        now replace (Ascii.eqb c (GoStrings.b 35)) with false
          by (symmetry; now apply Ascii.eqb_neq)].
    now destruct Hrest.
  - now rewrite IH.
Qed.

Lemma heading_level_split (l : list ascii) :
  l = (replicate (heading_level l) "#"%char ++ drop (heading_level l) l)%list
  /\ head (drop (heading_level l) l) <> Some "#"%char.
Proof.
  induction l as [|c l [IH1 IH2]]; [split; [reflexivity | discriminate]|].
  cbn [heading_level]. unfold GoStrings.byte_eqb.
  destruct (Ascii.eqb_spec c (GoStrings.b 35)) as [-> | Hne].
  - cbn [replicate app drop]. split; [now rewrite <- IH1 | exact IH2].
  - cbn [replicate app drop head]. split; [reflexivity|]. intros [= ->].
    now apply Hne.
Qed.

Lemma heading_step_length (stack : list string) (line : string) :
  length stack = 6%nat -> length (heading_step stack line) = 6%nat.
Proof.
  intros Hlen. unfold heading_step. cbv zeta.
  destruct (GoStrings.HasPrefix _ "#"); [|exact Hlen].
  destruct (Nat.ltb_spec 0 (heading_level
              (GoStrings.bytes (GoStrings.TrimSpace line)))) as [Hpos | _];
    [|exact Hlen].
  destruct (Nat.leb_spec (heading_level
              (GoStrings.bytes (GoStrings.TrimSpace line))) 6) as [Hle | _];
    [|exact Hlen].
  cbn [andb]. destruct (negb _); [|exact Hlen].
  unfold set_level.
  rewrite length_app, length_take, length_insert, length_replicate. lia.
Qed.

(** A heading line is what the loop takes for one, with that level and
    that title. *)
Lemma heading_line_read (line : string) (level : nat) (title : string) :
  heading_line line level title ->
  GoStrings.HasPrefix (GoStrings.TrimSpace line) "#" = true
  /\ heading_level (GoStrings.bytes (GoStrings.TrimSpace line)) = level
  /\ GoStrings.TrimSpace (GoStrings.from level (GoStrings.TrimSpace line))
     = title.
Proof.
  intros (rest & Hbytes & Hlevel & Hrest & -> & _).
  unfold GoStrings.HasPrefix, GoStrings.from. rewrite Hbytes.
  split; [|split].
  - destruct level as [|level]; [lia|]. reflexivity.
  - now apply heading_level_replicate.
  - now rewrite drop_app_length' by (symmetry; apply length_replicate).
Qed.

(** C8, as amended: every chunk carries the heading path that is active at
    its first line, or the base name of the file without its extension
    when that path is empty, also when the chunk covers later lines under
    other headings.  The path at a line is the join with [" > "] of the
    non-empty entries of a 6-entry stack after that line.  A heading line
    of level [level] with a non-empty title sets entry [level - 1] and
    empties the entries after it, and leaves the entries before it; every
    other line leaves the stack as it is.  On the example document the
    paths of the six lines are A, A, A > B, A > B, C, C; cut into one chunk
    per line, the chunk of [text] carries "A", that of [more] "A > B" and
    that of [end] "C". *)
Theorem chunk_heading_is_path_at_first_line :
  (forall fuel path content chunkSize chunkOverlap chunks,
     chunkMarkdown fuel path content chunkSize chunkOverlap = Some chunks ->
     Forall (chunk_ok path (GoStrings.SplitLF content)) chunks)
  /\ (forall lines k, (k < length lines)%nat ->
        line_at (headingsByLine lines) (Z.of_nat k) =
          joinHeading
            (fold_left heading_step (take (S k) lines) (replicate 6 "")))
  /\ (forall stack line,
        length stack = 6%nat ->
        length (heading_step stack line) = 6%nat
        /\ (forall level title,
              heading_line line level title ->
              forall k, (k < 6)%nat ->
                nth k (heading_step stack line) "" =
                  if (k <? pred level)%nat then nth k stack ""
                  else if (k =? pred level)%nat then title
                  else "")
        /\ ((forall level title, ~ heading_line line level title) ->
            heading_step stack line = stack))
  /\ headingsByLine (GoStrings.SplitLF heading_doc)
     = ["A"; "A"; "A > B"; "A > B"; "C"; "C"]
  /\ (map (fun c => (Content c, Heading c)) <$>
        chunkMarkdown 7 "doc.md" heading_doc 1 0)
     = Some [("# A", "A"); ("text", "A"); ("## B", "A > B");
             ("more", "A > B"); ("# C", "C"); ("end", "C")].
Proof.
  split; [|split; [|split; [|split]]].
  - intros fuel path content chunkSize chunkOverlap chunks.
    unfold chunkMarkdown. intros H.
    eapply chunk_loop_ok; [| |exact H]; [lia | constructor].
  - intros lines k Hk. unfold line_at, headingsByLine.
    rewrite Nat2Z.id. now apply headings_from_nth.
  - intros stack line Hlen.
    split; [now apply heading_step_length|]. split.
    + intros level title Hline k Hk.
      pose proof Hline as (_ & _ & Hlevel & _ & _ & Hne).
      apply heading_line_read in Hline as (Hpre & Hlv & Htitle).
      unfold heading_step. rewrite Hpre. cbv zeta. rewrite Hlv, Htitle.
      replace (0 <? level)%nat with true by (symmetry; apply Nat.ltb_lt; lia).
      replace (level <=? 6)%nat with true by (symmetry; apply Nat.leb_le; lia).
      cbn [andb]. rewrite (eqb_empty_false _ Hne). cbn [negb].
      apply set_level_lookup; lia.
    + intros Hnone. unfold heading_step. cbv zeta.
      destruct (GoStrings.HasPrefix _ "#"); [|reflexivity].
      set (trimmed := GoStrings.TrimSpace line) in *.
      set (level := heading_level (GoStrings.bytes trimmed)).
      destruct (Nat.ltb_spec 0 level) as [Hpos | _]; [|reflexivity].
      destruct (Nat.leb_spec level 6) as [Hle | _]; [|reflexivity].
      cbn [andb].
      destruct (String.eqb_spec
                  (GoStrings.TrimSpace (GoStrings.from level trimmed)) "")
        as [_ | Hne]; [reflexivity|].
      exfalso.
      apply (Hnone level (GoStrings.TrimSpace (GoStrings.from level trimmed))).
      exists (drop level (GoStrings.bytes trimmed)).
      destruct (heading_level_split (GoStrings.bytes trimmed)) as [Hsplit Hrest].
      fold level in Hsplit, Hrest.
      split; [exact Hsplit|]. split; [lia|]. split; [exact Hrest|].
      split; [reflexivity | exact Hne].
  - vm_compute. reflexivity.
  - vm_compute. reflexivity.
Qed.

Lemma chunk_heading_is_path_at_first_line_witness :
  exists chunks,
    chunkMarkdown 4 "notes/doc.md" heading_doc 12 0 = Some chunks
    /\ Forall (chunk_ok "notes/doc.md" (GoStrings.SplitLF heading_doc)) chunks
    /\ map Heading chunks = ["A"; "A > B"; "C"].
Proof.
  eexists. split; [vm_compute; reflexivity|]. split; [|reflexivity].
  apply (proj1 chunk_heading_is_path_at_first_line 4%nat _ heading_doc 12 0).
  vm_compute. reflexivity.
Defined.

(** C8 as stated fails: with the default chunk size the example document
    is one chunk of lines 1 to 6; it covers [more] (line 4) and [end]
    (line 6) and carries the heading "A" of its first line. *)
Lemma chunk_covering_more_carries_A :
  exists c,
    chunkMarkdown 2 "doc.md" heading_doc 0 0 = Some [c]
    /\ StartLine c <= 4 <= EndLine c
    /\ line_at (GoStrings.SplitLF heading_doc) (4 - 1) = "more"
    /\ StartLine c <= 6 <= EndLine c
    /\ line_at (GoStrings.SplitLF heading_doc) (6 - 1) = "end"
    /\ Heading c = "A" /\ Heading c <> "A > B" /\ Heading c <> "C".
Proof.
  eexists. split; [vm_compute; reflexivity|]. simpl.
  repeat split; try lia; discriminate.
Qed.

(** Lines of the example document: two heading lines, and a line that is
    none. *)
Lemma heading_line_examples :
  heading_line "## B" 2 "B"
  /\ heading_line "# C" 1 "C"
  /\ (forall level title, ~ heading_line "more" level title)
  /\ heading_step ["A"; "x"; "y"; ""; ""; ""] "## B"
     = ["A"; "B"; ""; ""; ""; ""]
  /\ heading_step ["A"; "B"; ""; ""; ""; ""] "more"
     = ["A"; "B"; ""; ""; ""; ""]
  /\ heading_step ["A"; "B"; ""; ""; ""; ""] "####### deep"
     = ["A"; "B"; ""; ""; ""; ""]
  /\ heading_step ["A"; "B"; ""; ""; ""; ""] "##"
     = ["A"; "B"; ""; ""; ""; ""].
Proof.
  split; [|split; [|split]].
  - exists (GoStrings.bytes " B"). repeat split; try lia; discriminate.
  - exists (GoStrings.bytes " C"). repeat split; try lia; discriminate.
  - intros level title (rest & Hbytes & Hlevel & _).
    destruct level as [|level]; [lia | discriminate].
  - repeat split; reflexivity.
Qed.


(** ** Indexer *)

Lemma stringSliceEqual_loop_eq (a b : list string) :
  length a = length b -> (stringSliceEqual_loop a b = true <-> a = b).
Proof.
  revert b. induction a as [|x a IH]; intros [|y b] Hlen;
    try discriminate; simpl.
  - tauto.
  - injection Hlen as Hlen. destruct (String.eqb x y) eqn:E; simpl.
    + apply String.eqb_eq in E as ->. rewrite (IH b Hlen).
      split; [now intros -> | now intros [= ->]].
    + apply String.eqb_neq in E. split; [discriminate | intros [= ? _]].
      contradiction.
Qed.

(** [stringSliceEqual] compares the two sequences entry by entry, in
    order. *)
Lemma stringSliceEqual_eq (a b : list string) :
  stringSliceEqual a b = true <-> a = b.
Proof.
  unfold stringSliceEqual, len_slice.
  destruct (Z.of_nat (length a) =? Z.of_nat (length b)) eqn:E; simpl.
  - apply Z.eqb_eq, Nat2Z.inj in E. now apply stringSliceEqual_loop_eq.
  - apply Z.eqb_neq in E. split; [discriminate | intros ->; lia].
Qed.

Lemma stringSliceEqual_neq (a b : list string) :
  stringSliceEqual a b = false <-> a <> b.
Proof.
  rewrite <- stringSliceEqual_eq. now destruct (stringSliceEqual a b).
Qed.

Section IndexerFacts.

Context `{GoRuntime}.
Context {float64 Remote : Type}.

Variable cfg : config.RagConfig.
Variable workspace : string.
Variable embedder : EmbeddingClient float64 Remote.
Variable qdrant : QdrantClient float64 Remote.
Variable fs : FileSystem.

(** The manifest differs from the configuration in one of the recorded
    settings. *)
Definition drifted (st : indexState) : Prop :=
  EmbeddingModel st <> Model embedder
  \/ (ChunkSize st <> config.ChunkSize cfg
      \/ ChunkOverlap st <> config.ChunkOverlap cfg)
  \/ (IncludePatterns st <> config.IncludePatterns cfg
      \/ ExcludePatterns st <> config.ExcludePatterns cfg)
  \/ Collection st <> qdrant_Collection qdrant.

Lemma reindexAll_of_spec (opts : IndexOptions) (loaded : option indexState) :
  reindexAll_of cfg embedder qdrant opts loaded = true
  <-> loaded = None \/ ReindexAll opts = true
      \/ exists st, loaded = Some st /\ drifted st.
Proof.
  unfold reindexAll_of. destruct loaded as [st|]; [|tauto].
  destruct (ReindexAll opts); simpl; [tauto|].
  repeat match goal with
  | |- context [String.eqb ?a ?b] => destruct (String.eqb_spec a b)
  | |- context [Z.eqb ?a ?b] => destruct (Z.eqb_spec a b)
  | |- context [stringSliceEqual ?a ?b] =>
      let E := fresh "E" in
      destruct (stringSliceEqual a b) eqn:E;
      [apply stringSliceEqual_eq in E | apply stringSliceEqual_neq in E]
  end; simpl;
  (split;
   [ intros Ht;
     first [ discriminate
           | right; right; exists st;
             (split; [reflexivity | unfold drifted; tauto]) ]
   | intros [Hn | [Hn | (st' & [= <-] & Hd)]];
     first [ discriminate | reflexivity | unfold drifted in Hd; tauto ] ]).
Qed.

(** C2: the run decides for a full rebuild exactly when the manifest is
    absent (its file cannot be read or cannot be parsed), the caller asked
    for it, or the manifest differs from the configuration in the model
    name, the chunk size or overlap, the include or exclude patterns
    (compared as sequences), or the collection name; this decision is the
    one the passes of the run are given.  In particular a manifest that
    differs from the configuration in its chunk size forces it. *)
Theorem reindexAll_exactly_on_drift (opts : IndexOptions) :
  let loaded := loadIndexState fs (statePath workspace) in
  let reindexAll := reindexAll_of cfg embedder qdrant opts loaded in
  (loaded = None
   <-> (exists e, ReadFile fs (statePath workspace) = inl e)
       \/ (exists data, ReadFile fs (statePath workspace) = inr data
                        /\ json_Unmarshal data = None))
  /\ (reindexAll = true
      <-> loaded = None \/ ReindexAll opts = true
          \/ exists st, loaded = Some st /\ drifted st)
  /\ (forall st, loaded = Some st ->
        ChunkSize st <> config.ChunkSize cfg -> reindexAll = true)
  /\ (forall fuel files,
        expandHome fs (config.VaultPath cfg) <> "" ->
        Stat_IsDir fs (expandHome fs (config.VaultPath cfg)) = true ->
        listMarkdownFiles fs (expandHome fs (config.VaultPath cfg))
          (config.IncludePatterns cfg) (config.ExcludePatterns cfg)
        = inr files ->
        run cfg workspace embedder qdrant fs fuel opts
        = run_passes cfg workspace embedder qdrant fs fuel reindexAll files
            (default (fresh_state) loaded)).
Proof.
  intros loaded reindexAll. split; [|split; [|split]].
  - subst loaded. unfold loadIndexState.
    destruct (ReadFile fs _) as [e | data].
    + split; [intros _; left; eauto | reflexivity].
    + split.
      * intros Hn. right. eauto.
      * intros [[e [=]] | (d & [= <-] & Hd)]. exact Hd.
  - apply reindexAll_of_spec.
  - intros st Hst Hne. apply reindexAll_of_spec. right. right.
    exists st. split; [exact Hst|]. unfold drifted. tauto.
  - intros fuel files Hv Hd Hl. unfold run.
    rewrite (eqb_empty_false _ Hv), Hd, Hl. simpl.
    fold loaded. fold reindexAll. now destruct loaded.
Qed.

(** *** Computations and their events *)

Abbreviation Ev := (event float64).
Abbreviation Comp := (M float64 Remote).

Lemma bind_inv {A B : Type} (m : Comp A) (k : A -> Comp B) (r : Remote)
    (o : outcome B) (r2 : Remote) (evs : list Ev) :
  (m ≫= k) r = (o, r2, evs) ->
  exists o1 r1 evs1,
    m r = (o1, r1, evs1)
    /\ match o1 with
       | Returned a =>
           exists evs2, k a r1 = (o, r2, evs2) /\ evs = (evs1 ++ evs2)%list
       | Failed e => o = Failed e /\ r2 = r1 /\ evs = evs1
       | Panicked => o = Panicked /\ r2 = r1 /\ evs = evs1
       | OutOfFuel => o = OutOfFuel /\ r2 = r1 /\ evs = evs1
       end.
Proof.
  unfold mbind, M_bind. destruct (m r) as [[o1 r1] evs1].
  intros Hb. exists o1, r1, evs1. split; [reflexivity|].
  destruct o1 as [a | e | |].
  - destruct (k a r1) as [[o' r'] evs2]. injection Hb as <- <- <-. eauto.
  - now injection Hb as <- <- <-.
  - now injection Hb as <- <- <-.
  - now injection Hb as <- <- <-.
Qed.

Lemma ret_inv {A : Type} (a : A) (r : Remote) (o : outcome A) (r2 : Remote)
    (evs : list Ev) :
  (mret a : Comp A) r = (o, r2, evs) -> o = Returned a /\ r2 = r /\ evs = [].
Proof. unfold mret, M_ret. now intros [= <- <- <-]. Qed.

Definition ok_event (ev : Ev) : Prop := failure ev = None.

Definition is_save (ev : Ev) : Prop :=
  exists path st, what ev = CallSaveIndexState path st.

(** A call to the embedding client or to the vector store. *)
Definition is_client_call (ev : Ev) : Prop :=
  match what ev with
  | CallEnsureCollection _ _ | CallDeleteByPath _ | CallEmbedBatch _
  | CallUpsert _ => True
  | CallReadFile _ | CallSaveIndexState _ _ => False
  end.

(** Either every call succeeded, or the last call made is the only one
    that failed and the computation returned an error, which is the error
    of that call when it is a call to a client. *)
Definition stops_at_failure {A : Type} (o : outcome A) (evs : list Ev) : Prop :=
  Forall ok_event evs
  \/ exists evs' ev e,
       evs = (evs' ++ [ev])%list /\ Forall ok_event evs'
       /\ failure ev <> None /\ o = Failed e
       /\ (is_client_call ev -> failure ev = Some e).

Definition lawful {A : Type} (m : Comp A) : Prop :=
  forall r o r' evs,
    m r = (o, r', evs) ->
    stops_at_failure o evs /\ Forall (fun ev => ~ is_save ev) evs.

Lemma stops_Returned {A : Type} (a : A) (evs : list Ev) :
  stops_at_failure (Returned a) evs -> Forall ok_event evs.
Proof. intros [Hok | (? & ? & ? & _ & _ & _ & [=] & _)]. exact Hok. Qed.

Lemma lawful_ret {A : Type} (a : A) : lawful (mret a : Comp A).
Proof.
  intros r o r' evs (-> & -> & ->)%ret_inv. split; [left|]; constructor.
Qed.

Lemma lawful_fail {A : Type} (e : error) : lawful (fail e : Comp A).
Proof. intros r o r' evs [= <- <- <-]. split; [left|]; constructor. Qed.

Lemma lawful_panic {A : Type} : lawful (panic : Comp A).
Proof. intros r o r' evs [= <- <- <-]. split; [left|]; constructor. Qed.

Lemma lawful_out_of_fuel {A : Type} : lawful (out_of_fuel : Comp A).
Proof. intros r o r' evs [= <- <- <-]. split; [left|]; constructor. Qed.

Lemma lawful_bind {A B : Type} (m : Comp A) (k : A -> Comp B) :
  lawful m -> (forall a, lawful (k a)) -> lawful (m ≫= k).
Proof.
  intros Hm Hk r o r2 evs Hb.
  apply bind_inv in Hb as (o1 & r1 & evs1 & Hm1 & Hrest).
  destruct (Hm _ _ _ _ Hm1) as [Hs1 Hn1].
  destruct o1 as [a | e | |].
  - destruct Hrest as (evs2 & Hk2 & ->).
    destruct (Hk _ _ _ _ _ Hk2) as [Hs2 Hn2].
    apply stops_Returned in Hs1. split; [|now apply Forall_app].
    destruct Hs2 as [Hok | (evs' & ev & e & -> & Hok & Hf & -> & He)].
    + left. now apply Forall_app.
    + right. exists (evs1 ++ evs')%list, ev, e.
      rewrite app_assoc. repeat split; auto. now apply Forall_app.
  - destruct Hrest as (-> & -> & ->). split; [|exact Hn1].
    destruct Hs1 as [Hok | (evs' & ev & e' & -> & Hok & Hf & [= <-] & He)];
      [now left | right; eauto 10].
  - destruct Hrest as (-> & -> & ->). split; [|exact Hn1].
    destruct Hs1 as [Hok | (? & ? & ? & _ & _ & _ & [=] & _)]. now left.
  - destruct Hrest as (-> & -> & ->). split; [|exact Hn1].
    destruct Hs1 as [Hok | (? & ? & ? & _ & _ & _ & [=] & _)]. now left.
Qed.

Lemma lawful_single {A : Type} (o : outcome A) (ev : Ev) :
  ~ is_save ev ->
  (failure ev = None
   \/ exists e, failure ev <> None /\ o = Failed e
                /\ (is_client_call ev -> failure ev = Some e)) ->
  stops_at_failure o [ev] /\ Forall (fun ev => ~ is_save ev) [ev].
Proof.
  intros Hns Hcase. split; [|now repeat constructor].
  destruct Hcase as [Hok | (e & Hf & Ho & He)].
  - left. now repeat constructor.
  - right. exists [], ev, e. repeat split; auto.
Qed.

Lemma lawful_remote_call (file : option string) (c : call float64)
    (op : Remote -> option error * Remote) :
  (forall path st, c <> CallSaveIndexState path st) ->
  lawful (remote_call file c op).
Proof.
  intros Hc r o r' evs. unfold remote_call.
  destruct (op r) as [[e|] r1]; intros [= <- <- <-]; apply lawful_single;
    simpl; try (intros (p & st & Hp); simpl in Hp; now apply Hc in Hp).
  - right. exists e. repeat split; (discriminate || reflexivity).
  - now left.
Qed.

Lemma lawful_call_EmbedBatch (file : option string) (texts : list string) :
  lawful (call_EmbedBatch embedder file texts).
Proof.
  intros r o r' evs. unfold call_EmbedBatch.
  destruct (EmbedBatch embedder texts r) as [[e | v] r1];
    intros [= <- <- <-]; apply lawful_single; simpl;
    try (intros (p & st & [=])).
  - right. exists e. repeat split; (discriminate || reflexivity).
  - now left.
Qed.

Lemma lawful_call_ReadFile (file : option string) (path : string) :
  lawful (call_ReadFile (Remote := Remote) fs file path).
Proof.
  intros r o r' evs. unfold call_ReadFile.
  destruct (ReadFile fs path) as [e | v];
    intros [= <- <- <-]; apply lawful_single; simpl;
    try (intros (p & st & [=])).
  - right. eexists. repeat split; first [discriminate | reflexivity | intros []].
  - now left.
Qed.

Lemma lawful_ensureCollection (reindexAll : bool) (file : option string)
    (dim : Z) (state : indexState) :
  lawful (ensureCollection qdrant reindexAll file dim state).
Proof.
  unfold ensureCollection. destruct (dim <=? 0); [apply lawful_fail|].
  apply lawful_bind; [|intros; apply lawful_ret].
  apply lawful_remote_call. discriminate.
Qed.

Lemma lawful_remove_missing (currentFiles : gmap string Z)
    (paths : list string) :
  forall state summary,
    lawful (remove_missing qdrant currentFiles paths state summary).
Proof.
  induction paths as [|path rest IH]; intros state summary; simpl.
  - apply lawful_ret.
  - destruct (currentFiles !! path); [apply IH|].
    apply lawful_bind; [|intros; apply IH].
    apply lawful_remote_call. discriminate.
Qed.

Lemma lawful_embed_batches (fuel : nat) (reindexAll : bool) (file : fileEntry)
    (chunks : list chunk) :
  forall start state summary,
    lawful (embed_batches cfg embedder qdrant fuel reindexAll file chunks
              start state summary).
Proof.
  induction fuel as [|fuel IH]; intros start state summary; simpl;
    (destruct (start <? len_slice chunks); [|apply lawful_ret]).
  - apply lawful_out_of_fuel.
  - destruct (_ <? start); [apply lawful_panic|].
    apply lawful_bind; [apply lawful_call_EmbedBatch|]. intros embeddings.
    destruct (negb _); [apply lawful_fail|].
    apply lawful_bind.
    + destruct (EmbeddingDimension state =? 0); [|apply lawful_ret].
      destruct embeddings as [|first ?]; [apply lawful_panic|].
      destruct (_ && _); [apply lawful_fail | apply lawful_ensureCollection].
    + intros state'. apply lawful_bind; [|intros; apply IH].
      apply lawful_remote_call. discriminate.
Qed.

Lemma lawful_index_file (fuel : nat) (reindexAll : bool) (file : fileEntry)
    (state : indexState) (summary : IndexSummary) :
  lawful (index_file cfg embedder qdrant fs fuel reindexAll file state summary).
Proof.
  unfold index_file. destruct (_ && _); [apply lawful_ret|].
  apply lawful_bind; [apply lawful_call_ReadFile|]. intros content.
  destruct (chunkMarkdown _ _ _ _ _) as [chunks|]; [|apply lawful_out_of_fuel].
  destruct (len_slice chunks =? 0); [apply lawful_ret|].
  apply lawful_bind; [apply lawful_remote_call; discriminate|]. intros _.
  apply lawful_bind; [apply lawful_embed_batches|].
  intros [state' summary']. apply lawful_ret.
Qed.

Lemma lawful_index_files (fuel : nat) (reindexAll : bool)
    (files : list fileEntry) :
  forall state summary,
    lawful (index_files cfg embedder qdrant fs fuel reindexAll files
              state summary).
Proof.
  induction files as [|file rest IH]; intros state summary; simpl.
  - apply lawful_ret.
  - apply lawful_bind; [apply lawful_index_file|].
    intros [state' summary']. apply IH.
Qed.

Lemma lawful_sync_passes (fuel : nat) (reindexAll : bool)
    (files : list fileEntry) (state : indexState) :
  lawful (sync_passes cfg embedder qdrant fs fuel reindexAll files state).
Proof.
  unfold sync_passes. apply lawful_bind.
  - destruct (0 <? _); [apply lawful_ensureCollection | apply lawful_ret].
  - intros st. apply lawful_bind; [apply lawful_remove_missing|].
    intros [st1 su1]. apply lawful_index_files.
Qed.

(** The events of the manifest being saved: none when it cannot be
    serialised, else the one write. *)
Lemma saveIndexState_events (path : string) (state : indexState) (r : Remote)
    (o : outcome unit) (r' : Remote) (evs : list Ev) :
  saveIndexState fs path state r = (o, r', evs) ->
  Forall is_save evs.
Proof.
  unfold saveIndexState. destruct (json_MarshalIndent _).
  - intros [= <- <- <-]. constructor.
  - intros [= <- <- <-]. repeat constructor. eexists _, _. reflexivity.
Qed.

(** The events of a run are those of its passes, followed by the write of
    the manifest when the passes returned. *)
Lemma run_passes_inv (fuel : nat) (reindexAll : bool) (files : list fileEntry)
    (state : indexState) (r : Remote) (o : outcome IndexSummary) (r' : Remote)
    (evs : list Ev) :
  run_passes cfg workspace embedder qdrant fs fuel reindexAll files state r
  = (o, r', evs) ->
  exists o1 r1 evs1,
    sync_passes cfg embedder qdrant fs fuel reindexAll files state r
    = (o1, r1, evs1)
    /\ match o1 with
       | Returned (st, su) =>
           exists o2 evs2,
             saveIndexState fs (statePath workspace)
               (stamp cfg embedder qdrant st) r1 = (o2, r', evs2)
             /\ evs = (evs1 ++ evs2)%list
             /\ match o2 with
                | Returned _ => o = Returned su
                | Failed e => o = Failed e
                | Panicked => o = Panicked
                | OutOfFuel => o = OutOfFuel
                end
       | Failed e => o = Failed e /\ r' = r1 /\ evs = evs1
       | Panicked => o = Panicked /\ r' = r1 /\ evs = evs1
       | OutOfFuel => o = OutOfFuel /\ r' = r1 /\ evs = evs1
       end.
Proof.
  unfold run_passes. intros Hb.
  apply bind_inv in Hb as (o1 & r1 & evs1 & Hm1 & Hrest).
  exists o1, r1, evs1. split; [exact Hm1|].
  destruct o1 as [[st su] | e | |]; try exact Hrest.
  destruct Hrest as (evs2 & Hk & ->).
  apply bind_inv in Hk as (o2 & r2 & evs3 & Hsave & Hrest).
  destruct o2 as [[] | e | |].
  - destruct Hrest as (evs4 & (-> & -> & ->)%ret_inv & ->).
    exists (Returned tt), evs3. rewrite app_nil_r. auto.
  - destruct Hrest as (-> & -> & ->). exists (Failed e), evs3. auto.
  - destruct Hrest as (-> & -> & ->). exists Panicked, evs3. auto.
  - destruct Hrest as (-> & -> & ->). exists OutOfFuel, evs3. auto.
Qed.

(** A run whose vault path is well and whose files can be listed is the
    passes on the files listed; otherwise it makes no call at all. *)
Lemma run_inv (fuel : nat) (opts : IndexOptions) (r : Remote)
    (o : outcome IndexSummary) (r' : Remote) (evs : list Ev) :
  run cfg workspace embedder qdrant fs fuel opts r = (o, r', evs) ->
  ((exists e, o = Failed e) /\ evs = [])
  \/ exists files,
       listMarkdownFiles fs (expandHome fs (config.VaultPath cfg))
         (config.IncludePatterns cfg) (config.ExcludePatterns cfg)
       = inr files
       /\ run_passes cfg workspace embedder qdrant fs fuel
            (reindexAll_of cfg embedder qdrant opts
               (loadIndexState fs (statePath workspace)))
            files
            (default fresh_state (loadIndexState fs (statePath workspace))) r
          = (o, r', evs).
Proof.
  unfold run.
  destruct (String.eqb _ ""); [intros [= <- <- <-]; left; eauto|].
  destruct (negb _); [intros [= <- <- <-]; left; eauto|].
  destruct (listMarkdownFiles _ _ _ _) as [e0 | files];
    [intros [= <- <- <-]; left; eauto|].
  intros Hrun. right. exists files. split; [reflexivity|].
  now destruct (loadIndexState fs (statePath workspace)).
Qed.

(** C5: when a call to the embedding client or to the vector store fails
    during a run, the run returns the error of that call, the call is the
    last thing the run does, every call before it succeeded, and the run
    makes no write of the manifest file. *)
Theorem run_aborts_on_failed_call (fuel : nat) (opts : IndexOptions)
    (r : Remote) (o : outcome IndexSummary) (r' : Remote) (evs : list Ev)
    (ev : Ev) (e : error) :
  run cfg workspace embedder qdrant fs fuel opts r = (o, r', evs) ->
  In ev evs -> is_client_call ev -> failure ev = Some e ->
  o = Failed e
  /\ (exists before, evs = (before ++ [ev])%list /\ Forall ok_event before)
  /\ Forall (fun ev => ~ is_save ev) evs.
Proof.
  intros Hrun Hin Hcall Hfail.
  assert (forall l, Forall ok_event l -> ~ In ev l) as Hnot_ok.
  { intros l Hl Hev. rewrite Forall_forall in Hl.
    apply list_elem_of_In, Hl in Hev. unfold ok_event in Hev. congruence. }
  apply run_inv in Hrun as [[_ ->] | (files & _ & Hrun)]; [destruct Hin|].
  apply run_passes_inv in Hrun as (o1 & r1 & evs1 & Hsync & Hrest).
  destruct (lawful_sync_passes _ _ _ _ _ _ _ _ Hsync) as [Hstop Hnosave].
  assert (In ev evs1 -> o1 = Failed e
          /\ exists before, evs1 = (before ++ [ev])%list
                            /\ Forall ok_event before) as Hcase.
  { intros Hin1.
    destruct Hstop as [Hok | (before & ev' & e' & -> & Hok & Hf & -> & He)];
      [now apply Hnot_ok in Hok|].
    apply in_app_iff in Hin1 as [Hin1 | [<- | []]];
      [now apply Hnot_ok in Hok|].
    specialize (He Hcall). rewrite Hfail in He. injection He as <-.
    split; [reflexivity | eauto]. }
  destruct o1 as [[st su] | e1 | |].
  - destruct Hrest as (o2 & evs2 & Hsave & -> & _).
    apply stops_Returned in Hstop.
    apply in_app_iff in Hin as [Hin | Hin]; [now apply Hnot_ok in Hstop|].
    apply saveIndexState_events in Hsave. rewrite Forall_forall in Hsave.
    apply list_elem_of_In, Hsave in Hin as (p & s & Hw).
    unfold is_client_call in Hcall. rewrite Hw in Hcall. destruct Hcall.
  - destruct Hrest as (-> & -> & ->).
    destruct (Hcase Hin) as ([= ->] & Hbefore). auto.
  - destruct Hrest as (-> & -> & ->). now destruct (Hcase Hin).
  - destruct Hrest as (-> & -> & ->). now destruct (Hcase Hin).
Qed.


(** *** What the passes emit and return *)

(** Every event of the computation satisfies [P], and a value it returns
    satisfies [Q]. *)
Definition emits {A : Type} (P : Ev -> Prop) (Q : A -> Prop) (m : Comp A)
    : Prop :=
  forall r o r' evs,
    m r = (o, r', evs) -> Forall P evs /\ forall a, o = Returned a -> Q a.

Lemma emits_ret {A : Type} (P : Ev -> Prop) (Q : A -> Prop) (a : A) :
  Q a -> emits P Q (mret a).
Proof.
  intros Ha r o r' evs (-> & -> & ->)%ret_inv.
  split; [constructor | now intros ? [= <-]].
Qed.

Lemma emits_fail {A : Type} (P : Ev -> Prop) (Q : A -> Prop) (e : error) :
  emits P Q (fail e).
Proof. intros r o r' evs [= <- <- <-]. split; [constructor | discriminate]. Qed.

Lemma emits_panic {A : Type} (P : Ev -> Prop) (Q : A -> Prop) :
  emits P Q panic.
Proof. intros r o r' evs [= <- <- <-]. split; [constructor | discriminate]. Qed.

Lemma emits_out_of_fuel {A : Type} (P : Ev -> Prop) (Q : A -> Prop) :
  emits P Q out_of_fuel.
Proof. intros r o r' evs [= <- <- <-]. split; [constructor | discriminate]. Qed.

Lemma emits_bind {A B : Type} (P : Ev -> Prop) (Q1 : A -> Prop)
    (Q2 : B -> Prop) (m : Comp A) (k : A -> Comp B) :
  emits P Q1 m -> (forall a, Q1 a -> emits P Q2 (k a)) ->
  emits P Q2 (m ≫= k).
Proof.
  intros Hm Hk r o r2 evs Hb.
  apply bind_inv in Hb as (o1 & r1 & evs1 & Hm1 & Hrest).
  destruct (Hm _ _ _ _ Hm1) as [Hp1 Hq1].
  destruct o1 as [a | e | |].
  - destruct Hrest as (evs2 & Hk2 & ->).
    destruct (Hk a (Hq1 a eq_refl) _ _ _ _ Hk2) as [Hp2 Hq2].
    split; [now apply Forall_app | exact Hq2].
  - destruct Hrest as (-> & -> & ->). split; [exact Hp1 | discriminate].
  - destruct Hrest as (-> & -> & ->). split; [exact Hp1 | discriminate].
  - destruct Hrest as (-> & -> & ->). split; [exact Hp1 | discriminate].
Qed.

Lemma emits_weaken {A : Type} (P P' : Ev -> Prop) (Q Q' : A -> Prop)
    (m : Comp A) :
  (forall ev, P ev -> P' ev) -> (forall a, Q a -> Q' a) ->
  emits P Q m -> emits P' Q' m.
Proof.
  intros HP HQ Hm r o r' evs Hr. destruct (Hm _ _ _ _ Hr) as [Hp Hq].
  split; [eapply Forall_impl; eauto | eauto].
Qed.

Lemma emits_remote_call (P : Ev -> Prop) (file : option string)
    (c : call float64) (op : Remote -> option error * Remote) :
  (forall e, P {| during := file; what := c; failure := e |}) ->
  emits P (fun _ => True) (remote_call file c op).
Proof.
  intros HP r o r' evs. unfold remote_call. destruct (op r) as [e r1].
  intros [= <- <- <-]. split; [repeat constructor; apply HP | auto].
Qed.

Lemma emits_call_EmbedBatch (P : Ev -> Prop) (file : option string)
    (texts : list string) :
  (forall e, P {| during := file; what := CallEmbedBatch texts;
                  failure := e |}) ->
  emits P (fun _ => True) (call_EmbedBatch embedder file texts).
Proof.
  intros HP r o r' evs. unfold call_EmbedBatch.
  destruct (EmbedBatch embedder texts r) as [[e | v] r1];
    intros [= <- <- <-]; (split; [repeat constructor; apply HP | auto]).
Qed.

Lemma emits_call_ReadFile (P : Ev -> Prop) (file : option string)
    (path : string) :
  (forall e, P {| during := file; what := CallReadFile path; failure := e |}) ->
  emits P (fun _ => True) (call_ReadFile (Remote := Remote) fs file path).
Proof.
  intros HP r o r' evs. unfold call_ReadFile.
  destruct (ReadFile fs path) as [e | v];
    intros [= <- <- <-]; (split; [repeat constructor; apply HP | auto]).
Qed.

(** An event of the per-file pass on the file of relative path [rel]:
    the event is recorded for that file, a delete-by-path is of that path,
    and the points of an upsert carry that path. *)
Definition belongs_to (rel : string) (ev : Ev) : Prop :=
  during ev = Some rel
  /\ match what ev with
     | CallDeleteByPath p => p = rel
     | CallUpsert points =>
         Forall (fun pt => payload_path (Payload pt) = rel) points
     | CallSaveIndexState _ _ => False
     | _ => True
     end.


Lemma make_points_paths (file : fileEntry) (rel : string)
    (batch : list chunk) (embeddings : list (list float64)) :
  Forall (fun c => Path c = rel) batch ->
  Forall (fun pt => payload_path (Payload pt) = rel)
    (make_points file batch embeddings).
Proof.
  intros Hb. revert embeddings.
  induction Hb as [|c batch Hc _ IH]; intros [|emb embeddings]; simpl;
    try constructor; [exact Hc | apply IH].
Qed.

Lemma Forall_slice {A : Type} (P : A -> Prop) (l : list A) (lo hi : Z) :
  Forall P l -> Forall P (slice l lo hi).
Proof. intros Hl. unfold slice. now apply Forall_take, Forall_drop. Qed.

Definition batches_post (state : indexState) (summary : IndexSummary)
    (p : indexState * IndexSummary) : Prop :=
  Files p.1 = Files state
  /\ SkippedFiles p.2 = SkippedFiles summary
  /\ RemovedFiles p.2 = RemovedFiles summary.

Lemma emits_ensureCollection (P : Ev -> Prop) (reindexAll : bool)
    (file : option string) (dim : Z) (state : indexState) :
  (forall e, P {| during := file; what := CallEnsureCollection dim reindexAll;
                  failure := e |}) ->
  emits P (fun st => Files st = Files state)
    (ensureCollection qdrant reindexAll file dim state).
Proof.
  intros HP. unfold ensureCollection.
  destruct (dim <=? 0); [apply emits_fail|].
  eapply emits_bind; [apply emits_remote_call, HP|].
  intros _ _. now apply emits_ret.
Qed.

Lemma emits_embed_batches (fuel : nat) (reindexAll : bool) (file : fileEntry)
    (chunks : list chunk) :
  Forall (fun c => Path c = RelPath file) chunks ->
  forall start state summary,
    emits (belongs_to (RelPath file)) (batches_post state summary)
      (embed_batches cfg embedder qdrant fuel reindexAll file chunks
         start state summary).
Proof.
  intros Hchunks.
  induction fuel as [|fuel IH]; intros start state summary; simpl;
    (destruct (start <? len_slice chunks);
     [|apply emits_ret; unfold batches_post; auto]).
  - apply emits_out_of_fuel.
  - destruct (_ <? start); [apply emits_panic|].
    eapply emits_bind; [apply emits_call_EmbedBatch; now split|].
    intros embeddings _.
    destruct (negb _); [apply emits_fail|].
    eapply emits_bind with (Q1 := fun st => Files st = Files state).
    + destruct (EmbeddingDimension state =? 0); [|now apply emits_ret].
      destruct embeddings as [|first ?]; [apply emits_panic|].
      destruct (_ && _); [apply emits_fail|].
      apply emits_ensureCollection. now split.
    + intros state' Hst.
      eapply emits_bind.
      * apply emits_remote_call. intros e. split; [reflexivity|]. simpl.
        apply make_points_paths. now apply Forall_slice.
      * intros _ _. eapply emits_weaken; [| |apply IH]; [auto|].
        intros [st' su'] (H1 & H2 & H3). unfold batches_post in *. simpl in *.
        rewrite H1, H2, H3. auto.
Qed.

(** The file is one the incremental run leaves alone: the manifest
    records it with the marker it has now. *)
Definition unchanged (state : indexState) (f : fileEntry) : bool :=
  match Files state !! RelPath f with
  | Some prev => prev =? MTime f
  | None => false
  end.

Lemma index_file_skip (fuel : nat) (file : fileEntry) (state : indexState)
    (summary : IndexSummary) :
  unchanged state file = true ->
  index_file cfg embedder qdrant fs fuel false file state summary
  = mret (state, add_SkippedFiles 1 summary).
Proof.
  unfold unchanged, index_file. intros Hu. simpl.
  destruct (Files state !! RelPath file); [|discriminate]. now rewrite Hu.
Qed.

Definition file_post (file : fileEntry) (state : indexState)
    (summary : IndexSummary) (p : indexState * IndexSummary) : Prop :=
  (forall k, k <> RelPath file -> Files p.1 !! k = Files state !! k)
  /\ SkippedFiles p.2 = SkippedFiles summary
  /\ RemovedFiles p.2 = RemovedFiles summary.

Lemma chunkMarkdown_paths (fuel : nat) (path content : string)
    (chunkSize chunkOverlap : Z) (chunks : list chunk) :
  chunkMarkdown fuel path content chunkSize chunkOverlap = Some chunks ->
  Forall (fun c => Path c = path) chunks.
Proof.
  unfold chunkMarkdown. intros Hc.
  eapply Forall_impl; [eapply chunk_loop_ok; [| |exact Hc]|].
  - lia.
  - constructor.
  - now intros c [Hp _].
Qed.

(** A file that is not skipped: the events are its own, the file sets
    differ at most at its path, and it is not counted as skipped or
    removed. *)
Lemma emits_index_file (fuel : nat) (reindexAll : bool) (file : fileEntry)
    (state : indexState) (summary : IndexSummary) :
  reindexAll = true \/ unchanged state file = false ->
  emits (belongs_to (RelPath file)) (file_post file state summary)
    (index_file cfg embedder qdrant fs fuel reindexAll file state summary).
Proof.
  intros Hcase. unfold index_file.
  replace (negb reindexAll && _) with false.
  2:{ destruct Hcase as [-> | Hu]; [reflexivity|].
      unfold unchanged in Hu. rewrite Hu. now destruct reindexAll. }
  eapply emits_bind; [apply emits_call_ReadFile; now split|].
  intros content _.
  destruct (chunkMarkdown _ _ _ _ _) as [chunks|] eqn:Hchunks;
    [|apply emits_out_of_fuel].
  destruct (len_slice chunks =? 0).
  { apply emits_ret. unfold file_post. simpl. repeat split.
    intros k Hk. now rewrite lookup_insert_ne. }
  eapply emits_bind; [apply emits_remote_call; now split|]. intros _ _.
  eapply emits_bind.
  { apply emits_embed_batches. eapply chunkMarkdown_paths, Hchunks. }
  intros [st' su'] (H1 & H2 & H3). simpl in *.
  apply emits_ret. unfold file_post. simpl. split.
  - intros k Hk. rewrite lookup_insert_ne by auto. now rewrite H1.
  - now destruct (_ && _).
Qed.

(** *** The removal pass *)

(** The paths among [paths] that the scan did not find. *)
Definition missing (currentFiles : gmap string Z) (paths : list string)
    : list string :=
  List.filter (fun p => bool_decide (currentFiles !! p = None)) paths.

Definition delete_event (p : string) : Ev :=
  {| during := None; what := CallDeleteByPath p; failure := None |}.

Definition removal_event (currentFiles : gmap string Z) (ev : Ev) : Prop :=
  during ev = None
  /\ exists p, what ev = CallDeleteByPath p /\ currentFiles !! p = None.

Definition removal_post (currentFiles : gmap string Z) (paths : list string)
    (state : indexState) (summary : IndexSummary)
    (p : indexState * IndexSummary) : Prop :=
  (forall k, Files p.1 !! k =
             if bool_decide (k ∈ missing currentFiles paths) then None
             else Files state !! k)
  /\ RemovedFiles p.2
     = RemovedFiles summary + Z.of_nat (length (missing currentFiles paths))
  /\ SkippedFiles p.2 = SkippedFiles summary.

Lemma missing_cons (currentFiles : gmap string Z) (path : string)
    (rest : list string) :
  missing currentFiles (path :: rest) =
    match currentFiles !! path with
    | Some _ => missing currentFiles rest
    | None => path :: missing currentFiles rest
    end.
Proof.
  unfold missing. simpl. destruct (currentFiles !! path) eqn:E.
  - rewrite bool_decide_eq_false_2; [reflexivity | discriminate].
  - rewrite bool_decide_eq_true_2; reflexivity.
Qed.

Lemma remove_missing_spec (currentFiles : gmap string Z) (paths : list string) :
  forall state summary r o r' evs,
    remove_missing qdrant currentFiles paths state summary r = (o, r', evs) ->
    Forall (removal_event currentFiles) evs
    /\ forall p, o = Returned p ->
         evs = map delete_event (missing currentFiles paths)
         /\ removal_post currentFiles paths state summary p.
Proof.
  induction paths as [|path rest IH]; intros state summary r o r' evs.
  - intros (-> & -> & ->)%ret_inv. split; [constructor|].
    intros p [= <-]. split; [reflexivity|]. unfold removal_post.
    change (missing currentFiles []) with (@nil string).
    split; [|split; [simpl; lia | reflexivity]]. intros k.
    rewrite bool_decide_eq_false_2; [reflexivity | apply not_elem_of_nil].
  - unfold removal_post. rewrite missing_cons. cbn [remove_missing].
    destruct (currentFiles !! path) as [mt|] eqn:Hcur; [apply IH|].
    intros Hb. apply bind_inv in Hb as (o1 & r1 & evs1 & Hcall & Hrest).
    unfold call_DeleteByPath, remote_call in Hcall.
    destruct (DeleteByPath qdrant path r) as [e r1'].
    injection Hcall as <- <- <-.
    assert (removal_event currentFiles
              {| during := None; what := CallDeleteByPath path;
                 failure := e |}) as Hev.
    { split; [reflexivity|]. exists path. auto. }
    destruct e as [msg|].
    + destruct Hrest as (-> & -> & ->).
      split; [constructor; [exact Hev | constructor] | discriminate].
    + destruct Hrest as (evs2 & Hk & ->).
      destruct (IH _ _ _ _ _ _ Hk) as [Hall Hret].
      split; [constructor; [exact Hev | exact Hall]|].
      intros p ->. destruct (Hret p eq_refl) as (-> & Hf & Hr & Hs).
      split; [reflexivity|]. simpl in Hf, Hr, Hs. simpl length.
      split; [|split; [lia | exact Hs]].
      intros k. rewrite Hf.
      destruct (decide (k = path)) as [-> | Hne].
      * rewrite (bool_decide_eq_true_2 (path ∈ path :: _)) by constructor.
        rewrite lookup_delete_eq. now destruct (bool_decide _).
      * rewrite lookup_delete_ne by auto.
        destruct (bool_decide (k ∈ missing currentFiles rest)) eqn:E.
        -- apply bool_decide_eq_true_1 in E.
           rewrite bool_decide_eq_true_2; [reflexivity | now constructor].
        -- apply bool_decide_eq_false_1 in E.
           rewrite bool_decide_eq_false_2; [reflexivity|].
           intros [? | ?]%elem_of_cons; [congruence | contradiction].
Qed.

Lemma missing_In (currentFiles : gmap string Z) (paths : list string)
    (p : string) :
  p ∈ missing currentFiles paths
  <-> p ∈ paths /\ currentFiles !! p = None.
Proof.
  unfold missing. rewrite !list_elem_of_In, filter_In, bool_decide_eq_true.
  reflexivity.
Qed.

Lemma current_files_lookup (files : list fileEntry) (k : string) :
  current_files files !! k = None <-> ~ In k (map RelPath files).
Proof.
  unfold current_files.
  assert (forall m : gmap string Z,
            foldl (fun m f => <[RelPath f := MTime f]> m) m files !! k = None
            <-> m !! k = None /\ ~ In k (map RelPath files)) as Hgen.
  { induction files as [|f files IH]; intros m; simpl; [tauto|].
    rewrite IH. rewrite lookup_insert_None. split.
    - intros [[Hm Hne] Hn]. split; [exact Hm|]. intros [? | ?]; auto.
    - intros [Hm Hn]. split; [split; [exact Hm|] |]; intros ?; apply Hn; auto. }
  rewrite Hgen, lookup_empty. tauto.
Qed.

(** *** The per-file pass *)

(** The number of files the manifest records with their present marker. *)
Definition skip_count (state : indexState) (files : list fileEntry) : Z :=
  Z.of_nat (length (List.filter (unchanged state) files)).

Lemma skip_count_ext (s1 s2 : indexState) (files : list fileEntry) :
  (forall f, In f files -> unchanged s1 f = unchanged s2 f) ->
  skip_count s1 files = skip_count s2 files.
Proof.
  intros Hext. unfold skip_count. do 2 f_equal.
  induction files as [|f files IH]; [reflexivity|]. simpl.
  rewrite (Hext f) by now left.
  rewrite IH; [reflexivity|]. intros g Hg. apply Hext. now right.
Qed.

Lemma unchanged_ext (s1 s2 : indexState) (f : fileEntry) :
  Files s1 !! RelPath f = Files s2 !! RelPath f ->
  unchanged s1 f = unchanged s2 f.
Proof. unfold unchanged. now intros ->. Qed.

(** An event of the per-file pass: it belongs to one of the files, which
    is not one the run leaves alone (the paths of the files being
    distinct). *)
Definition file_event (reindexAll : bool) (state : indexState)
    (files : list fileEntry) (ev : Ev) : Prop :=
  exists f, In f files /\ belongs_to (RelPath f) ev
            /\ (NoDup (map RelPath files) ->
                reindexAll = true \/ unchanged state f = false).

Definition files_post (reindexAll : bool) (files : list fileEntry)
    (state : indexState) (summary : IndexSummary)
    (p : indexState * IndexSummary) : Prop :=
  (forall k, ~ In k (map RelPath files) -> Files p.1 !! k = Files state !! k)
  /\ (NoDup (map RelPath files) ->
      SkippedFiles p.2
      = SkippedFiles summary
        + (if reindexAll then 0 else skip_count state files))
  /\ RemovedFiles p.2 = RemovedFiles summary.

Lemma emits_index_files (fuel : nat) (reindexAll : bool)
    (files : list fileEntry) :
  forall state summary,
    emits (file_event reindexAll state files)
      (files_post reindexAll files state summary)
      (index_files cfg embedder qdrant fs fuel reindexAll files state summary).
Proof.
  induction files as [|f files IH]; intros state summary; simpl.
  - apply emits_ret. unfold files_post, skip_count. simpl.
    split; [reflexivity|]. split; [|reflexivity]. destruct reindexAll; lia.
  - assert (forall st1 : indexState,
              NoDup (RelPath f :: map RelPath files) ->
              (forall k, k <> RelPath f -> Files st1 !! k = Files state !! k) ->
              forall g, In g files -> unchanged st1 g = unchanged state g)
      as Hsame.
    { intros st1 [Hf _]%NoDup_cons Hst1 g Hg. apply unchanged_ext, Hst1.
      intros Heq. apply Hf. rewrite <- Heq.
      apply list_elem_of_In, in_map, Hg. }
    destruct (negb reindexAll && unchanged state f) eqn:Hskip.
    + apply andb_true_iff in Hskip as [Hr Hu].
      apply negb_true_iff in Hr. subst reindexAll.
      rewrite (index_file_skip _ _ _ _ Hu).
      eapply emits_bind;
        [apply emits_ret
           with (Q := fun p => p = (state, add_SkippedFiles 1 summary));
         reflexivity|].
      intros [st1 su1] [= -> ->].
      eapply emits_weaken; [| |apply IH].
      * intros ev (g & Hg & Hb & Hc). exists g. split; [now right|].
        split; [exact Hb|]. intros [_ Hnd]%NoDup_cons. auto.
      * intros [st' su'] (H1 & H2 & H3). unfold files_post in *. simpl in *.
        split; [|split].
        -- intros k Hk. apply H1. tauto.
        -- intros [_ Hnd]%NoDup_cons. rewrite (H2 Hnd).
           unfold skip_count. simpl. rewrite Hu. simpl length. lia.
        -- exact H3.
    + assert (reindexAll = true \/ unchanged state f = false) as Hcase.
      { destruct reindexAll; [now left | right]. exact Hskip. }
      eapply emits_bind.
      * eapply emits_weaken; [| |apply (emits_index_file _ _ _ _ _ Hcase)].
        -- intros ev Hb. exists f. split; [now left | auto].
        -- intros p Hp. exact Hp.
      * intros [st1 su1] (H1 & H2 & H3). simpl in *.
        eapply emits_weaken; [| |apply IH].
        -- intros ev (g & Hg & Hb & Hc). exists g.
           split; [now right|]. split; [exact Hb|]. intros Hnd.
           destruct (Hc (proj2 (proj1 (NoDup_cons _ _) Hnd))) as [Hc' | Hc'];
             [now left | right].
           now rewrite <- (Hsame st1 Hnd H1 g Hg).
        -- intros [st' su'] (H1' & H2' & H3'). unfold files_post in *.
           simpl in *. split; [|split].
           ++ intros k Hk. rewrite H1' by tauto. apply H1.
              intros ->. apply Hk. now left.
           ++ intros Hnd.
              rewrite (H2' (proj2 (proj1 (NoDup_cons _ _) Hnd))), H2.
              destruct reindexAll; [lia|].
              rewrite (skip_count_ext st1 state files (Hsame st1 Hnd H1)).
              destruct Hcase as [? | Hu]; [discriminate|].
              unfold skip_count. simpl. rewrite Hu. lia.
           ++ rewrite H3', H3. reflexivity.
Qed.

(** *** The passes together *)

Definition ensure_event (ev : Ev) : Prop :=
  during ev = None /\ exists dim recreate,
    what ev = CallEnsureCollection dim recreate.

(** The file set the passes start from: the one of the manifest, emptied
    for a full rebuild. *)
Definition start_files (reindexAll : bool) (state : indexState)
    : gmap string Z :=
  if reindexAll then ∅ else Files state.

(** The manifest at the start of the per-file pass agrees with the one
    the passes started from on the files found. *)
Definition agrees_on (reindexAll : bool) (files : list fileEntry)
    (state st : indexState) : Prop :=
  forall f, In f files ->
    Files st !! RelPath f = start_files reindexAll state !! RelPath f.

Definition pass_event (reindexAll : bool) (files : list fileEntry)
    (state : indexState) (ev : Ev) : Prop :=
  ensure_event ev
  \/ removal_event (current_files files) ev
  \/ exists st, agrees_on reindexAll files state st
                /\ file_event reindexAll st files ev.

Lemma sync_passes_inv (fuel : nat) (reindexAll : bool) (files : list fileEntry)
    (state : indexState) (r : Remote)
    (o : outcome (indexState * IndexSummary)) (r' : Remote) (evs : list Ev) :
  sync_passes cfg embedder qdrant fs fuel reindexAll files state r
  = (o, r', evs) ->
  Forall (pass_event reindexAll files state) evs
  /\ forall p, o = Returned p ->
       let gone :=
         missing (current_files files)
           (range_keys (start_files reindexAll state)) in
       (exists evsA evsC,
          evs = (evsA ++ map delete_event gone ++ evsC)%list
          /\ Forall ensure_event evsA
          /\ exists st, agrees_on reindexAll files state st
                        /\ Forall (file_event reindexAll st files) evsC
                        /\ (NoDup (map RelPath files) ->
                            SkippedFiles p.2
                            = if reindexAll then 0 else skip_count st files))
       /\ (forall k, ~ In k (map RelPath files) ->
             Files p.1 !! k =
               if bool_decide (k ∈ gone) then None
               else start_files reindexAll state !! k)
       /\ RemovedFiles p.2 = Z.of_nat (length gone).
Proof.
  intros Hsync. unfold sync_passes in Hsync.
  apply bind_inv in Hsync as (o1 & r1 & evsA & Hens & Hrest).
  assert (Forall ensure_event evsA
          /\ forall st1, o1 = Returned st1 -> Files st1 = Files state)
    as [HevA HstA].
  { destruct (0 <? _).
    - eapply (emits_ensureCollection ensure_event); [|exact Hens].
      intros e. split; [reflexivity | eauto].
    - apply ret_inv in Hens as (-> & -> & ->).
      split; [constructor | now intros ? [= <-]]. }
  assert (Forall (pass_event reindexAll files state) evsA) as HpA.
  { eapply Forall_impl; [exact HevA|]. intros ev Hev. now left. }
  destruct o1 as [st1 | e | |];
    try (destruct Hrest as (-> & -> & ->); split; [exact HpA | discriminate]).
  destruct Hrest as (evs2 & Hk & ->).
  specialize (HstA st1 eq_refl).
  set (st2 := if reindexAll then set_Files ∅ st1 else st1) in Hk.
  assert (Files st2 = start_files reindexAll state) as Hst2.
  { subst st2. unfold start_files.
    destruct reindexAll; [reflexivity | exact HstA]. }
  apply bind_inv in Hk as (o2 & r2 & evsB & Hrem & Hrest).
  rewrite Hst2 in Hrem.
  destruct (remove_missing_spec _ _ _ _ _ _ _ _ Hrem) as [HevB HretB].
  assert (Forall (pass_event reindexAll files state) evsB) as HpB.
  { eapply Forall_impl; [exact HevB|]. intros ev Hev. right. now left. }
  destruct o2 as [[st3 su3] | e | |];
    try (destruct Hrest as (-> & -> & ->);
         split; [now apply Forall_app | discriminate]).
  destruct Hrest as (evsC & Hfiles & ->).
  destruct (HretB _ eq_refl) as (-> & Hf3 & Hr3 & Hs3). simpl in *.
  assert (agrees_on reindexAll files state st3) as Hst3.
  { intros f Hf. rewrite Hf3, Hst2.
    rewrite bool_decide_eq_false_2; [reflexivity|].
    rewrite missing_In, current_files_lookup. intros [_ Hn]. apply Hn.
    now apply in_map. }
  destruct (emits_index_files fuel reindexAll files st3 su3 _ _ _ _ Hfiles)
    as [HevC HretC].
  split.
  - apply Forall_app. split; [exact HpA|]. apply Forall_app. split; [exact HpB|].
    eapply Forall_impl; [exact HevC|]. intros ev Hev. right. right.
    exists st3. auto.
  - intros [st' su'] ->. destruct (HretC _ eq_refl) as (H1 & H2 & H3).
    simpl in *. split; [|split].
    + exists evsA, evsC. split; [reflexivity|]. split; [exact HevA|].
      exists st3. split; [exact Hst3|]. split; [exact HevC|].
      intros Hnd. rewrite (H2 Hnd), Hs3. simpl. now destruct reindexAll.
    + intros k Hk. rewrite (H1 k Hk), Hf3, Hst2. reflexivity.
    + rewrite H3, Hr3. simpl. reflexivity.
Qed.

(** *** Skipped files and removed files *)

Lemma NoDup_map_inj {A B : Type} (F : A -> B) (l : list A) (a b : A) :
  NoDup (map F l) -> In a l -> In b l -> F a = F b -> a = b.
Proof.
  induction l as [|x l IH]; simpl; intros Hnd Ha Hb Heq; [destruct Ha|].
  apply NoDup_cons in Hnd as [Hx Hnd].
  destruct Ha as [-> | Ha], Hb as [-> | Hb]; auto.
  - exfalso. apply Hx. rewrite Heq. now apply list_elem_of_In, in_map.
  - exfalso. apply Hx. rewrite <- Heq. now apply list_elem_of_In, in_map.
Qed.

(** No call of the event is made for the file [f]: the event is not
    recorded during [f], it is not a delete-by-path of the path of [f],
    and it upserts no point of that path. *)
Definition not_about (f : fileEntry) (ev : Ev) : Prop :=
  during ev <> Some (RelPath f)
  /\ what ev <> CallDeleteByPath (RelPath f)
  /\ forall points,
       what ev = CallUpsert points ->
       Forall (fun pt => payload_path (Payload pt) <> RelPath f) points.

Lemma belongs_to_not_about (rel : string) (f : fileEntry) (ev : Ev) :
  rel <> RelPath f -> belongs_to rel ev -> not_about f ev.
Proof.
  intros Hne [Hd Hw]. split; [|split].
  - rewrite Hd. congruence.
  - intros Heq. rewrite Heq in Hw. congruence.
  - intros points Heq. rewrite Heq in Hw.
    eapply Forall_impl; [exact Hw|]. intros pt ->. exact Hne.
Qed.

Lemma save_not_about (f : fileEntry) (ev : Ev) :
  during ev = None -> is_save ev -> not_about f ev.
Proof.
  intros Hd (p & st & Hw). split; [|split].
  - rewrite Hd. discriminate.
  - rewrite Hw. discriminate.
  - intros points. rewrite Hw. discriminate.
Qed.

Lemma saveIndexState_inv (path : string) (state : indexState) (r : Remote)
    (o : outcome unit) (r' : Remote) (evs : list Ev) :
  saveIndexState fs path state r = (o, r', evs) ->
  Forall (fun ev => during ev = None /\ is_save ev) evs
  /\ (forall u, o = Returned u ->
        evs = [ {| during := None;
                   what := CallSaveIndexState path
                             (set_UpdatedAt (Now_RFC3339 fs) state);
                   failure := None |} ]).
Proof.
  unfold saveIndexState. destruct (json_MarshalIndent _).
  - intros [= <- <- <-]. split; [constructor | discriminate].
  - intros [= <- <- <-]. split.
    + repeat constructor. eexists _, _. reflexivity.
    + intros u Hu. destruct (MkdirAll_WriteFile fs path s);
        [discriminate | reflexivity].
Qed.

(** A run of files that the manifest in memory records with their present
    markers: the per-file pass reads none of them, makes no call, leaves the
    manifest as it is, counts each of them and returns. *)
Lemma index_files_skip (fuel : nat) (skipped : list fileEntry)
    (state : indexState) :
  Forall (fun f => unchanged state f = true) skipped ->
  forall (summary : IndexSummary) (r : Remote),
    index_files cfg embedder qdrant fs fuel false skipped state summary r
    = (Returned (state, add_SkippedFiles (len_slice skipped) summary), r, []).
Proof.
  assert (forall (n m : Z) (su : IndexSummary),
            add_SkippedFiles n (add_SkippedFiles m su)
            = add_SkippedFiles (m + n) su) as Hadd.
  { intros n m su. unfold add_SkippedFiles. cbn. f_equal. lia. }
  induction 1 as [|f skipped Hf _ IH]; intros summary r.
  { cbn [index_files]. unfold mret, M_ret. do 3 f_equal.
    unfold add_SkippedFiles, len_slice. cbn [length].
    destruct summary. cbn. repeat f_equal. lia. }
  cbn [index_files]. rewrite (index_file_skip fuel f state summary Hf).
  unfold mbind, M_bind, mret, M_ret. rewrite IH. cbn [app]. do 3 f_equal.
  rewrite Hadd. do 2 f_equal. unfold len_slice. cbn [length]. lia.
Qed.

(** C6: in a run that is not a full rebuild, over files of distinct
    paths, a file that the manifest records with the marker the file has
    now is skipped.  The per-file step on such a file returns at once,
    without an event, with the manifest as it was and [SkippedFiles]
    raised by one, whatever the rest of the manifest and the state of the
    clients; over a run of such files the per-file pass returns with
    [SkippedFiles] raised by their number.  No call of the run is made for
    such a file: no event is recorded during it (its content is not read,
    no embedding, delete-by-path or upsert is issued while it is
    processed), no delete-by-path names its path and no upsert carries a
    point of its path.  When the run returns, its [SkippedFiles] is the
    number of those files. *)
Theorem unchanged_files_are_skipped (fuel : nat) (opts : IndexOptions)
    (r : Remote) (o : outcome IndexSummary) (r' : Remote) (evs : list Ev)
    (st : indexState) (files : list fileEntry) :
  run cfg workspace embedder qdrant fs fuel opts r = (o, r', evs) ->
  loadIndexState fs (statePath workspace) = Some st ->
  reindexAll_of cfg embedder qdrant opts (Some st) = false ->
  listMarkdownFiles fs (expandHome fs (config.VaultPath cfg))
    (config.IncludePatterns cfg) (config.ExcludePatterns cfg) = inr files ->
  NoDup (map RelPath files) ->
  (forall f, In f files -> Files st !! RelPath f = Some (MTime f) ->
     forall (state : indexState) (summary : IndexSummary) (r0 : Remote),
       Files state !! RelPath f = Files st !! RelPath f ->
       index_file cfg embedder qdrant fs fuel false f state summary r0
       = (Returned (state, add_SkippedFiles 1 summary), r0, []))
  /\ (forall (skipped : list fileEntry) (state : indexState)
             (summary : IndexSummary) (r0 : Remote),
        Forall (fun f => In f files
                         /\ Files st !! RelPath f = Some (MTime f)
                         /\ Files state !! RelPath f = Files st !! RelPath f)
          skipped ->
        index_files cfg embedder qdrant fs fuel false skipped state summary r0
        = (Returned (state, add_SkippedFiles (len_slice skipped) summary),
           r0, []))
  /\ (forall f, In f files -> Files st !! RelPath f = Some (MTime f) ->
        Forall (not_about f) evs)
  /\ (forall summary, o = Returned summary ->
        SkippedFiles summary = skip_count st files).
Proof.
  intros Hrun Hload Hre Hlist Hnd.
  assert (forall f (state : indexState),
            Files st !! RelPath f = Some (MTime f) ->
            Files state !! RelPath f = Files st !! RelPath f ->
            unchanged state f = true) as Hunchanged.
  { intros f state Hmt Hsame. unfold unchanged. rewrite Hsame, Hmt.
    apply Z.eqb_refl. }
  split.
  { intros f _ Hmt state summary r0 Hsame.
    now rewrite (index_file_skip fuel f state summary
                   (Hunchanged f state Hmt Hsame)). }
  split.
  { intros skipped state summary r0 Hall. apply index_files_skip.
    eapply Forall_impl; [exact Hall|].
    intros f (_ & Hmt & Hsame). now apply Hunchanged. }
  apply run_inv in Hrun as [[[e ->] ->] | (files' & Hlist' & Hrun)];
    [split; [constructor | discriminate]|].
  rewrite Hlist in Hlist'. injection Hlist' as <-.
  rewrite Hload, Hre in Hrun.
  change (default fresh_state (Some st)) with st in Hrun.
  apply run_passes_inv in Hrun as (o1 & r1 & evs1 & Hsync & Hrest).
  destruct (sync_passes_inv _ _ _ _ _ _ _ _ Hsync) as [Hev Hret].
  assert (forall f, In f files -> Files st !! RelPath f = Some (MTime f) ->
            Forall (not_about f) evs1) as Hevs1.
  { intros f Hf Hmt. eapply Forall_impl; [exact Hev|].
    intros ev [[Hd (dim & rec & Hw)] | [[Hd (p & Hw & Hcur)] | (st' & Hag & Hfe)]].
    - split; [|split].
      + rewrite Hd. discriminate.
      + rewrite Hw. discriminate.
      + intros points. rewrite Hw. discriminate.
    - split; [|split].
      + rewrite Hd. discriminate.
      + rewrite Hw. intros [= ->]. apply current_files_lookup in Hcur.
        apply Hcur. now apply in_map.
      + intros points. rewrite Hw. discriminate.
    - destruct Hfe as (g & Hg & Hb & Hc).
      apply (belongs_to_not_about (RelPath g)); [|exact Hb].
      intros Heq. assert (g = f) as ->
        by (eapply (NoDup_map_inj RelPath); eauto).
      destruct (Hc Hnd) as [? | Hu]; [discriminate|].
      unfold unchanged in Hu. rewrite (Hag f Hf) in Hu. simpl in Hu.
      rewrite Hmt, Z.eqb_refl in Hu. discriminate. }
  split.
  - intros f Hf Hmt. specialize (Hevs1 f Hf Hmt).
    destruct o1 as [[st1 su1] | e | |];
      try (destruct Hrest as (_ & _ & ->); exact Hevs1).
    destruct Hrest as (o2 & evs2 & Hsave & -> & _).
    apply Forall_app. split; [exact Hevs1|].
    apply saveIndexState_inv in Hsave as [Hsave _].
    eapply Forall_impl; [exact Hsave|]. intros ev [Hd Hs].
    now apply save_not_about.
  - intros summary ->.
    destruct o1 as [[st1 su1] | e | |];
      try (destruct Hrest as ([=] & _)).
    destruct Hrest as (o2 & evs2 & Hsave & -> & Ho).
    destruct o2; try discriminate. injection Ho as ->.
    destruct (Hret _ eq_refl) as ((evsA & evsC & _ & _ & st' & Hag & _ & Hsk) & _).
    simpl in Hsk. rewrite (Hsk Hnd).
    apply skip_count_ext. intros f Hf. apply unchanged_ext, Hag, Hf.
Qed.

Definition is_delete_of (p : string) (ev : Ev) : bool :=
  match what ev with
  | CallDeleteByPath q => String.eqb q p
  | _ => false
  end.

(** The number of delete-by-path calls for the path [p]. *)
Definition delete_calls (p : string) (evs : list Ev) : nat :=
  length (List.filter (is_delete_of p) evs).

Lemma delete_calls_app (p : string) (evs1 evs2 : list Ev) :
  delete_calls p (evs1 ++ evs2) = (delete_calls p evs1 + delete_calls p evs2)%nat.
Proof. unfold delete_calls. now rewrite List.filter_app, length_app. Qed.

Lemma delete_calls_none (p : string) (evs : list Ev) :
  Forall (fun ev => what ev <> CallDeleteByPath p) evs ->
  delete_calls p evs = 0%nat.
Proof.
  unfold delete_calls. induction 1 as [|ev evs Hev _ IH]; [reflexivity|].
  simpl. unfold is_delete_of at 1.
  destruct (what ev) as [| q | | | |]; try exact IH.
  destruct (String.eqb_spec q p) as [-> | Hne]; [contradiction | exact IH].
Qed.

Lemma delete_calls_delete_events (p : string) (l : list string) :
  NoDup l ->
  delete_calls p (map delete_event l) = if bool_decide (p ∈ l) then 1%nat else 0%nat.
Proof.
  unfold delete_calls. induction 1 as [|q l Hq Hnd IH].
  - rewrite bool_decide_eq_false_2; [reflexivity | apply not_elem_of_nil].
  - cbn [map List.filter]. unfold is_delete_of at 1. cbn [what delete_event].
    destruct (String.eqb_spec q p) as [-> | Hne].
    + cbn [length]. rewrite IH.
      rewrite (bool_decide_eq_false_2 (p ∈ l)) by exact Hq.
      rewrite bool_decide_eq_true_2; [reflexivity | constructor].
    + rewrite IH. destruct (bool_decide (p ∈ l)) eqn:E.
      * apply bool_decide_eq_true_1 in E.
        rewrite bool_decide_eq_true_2; [reflexivity | now constructor].
      * apply bool_decide_eq_false_1 in E.
        rewrite bool_decide_eq_false_2; [reflexivity|].
        intros [? | ?]%elem_of_cons; [congruence | contradiction].
Qed.

Lemma range_keys_NoDup (m : gmap string Z) : NoDup (range_keys m).
Proof. rewrite range_keys_perm. apply NoDup_fst_map_to_list. Qed.

Lemma range_keys_elem_of (m : gmap string Z) (p : string) :
  p ∈ range_keys m <-> is_Some (m !! p).
Proof.
  rewrite range_keys_perm, list_elem_of_fmap. split.
  - intros ([k v] & -> & Hkv). apply elem_of_map_to_list in Hkv. eauto.
  - intros [v Hv]. exists (p, v). split; [reflexivity|].
    now apply elem_of_map_to_list.
Qed.

(** C7, as amended: the removal pass works on the file set the passes
    start from, which is the one of the manifest in a run that is not a
    full rebuild and is empty in a full rebuild.  In a run that returns,
    the paths of that set that the scan did not find are listed once each
    in [gone]; [RemovedFiles] is their number; a path the scan did not
    find gets exactly one delete-by-path call when it is among them and
    none otherwise; and the manifest that is written records no path that
    the scan did not find. *)
Theorem removed_files_are_deleted_once (fuel : nat) (opts : IndexOptions)
    (r : Remote) (summary : IndexSummary) (r' : Remote) (evs : list Ev)
    (files : list fileEntry) :
  run cfg workspace embedder qdrant fs fuel opts r
  = (Returned summary, r', evs) ->
  listMarkdownFiles fs (expandHome fs (config.VaultPath cfg))
    (config.IncludePatterns cfg) (config.ExcludePatterns cfg) = inr files ->
  let loaded := loadIndexState fs (statePath workspace) in
  let reindexAll := reindexAll_of cfg embedder qdrant opts loaded in
  let tracked := start_files reindexAll (default fresh_state loaded) in
  let gone := missing (current_files files) (range_keys tracked) in
  (reindexAll = false -> exists st, loaded = Some st /\ tracked = Files st)
  /\ (reindexAll = true -> tracked = ∅ /\ gone = [])
  /\ NoDup gone
  /\ (forall p, p ∈ gone
                <-> is_Some (tracked !! p) /\ ~ In p (map RelPath files))
  /\ RemovedFiles summary = Z.of_nat (length gone)
  /\ (forall p, ~ In p (map RelPath files) ->
        delete_calls p evs = if bool_decide (p ∈ gone) then 1%nat else 0%nat)
  /\ exists before path saved,
       evs = (before ++ [ {| during := None;
                             what := CallSaveIndexState path saved;
                             failure := None |} ])%list
       /\ forall p, ~ In p (map RelPath files) -> Files saved !! p = None.
Proof.
  intros Hrun Hlist loaded reindexAll tracked gone.
  assert (forall p, p ∈ gone
                    <-> is_Some (tracked !! p) /\ ~ In p (map RelPath files))
    as Hgone.
  { intros p. subst gone.
    now rewrite missing_In, range_keys_elem_of, current_files_lookup. }
  assert (NoDup gone) as Hnd.
  { subst gone. unfold missing.
    apply NoDup_ListNoDup, List.NoDup_filter, NoDup_ListNoDup, range_keys_NoDup. }
  split; [|split; [|split; [exact Hnd | split; [exact Hgone|]]]].
  { intros Hre. subst tracked reindexAll. rewrite Hre.
    destruct loaded as [st|] eqn:El; [eauto|]. discriminate. }
  { intros Hre. subst gone tracked. rewrite Hre. split; [reflexivity|].
    simpl. destruct (range_keys ∅) as [|k l] eqn:Ek; [reflexivity|].
    assert (k ∈ range_keys (∅ : gmap string Z)) as Hk
      by (rewrite Ek; constructor).
    apply range_keys_elem_of in Hk as [v Hv]. now rewrite lookup_empty in Hv. }
  apply run_inv in Hrun as [[[e [=]] _] | (files' & Hlist' & Hrun)].
  rewrite Hlist in Hlist'. injection Hlist' as <-.
  fold loaded in Hrun. fold reindexAll in Hrun.
  apply run_passes_inv in Hrun as (o1 & r1 & evs1 & Hsync & Hrest).
  destruct (sync_passes_inv _ _ _ _ _ _ _ _ Hsync) as [_ Hret].
  destruct o1 as [[st1 su1] | e | |]; try (destruct Hrest as ([=] & _)).
  destruct Hrest as (o2 & evs2 & Hsave & -> & Ho).
  destruct o2 as [[] | | |]; try discriminate. injection Ho as ->.
  destruct (Hret _ eq_refl)
    as ((evsA & evsC & -> & HevA & st' & _ & HevC & _) & Hfinal & Hremoved).
  fold tracked in Hfinal, Hremoved. fold gone in Hfinal, Hremoved.
  fold tracked. fold gone.
  simpl in Hfinal, Hremoved.
  apply saveIndexState_inv in Hsave as [_ Hsave].
  specialize (Hsave tt eq_refl). subst evs2.
  split; [exact Hremoved|]. split.
  - intros p Hp. rewrite !delete_calls_app.
    rewrite (delete_calls_none p evsA).
    2:{ eapply Forall_impl; [exact HevA|].
        intros ev (_ & dim & rec & ->). discriminate. }
    rewrite (delete_calls_delete_events p gone Hnd).
    rewrite (delete_calls_none p evsC).
    2:{ eapply Forall_impl; [exact HevC|].
        intros ev (g & Hg & [_ Hb] & _) Heq. rewrite Heq in Hb.
        apply Hp. rewrite Hb. now apply in_map. }
    rewrite (delete_calls_none p [_]) by (repeat constructor; discriminate).
    lia.
  - eexists _, _, _. split; [rewrite !app_assoc; reflexivity|].
    intros p Hp. simpl. rewrite (Hfinal p Hp).
    destruct (bool_decide (p ∈ gone)) eqn:E; [reflexivity|].
    apply bool_decide_eq_false_1 in E.
    destruct (tracked !! p) eqn:Et; [|reflexivity].
    exfalso. apply E, Hgone. eauto.
Qed.
End IndexerFacts.

(** ** Runs on a small vault *)

Module Example.

(** The manifest of an earlier run: [a.md] and [old.md] were indexed. *)
Definition manifest : indexState :=
  {| Version := 1; UpdatedAt := "2026-01-01T00:00:00Z";
     Collection := "notes"; EmbeddingModel := "embed-small";
     EmbeddingDimension := 3; ChunkSize := 800; ChunkOverlap := 0;
     IncludePatterns := []; ExcludePatterns := [];
     Files := <["a.md" := 10]> (<["old.md" := 5]> ∅) |}.

(** Stand-ins for the library functions: the digest is the identity, the
    only text that parses as a manifest is ["manifest"], and a map is
    ranged over in the order of its list of entries. *)
Definition runtime : GoRuntime :=
  {| sha1_hex := fun s => s;
     json_Unmarshal :=
       fun data => if String.eqb data "manifest" then Some manifest else None;
     json_MarshalIndent := fun _ => inr "manifest";
     filepath_Join := fun elems => GoStrings.Join elems "/";
     filepath_Clean := fun path => path;
     range_keys := fun m => (map_to_list m).*1;
     range_keys_perm := fun m => reflexivity _ |}.

Definition cfg (dimension : Z) : config.RagConfig :=
  {| config.VaultPath := "/vault"; config.ChunkSize := 800;
     config.ChunkOverlap := 0; config.IncludePatterns := [];
     config.ExcludePatterns := []; config.EmbeddingDimension := dimension |}.

(** The vault holds [a.md], unchanged since the manifest was written, and
    [b.md]; [old.md] is gone.  The manifest file is there when
    [with_manifest] is set. *)
Definition fs (with_manifest : bool) : FileSystem :=
  {| UserHomeDir := "/home/u";
     Stat_IsDir := fun path => String.eqb path "/vault";
     WalkDir := fun root =>
       [ {| walk_path := "/vault"; walk_err := None; walk_IsDir := true;
            walk_Rel := inr "."; walk_ModTime := inr 1 |};
         {| walk_path := "/vault/a.md"; walk_err := None; walk_IsDir := false;
            walk_Rel := inr "a.md"; walk_ModTime := inr 10 |};
         {| walk_path := "/vault/b.md"; walk_err := None; walk_IsDir := false;
            walk_Rel := inr "b.md"; walk_ModTime := inr 20 |} ];
     ReadFile := fun path =>
       if String.eqb path "/ws/rag/index_state.json" then
         if with_manifest then inr "manifest"
         else inl "open /ws/rag/index_state.json: no such file or directory"
       else if String.eqb path "/vault/a.md" then inr "# A
text"
       else if String.eqb path "/vault/b.md" then inr "hello"
       else inl "no such file or directory";
     Now_RFC3339 := "2026-02-02T00:00:00Z";
     MkdirAll_WriteFile := fun _ _ => None |}.

(** An embedding client that answers every text with a vector of
    [dimension] zeros. *)
Definition embedder (dimension : nat) : EmbeddingClient Z unit :=
  {| Model := "embed-small"; BatchSize := 16;
     EmbedBatch := fun texts r =>
       (inr (map (fun _ => replicate dimension 0) texts), r) |}.

(** A vector store that accepts every call, except the upserts when
    [upsert_fails] is set. *)
Definition qdrant (upsert_fails : bool) : QdrantClient Z unit :=
  {| qdrant_Collection := "notes";
     EnsureCollection := fun _ _ r => (None, r);
     Upsert := fun _ r =>
       (if upsert_fails then Some "qdrant API error: 500" else None, r);
     DeleteByPath := fun _ r => (None, r) |}.

Definition files : list fileEntry :=
  [ {| AbsPath := "/vault/a.md"; RelPath := "a.md"; MTime := 10 |};
    {| AbsPath := "/vault/b.md"; RelPath := "b.md"; MTime := 20 |} ].

Definition file_a : fileEntry :=
  {| AbsPath := "/vault/a.md"; RelPath := "a.md"; MTime := 10 |}.

(** An incremental run over the manifest. *)
Definition incremental :=
  Eval vm_compute in
    run (H := runtime) (cfg 3) "/ws" (embedder 3) (qdrant false) (fs true)
      10 {| ReindexAll := false |} tt.

(** A full rebuild, asked for by the caller, over the same manifest. *)
Definition full :=
  Eval vm_compute in
    run (H := runtime) (cfg 3) "/ws" (embedder 3) (qdrant false) (fs true)
      10 {| ReindexAll := true |} tt.

(** A first run, without a manifest, with dimension 3 configured and an
    embedding client that returns vectors of dimension 2. *)
Definition mismatched :=
  Eval vm_compute in
    run (H := runtime) (cfg 3) "/ws" (embedder 2) (qdrant false) (fs false)
      10 {| ReindexAll := false |} tt.

(** An incremental run in which the vector store refuses the upsert. *)
Definition refused :=
  Eval vm_compute in
    run (H := runtime) (cfg 3) "/ws" (embedder 3) (qdrant true) (fs true)
      10 {| ReindexAll := false |} tt.

End Example.


(** The example runs are runs of the model. *)
Lemma incremental_is_run :
  run (H := Example.runtime) (Example.cfg 3) "/ws" (Example.embedder 3)
    (Example.qdrant false) (Example.fs true) 10 {| ReindexAll := false |} tt
  = Example.incremental.
Proof. vm_compute. reflexivity. Defined.

Lemma full_is_run :
  run (H := Example.runtime) (Example.cfg 3) "/ws" (Example.embedder 3)
    (Example.qdrant false) (Example.fs true) 10 {| ReindexAll := true |} tt
  = Example.full.
Proof. vm_compute. reflexivity. Defined.

Lemma mismatched_is_run :
  run (H := Example.runtime) (Example.cfg 3) "/ws" (Example.embedder 2)
    (Example.qdrant false) (Example.fs false) 10 {| ReindexAll := false |} tt
  = Example.mismatched.
Proof. vm_compute. reflexivity. Defined.

Lemma refused_is_run :
  run (H := Example.runtime) (Example.cfg 3) "/ws" (Example.embedder 3)
    (Example.qdrant true) (Example.fs true) 10 {| ReindexAll := false |} tt
  = Example.refused.
Proof. vm_compute. reflexivity. Defined.

(** A short description of a call, to write down the calls of a run. *)
Definition describe {float64 : Type} (ev : event float64) : string :=
  match what ev with
  | CallEnsureCollection _ recreate =>
      if recreate then "EnsureCollection recreate" else "EnsureCollection"
  | CallDeleteByPath path => "DeleteByPath " +:+ path
  | CallEmbedBatch _ => "EmbedBatch"
  | CallUpsert _ => "Upsert"
  | CallReadFile path => "ReadFile " +:+ path
  | CallSaveIndexState path _ => "saveIndexState " +:+ path
  end.

(** The incremental run removes [old.md], skips [a.md] and indexes
    [b.md]. *)
Example incremental_calls :
  Example.incremental.1.1
  = Returned {| TotalFiles := 2; IndexedFiles := 1; UpdatedFiles := 0;
                RemovedFiles := 1; SkippedFiles := 1; Chunks := 1 |}
  /\ map describe Example.incremental.2
     = [ "EnsureCollection"; "DeleteByPath old.md"; "ReadFile /vault/b.md";
         "DeleteByPath b.md"; "EmbedBatch"; "Upsert";
         "saveIndexState /ws/rag/index_state.json" ].
Proof. split; reflexivity. Qed.

(** The full rebuild indexes both files and deletes nothing by path. *)
Example full_calls :
  Example.full.1.1
  = Returned {| TotalFiles := 2; IndexedFiles := 2; UpdatedFiles := 0;
                RemovedFiles := 0; SkippedFiles := 0; Chunks := 2 |}
  /\ map describe Example.full.2
     = [ "EnsureCollection recreate";
         "ReadFile /vault/a.md"; "DeleteByPath a.md"; "EmbedBatch"; "Upsert";
         "ReadFile /vault/b.md"; "DeleteByPath b.md"; "EmbedBatch"; "Upsert";
         "saveIndexState /ws/rag/index_state.json" ].
Proof. split; reflexivity. Qed.

Lemma reindexAll_exactly_on_drift_witness :
  reindexAll_of
    {| config.VaultPath := "/vault"; config.ChunkSize := 500;
       config.ChunkOverlap := 0; config.IncludePatterns := [];
       config.ExcludePatterns := []; config.EmbeddingDimension := 3 |}
    (Example.embedder 3) (Example.qdrant false) {| ReindexAll := false |}
    (loadIndexState (H := Example.runtime) (Example.fs true)
       (statePath (H := Example.runtime) "/ws"))
  = true.
Proof.
  apply (proj1 (proj2 (proj2
           (reindexAll_exactly_on_drift (H := Example.runtime) _ "/ws"
              (Example.embedder 3) (Example.qdrant false) (Example.fs true)
              {| ReindexAll := false |}))) Example.manifest).
  - reflexivity.
  - simpl. lia.
Defined.

Lemma run_aborts_on_failed_call_witness :
  Example.refused.1.1 = Failed "qdrant API error: 500"
  /\ Forall (fun ev => ~ is_save ev) Example.refused.2.
Proof.
  pose (ev := List.last Example.refused.2
                {| during := None; what := CallReadFile ""; failure := None |}).
  destruct (run_aborts_on_failed_call (H := Example.runtime) (Example.cfg 3)
              "/ws" (Example.embedder 3) (Example.qdrant true)
              (Example.fs true) 10 {| ReindexAll := false |} tt
              Example.refused.1.1 tt Example.refused.2 ev
              "qdrant API error: 500") as (Ho & _ & Hsave).
  - vm_compute. reflexivity.
  - vm_compute. do 5 right. left. reflexivity.
  - exact I.
  - reflexivity.
  - split; [exact Ho | exact Hsave].
Defined.

Lemma unchanged_files_are_skipped_witness :
  let summary0 :=
    {| TotalFiles := 2; IndexedFiles := 0; UpdatedFiles := 0;
       RemovedFiles := 1; SkippedFiles := 0; Chunks := 0 |} in
  index_file (H := Example.runtime) (Example.cfg 3) (Example.embedder 3)
    (Example.qdrant false) (Example.fs true) 10 false Example.file_a
    Example.manifest summary0 tt
  = (Returned (Example.manifest, add_SkippedFiles 1 summary0), tt, [])
  /\ Forall (not_about Example.file_a) Example.incremental.2
  /\ exists summary,
       Example.incremental.1.1 = Returned summary /\ SkippedFiles summary = 1.
Proof.
  cbv zeta.
  destruct (unchanged_files_are_skipped (H := Example.runtime) (Example.cfg 3)
              "/ws" (Example.embedder 3) (Example.qdrant false)
              (Example.fs true) 10 {| ReindexAll := false |} tt
              Example.incremental.1.1 tt Example.incremental.2
              Example.manifest Example.files)
    as (Hstep & _ & Hcalls & Hcount).
  - vm_compute. reflexivity.
  - reflexivity.
  - reflexivity.
  - reflexivity.
  - apply (bool_decide_unpack _). vm_compute. exact I.
  - split; [|split].
    + apply Hstep; [now left | reflexivity | reflexivity].
    + apply Hcalls; [now left | reflexivity].
    + eexists. split; [reflexivity|]. rewrite (Hcount _ eq_refl). reflexivity.
Defined.

Lemma removed_files_are_deleted_once_witness :
  delete_calls "old.md" Example.incremental.2 = 1%nat
  /\ forall summary,
       Example.incremental.1.1 = Returned summary -> RemovedFiles summary = 1.
Proof.
  assert (~ In "old.md" (map RelPath Example.files)) as Hgone.
  { simpl. intros [[=] | [[=] | []]]. }
  split.
  - destruct (removed_files_are_deleted_once (H := Example.runtime)
                (Example.cfg 3) "/ws" (Example.embedder 3)
                (Example.qdrant false) (Example.fs true) 10
                {| ReindexAll := false |} tt
                {| TotalFiles := 2; IndexedFiles := 1; UpdatedFiles := 0;
                   RemovedFiles := 1; SkippedFiles := 1; Chunks := 1 |}
                tt Example.incremental.2 Example.files)
      as (_ & _ & _ & _ & _ & Hdel & _).
    + vm_compute. reflexivity.
    + reflexivity.
    + rewrite (Hdel "old.md" Hgone). vm_compute. reflexivity.
  - intros summary Hs.
    destruct (removed_files_are_deleted_once (H := Example.runtime)
                (Example.cfg 3) "/ws" (Example.embedder 3)
                (Example.qdrant false) (Example.fs true) 10
                {| ReindexAll := false |} tt summary
                tt Example.incremental.2 Example.files)
      as (_ & _ & _ & _ & Hrem & _).
    + rewrite incremental_is_run. rewrite <- Hs. reflexivity.
    + reflexivity.
    + rewrite Hrem. vm_compute. reflexivity.
Defined.

(** C7 as stated fails in a full rebuild: [old.md] is in the file set of
    the manifest and the scan does not find it, yet the run issues no
    delete-by-path for it and counts no removed file: the file set is
    emptied before the removal pass. *)
Lemma full_rebuild_deletes_nothing_by_path :
  loadIndexState (H := Example.runtime) (Example.fs true)
    (statePath (H := Example.runtime) "/ws") = Some Example.manifest
  /\ Files Example.manifest !! "old.md" = Some 5
  /\ listMarkdownFiles (H := Example.runtime) (Example.fs true) "/vault" [] []
     = inr Example.files
  /\ ~ In "old.md" (map RelPath Example.files)
  /\ run (H := Example.runtime) (Example.cfg 3) "/ws" (Example.embedder 3)
       (Example.qdrant false) (Example.fs true) 10 {| ReindexAll := true |} tt
     = Example.full
  /\ exists summary,
       Example.full.1.1 = Returned summary
       /\ RemovedFiles summary = 0
       /\ delete_calls "old.md" Example.full.2 = 0%nat.
Proof.
  split; [reflexivity|]. split; [reflexivity|]. split; [reflexivity|].
  split; [simpl; intros [[=] | [[=] | []]]|].
  split; [exact full_is_run|].
  eexists. split; [reflexivity|]. split; reflexivity.
Qed.

(** C4 fails on the code: with dimension 3 configured, no manifest, and an
    embedding client that returns vectors of dimension 2, the collection
    is ensured with dimension 3 before the first file, which sets the
    dimension of the manifest in memory; the comparison with the
    configured dimension is made only while that dimension is zero, so it
    is never made.  The run returns a summary, every call succeeded, the
    vectors of dimension 2 are upserted and the manifest is saved with
    dimension 3. *)
Theorem dimension_mismatch_goes_undetected :
  config.EmbeddingDimension (Example.cfg 3) = 3
  /\ run (H := Example.runtime) (Example.cfg 3) "/ws" (Example.embedder 2)
       (Example.qdrant false) (Example.fs false) 10 {| ReindexAll := false |} tt
     = Example.mismatched
  /\ Example.mismatched.1.1
     = Returned {| TotalFiles := 2; IndexedFiles := 2; UpdatedFiles := 0;
                   RemovedFiles := 0; SkippedFiles := 0; Chunks := 2 |}
  /\ Forall ok_event Example.mismatched.2
  /\ map describe Example.mismatched.2
     = [ "EnsureCollection recreate";
         "ReadFile /vault/a.md"; "DeleteByPath a.md"; "EmbedBatch"; "Upsert";
         "ReadFile /vault/b.md"; "DeleteByPath b.md"; "EmbedBatch"; "Upsert";
         "saveIndexState /ws/rag/index_state.json" ]
  /\ Forall (fun ev =>
               match what ev with
               | CallUpsert points =>
                   Forall (fun pt => length (Vector pt) = 2%nat) points
               | CallEnsureCollection dim _ => dim = 3
               | CallSaveIndexState _ st => EmbeddingDimension st = 3
               | _ => True
               end) Example.mismatched.2.
Proof.
  split; [reflexivity|]. split; [exact mismatched_is_run|].
  split; [reflexivity|]. split; [repeat constructor|].
  split; [reflexivity|]. repeat constructor.
Qed.

(** ** Glob patterns *)

(** The tokens of a pattern, read rune by rune: two stars together, one
    star, a question mark, or any other character. *)
Inductive glob_token :=
| GStarStar
| GStar
| GQuestion
| GChar (r : Z).

Fixpoint glob_tokens (l : list Z) : list glob_token :=
  match l with
  | [] => []
  | c :: rest =>
      if c =? 42 then
        match rest with
        | c' :: rest' =>
            if c' =? 42 then GStarStar :: glob_tokens rest'
            else GStar :: glob_tokens rest
        | [] => GStar :: glob_tokens rest
        end
      else if c =? 63 then GQuestion :: glob_tokens rest
      else GChar c :: glob_tokens rest
  end.

(** What a pattern matches: a character matches itself, [?] one character
    that is not a line feed, [*] a run of characters without [/], and [**]
    a run of characters without line feed. *)
Inductive glob_matches : list glob_token -> list Z -> Prop :=
| glob_end : glob_matches [] []
| glob_char r toks s :
    glob_matches toks s -> glob_matches (GChar r :: toks) (r :: s)
| glob_question r toks s :
    r <> 10 -> glob_matches toks s -> glob_matches (GQuestion :: toks) (r :: s)
| glob_star seg toks s :
    Forall (fun r => r <> 47) seg -> glob_matches toks s ->
    glob_matches (GStar :: toks) (seg ++ s)
| glob_starstar seg toks s :
    Forall (fun r => r <> 10) seg -> glob_matches toks s ->
    glob_matches (GStarStar :: toks) (seg ++ s).

Definition item_of (t : glob_token) : regexp.item :=
  match t with
  | GStarStar => regexp.StarAnyNotNL
  | GStar => regexp.StarNotSlash
  | GQuestion => regexp.AnyNotNL
  | GChar r => regexp.Lit r
  end.

Lemma match_star_spec (accepts : Z -> bool) (k : list Z -> bool) (s : list Z) :
  regexp.match_star accepts k s = true
  <-> exists seg rest,
        s = (seg ++ rest)%list /\ Forall (fun r => accepts r = true) seg
        /\ k rest = true.
Proof.
  induction s as [|r s IH]; simpl.
  - rewrite orb_false_r. split.
    + intros Hk. exists [], []. repeat split; [constructor | exact Hk].
    + intros (seg & rest & Heq & _ & Hk).
      symmetry in Heq. apply app_eq_nil in Heq as [_ ->]. exact Hk.
  - rewrite orb_true_iff, andb_true_iff, IH. split.
    + intros [Hk | [Hr (seg & rest & -> & Hseg & Hk)]].
      * exists [], (r :: s). repeat split; [constructor | exact Hk].
      * exists (r :: seg), rest.
        repeat split; [constructor; assumption | exact Hk].
    + intros (seg & rest & Heq & Hseg & Hk). destruct seg as [|r' seg].
      * left. simpl in Heq. now subst rest.
      * right. injection Heq as -> ->.
        apply Forall_cons in Hseg as [Hr Hseg].
        split; [exact Hr|]. exists seg, rest. auto.
Qed.

(** The items the expression is compiled to match what the pattern
    matches. *)
Lemma match_items_glob (toks : list glob_token) :
  forall s, regexp.match_items (map item_of toks) s = true
            <-> glob_matches toks s.
Proof.
  induction toks as [|t toks IH]; intros s.
  - simpl. destruct s; split; try discriminate; try constructor.
    intros Hm. inversion Hm.
  - destruct t as [| | | r]; cbn [map item_of regexp.match_items].
    + rewrite match_star_spec. split.
      * intros (seg & rest & -> & Hseg & Hk). constructor.
        -- eapply Forall_impl; [exact Hseg|]. intros r Hr.
           apply negb_true_iff, Z.eqb_neq in Hr. exact Hr.
        -- now apply IH.
      * intros Hm. inversion Hm as [| | | |seg ? rest Hseg Hrest]; subst.
        exists seg, rest. split; [reflexivity|]. split; [|now apply IH].
        eapply Forall_impl; [exact Hseg|]. intros r Hr.
        now apply negb_true_iff, Z.eqb_neq.
    + rewrite match_star_spec. split.
      * intros (seg & rest & -> & Hseg & Hk). constructor.
        -- eapply Forall_impl; [exact Hseg|]. intros r Hr.
           apply negb_true_iff, Z.eqb_neq in Hr. exact Hr.
        -- now apply IH.
      * intros Hm. inversion Hm as [| | |seg ? rest Hseg Hrest|]; subst.
        exists seg, rest. split; [reflexivity|]. split; [|now apply IH].
        eapply Forall_impl; [exact Hseg|]. intros r Hr.
        now apply negb_true_iff, Z.eqb_neq.
    + destruct s as [|r' s]; [split; [discriminate | intros Hm; inversion Hm]|].
      rewrite andb_true_iff, negb_true_iff, Z.eqb_neq, IH. split.
      * intros [Hr Hm]. now constructor.
      * intros Hm. inversion Hm; subst. auto.
    + destruct s as [|r' s]; [split; [discriminate | intros Hm; inversion Hm]|].
      rewrite andb_true_iff, Z.eqb_eq, IH. split.
      * intros [-> Hm]. now constructor.
      * intros Hm. inversion Hm; subst. auto.
Qed.

(** *** The expression written for a pattern, rune by rune *)

(** The punctuation characters that [globToRegex] escapes with a
    backslash: [+ ( ) [ ] { } | ^ $ \]. *)
Definition is_escaped (c : Z) : bool :=
  existsb (Z.eqb c) [43; 40; 41; 91; 93; 123; 125; 124; 94; 36; 92].

Fixpoint loop_runes (l : list Z) : list Z :=
  match l with
  | [] => []
  | c :: rest =>
      if c =? 42 then
        match rest with
        | c' :: rest' =>
            if c' =? 42 then 46 :: 42 :: loop_runes rest'
            else 91 :: 94 :: 47 :: 93 :: 42 :: loop_runes rest
        | [] => 91 :: 94 :: 47 :: 93 :: 42 :: loop_runes rest
        end
      else if c =? 63 then 46 :: loop_runes rest
      else if c =? 46 then 92 :: 46 :: loop_runes rest
      else if is_escaped c then 92 :: c :: loop_runes rest
      else c :: loop_runes rest
  end.

Ltac case_eqb :=
  repeat match goal with
  | |- context [Z.eqb ?a ?b] =>
      destruct (Z.eqb_spec a b); try subst; try lia; cbn [andb orb negb]
  end.

Lemma loop_runes_head (l : list Z) (c : Z) (rest : list Z) :
  (loop_runes l ++ [36])%list = c :: rest -> c <> 42.
Proof.
  destruct l as [|c0 l]; simpl; [intros [= <- _]; lia|].
  destruct (Z.eqb_spec c0 42).
  { destruct l as [|c1 l]; [intros [= <- _]; lia|].
    destruct (c1 =? 42); intros [= <- _]; lia. }
  destruct (Z.eqb_spec c0 63); [intros [= <- _]; lia|].
  destruct (Z.eqb_spec c0 46); [intros [= <- _]; lia|].
  destruct (is_escaped c0); intros [= <- _]; lia.
Qed.

Lemma is_meta_spec (c : Z) :
  regexp.is_meta c = is_escaped c || (c =? 46) || (c =? 42) || (c =? 63).
Proof.
  unfold regexp.is_meta, is_escaped.
  match goal with
  | |- existsb _ ?l = _ =>
      change l with [92; 46; 43; 42; 63; 40; 41; 124; 91; 93; 123; 125; 94; 36]
  end.
  cbn [existsb].
  repeat match goal with
  | |- context [Z.eqb c ?b] => destruct (Z.eqb_spec c b); try subst; try lia
  end; reflexivity.
Qed.

Lemma loop_runes_cons (c : Z) (l : list Z) :
  (c = 42 /\ (exists l', l = 42 :: l'
                         /\ loop_runes (c :: l) = 46 :: 42 :: loop_runes l'
                         /\ glob_tokens (c :: l) = GStarStar :: glob_tokens l'))
  \/ (c = 42 /\ loop_runes (c :: l) = 91 :: 94 :: 47 :: 93 :: 42 :: loop_runes l
      /\ glob_tokens (c :: l) = GStar :: glob_tokens l)
  \/ (c = 63 /\ loop_runes (c :: l) = 46 :: loop_runes l
      /\ glob_tokens (c :: l) = GQuestion :: glob_tokens l)
  \/ (c = 46 /\ loop_runes (c :: l) = 92 :: 46 :: loop_runes l
      /\ glob_tokens (c :: l) = GChar c :: glob_tokens l)
  \/ (is_escaped c = true /\ loop_runes (c :: l) = 92 :: c :: loop_runes l
      /\ glob_tokens (c :: l) = GChar c :: glob_tokens l)
  \/ (regexp.is_meta c = false /\ loop_runes (c :: l) = c :: loop_runes l
      /\ glob_tokens (c :: l) = GChar c :: glob_tokens l).
Proof.
  cbn [loop_runes glob_tokens].
  destruct (Z.eqb_spec c 42) as [-> | Hstar].
  { destruct l as [|c1 l]; [right; left; auto|].
    destruct (Z.eqb_spec c1 42) as [-> | Hc1]; [left | right; left]; eauto 10. }
  destruct (Z.eqb_spec c 63) as [-> | Hq]; [do 2 right; left; auto|].
  destruct (Z.eqb_spec c 46) as [-> | Hdot]; [do 3 right; left; auto|].
  destruct (is_escaped c) eqn:Hesc; [do 4 right; left; auto|].
  do 5 right. split; [|auto]. rewrite is_meta_spec, Hesc. cbn [orb].
  case_eqb; reflexivity.
Qed.

Lemma is_meta_literal (c : Z) :
  regexp.is_meta c = false ->
  (c =? 36) = false /\ (c =? 92) = false /\ (c =? 46) = false
  /\ (c =? 91) = false.
Proof.
  rewrite is_meta_spec. unfold is_escaped. cbn [existsb].
  repeat match goal with
  | |- context [Z.eqb c ?b] => destruct (Z.eqb_spec c b); try subst; try lia
  end; cbn; auto; discriminate.
Qed.

Lemma parse_items_step_lit (fuel : nat) (c : Z) (rest : list Z) :
  regexp.is_meta c = false ->
  regexp.parse_items (S fuel) (c :: rest)
  = cons (regexp.Lit c) <$> regexp.parse_items fuel rest.
Proof.
  intros Hm. destruct (is_meta_literal c Hm) as (H1 & H2 & H3 & H4).
  cbn [regexp.parse_items]. now rewrite H1, H2, H3, H4, Hm.
Qed.

Lemma parse_items_step_escaped (fuel : nat) (c : Z) (rest : list Z) :
  regexp.is_meta c = true ->
  regexp.parse_items (S fuel) (92 :: c :: rest)
  = cons (regexp.Lit c) <$> regexp.parse_items fuel rest.
Proof. intros Hm. cbn [regexp.parse_items]. now rewrite Hm. Qed.

Lemma parse_items_step_any (fuel : nat) (c : Z) (rest : list Z) :
  c <> 42 ->
  regexp.parse_items (S fuel) (46 :: c :: rest)
  = cons regexp.AnyNotNL <$> regexp.parse_items fuel (c :: rest).
Proof.
  intros Hc. cbn [regexp.parse_items].
  change (46 =? 36) with false. change (46 =? 92) with false.
  change (46 =? 46) with true. cbn [andb]. cbn iota.
  now destruct (Z.eqb_spec c 42).
Qed.

Lemma parse_items_step_starstar (fuel : nat) (rest : list Z) :
  regexp.parse_items (S fuel) (46 :: 42 :: rest)
  = cons regexp.StarAnyNotNL <$> regexp.parse_items fuel rest.
Proof. reflexivity. Qed.

Lemma parse_items_step_star (fuel : nat) (rest : list Z) :
  regexp.parse_items (S fuel) (91 :: 94 :: 47 :: 93 :: 42 :: rest)
  = cons regexp.StarNotSlash <$> regexp.parse_items fuel rest.
Proof. reflexivity. Qed.

Lemma parse_loop_runes (n : nat) :
  forall (l : list Z) (fuel : nat),
    (length l <= n)%nat -> (length (loop_runes l) < fuel)%nat ->
    regexp.parse_items fuel (loop_runes l ++ [36])
    = Some (map item_of (glob_tokens l)).
Proof.
  induction n as [|n IH]; intros l fuel Hn Hfuel.
  { destruct l; [|simpl in Hn; lia]. destruct fuel; [simpl in Hfuel; lia|].
    reflexivity. }
  destruct l as [|c l]; [destruct fuel; [simpl in Hfuel; lia | reflexivity]|].
  destruct fuel as [|fuel]; [lia|].
  cbn [length] in Hn.
  destruct (loop_runes_cons c l)
    as [(-> & l' & -> & Hl & Ht) | [(-> & Hl & Ht) | [(-> & Hl & Ht)
        | [(-> & Hl & Ht) | [(Hesc & Hl & Ht) | (Hmeta & Hl & Ht)]]]]];
    rewrite Hl in Hfuel |- *; rewrite Ht; cbn [length app map item_of] in *.
  - rewrite parse_items_step_starstar, (IH l' fuel) by lia. reflexivity.
  - rewrite parse_items_step_star, (IH l fuel) by lia. reflexivity.
  - destruct (loop_runes l ++ [36])%list as [|c' rest'] eqn:Hrest.
    { destruct (loop_runes l); discriminate. }
    rewrite parse_items_step_any by (eapply loop_runes_head; eauto).
    rewrite <- Hrest, (IH l fuel) by lia. reflexivity.
  - rewrite parse_items_step_escaped by reflexivity.
    rewrite (IH l fuel) by lia. reflexivity.
  - rewrite parse_items_step_escaped
      by (rewrite is_meta_spec, Hesc; reflexivity).
    rewrite (IH l fuel) by lia. reflexivity.
  - rewrite parse_items_step_lit by exact Hmeta.
    rewrite (IH l fuel) by lia. reflexivity.
Qed.

(** *** From bytes to runes *)

Lemma bv_inj (c d : ascii) : utf8.bv c = utf8.bv d -> c = d.
Proof.
  unfold utf8.bv. intros Heq. apply N2Z.inj in Heq.
  rewrite <- (ascii_N_embedding c), <- (ascii_N_embedding d). now rewrite Heq.
Qed.

Lemma byte_eqb_bv (c d : ascii) :
  GoStrings.byte_eqb c d = (utf8.bv c =? utf8.bv d).
Proof.
  unfold GoStrings.byte_eqb.
  destruct (Ascii.eqb_spec c d) as [-> | Hne].
  - now rewrite Z.eqb_refl.
  - symmetry. apply Z.eqb_neq. intros Heq. now apply bv_inj in Heq.
Qed.

Definition high (c : ascii) : Prop := 128 <= utf8.bv c.

Lemma DecodeRune_ascii (s0 : ascii) (rest : list ascii) :
  utf8.bv s0 < 128 -> utf8.DecodeRune s0 rest = (utf8.bv s0, 1%nat).
Proof.
  intros Hlt. unfold utf8.DecodeRune.
  now replace (utf8.bv s0 <? 128) with true by (symmetry; now apply Z.ltb_lt).
Qed.

Ltac case_first :=
  unfold utf8.first;
  repeat match goal with
  | |- context [if ?b then _ else _] =>
      let E := fresh "E" in destruct b eqn:E
  end.

Lemma first_spec (s0 : Z) (sz : nat) (lo hi mask : Z) :
  utf8.first s0 = Some (sz, lo, hi, mask) ->
  (2 <= sz <= 4)%nat /\ 128 <= lo /\ hi <= 191
  /\ ((sz = 2%nat /\ mask = 192 /\ 194 <= s0)
      \/ (sz = 3%nat /\ mask = 224 /\ (s0 = 224 /\ 160 <= lo \/ 225 <= s0))
      \/ (sz = 4%nat /\ mask = 240 /\ (s0 = 240 /\ 144 <= lo \/ 241 <= s0))).
Proof.
  case_first; intros [= <- <- <- <-]; repeat split; try lia;
    repeat match goal with
    | H : (_ && _) = true |- _ => apply andb_true_iff in H as [? ?]
    | H : (_ <=? _) = true |- _ => apply Z.leb_le in H
    | H : (_ =? _) = true |- _ => apply Z.eqb_eq in H
    end; lia.
Qed.

Lemma DecodeRune_width (s0 : ascii) (rest : list ascii) :
  (1 <= snd (utf8.DecodeRune s0 rest) <= 4)%nat.
Proof.
  unfold utf8.DecodeRune. destruct (utf8.bv s0 <? 128); [simpl; lia|].
  destruct (utf8.first (utf8.bv s0)) as [[[[sz lo] hi] mask]|] eqn:Ef;
    [|simpl; lia].
  apply first_spec in Ef as (Hsz & _).
  destruct (_ && _); simpl; lia.
Qed.

Lemma accepted_high (lo hi : Z) (mid : list ascii) :
  128 <= lo -> utf8.accepted lo hi mid = true -> Forall high mid.
Proof.
  intros Hlo. destruct mid as [|s1 more]; [discriminate|]. simpl.
  rewrite !andb_true_iff, Z.leb_le, forallb_forall. intros [[H1 _] Hmore].
  constructor; [unfold high; lia|].
  apply Forall_forall. intros c Hc%list_elem_of_In. apply Hmore in Hc.
  unfold utf8.is_cont in Hc. apply andb_true_iff in Hc as [Hc _].
  apply Z.leb_le in Hc. exact Hc.
Qed.

(** A sequence of several bytes decodes to a code point above the ASCII
    range; so does an invalid byte, as [RuneError]. *)
Lemma DecodeRune_high (s0 : ascii) (rest : list ascii) :
  high s0 -> 128 <= fst (utf8.DecodeRune s0 rest).
Proof.
  unfold high. intros Hs0. unfold utf8.DecodeRune.
  replace (utf8.bv s0 <? 128) with false by (symmetry; apply Z.ltb_ge; lia).
  destruct (utf8.first (utf8.bv s0)) as [[[[sz lo] hi] mask]|] eqn:Ef;
    [|simpl; unfold utf8.RuneError; lia].
  apply first_spec in Ef as (Hsz & Hlo & Hhi & Hcase).
  destruct (_ && _) eqn:Hok; [|simpl; unfold utf8.RuneError; lia].
  apply andb_true_iff in Hok as [Hlen Hacc]. apply Nat.eqb_eq in Hlen.
  simpl. unfold utf8.rune_value.
  destruct (take (sz - 1) rest) as [|s1 more] eqn:Hmid; [discriminate|].
  simpl in Hacc. rewrite !andb_true_iff, !Z.leb_le in Hacc.
  destruct Hacc as [[Hs1 Hs1'] Hmore].
  assert (forall c, In c more -> 128 <= utf8.bv c <= 191) as Hcont.
  { intros c Hc. rewrite forallb_forall in Hmore. apply Hmore in Hc.
    unfold utf8.is_cont in Hc. apply andb_true_iff in Hc as [H1 H2].
    apply Z.leb_le in H1, H2. lia. }
  destruct Hcase as [(-> & -> & H0) | [(-> & -> & H0) | (-> & -> & H0)]];
    simpl in Hlen.
  - destruct more; [|discriminate]. simpl. lia.
  - destruct more as [|s2 [|]]; try discriminate. simpl.
    pose proof (Hcont s2 ltac:(now left)). lia.
  - destruct more as [|s2 [|s3 [|]]]; try discriminate. simpl.
    pose proof (Hcont s2 ltac:(now left)).
    pose proof (Hcont s3 ltac:(right; now left)). lia.
Qed.

(** The result for a first byte above the ASCII range depends on the
    bytes after it only through the first [sz - 1] of them, and only when
    these are all above the ASCII range. *)
Lemma DecodeRune_ext (s0 : ascii) (rest rest' : list ascii) :
  (forall k, (k <= 3)%nat ->
     (length (take k rest) = k /\ Forall high (take k rest)
      \/ length (take k rest') = k /\ Forall high (take k rest')) ->
     take k rest = take k rest') ->
  utf8.DecodeRune s0 rest = utf8.DecodeRune s0 rest'.
Proof.
  intros Hext. unfold utf8.DecodeRune.
  destruct (utf8.bv s0 <? 128); [reflexivity|].
  destruct (utf8.first (utf8.bv s0)) as [[[[sz lo] hi] mask]|] eqn:Ef;
    [|reflexivity].
  apply first_spec in Ef as (Hsz & Hlo & Hhi & _).
  specialize (Hext (sz - 1)%nat ltac:(lia)).
  destruct ((length (take (sz - 1) rest) =? sz - 1)%nat
            && utf8.accepted lo hi (take (sz - 1) rest)) eqn:E1.
  - apply andb_true_iff in E1 as [Hlen Hacc]. apply Nat.eqb_eq in Hlen.
    assert (take (sz - 1) rest = take (sz - 1) rest') as Heq.
    { apply Hext. left. split; [exact Hlen|].
      exact (accepted_high lo hi _ Hlo Hacc). }
    rewrite <- Heq. now rewrite Hlen, Nat.eqb_refl, Hacc.
  - destruct ((length (take (sz - 1) rest') =? sz - 1)%nat
              && utf8.accepted lo hi (take (sz - 1) rest')) eqn:E2;
      [|reflexivity].
    apply andb_true_iff in E2 as [Hlen Hacc]. apply Nat.eqb_eq in Hlen.
    assert (take (sz - 1) rest = take (sz - 1) rest') as Heq.
    { apply Hext. right. split; [exact Hlen|].
      exact (accepted_high lo hi _ Hlo Hacc). }
    rewrite Heq in E1. now rewrite Hlen, Nat.eqb_refl, Hacc in E1.
Qed.

Lemma decode_fuel (f1 : nat) :
  forall (f2 : nat) (l : list ascii),
    (length l <= f1)%nat -> (length l <= f2)%nat ->
    utf8.decode f1 l = utf8.decode f2 l.
Proof.
  induction f1 as [|f1 IH]; intros f2 l H1 H2.
  - destruct l; [|simpl in H1; lia]. now destruct f2.
  - destruct l as [|s0 rest]; [now destruct f2|].
    destruct f2 as [|f2]; [simpl in H2; lia|].
    cbn [utf8.decode]. f_equal.
    pose proof (DecodeRune_width s0 rest) as Hw.
    simpl in H1, H2.
    apply IH; rewrite length_drop; simpl; lia.
Qed.

Lemma runes_of_cons (s0 : ascii) (rest : list ascii) :
  utf8.runes_of (s0 :: rest)
  = fst (utf8.DecodeRune s0 rest)
    :: utf8.runes_of (drop (snd (utf8.DecodeRune s0 rest) - 1) rest).
Proof.
  unfold utf8.runes_of. cbn [length utf8.decode map]. f_equal.
  pose proof (DecodeRune_width s0 rest) as Hw.
  replace (drop (snd (utf8.DecodeRune s0 rest)) (s0 :: rest))
    with (drop (snd (utf8.DecodeRune s0 rest) - 1) rest).
  2:{ destruct (snd (utf8.DecodeRune s0 rest)) as [|w]; [lia|].
      simpl. now rewrite Nat.sub_0_r. }
  f_equal. apply decode_fuel; rewrite ?length_drop; lia.
Qed.

(** The validity of a byte sequence as UTF-8, as [utf8.ValidString]
    decides it. *)
Definition valid_bytes (l : list ascii) : bool :=
  forallb
    (fun rn => negb ((fst rn =? utf8.RuneError) && (snd rn =? 1)%nat))
    (utf8.decode (length l) l).

Lemma valid_bytes_cons (s0 : ascii) (rest : list ascii) :
  valid_bytes (s0 :: rest)
  = negb ((fst (utf8.DecodeRune s0 rest) =? utf8.RuneError)
          && (snd (utf8.DecodeRune s0 rest) =? 1)%nat)
    && valid_bytes (drop (snd (utf8.DecodeRune s0 rest) - 1) rest).
Proof.
  unfold valid_bytes. cbn [length utf8.decode forallb]. f_equal.
  pose proof (DecodeRune_width s0 rest) as Hw.
  replace (drop (snd (utf8.DecodeRune s0 rest)) (s0 :: rest))
    with (drop (snd (utf8.DecodeRune s0 rest) - 1) rest).
  2:{ destruct (snd (utf8.DecodeRune s0 rest)) as [|w]; [lia|].
      simpl. now rewrite Nat.sub_0_r. }
  f_equal. apply decode_fuel; rewrite ?length_drop; lia.
Qed.

Lemma bytes_length (s : string) : length (GoStrings.bytes s) = String.length s.
Proof. induction s as [|c s IH]; simpl; [reflexivity | now rewrite IH]. Qed.

Lemma ValidString_valid_bytes (s : string) :
  utf8.ValidString s = valid_bytes (GoStrings.bytes s).
Proof. unfold utf8.ValidString, valid_bytes. now rewrite bytes_length. Qed.

Lemma runes_of_ascii (c : ascii) (l : list ascii) :
  utf8.bv c < 128 -> utf8.runes_of (c :: l) = utf8.bv c :: utf8.runes_of l.
Proof.
  intros Hc. rewrite runes_of_cons, DecodeRune_ascii by exact Hc.
  simpl. now rewrite drop_0.
Qed.

Lemma valid_bytes_ascii (c : ascii) (l : list ascii) :
  utf8.bv c < 128 -> valid_bytes (c :: l) = valid_bytes l.
Proof.
  intros Hc. rewrite valid_bytes_cons, DecodeRune_ascii by exact Hc.
  simpl. rewrite drop_0.
  replace (utf8.bv c =? utf8.RuneError) with false; [reflexivity|].
  symmetry. apply Z.eqb_neq. unfold utf8.RuneError. lia.
Qed.

(** *** The loop of [globToRegex], byte by byte and rune by rune *)

Lemma is_escaped_bytes (ch : ascii) :
  existsb (GoStrings.byte_eqb ch)
    ["+"; "("; ")"; "["; "]"; "{"; "}"; "|"; "^"; "$"; "\"]%char
  = is_escaped (utf8.bv ch).
Proof.
  unfold is_escaped. cbn [existsb]. rewrite !byte_eqb_bv. reflexivity.
Qed.

Lemma is_escaped_ascii (c : Z) : is_escaped c = true -> c < 128.
Proof.
  unfold is_escaped. cbn [existsb]. rewrite !orb_true_iff, !Z.eqb_eq. lia.
Qed.

Lemma globToRegex_loop_cons (ch : ascii) (rest : list ascii) :
  globToRegex_loop (ch :: rest)
  = if utf8.bv ch =? 42 then
      match rest with
      | ch' :: rest' =>
          if utf8.bv ch' =? 42
          then ("." :: "*" :: globToRegex_loop rest')%char
          else ("[" :: "^" :: "/" :: "]" :: "*" :: globToRegex_loop rest)%char
      | [] => ("[" :: "^" :: "/" :: "]" :: "*" :: globToRegex_loop rest)%char
      end
    else if utf8.bv ch =? 63 then ("." :: globToRegex_loop rest)%char
    else if utf8.bv ch =? 46 then ("\" :: "." :: globToRegex_loop rest)%char
    else if is_escaped (utf8.bv ch) then ("\" :: ch :: globToRegex_loop rest)%char
    else ch :: globToRegex_loop rest.
Proof.
  cbn [globToRegex_loop]. rewrite is_escaped_bytes, !byte_eqb_bv.
  destruct rest as [|ch' rest']; [reflexivity|].
  rewrite byte_eqb_bv. reflexivity.
Qed.

(** The loop copies a byte above the ASCII range. *)
Lemma globToRegex_loop_high (ch : ascii) (rest : list ascii) :
  high ch -> globToRegex_loop (ch :: rest) = ch :: globToRegex_loop rest.
Proof.
  unfold high. intros Hch. rewrite globToRegex_loop_cons.
  destruct (Z.eqb_spec (utf8.bv ch) 42); [lia|].
  destruct (Z.eqb_spec (utf8.bv ch) 63); [lia|].
  destruct (Z.eqb_spec (utf8.bv ch) 46); [lia|].
  destruct (is_escaped (utf8.bv ch)) eqn:Hesc; [|reflexivity].
  apply is_escaped_ascii in Hesc. lia.
Qed.

Lemma globToRegex_loop_high_app (mid tail : list ascii) :
  Forall high mid ->
  globToRegex_loop (mid ++ tail) = (mid ++ globToRegex_loop tail)%list.
Proof.
  induction 1 as [|ch mid Hch _ IH]; [reflexivity|].
  cbn [app]. rewrite globToRegex_loop_high by exact Hch. now rewrite IH.
Qed.

(** What the loop writes for an ASCII byte starts with an ASCII byte. *)
Lemma globToRegex_loop_ascii (ch : ascii) (rest : list ascii) :
  utf8.bv ch < 128 ->
  exists c0 tl, globToRegex_loop (ch :: rest) = c0 :: tl /\ utf8.bv c0 < 128.
Proof.
  intros Hch. rewrite globToRegex_loop_cons.
  destruct (utf8.bv ch =? 42).
  { destruct rest as [|ch' rest']; [|destruct (utf8.bv ch' =? 42)];
      eexists _, _; (split; [reflexivity|]); reflexivity. }
  destruct (utf8.bv ch =? 63); [eexists _, _; split; reflexivity|].
  destruct (utf8.bv ch =? 46); [eexists _, _; split; reflexivity|].
  destruct (is_escaped (utf8.bv ch));
    eexists _, _; (split; [reflexivity|]); [reflexivity | exact Hch].
Qed.

Lemma high_prefix (k : nat) :
  forall rest : list ascii,
    length (take k (globToRegex_loop rest ++ ["$"%char])) = k
    /\ Forall high (take k (globToRegex_loop rest ++ ["$"%char]))
    \/ length (take k rest) = k /\ Forall high (take k rest) ->
    take k (globToRegex_loop rest ++ ["$"%char]) = take k rest.
Proof.
  induction k as [|k IH]; intros rest Hk; [reflexivity|].
  destruct rest as [|c rest].
  { destruct Hk as [[_ Hhigh] | [Hlen _]]; [|discriminate].
    cbn in Hhigh. apply Forall_cons in Hhigh as [Hc _].
    unfold high in Hc. vm_compute in Hc. now contradiction Hc. }
  destruct (Z.ltb_spec (utf8.bv c) 128) as [Hc | Hc].
  - exfalso. destruct (globToRegex_loop_ascii c rest Hc) as (c0 & tl & Heq & Hc0).
    rewrite Heq in Hk. cbn [app take] in Hk.
    destruct Hk as [[_ Hhigh] | [_ Hhigh]];
      apply Forall_cons in Hhigh as [Hh _]; unfold high in Hh; lia.
  - rewrite globToRegex_loop_high in Hk |- * by exact Hc.
    cbn [app take length] in Hk |- *. f_equal. apply IH.
    destruct Hk as [[Hlen Hhigh] | [Hlen Hhigh]]; [left | right];
      (split; [lia | now apply Forall_cons in Hhigh as [_ Hhigh]]).
Qed.

(** Decoding a first byte gives the same rune before and after the loop. *)
Lemma DecodeRune_globToRegex_loop (s0 : ascii) (rest : list ascii) :
  utf8.DecodeRune s0 (globToRegex_loop rest ++ ["$"%char])
  = utf8.DecodeRune s0 rest.
Proof. apply DecodeRune_ext. intros k _. apply high_prefix. Qed.

(** The bytes a rune takes after the first are above the ASCII range. *)
Lemma DecodeRune_mid (s0 : ascii) (rest : list ascii) :
  let w := snd (utf8.DecodeRune s0 rest) in
  length (take (w - 1) rest) = (w - 1)%nat /\ Forall high (take (w - 1) rest).
Proof.
  unfold utf8.DecodeRune.
  destruct (utf8.bv s0 <? 128); [split; [reflexivity | constructor]|].
  destruct (utf8.first (utf8.bv s0)) as [[[[sz lo] hi] mask]|] eqn:Ef;
    [|split; [reflexivity | constructor]].
  apply first_spec in Ef as (Hsz & Hlo & Hhi & _).
  destruct (_ && _) eqn:Hok; [|split; [reflexivity | constructor]].
  apply andb_true_iff in Hok as [Hlen Hacc]. apply Nat.eqb_eq in Hlen.
  cbn [snd]. split; [exact Hlen | exact (accepted_high lo hi _ Hlo Hacc)].
Qed.

Lemma drop_globToRegex_loop (s0 : ascii) (rest : list ascii) :
  let w := snd (utf8.DecodeRune s0 rest) in
  drop (w - 1) (globToRegex_loop rest ++ ["$"%char])
  = (globToRegex_loop (drop (w - 1) rest) ++ ["$"%char])%list.
Proof.
  intros w. destruct (DecodeRune_mid s0 rest) as [Hlen Hhigh]. fold w in Hlen, Hhigh.
  rewrite <- (take_drop (w - 1) rest) at 1.
  rewrite globToRegex_loop_high_app by exact Hhigh.
  rewrite <- app_assoc. apply drop_app_length'. symmetry. exact Hlen.
Qed.

Lemma first_rune_is (c : Z) (s0 : ascii) (rest : list ascii) :
  c < 128 ->
  (fst (utf8.DecodeRune s0 rest) =? c) = (utf8.bv s0 =? c).
Proof.
  intros Hc. destruct (Z.ltb_spec (utf8.bv s0) 128) as [Hs0 | Hs0].
  - now rewrite DecodeRune_ascii.
  - pose proof (DecodeRune_high s0 rest Hs0).
    destruct (Z.eqb_spec (fst (utf8.DecodeRune s0 rest)) c); [lia|].
    destruct (Z.eqb_spec (utf8.bv s0) c); [lia | reflexivity].
Qed.

Lemma loop_runes_high (r : Z) (l : list Z) :
  128 <= r -> loop_runes (r :: l) = r :: loop_runes l.
Proof.
  intros Hr. cbn [loop_runes].
  destruct (Z.eqb_spec r 42); [lia|]. destruct (Z.eqb_spec r 63); [lia|].
  destruct (Z.eqb_spec r 46); [lia|].
  destruct (is_escaped r) eqn:Hesc; [|reflexivity].
  apply is_escaped_ascii in Hesc. lia.
Qed.

Ltac ascii_byte H := first [exact H | vm_compute; reflexivity].

Ltac peel_ascii H :=
  cbn [app];
  repeat rewrite runes_of_ascii by ascii_byte H;
  repeat rewrite valid_bytes_ascii by ascii_byte H.

(** The runes of the expression are what the loop, run over the runes of
    the pattern, writes; and the expression is valid UTF-8 exactly when the
    pattern is. *)
Lemma globToRegex_loop_runes (n : nat) :
  forall p : list ascii,
    (length p <= n)%nat ->
    utf8.runes_of (globToRegex_loop p ++ ["$"%char])
    = (loop_runes (utf8.runes_of p) ++ [36])%list
    /\ valid_bytes (globToRegex_loop p ++ ["$"%char]) = valid_bytes p.
Proof.
  induction n as [|n IH]; intros p Hn.
  { destruct p; [split; reflexivity | simpl in Hn; lia]. }
  destruct p as [|ch rest]; [split; reflexivity|]. cbn [length] in Hn.
  destruct (Z.ltb_spec (utf8.bv ch) 128) as [Hch | Hch].
  2:{ rewrite globToRegex_loop_high by exact Hch. cbn [app].
      rewrite (runes_of_cons ch (globToRegex_loop rest ++ _)),
        (valid_bytes_cons ch (globToRegex_loop rest ++ _)),
        (runes_of_cons ch rest), (valid_bytes_cons ch rest).
      rewrite DecodeRune_globToRegex_loop, drop_globToRegex_loop.
      rewrite loop_runes_high by (now apply DecodeRune_high).
      destruct (IH (drop (snd (utf8.DecodeRune ch rest) - 1) rest)) as [IHr IHv].
      { rewrite length_drop. lia. }
      rewrite IHr, IHv. split; reflexivity. }
  rewrite (runes_of_ascii ch rest Hch), (valid_bytes_ascii ch rest Hch).
  rewrite globToRegex_loop_cons. cbn [loop_runes].
  destruct (Z.eqb_spec (utf8.bv ch) 42) as [Hstar | Hstar].
  { destruct rest as [|ch' rest']; [split; reflexivity|].
    pose proof (runes_of_cons ch' rest') as Hcons.
    destruct (IH (ch' :: rest') ltac:(lia)) as [IHr IHv]. cbn [length] in Hn.
    destruct (utf8.runes_of (ch' :: rest')) as [|r' tl] eqn:Hrunes;
      [discriminate|].
    injection Hcons as Hr' Htl.
    replace (r' =? 42) with (utf8.bv ch' =? 42)
      by (rewrite Hr'; symmetry; apply first_rune_is; lia).
    destruct (Z.eqb_spec (utf8.bv ch') 42) as [Hstar' | Hstar'].
    - destruct (IH rest' ltac:(lia)) as [IHr' IHv'].
      rewrite DecodeRune_ascii in Htl by lia. cbn [snd] in Htl.
      change (drop (1 - 1) rest') with rest' in Htl. subst tl.
      rewrite (valid_bytes_ascii ch' rest') by lia.
      peel_ascii Hch. rewrite IHr', IHv'. split; reflexivity.
    - peel_ascii Hch. rewrite IHr, IHv. split; reflexivity. }
  destruct (IH rest ltac:(lia)) as [IHr IHv].
  destruct (Z.eqb_spec (utf8.bv ch) 63) as [Hq | Hq].
  { peel_ascii Hch. rewrite IHr, IHv. split; reflexivity. }
  destruct (Z.eqb_spec (utf8.bv ch) 46) as [Hdot | Hdot].
  { peel_ascii Hch. rewrite IHr, IHv. split; reflexivity. }
  destruct (is_escaped (utf8.bv ch));
    peel_ascii Hch; rewrite IHr, IHv; split; reflexivity.
Qed.

(** *** What a compiled pattern matches *)

(** A pattern [compilePatterns] keeps: not empty once trimmed, and valid
    UTF-8, which [regexp.Compile] requires of the expression. *)
Definition usable (pattern : string) : Prop :=
  pattern <> "" /\ utf8.ValidString pattern = true.

Definition glob_match (pattern path : string) : Prop :=
  glob_matches (glob_tokens (utf8.runes pattern)) (utf8.runes path).

(** Some usable pattern of the list matches the path. *)
Definition glob_any (patterns : list string) (path : string) : Prop :=
  exists pat,
    In pat patterns /\ usable (GoStrings.TrimSpace pat)
    /\ glob_match (GoStrings.TrimSpace pat) path.

Lemma globToRegex_spec (pattern : string) :
  globToRegex pattern
  = if utf8.ValidString pattern
    then Some (map item_of (glob_tokens (utf8.runes pattern)))
    else None.
Proof.
  unfold globToRegex, regexp.Compile, globToRegex_source, utf8.runes.
  rewrite !ValidString_valid_bytes, !bytes_app, bytes_of_bytes.
  change (GoStrings.bytes "^") with ["^"%char].
  change (GoStrings.bytes "$") with ["$"%char]. cbn [app].
  rewrite valid_bytes_ascii, runes_of_ascii by (vm_compute; reflexivity).
  destruct (globToRegex_loop_runes (length (GoStrings.bytes pattern))
              (GoStrings.bytes pattern) ltac:(lia)) as [Hrunes Hvalid].
  rewrite Hrunes, Hvalid.
  destruct (valid_bytes (GoStrings.bytes pattern)); [|reflexivity].
  change (utf8.bv "^" =? 94) with true. cbn iota.
  apply (parse_loop_runes (length (utf8.runes_of (GoStrings.bytes pattern))));
    [lia|].
  rewrite length_app. cbn [length]. lia.
Qed.

Lemma MatchString_globToRegex (pattern path : string) (re : regexp.Regexp) :
  globToRegex pattern = Some re ->
  regexp.MatchString re path = true <-> glob_match pattern path.
Proof.
  rewrite globToRegex_spec. destruct (utf8.ValidString pattern); [|discriminate].
  intros [= <-]. apply match_items_glob.
Qed.

Lemma usable_dec (pattern : string) :
  (String.eqb pattern "" = false /\ utf8.ValidString pattern = true)
  <-> usable pattern.
Proof. unfold usable. now rewrite String.eqb_neq. Qed.

Lemma matchesAny_compilePatterns (path : string) (patterns : list string) :
  matchesAny path (compilePatterns patterns) = true <-> glob_any patterns path.
Proof.
  unfold matchesAny, glob_any.
  induction patterns as [|pat rest IH]; cbn [compilePatterns].
  { split; [discriminate | intros (? & [] & _)]. }
  cbv zeta. set (p := GoStrings.TrimSpace pat).
  assert ((exists pat0, In pat0 (pat :: rest)
                        /\ usable (GoStrings.TrimSpace pat0)
                        /\ glob_match (GoStrings.TrimSpace pat0) path)
          <-> (usable p /\ glob_match p path)
              \/ exists pat0, In pat0 rest /\ usable (GoStrings.TrimSpace pat0)
                              /\ glob_match (GoStrings.TrimSpace pat0) path)
    as ->.
  { split.
    - intros (pat0 & [<- | Hin] & Hu & Hm); [left; auto | right; eauto].
    - intros [[Hu Hm] | (pat0 & Hin & Hu & Hm)].
      + exists pat. split; [now left | auto].
      + exists pat0. split; [now right | auto]. }
  rewrite <- IH, <- usable_dec.
  destruct (String.eqb p "") eqn:Hempty.
  { split; [now right | intros [[[[=] _] _] | Hrest]; exact Hrest]. }
  pose proof (globToRegex_spec p) as Hspec.
  destruct (utf8.ValidString p) eqn:Hvalid; rewrite Hspec.
  - cbn [existsb]. rewrite orb_true_iff.
    rewrite (MatchString_globToRegex p path _ ltac:(rewrite Hspec; reflexivity)).
    split; (intros [Hm | Hrest]; [left | right; exact Hrest]); tauto.
  - split; [now right | intros [[[_ [=]] _] | Hrest]; exact Hrest].
Qed.

Lemma compilePatterns_nil (patterns : list string) :
  compilePatterns patterns = []
  <-> forall pat, In pat patterns -> ~ usable (GoStrings.TrimSpace pat).
Proof.
  induction patterns as [|pat rest IH]; cbn [compilePatterns].
  { split; [intros _ ? [] | reflexivity]. }
  cbv zeta. set (p := GoStrings.TrimSpace pat).
  assert ((forall pat0, In pat0 (pat :: rest)
                        -> ~ usable (GoStrings.TrimSpace pat0))
          <-> ~ usable p
              /\ forall pat0, In pat0 rest -> ~ usable (GoStrings.TrimSpace pat0))
    as ->.
  { split.
    - intros Hall. split; [apply Hall; now left|].
      intros pat0 Hin. apply Hall. now right.
    - intros [Hp Hrest] pat0 [<- | Hin]; [exact Hp | now apply Hrest]. }
  rewrite <- IH, <- usable_dec.
  destruct (String.eqb p "") eqn:Hempty.
  { split; [intros Hnil; split; [intros [[=] _] | exact Hnil] | tauto]. }
  rewrite globToRegex_spec. destruct (utf8.ValidString p).
  - split; [discriminate | intros [Hp _]; exfalso; apply Hp; auto].
  - split; [intros Hnil; split; [intros [_ [=]] | exact Hnil] | tauto].
Qed.

(** *** The files a listing keeps *)

(** A markdown file among the entries of the walk, with its relative
    path. *)
Definition visited (entries : list WalkEntry) (rel : string) : Prop :=
  exists d,
    In d entries /\ walk_IsDir d = false
    /\ GoFilepath.Ext (walk_path d) = ".md" /\ walk_Rel d = inr rel.

Lemma visited_cons (d : WalkEntry) (entries : list WalkEntry) (rel : string) :
  visited (d :: entries) rel
  <-> (walk_IsDir d = false /\ GoFilepath.Ext (walk_path d) = ".md"
       /\ walk_Rel d = inr rel)
      \/ visited entries rel.
Proof.
  unfold visited. split.
  - intros (d' & [<- | Hin] & Hd); [left; exact Hd | right; eauto].
  - intros [Hd | (d' & Hin & Hd)]; [exists d | exists d']; simpl; auto.
Qed.

(** The test the callback makes on a relative path. *)
Definition kept (includeRegex excludeRegex : list regexp.Regexp)
    (rel : string) : Prop :=
  matchesAny rel excludeRegex = false
  /\ (includeRegex = [] \/ matchesAny rel includeRegex = true).

Lemma kept_dec (includeRegex excludeRegex : list regexp.Regexp) (rel : string) :
  kept includeRegex excludeRegex rel
  <-> matchesAny rel excludeRegex = false
      /\ (0 <? len_slice includeRegex)
         && negb (matchesAny rel includeRegex) = false.
Proof.
  unfold kept, len_slice. rewrite andb_false_iff, negb_false_iff, Z.ltb_ge.
  destruct includeRegex as [|re l]; cbn [length].
  - intuition lia.
  - intuition (try discriminate; try lia).
Qed.

Lemma walk_entries_spec (includeRegex excludeRegex : list regexp.Regexp)
    (entries : list WalkEntry) :
  forall files0 files : list fileEntry,
    walk_entries includeRegex excludeRegex entries files0 = inr files ->
    forall rel,
      In rel (map RelPath files)
      <-> In rel (map RelPath files0)
          \/ visited entries rel /\ kept includeRegex excludeRegex rel.
Proof.
  induction entries as [|d rest IH]; intros files0 files Hwalk rel;
    cbn [walk_entries] in Hwalk.
  { injection Hwalk as <-. unfold visited. split; [auto|].
    intros [Hin | [(d & [] & _) _]]; exact Hin. }
  rewrite visited_cons.
  destruct (walk_err d); [discriminate|].
  destruct (walk_IsDir d) eqn:Hdir.
  { rewrite (IH _ _ Hwalk). intuition discriminate. }
  destruct (String.eqb_spec (GoFilepath.Ext (walk_path d)) ".md") as [Hext | Hext];
    cbn [negb] in Hwalk.
  2:{ rewrite (IH _ _ Hwalk). intuition congruence. }
  destruct (walk_Rel d) as [e | rel_d] eqn:Hrel; [discriminate|].
  pose proof (kept_dec includeRegex excludeRegex rel_d) as Hkept.
  destruct (matchesAny rel_d excludeRegex) eqn:Hexc.
  { rewrite (IH _ _ Hwalk). split; [tauto|].
    intros [Hin | [[(_ & _ & [= <-]) | Hv] Hk]]; [tauto | | tauto].
    apply Hkept in Hk as [[=] _]. }
  destruct ((0 <? len_slice includeRegex)
            && negb (matchesAny rel_d includeRegex)) eqn:Hinc.
  { rewrite (IH _ _ Hwalk). split; [tauto|].
    intros [Hin | [[(_ & _ & [= <-]) | Hv] Hk]]; [tauto | | tauto].
    apply Hkept in Hk as [_ [=]]. }
  destruct (walk_ModTime d) as [e | mtime]; [discriminate|].
  rewrite (IH _ _ Hwalk), map_app, in_app_iff. cbn [map RelPath In].
  split.
  - intros [[Hin | [<- | []]] | Hrest]; [tauto | | tauto].
    right. split; [left; auto | apply Hkept; auto].
  - intros [Hin | [[(_ & _ & [= <-]) | Hv] Hk]]; tauto.
Qed.

(** A vault with nested notes, a file with a line feed in its name and a
    file whose name is not valid UTF-8. *)
Module GlobExample.

Definition lf_path : string := "a" +:+ String "010"%char "b.md".

Definition raw_path : string := String "255"%char ".md".

Definition dir (path rel : string) : WalkEntry :=
  {| walk_path := path; walk_err := None; walk_IsDir := true;
     walk_Rel := inr rel; walk_ModTime := inr 1 |}.

Definition file (rel : string) : WalkEntry :=
  {| walk_path := "/vault/" +:+ rel; walk_err := None; walk_IsDir := false;
     walk_Rel := inr rel; walk_ModTime := inr 1 |}.

Definition fs : FileSystem :=
  {| UserHomeDir := "/home/u";
     Stat_IsDir := fun path => String.eqb path "/vault";
     WalkDir := fun root =>
       [ dir "/vault" "."; file lf_path; file raw_path;
         dir "/vault/notes" "notes"; file "notes/a.md"; file "notes/todo.txt";
         dir "/vault/notes/sub" "notes/sub"; file "notes/sub/b.md" ];
     ReadFile := fun path => inl "no such file or directory";
     Now_RFC3339 := "2026-02-02T00:00:00Z";
     MkdirAll_WriteFile := fun _ _ => None |}.

Definition entry (rel : string) : fileEntry :=
  {| AbsPath := "/vault/" +:+ rel; RelPath := rel; MTime := 1 |}.

End GlobExample.

Lemma not_matchesAny (path : string) (patterns : list string) :
  matchesAny path (compilePatterns patterns) = false
  <-> ~ glob_any patterns path.
Proof.
  rewrite <- matchesAny_compilePatterns.
  destruct (matchesAny path (compilePatterns patterns)); split;
    congruence.
Qed.

(** X29.  The list that [listMarkdownFiles] returns holds the relative path
    of a markdown file of the walk exactly when no exclude pattern matches
    it and either no include pattern is usable or some include pattern
    matches it; so an exclude pattern wins over an include pattern, and with
    an empty include list every file that is not excluded passes.  Patterns
    are trimmed, and a pattern that is then empty or not valid UTF-8 is not
    used.  Pattern and path are compared as the runes that UTF-8 decoding
    reads in them, a byte of the path that is not valid UTF-8 reading as
    U+FFFD, and a pattern matches the whole path: [*] a run of runes without
    [/], [**] a run of runes without line feed, across segments, [?] one
    rune that is not a line feed, any other rune itself. *)
Theorem listing_filters_by_glob `{GoRuntime} (fs : FileSystem) (root : string)
    (includePatterns excludePatterns : list string) (files : list fileEntry) :
  listMarkdownFiles fs root includePatterns excludePatterns = inr files ->
  (forall rel,
     In rel (map RelPath files)
     <-> visited (WalkDir fs (filepath_Clean root)) rel
         /\ ~ glob_any excludePatterns rel
         /\ ((forall pat, In pat includePatterns
                          -> ~ usable (GoStrings.TrimSpace pat))
             \/ glob_any includePatterns rel))
  /\ (includePatterns = [] ->
      forall rel,
        In rel (map RelPath files)
        <-> visited (WalkDir fs (filepath_Clean root)) rel
            /\ ~ glob_any excludePatterns rel).
Proof.
  unfold listMarkdownFiles. intros Hwalk.
  assert (forall rel,
            In rel (map RelPath files)
            <-> visited (WalkDir fs (filepath_Clean root)) rel
                /\ ~ glob_any excludePatterns rel
                /\ ((forall pat, In pat includePatterns
                                 -> ~ usable (GoStrings.TrimSpace pat))
                    \/ glob_any includePatterns rel)) as Hall.
  { intros rel. rewrite (walk_entries_spec _ _ _ _ _ Hwalk rel).
    unfold kept.
    rewrite not_matchesAny, compilePatterns_nil, matchesAny_compilePatterns.
    cbn [map In]. tauto. }
  split; [exact Hall|].
  intros -> rel. rewrite Hall. split; [tauto|].
  intros [Hv Hexc]. split; [exact Hv|]. split; [exact Hexc|].
  left. intros pat [].
Qed.

Lemma listing_filters_by_glob_witness :
  In "notes/a.md"
    (map RelPath [GlobExample.entry "notes/a.md"; GlobExample.entry "notes/sub/b.md"])
  <-> visited (WalkDir GlobExample.fs "/vault") "notes/a.md"
      /\ ~ glob_any ["notes/*/c.md"; " "] "notes/a.md"
      /\ ((forall pat, In pat ["notes/**"]
                       -> ~ usable (GoStrings.TrimSpace pat))
          \/ glob_any ["notes/**"] "notes/a.md").
Proof.
  apply (proj1 (listing_filters_by_glob (H := Example.runtime) GlobExample.fs
                  "/vault" ["notes/**"] ["notes/*/c.md"; " "]
                  [GlobExample.entry "notes/a.md";
                   GlobExample.entry "notes/sub/b.md"]
                  ltac:(vm_compute; reflexivity))).
Defined.

(** C9.  On a path with a line feed the code does not do what the claim
    says: the one character between [a] and [b.md] is not matched by [?],
    and [**] does not match the path, while [*] does match a line feed.  So
    the file is left out under the include pattern [a?b.md], is listed under
    the include pattern [a*b.md], and is listed under the exclude pattern
    [**], which removes every other file. *)
Lemma line_feed_is_not_matched :
  utf8.runes GlobExample.lf_path = [97; 10; 98; 46; 109; 100]
  /\ globToRegex "a?b.md"
     = Some [regexp.Lit 97; regexp.AnyNotNL; regexp.Lit 98; regexp.Lit 46;
             regexp.Lit 109; regexp.Lit 100]
  /\ globToRegex "**" = Some [regexp.StarAnyNotNL]
  /\ globToRegex "*" = Some [regexp.StarNotSlash]
  /\ matchesAny GlobExample.lf_path (compilePatterns ["a?b.md"]) = false
  /\ matchesAny GlobExample.lf_path (compilePatterns ["**"]) = false
  /\ matchesAny GlobExample.lf_path (compilePatterns ["a*b.md"]) = true
  /\ matchesAny GlobExample.lf_path (compilePatterns ["*"]) = true
  /\ listMarkdownFiles (H := Example.runtime) GlobExample.fs "/vault"
       ["a?b.md"] []
     = inr []
  /\ listMarkdownFiles (H := Example.runtime) GlobExample.fs "/vault"
       ["a*b.md"] []
     = inr [GlobExample.entry GlobExample.lf_path]
  /\ listMarkdownFiles (H := Example.runtime) GlobExample.fs "/vault"
       [] ["**"]
     = inr [GlobExample.entry GlobExample.lf_path].
Proof.
  repeat (split; [reflexivity|]). reflexivity.
Qed.

(** A pattern that is not valid UTF-8 is dropped, so the file it names is
    listed although the pattern is an exclude pattern. *)
Lemma invalid_pattern_is_dropped :
  compilePatterns [GlobExample.raw_path] = []
  /\ listMarkdownFiles (H := Example.runtime) GlobExample.fs "/vault"
       [] [GlobExample.raw_path; "notes/**"; "a*"]
     = inr [GlobExample.entry GlobExample.raw_path].
Proof.
  split; reflexivity.
Qed.

(** * Further properties of the code *)

(** ** Chunker: order of the chunks *)

(** The chunks a call appends start at later and later lines; [bound] is a
    line before all of them. *)
Definition starts_after (bound : Z) (c : chunk) : Prop := bound < StartLine c.

(** Every element is related to all the elements after it. *)
Fixpoint ascending (R : chunk -> chunk -> Prop) (l : list chunk) : Prop :=
  match l with
  | [] => True
  | c :: l' => Forall (R c) l' /\ ascending R l'
  end.

Lemma chunk_loop_appends (path : string) (lines headings : list string)
    (chunkSize chunkOverlap : Z) (fuel : nat) :
  forall (i : Z) (chunks out : list chunk),
    0 <= i ->
    chunk_loop fuel path lines headings chunkSize chunkOverlap i chunks
    = Some out ->
    exists new,
      out = (chunks ++ new)%list
      /\ Forall (starts_after i) new
      /\ ascending (fun a b => StartLine a < StartLine b) new
      /\ (chunkOverlap <= 0 ->
          ascending (fun a b => EndLine a < StartLine b) new).
Proof.
  induction fuel as [|fuel IH]; intros i chunks out Hi; [discriminate|].
  cbn [chunk_loop].
  assert (exists new : list chunk,
            chunks = (chunks ++ new)%list /\ Forall (starts_after i) new
            /\ ascending (fun a b => StartLine a < StartLine b) new
            /\ (chunkOverlap <= 0 ->
                ascending (fun a b => EndLine a < StartLine b) new))
    as Hnone.
  { exists []. rewrite app_nil_r. cbn [ascending]. auto. }
  destruct (i <? len_slice lines) eqn:E; [|intros [= <-]; exact Hnone].
  apply Z.ltb_lt in E.
  pose proof (accept_lines_range (length lines) lines chunkSize i 0
                ltac:(lia)) as Hr.
  set (i1 := accept_lines (length lines) lines chunkSize i 0) in *.
  destruct (i1 - 1 <? i) eqn:E1; [intros [= <-]; exact Hnone|].
  apply Z.ltb_ge in E1.
  set (text := GoStrings.TrimSpace (GoStrings.Join (slice lines i i1) "
")).
  match goal with
  | |- context [(chunks ++ [?c0])%list] => set (c := c0)
  end.
  assert (exists added,
            (if negb (String.eqb text "") then (chunks ++ [c])%list else chunks)
            = (chunks ++ added)%list
            /\ (added = [] \/ added = [c])) as (added & -> & Hadded).
  { destruct (negb (String.eqb text ""));
      [exists [c] | exists []]; rewrite ?app_nil_r; auto. }
  assert (Forall (starts_after i) added
          /\ ascending (fun a b => StartLine a < StartLine b) added
          /\ ascending (fun a b => EndLine a < StartLine b) added)
    as (Ha1 & Ha2 & Ha3).
  { destruct Hadded as [-> | ->]; cbn [ascending]; [auto|].
    split; [|auto]. constructor; [|constructor].
    unfold starts_after. simpl. lia. }
  destruct (len_slice lines <=? i1) eqn:E2.
  { intros [= <-]. exists added. auto. }
  apply Z.leb_gt in E2.
  pose proof (resume_at_range lines chunkOverlap i i1 ltac:(lia)) as Hres.
  destruct (Z.eq_dec (resume_at lines chunkOverlap i i1) i) as [Hstuck | Hmoves].
  { rewrite Hstuck.
    pose proof (chunk_loop_stuck path lines headings chunkSize chunkOverlap i)
      as Hnever.
    cbv zeta in Hnever. fold i1 in Hnever.
    rewrite Hnever; [discriminate | lia | lia | exact Hstuck]. }
  intros Hloop.
  destruct (IH (resume_at lines chunkOverlap i i1) _ _ ltac:(lia) Hloop)
    as (new & -> & Hn1 & Hn2 & Hn3).
  exists (added ++ new)%list. rewrite app_assoc.
  split; [reflexivity|].
  assert (Forall (starts_after i) new) as Hn1'.
  { eapply Forall_impl; [exact Hn1|]. unfold starts_after. intros; lia. }
  split; [apply Forall_app; auto|].
  destruct Hadded as [-> | ->]; cbn [app].
  { split; [exact Hn2 | exact Hn3]. }
  split.
  - split; [|exact Hn2].
    eapply Forall_impl; [exact Hn1|]. unfold starts_after. simpl. intros; lia.
  - intros Hco. split; [|now apply Hn3].
    assert (resume_at lines chunkOverlap i i1 = i1) as Hi1.
    { unfold resume_at.
      now replace (0 <? chunkOverlap) with false
        by (symmetry; apply Z.ltb_ge; lia). }
    rewrite Hi1 in Hn1.
    eapply Forall_impl; [exact Hn1|]. unfold starts_after. simpl. intros; lia.
Qed.

Lemma ascending_lookup (R : chunk -> chunk -> Prop) (l : list chunk) :
  ascending R l ->
  forall (k1 k2 : nat) (c1 c2 : chunk),
    (k1 < k2)%nat -> l !! k1 = Some c1 -> l !! k2 = Some c2 -> R c1 c2.
Proof.
  induction l as [|c l IH]; intros Hasc k1 k2 c1 c2 Hlt H1 H2;
    [discriminate|].
  destruct Hasc as [Hc Hl].
  destruct k2 as [|k2]; [lia|]. cbn in H2.
  destruct k1 as [|k1]; cbn in H1.
  - injection H1 as <-. rewrite Forall_forall in Hc. apply Hc.
    eapply list_elem_of_lookup_2. exact H2.
  - apply (IH Hl k1 k2); [lia | exact H1 | exact H2].
Qed.

(** X1: whenever [chunkMarkdown] returns, its chunks are in the order of
    the lines: a chunk later in the list starts at a later line, and with
    no overlap it starts after the line at which the earlier chunk ends. *)
Theorem chunks_follow_the_lines (fuel : nat) (path content : string)
    (chunkSize chunkOverlap : Z) (chunks : list chunk) :
  chunkMarkdown fuel path content chunkSize chunkOverlap = Some chunks ->
  forall (k1 k2 : nat) (c1 c2 : chunk),
    (k1 < k2)%nat -> chunks !! k1 = Some c1 -> chunks !! k2 = Some c2 ->
    StartLine c1 < StartLine c2
    /\ (chunkOverlap <= 0 -> EndLine c1 < StartLine c2).
Proof.
  unfold chunkMarkdown. cbv zeta.
  set (cs := if chunkSize <=? 0 then 800 else chunkSize).
  set (co0 := if chunkOverlap <? 0 then 0 else chunkOverlap).
  set (co := if cs <=? co0 then cs `quot` 2 else co0).
  intros Hrun k1 k2 c1 c2 Hlt H1 H2.
  apply (chunk_loop_appends path _ _ cs co) in Hrun
    as (new & -> & _ & Hstart & Hend); [|lia].
  cbn [app] in H1, H2. split.
  - exact (ascending_lookup _ _ Hstart k1 k2 c1 c2 Hlt H1 H2).
  - intros Hco.
    refine (ascending_lookup _ _ (Hend _) k1 k2 c1 c2 Hlt H1 H2).
    assert (0 < cs) as Hcs.
    { subst cs. destruct (Z.leb_spec chunkSize 0); lia. }
    assert (co0 = 0) as Hco0.
    { subst co0. destruct (Z.ltb_spec chunkOverlap 0); lia. }
    subst co. rewrite Hco0.
    destruct (Z.leb_spec cs 0); lia.
Qed.

Lemma chunks_follow_the_lines_witness :
  let first :=
    {| Path := "doc.md"; Heading := "A"; StartLine := 1; EndLine := 2;
       Content := "# A
text" |} in
  let last :=
    {| Path := "doc.md"; Heading := "C"; StartLine := 5; EndLine := 6;
       Content := "# C
end" |} in
  StartLine first < StartLine last
  /\ (0 <= 0 -> EndLine first < StartLine last).
Proof.
  cbv zeta.
  eapply (chunks_follow_the_lines 4 "doc.md" heading_doc 12 0)
    with (k1 := 0%nat) (k2 := 2%nat);
    [vm_compute; reflexivity | lia | reflexivity | reflexivity].
Defined.

(** ** Chunker: termination *)

Lemma chunk_loop_no_overlap_count (path : string) (lines headings : list string)
    (chunkSize chunkOverlap : Z) :
  chunkOverlap <= 0 ->
  forall (n : nat) (i : Z) (chunks : list chunk),
    0 <= i -> len_slice lines - i <= Z.of_nat n ->
    exists out,
      (forall fuel, (n < fuel)%nat ->
         chunk_loop fuel path lines headings chunkSize chunkOverlap i chunks
         = Some out)
      /\ (length out <= length chunks + n)%nat.
Proof.
  intros Hco n. induction n as [|n IH]; intros i chunks Hi Hn.
  - exists chunks. split; [|lia]. intros [|fuel] Hf; [lia|]. cbn [chunk_loop].
    replace (i <? len_slice lines) with false
      by (symmetry; apply Z.ltb_ge; lia). reflexivity.
  - destruct (i <? len_slice lines) eqn:E.
    2:{ exists chunks. split; [|lia]. intros [|fuel] Hf; [lia|].
        cbn [chunk_loop]. now rewrite E. }
    apply Z.ltb_lt in E.
    assert (exists k, length lines = S k) as [k Hk].
    { unfold len_slice in E. destruct lines; [simpl in E; lia | eauto]. }
    pose proof (accept_lines_progress k lines chunkSize i E) as Hp.
    pose proof (accept_lines_range (S k) lines chunkSize i 0
                  ltac:(lia)) as Hr.
    rewrite <- Hk in Hp, Hr.
    remember (accept_lines (length lines) lines chunkSize i 0) as i1 eqn:Hi1.
    assert (exists chunks',
              (forall fuel,
                 chunk_loop (S fuel) path lines headings chunkSize
                   chunkOverlap i chunks
                 = if len_slice lines <=? i1 then Some chunks'
                   else chunk_loop fuel path lines headings chunkSize
                          chunkOverlap i1 chunks')
              /\ (length chunks' <= S (length chunks))%nat)
      as (chunks' & Hstep & Hlen).
    { eexists. split.
      - intros fuel. cbn [chunk_loop]. rewrite <- Hi1.
        apply Z.ltb_lt in E as E'. rewrite E'.
        replace (i1 - 1 <? i) with false by (symmetry; apply Z.ltb_ge; lia).
        unfold resume_at.
        replace (0 <? chunkOverlap) with false
          by (symmetry; apply Z.ltb_ge; lia).
        reflexivity.
      - destruct (negb _); rewrite ?length_app; cbn [length]; lia. }
    destruct (IH i1 chunks' ltac:(lia) ltac:(lia)) as (out & Hout & Hcount).
    exists (if len_slice lines <=? i1 then chunks' else out). split.
    + intros [|fuel] Hf; [lia|]. rewrite Hstep.
      destruct (len_slice lines <=? i1); [reflexivity|]. apply Hout. lia.
    + destruct (len_slice lines <=? i1); lia.
Qed.

(** X2: without overlap [chunkMarkdown] returns: the loop ends within one
    iteration for each line of the content, whatever the chunk size, and
    there are at most as many chunks as lines. *)
Theorem chunkMarkdown_returns_without_overlap (path content : string)
    (chunkSize chunkOverlap : Z) :
  chunkOverlap <= 0 ->
  exists chunks,
    (forall fuel,
       (length (GoStrings.SplitLF content) < fuel)%nat ->
       chunkMarkdown fuel path content chunkSize chunkOverlap = Some chunks)
    /\ (length chunks <= length (GoStrings.SplitLF content))%nat.
Proof.
  intros Hco. unfold chunkMarkdown. cbv zeta.
  set (cs := if chunkSize <=? 0 then 800 else chunkSize).
  set (co0 := if chunkOverlap <? 0 then 0 else chunkOverlap).
  set (co := if cs <=? co0 then cs `quot` 2 else co0).
  assert (co <= 0) as Hco'.
  { assert (0 < cs) by (subst cs; destruct (Z.leb_spec chunkSize 0); lia).
    assert (co0 = 0) as Hco0
      by (subst co0; destruct (Z.ltb_spec chunkOverlap 0); lia).
    subst co. rewrite Hco0. destruct (Z.leb_spec cs 0); lia. }
  destruct (chunk_loop_no_overlap_count path (GoStrings.SplitLF content)
              (headingsByLine (GoStrings.SplitLF content)) cs co Hco'
              (length (GoStrings.SplitLF content)) 0 [])
    as (out & Hout & Hcount); [lia | unfold len_slice; lia|].
  exists out. split; [exact Hout | exact Hcount].
Qed.

Lemma chunkMarkdown_returns_without_overlap_witness :
  exists chunks,
    (forall fuel,
       (length (GoStrings.SplitLF heading_doc) < fuel)%nat ->
       chunkMarkdown fuel "doc.md" heading_doc 12 0 = Some chunks)
    /\ (length chunks <= length (GoStrings.SplitLF heading_doc))%nat.
Proof.
  apply (chunkMarkdown_returns_without_overlap "doc.md" heading_doc 12 0).
  lia.
Defined.

(** X3: with an overlap, a first line that is closed as a chunk of its own
    stops the scan for ever.  When the content has at least two lines, the
    first two do not fit into one chunk together and
    [0 < chunkOverlap < chunkSize], the walk back over the one-line chunk
    ends on that line, the scan resumes there, and [chunkMarkdown] does not
    return, whatever the number of iterations. *)
Theorem chunkMarkdown_stuck_on_long_first_line (path content : string)
    (chunkSize chunkOverlap : Z) (line1 line2 : string) (rest : list string) :
  GoStrings.SplitLF content = line1 :: line2 :: rest ->
  0 < chunkOverlap < chunkSize ->
  chunkSize < (len line1 + 1) + (len line2 + 1) ->
  forall fuel, chunkMarkdown fuel path content chunkSize chunkOverlap = None.
Proof.
  intros Hlines Hco Hfit fuel. unfold chunkMarkdown. cbv zeta.
  replace (chunkSize <=? 0) with false by (symmetry; apply Z.leb_gt; lia).
  replace (chunkOverlap <? 0) with false by (symmetry; apply Z.ltb_ge; lia).
  replace (chunkSize <=? chunkOverlap) with false
    by (symmetry; apply Z.leb_gt; lia).
  rewrite Hlines.
  set (lines := line1 :: line2 :: rest).
  assert (2 <= len_slice lines) as Hlen.
  { unfold len_slice, lines. cbn [length]. lia. }
  assert (0 < len line1 + 1) as Hpos by (unfold len; lia).
  assert (accept_lines (length lines) lines chunkSize 0 0 = 1) as Hacc.
  { unfold lines at 1. cbn [length accept_lines].
    replace (0 <? len_slice lines) with true by (symmetry; apply Z.ltb_lt; lia).
    change (0 <? 0) with false. cbn [andb].
    replace (0 + 1 <? len_slice lines) with true
      by (symmetry; apply Z.ltb_lt; lia).
    change (line_at lines 0) with line1.
    change (line_at lines (0 + 1)) with line2.
    replace (0 <? 0 + (len line1 + 1)) with true
      by (symmetry; apply Z.ltb_lt; lia).
    replace (chunkSize <? 0 + (len line1 + 1) + (len line2 + 1)) with true
      by (symmetry; apply Z.ltb_lt; lia).
    reflexivity. }
  apply chunk_loop_stuck; rewrite ?Hacc; [lia | lia |].
  unfold resume_at.
  replace (0 <? chunkOverlap) with true by (symmetry; apply Z.ltb_lt; lia).
  cbn [walk_back]. change (1 - 1) with 0. change (0 <=? 0) with true.
  cbv iota. change (line_at lines 0) with line1.
  destruct (chunkOverlap <=? 0 + (len line1 + 1)); [reflexivity|].
  change (0 - 1) with (-1).
  destruct (length lines); cbn [walk_back]; reflexivity.
Qed.

Lemma chunkMarkdown_stuck_on_long_first_line_witness :
  chunkMarkdown 1000 "notes.md" "a long first line
second line" 20 4 = None.
Proof.
  apply (chunkMarkdown_stuck_on_long_first_line "notes.md" _ 20 4
           "a long first line" "second line" []);
    [reflexivity | lia | vm_compute; reflexivity].
Defined.

(** ** Chunker: size of a chunk *)

Lemma string_length_bytes (s : string) :
  String.length s = length (GoStrings.bytes s).
Proof. induction s as [|c s IH]; simpl; [reflexivity | now rewrite IH]. Qed.

Lemma of_bytes_length (l : list ascii) :
  String.length (GoStrings.of_bytes l) = length l.
Proof. now rewrite string_length_bytes, bytes_of_bytes. Qed.

Lemma len_append (s t : string) : len (s +:+ t) = len s + len t.
Proof.
  unfold len. rewrite !string_length_bytes, bytes_app, length_app. lia.
Qed.

Lemma drop_runes_length (runes : list (list ascii)) (fuel : nat) :
  forall l, (length (GoStrings.drop_runes runes fuel l) <= length l)%nat.
Proof.
  induction fuel as [|fuel IH]; intros l; cbn [GoStrings.drop_runes]; [lia|].
  destruct (List.find _ runes) as [r|]; [|lia].
  specialize (IH (drop (length r) l)). rewrite length_drop in IH. lia.
Qed.

(** Trimming never makes a string longer. *)
Lemma TrimSpace_length (s : string) : len (GoStrings.TrimSpace s) <= len s.
Proof.
  unfold len, GoStrings.TrimSpace, GoStrings.trim_right, GoStrings.trim_left.
  rewrite of_bytes_length, length_rev, (string_length_bytes s).
  set (l := GoStrings.bytes s).
  pose proof (drop_runes_length GoStrings.space_runes (length l) l) as H1.
  set (l1 := GoStrings.drop_runes GoStrings.space_runes (length l) l) in *.
  pose proof (drop_runes_length (map (@rev ascii) GoStrings.space_runes)
                (length l1) (rev l1)) as H2.
  rewrite length_rev in H2. lia.
Qed.

(** The bytes the lines of a chunk take, each with its line feed. *)
Fixpoint weight (ls : list string) : Z :=
  match ls with
  | [] => 0
  | s :: ls' => len s + 1 + weight ls'
  end.

Lemma Join_lf_length (ls : list string) :
  ls <> [] -> len (GoStrings.Join ls "
") + 1 = weight ls.
Proof.
  induction ls as [|s ls IH]; [congruence|]. intros _.
  destruct ls as [|s' ls]; [cbn [GoStrings.Join weight]; lia|].
  change (GoStrings.Join (s :: s' :: ls) "
") with (s +:+ "
" +:+ GoStrings.Join (s' :: ls) "
").
  rewrite !len_append. cbn [weight] in IH |- *.
  specialize (IH ltac:(discriminate)). change (len "
") with 1. lia.
Qed.

Lemma slice_cons (lines : list string) (i i' : Z) :
  0 <= i -> i < i' -> i < len_slice lines ->
  slice lines i i' = line_at lines i :: slice lines (i + 1) i'.
Proof.
  intros Hi Hlt Hlen. unfold slice, line_at, len_slice in *.
  assert (exists x, lines !! Z.to_nat i = Some x) as [x Hx].
  { apply lookup_lt_is_Some. lia. }
  rewrite (nth_lookup_Some _ _ _ _ Hx).
  replace (Z.to_nat i' - Z.to_nat i)%nat
    with (S (Z.to_nat i' - Z.to_nat (i + 1)))%nat by lia.
  rewrite (drop_S _ _ _ Hx). cbn [take].
  replace (Z.to_nat (i + 1)) with (S (Z.to_nat i)) by lia. reflexivity.
Qed.

Lemma slice_empty (lines : list string) (i : Z) : slice lines i i = [].
Proof. unfold slice. now rewrite Nat.sub_diag. Qed.

(** The lines the inner loop accepts: one line, or lines that fit into the
    chunk size together with what the chunk already holds. *)
Lemma accept_lines_weight (lines : list string) (chunkSize : Z) (fuel : nat) :
  forall i charCount,
    0 <= i -> 0 <= charCount ->
    let i' := accept_lines fuel lines chunkSize i charCount in
    i' = i
    \/ charCount + weight (slice lines i i') <= chunkSize
    \/ (charCount = 0 /\ i' = i + 1).
Proof.
  induction fuel as [|fuel IH]; intros i cc Hi Hcc; cbn [accept_lines];
    [now left|].
  destruct (Z.ltb_spec i (len_slice lines)) as [Hlt | Hge]; [|now left].
  set (lineLen := len (line_at lines i) + 1).
  assert (0 < lineLen) as Hpos by (unfold lineLen, len; lia).
  destruct ((0 <? cc) && (chunkSize <? cc + lineLen)) eqn:Estop; [now left|].
  pose proof (accept_lines_range fuel lines chunkSize (i + 1) (cc + lineLen)
                ltac:(lia)) as Hr.
  specialize (IH (i + 1) (cc + lineLen) ltac:(lia) ltac:(lia)).
  cbv zeta in IH |- *.
  set (i' := accept_lines fuel lines chunkSize (i + 1) (cc + lineLen)) in *.
  right.
  rewrite (slice_cons lines i i') by lia. cbn [weight]. fold lineLen.
  apply andb_false_iff in Estop.
  destruct IH as [Hsame | [Hfit | [Hzero _]]]; [|left; lia|lia].
  rewrite Hsame, slice_empty. cbn [weight].
  destruct (Z.eq_dec cc 0) as [-> | Hne]; [right; auto|].
  left. destruct Estop as [E | E];
    [apply Z.ltb_ge in E | apply Z.ltb_ge in E]; lia.
Qed.

(** An invariant of the chunks is kept by the outer loop when every chunk
    the loop can close has it. *)
Lemma chunk_loop_Forall (P : chunk -> Prop) (path : string)
    (lines headings : list string) (chunkSize chunkOverlap : Z) :
  (forall i heading,
     0 <= i < len_slice lines ->
     let i1 := accept_lines (length lines) lines chunkSize i 0 in
     i < i1 <= len_slice lines ->
     P {| Path := path; Heading := heading; StartLine := i + 1;
          EndLine := i1 - 1 + 1;
          Content := GoStrings.TrimSpace (GoStrings.Join (slice lines i i1) "
") |}) ->
  forall (fuel : nat) (i : Z) (chunks out : list chunk),
    0 <= i -> Forall P chunks ->
    chunk_loop fuel path lines headings chunkSize chunkOverlap i chunks
    = Some out ->
    Forall P out.
Proof.
  intros Hclose fuel.
  induction fuel as [|fuel IH]; intros i chunks out Hi Hall; [discriminate|].
  cbn [chunk_loop].
  destruct (Z.ltb_spec i (len_slice lines)) as [E | E];
    [|intros [= <-]; exact Hall].
  pose proof (accept_lines_range (length lines) lines chunkSize i 0
                ltac:(lia)) as Hr.
  specialize (Hclose i).
  remember (accept_lines (length lines) lines chunkSize i 0) as i1 eqn:Hi1.
  destruct (Z.ltb_spec (i1 - 1) i) as [E1 | E1]; [intros [= <-]; exact Hall|].
  match goal with
  | |- context [if negb ?t then (chunks ++ [?c0])%list else chunks] =>
      assert (Forall P (if negb t then (chunks ++ [c0])%list else chunks))
        as Hall'
  end.
  { destruct (negb _); [|exact Hall].
    apply Forall_app. split; [exact Hall|].
    constructor; [|constructor]. apply Hclose; lia. }
  destruct (len_slice lines <=? i1); [intros [= <-]; exact Hall'|].
  pose proof (resume_at_range lines chunkOverlap i i1 ltac:(lia)) as Hres.
  apply IH; [lia | exact Hall'].
Qed.

(** X4: a chunk of more than one line is shorter than the chunk size (800
    when none is configured); only a chunk that is a single line can be
    longer. *)
Theorem long_chunks_are_single_lines (fuel : nat) (path content : string)
    (chunkSize chunkOverlap : Z) (chunks : list chunk) :
  chunkMarkdown fuel path content chunkSize chunkOverlap = Some chunks ->
  Forall (fun c =>
            StartLine c < EndLine c ->
            len (Content c) < (if chunkSize <=? 0 then 800 else chunkSize))
    chunks.
Proof.
  unfold chunkMarkdown. cbv zeta.
  set (cs := if chunkSize <=? 0 then 800 else chunkSize).
  intros Hrun.
  refine (chunk_loop_Forall _ path _ _ cs _ _ fuel 0 [] chunks
            ltac:(lia) ltac:(constructor) Hrun).
  intros i heading Hi i1 Hi1. cbn [StartLine EndLine Content]. intros Hmulti.
  pose proof (accept_lines_weight (GoStrings.SplitLF content) cs
                (length (GoStrings.SplitLF content)) i 0
                ltac:(lia) ltac:(lia)) as Hw.
  cbv zeta in Hw. fold i1 in Hw.
  destruct Hw as [Hsame | [Hfit | [_ Hone]]]; [lia | | lia].
  pose proof (TrimSpace_length
                (GoStrings.Join (slice (GoStrings.SplitLF content) i i1) "
")) as Htrim.
  pose proof (Join_lf_length (slice (GoStrings.SplitLF content) i i1)) as Hjoin.
  rewrite (slice_cons _ i i1) in Hjoin by lia.
  specialize (Hjoin ltac:(discriminate)).
  rewrite <- (slice_cons _ i i1) in Hjoin by lia.
  lia.
Qed.

Lemma long_chunks_are_single_lines_witness :
  Forall (fun c => StartLine c < EndLine c -> len (Content c) < 12)
    [ {| Path := "doc.md"; Heading := "A"; StartLine := 1; EndLine := 2;
         Content := "# A
text" |};
      {| Path := "doc.md"; Heading := "A > B"; StartLine := 3; EndLine := 4;
         Content := "## B
more" |};
      {| Path := "doc.md"; Heading := "C"; StartLine := 5; EndLine := 6;
         Content := "# C
end" |} ].
Proof.
  apply (long_chunks_are_single_lines 4 "doc.md" heading_doc 12 0).
  vm_compute. reflexivity.
Defined.

(** ** Trigger decision: when a search is made *)

Lemma matchPrefix_hit (t : string) (l : list string) :
  snd (matchPrefix t l) = true <-> exists p, In p l /\ prefix_hit t p.
Proof.
  induction l as [|q l IH]; cbn [matchPrefix].
  { split; [discriminate | intros (p & [] & _)]. }
  pose proof (prefix_hit_dec t q) as Hq.
  destruct (String.eqb q "").
  { rewrite IH. split; intros (p & Hin & Hp).
    - exists p. split; [now right | exact Hp].
    - destruct Hin as [<- | Hin]; [|eauto].
      apply Hq in Hp as [[=] _]. }
  destruct (GoStrings.HasPrefix t q).
  { split; [intros _ | reflexivity]. exists q. split; [now left|].
    apply Hq. auto. }
  rewrite IH. split; intros (p & Hin & Hp).
  - exists p. split; [now right | exact Hp].
  - destruct Hin as [<- | Hin]; [|eauto].
    apply Hq in Hp as [_ [=]].
Qed.

Section TriggerSearch.

Variable ToLower : string -> string.

Lemma matchKeyword_loop_hit (lower : string) (l : list string) :
  matchKeyword_loop ToLower lower l <> ""
  <-> exists kw, In kw l /\ kw <> ""
                 /\ GoStrings.Contains lower (ToLower kw) = true.
Proof.
  induction l as [|q l IH]; cbn [matchKeyword_loop].
  { split; [congruence | intros (kw & [] & _)]. }
  destruct (String.eqb_spec q "") as [-> | Hq].
  { rewrite IH. split; intros (kw & Hin & Hne & Hc).
    - exists kw. split; [now right | auto].
    - destruct Hin as [<- | Hin]; [congruence | eauto]. }
  destruct (GoStrings.Contains lower (ToLower q)) eqn:Hc.
  { split; [intros _ | intros _; exact Hq]. exists q. split; [now left | auto]. }
  rewrite IH. split; intros (kw & Hin & Hne & Hc').
  - exists kw. split; [now right | auto].
  - destruct Hin as [<- | Hin]; [congruence | eauto].
Qed.

Lemma matchKeyword_hit (t : string) (l : list string) :
  matchKeyword ToLower t l <> ""
  <-> exists kw, In kw l /\ keyword_hit ToLower t kw.
Proof.
  assert (matchKeyword ToLower t l = matchKeyword_loop ToLower (ToLower t) l)
    as -> by (destruct l; reflexivity).
  rewrite matchKeyword_loop_hit. unfold keyword_hit.
  split; intros (kw & Hin & Hne & Hc); exists kw;
    (split; [exact Hin|]); (split; [exact Hne|]); now apply Contains_spec.
Qed.

(** X5: a search is made exactly when the trimmed message starts with a
    non-empty force prefix, or when it is not empty, starts with no
    non-empty skip prefix, [Auto] is set and a non-empty keyword occurs in
    it, both in lower case.  In particular no search is made for a blank
    message, and keywords are not looked for when [Auto] is off. *)
Theorem DecideTrigger_searches_exactly_when
    (message : string) (cfg : RagTriggerConfig) :
  let t := GoStrings.TrimSpace message in
  ShouldSearch (DecideTrigger ToLower message cfg) = true
  <-> (exists p, In p (ForcePrefixes cfg) /\ prefix_hit t p)
      \/ (t <> ""
          /\ ~ (exists p, In p (SkipPrefixes cfg) /\ prefix_hit t p)
          /\ Auto cfg = true
          /\ exists kw, In kw (AutoKeywords cfg) /\ keyword_hit ToLower t kw).
Proof.
  cbv zeta. unfold DecideTrigger.
  set (t := GoStrings.TrimSpace message).
  pose proof (matchPrefix_hit t (ForcePrefixes cfg)) as Hforce.
  pose proof (matchPrefix_hit t (SkipPrefixes cfg)) as Hskip.
  pose proof (matchKeyword_hit t (AutoKeywords cfg)) as Hkw.
  destruct (String.eqb_spec t "") as [Hblank | Hne].
  { cbn [ShouldSearch]. split; [discriminate|].
    intros [(p & _ & Hp) | [Hne _]]; [|congruence].
    apply prefix_hit_nonempty in Hp. rewrite Hblank in Hp. discriminate. }
  destruct (matchPrefix t (ForcePrefixes cfg)) as [p1 [|]]; cbn [snd] in Hforce.
  { cbn [ShouldSearch]. split; [intros _; left; now apply Hforce | reflexivity]. }
  assert (~ exists p, In p (ForcePrefixes cfg) /\ prefix_hit t p) as Hnoforce.
  { intros Hp. apply Hforce in Hp. discriminate. }
  destruct (matchPrefix t (SkipPrefixes cfg)) as [p2 [|]]; cbn [snd] in Hskip.
  { cbn [ShouldSearch]. split; [discriminate|].
    intros [Hp | (_ & Hno & _)]; [contradiction|].
    exfalso. apply Hno, Hskip. reflexivity. }
  assert (~ exists p, In p (SkipPrefixes cfg) /\ prefix_hit t p) as Hnoskip.
  { intros Hp. apply Hskip in Hp. discriminate. }
  destruct (Auto cfg); cbn [negb].
  2:{ cbn [ShouldSearch]. split; [discriminate|].
      intros [Hp | (_ & _ & [=] & _)]. contradiction. }
  destruct (String.eqb_spec (matchKeyword ToLower t (AutoKeywords cfg)) "")
    as [Hnone | Hsome]; cbn [negb ShouldSearch].
  - split; [discriminate|].
    intros [Hp | (_ & _ & _ & Hhit)]; [contradiction|].
    apply Hkw in Hhit. congruence.
  - split; [intros _ | reflexivity]. right.
    split; [exact Hne|]. split; [exact Hnoskip|]. split; [reflexivity|].
    now apply Hkw.
Qed.

End TriggerSearch.

(** ** White space: [strings.TrimSpace] *)

Lemma find_prefix_none_nil (runes : list (list ascii)) :
  Forall (fun r => r <> []) runes ->
  List.find (fun r => GoStrings.bytes_prefix r []) runes = None.
Proof.
  induction 1 as [|r runes Hr _ IH]; [reflexivity|]. cbn [List.find].
  destruct r; [congruence | exact IH].
Qed.

Lemma bytes_prefix_app (r l t : list ascii) :
  GoStrings.bytes_prefix r l = true ->
  GoStrings.bytes_prefix r (l ++ t) = true.
Proof.
  rewrite !bytes_prefix_spec. intros [x ->]. exists (x ++ t)%list.
  now rewrite app_assoc.
Qed.

Lemma drop_runes_fixed (runes : list (list ascii)) (fuel : nat)
    (l : list ascii) :
  List.find (fun r => GoStrings.bytes_prefix r l) runes = None ->
  GoStrings.drop_runes runes fuel l = l.
Proof. intros Hnone. destruct fuel; cbn; [reflexivity | now rewrite Hnone]. Qed.

(** What is left starts with none of the runes, and is the end of the
    input. *)
Lemma drop_runes_spec (runes : list (list ascii)) :
  Forall (fun r => r <> []) runes ->
  forall (fuel : nat) (l : list ascii),
    (length l <= fuel)%nat ->
    List.find (fun r => GoStrings.bytes_prefix r
                          (GoStrings.drop_runes runes fuel l)) runes = None
    /\ exists pre, l = (pre ++ GoStrings.drop_runes runes fuel l)%list.
Proof.
  intros Hne fuel. induction fuel as [|fuel IH]; intros l Hlen.
  { destruct l; [|cbn in Hlen; lia]. cbn [GoStrings.drop_runes].
    split; [now apply find_prefix_none_nil | now exists []]. }
  cbn [GoStrings.drop_runes].
  destruct (List.find (fun r => GoStrings.bytes_prefix r l) runes) as [r|] eqn:Hf.
  2:{ split; [exact Hf | now exists []]. }
  apply List.find_some in Hf as [Hin Hpre].
  rewrite Forall_forall in Hne.
  assert (r <> []) as Hr by (apply Hne, list_elem_of_In, Hin).
  apply bytes_prefix_spec in Hpre as [x ->].
  rewrite drop_app_length.
  destruct (IH x) as [Hnone [pre Hx]].
  { rewrite length_app in Hlen. destruct r; [congruence | cbn in Hlen; lia]. }
  split; [exact Hnone|]. exists (r ++ pre)%list.
  rewrite <- app_assoc. now rewrite <- Hx.
Qed.

Lemma space_runes_nonempty :
  Forall (fun r : list ascii => r <> []) GoStrings.space_runes.
Proof. repeat (constructor; [discriminate|]). constructor. Qed.

Lemma rev_runes_nonempty :
  Forall (fun r : list ascii => r <> []) (map (@rev ascii) GoStrings.space_runes).
Proof. repeat (constructor; [discriminate|]). constructor. Qed.

Lemma trim_left_spec (l : list ascii) :
  List.find (fun r => GoStrings.bytes_prefix r (GoStrings.trim_left l))
    GoStrings.space_runes = None
  /\ exists pre, l = (pre ++ GoStrings.trim_left l)%list.
Proof. apply drop_runes_spec; [exact space_runes_nonempty | lia]. Qed.

Lemma trim_right_spec (l : list ascii) :
  List.find (fun r => GoStrings.bytes_prefix r (rev (GoStrings.trim_right l)))
    (map (@rev ascii) GoStrings.space_runes) = None
  /\ exists post, l = (GoStrings.trim_right l ++ post)%list.
Proof.
  unfold GoStrings.trim_right.
  destruct (drop_runes_spec _ rev_runes_nonempty (length l) (rev l))
    as [Hnone [pre Hpre]]; [rewrite length_rev; lia|].
  rewrite rev_involutive. split; [exact Hnone|].
  exists (rev pre). rewrite <- rev_app_distr, <- Hpre.
  now rewrite rev_involutive.
Qed.

(** Trimming a trimmed string changes nothing. *)
Lemma TrimSpace_idempotent (s : string) :
  GoStrings.TrimSpace (GoStrings.TrimSpace s) = GoStrings.TrimSpace s.
Proof.
  unfold GoStrings.TrimSpace. rewrite bytes_of_bytes. f_equal.
  set (l1 := GoStrings.trim_left (GoStrings.bytes s)).
  destruct (trim_left_spec (GoStrings.bytes s)) as [Hleft _]. fold l1 in Hleft.
  destruct (trim_right_spec l1) as [Hright [post Hpost]].
  set (l2 := GoStrings.trim_right l1) in *.
  assert (GoStrings.trim_left l2 = l2) as ->.
  { apply drop_runes_fixed.
    destruct (List.find (fun r => GoStrings.bytes_prefix r l2)
                GoStrings.space_runes) as [r|] eqn:Hf; [|reflexivity].
    apply List.find_some in Hf as [Hin Hpre].
    apply (bytes_prefix_app r l2 post) in Hpre. rewrite <- Hpost in Hpre.
    eapply List.find_none in Hleft; [|exact Hin].
    cbv beta in Hleft. congruence. }
  unfold GoStrings.trim_right at 1.
  rewrite (drop_runes_fixed _ _ _ Hright). apply rev_involutive.
Qed.

Section TriggerCleaned.

Variable ToLower : string -> string.

(** X6: a blank message is handed back as it is; for any other message
    the cleaned message has no white space around it. *)
Theorem DecideTrigger_cleaned_message_trimmed
    (message : string) (cfg : RagTriggerConfig) :
  let d := DecideTrigger ToLower message cfg in
  if String.eqb (GoStrings.TrimSpace message) ""
  then CleanedMessage d = message
  else GoStrings.TrimSpace (CleanedMessage d) = CleanedMessage d.
Proof.
  cbv zeta. unfold DecideTrigger.
  destruct (String.eqb (GoStrings.TrimSpace message) ""); [reflexivity|].
  destruct (matchPrefix _ (ForcePrefixes cfg)) as [p1 [|]];
    [apply TrimSpace_idempotent|].
  destruct (matchPrefix _ (SkipPrefixes cfg)) as [p2 [|]];
    [apply TrimSpace_idempotent|].
  destruct (negb (Auto cfg)); [apply TrimSpace_idempotent|].
  destruct (negb (String.eqb _ "")); apply TrimSpace_idempotent.
Qed.

End TriggerCleaned.

(** ** Chunker: no text is lost *)

(** Bytes that are encodings of the given runes one after the other. *)
Definition spaces (runes : list (list ascii)) (l : list ascii) : Prop :=
  exists rs, Forall (fun r => In r runes) rs /\ l = concat rs.

Lemma spaces_nil (runes : list (list ascii)) : spaces runes [].
Proof. now exists []. Qed.

Lemma spaces_app (runes : list (list ascii)) (l1 l2 : list ascii) :
  spaces runes l1 -> spaces runes l2 -> spaces runes (l1 ++ l2).
Proof.
  intros (rs1 & H1 & ->) (rs2 & H2 & ->). exists (rs1 ++ rs2)%list.
  split; [now apply Forall_app | now rewrite concat_app].
Qed.

Lemma spaces_one (runes : list (list ascii)) (r : list ascii) :
  In r runes -> spaces runes r.
Proof.
  intros Hr. exists [r]. split; [now constructor|].
  cbn [concat]. now rewrite app_nil_r.
Qed.

Lemma spaces_rev (runes : list (list ascii)) (l : list ascii) :
  spaces (map (@rev ascii) runes) l -> spaces runes (rev l).
Proof.
  intros (rs & Hrs & ->). induction Hrs as [|r rs Hr _ IH].
  { apply spaces_nil. }
  cbn [concat]. rewrite rev_app_distr. apply spaces_app; [exact IH|].
  apply in_map_iff in Hr as (r0 & <- & Hr0). rewrite rev_involutive.
  now apply spaces_one.
Qed.

(** What [drop_runes] drops is made of the runes. *)
Lemma drop_runes_dropped (runes : list (list ascii)) (fuel : nat) :
  forall l,
    exists pre,
      spaces runes pre /\ l = (pre ++ GoStrings.drop_runes runes fuel l)%list.
Proof.
  induction fuel as [|fuel IH]; intros l; cbn [GoStrings.drop_runes].
  { exists []. split; [apply spaces_nil | reflexivity]. }
  destruct (List.find (fun r => GoStrings.bytes_prefix r l) runes) as [r|] eqn:Hf.
  2:{ exists []. split; [apply spaces_nil | reflexivity]. }
  apply List.find_some in Hf as [Hin Hpre].
  apply bytes_prefix_spec in Hpre as [x ->]. rewrite drop_app_length.
  destruct (IH x) as (pre & Hpre & Hx). exists (r ++ pre)%list.
  split; [apply spaces_app; [now apply spaces_one | exact Hpre]|].
  now rewrite <- app_assoc, <- Hx.
Qed.

Lemma TrimSpace_empty_spaces (s : string) :
  GoStrings.TrimSpace s = "" ->
  spaces GoStrings.space_runes (GoStrings.bytes s).
Proof.
  unfold GoStrings.TrimSpace. intros Hempty.
  apply (f_equal GoStrings.bytes) in Hempty. rewrite bytes_of_bytes in Hempty.
  change (GoStrings.bytes "") with (@nil ascii) in Hempty.
  destruct (drop_runes_dropped GoStrings.space_runes
              (length (GoStrings.bytes s)) (GoStrings.bytes s))
    as (pre & Hpre & Hs).
  fold (GoStrings.trim_left (GoStrings.bytes s)) in Hs.
  set (l1 := GoStrings.trim_left (GoStrings.bytes s)) in *.
  unfold GoStrings.trim_right in Hempty.
  apply (f_equal (@rev ascii)) in Hempty.
  rewrite rev_involutive in Hempty. cbn [rev] in Hempty.
  destruct (drop_runes_dropped (map (@rev ascii) GoStrings.space_runes)
              (length l1) (rev l1)) as (pre' & Hpre' & Hl1).
  rewrite Hempty, app_nil_r in Hl1.
  rewrite Hs. apply spaces_app; [exact Hpre|].
  rewrite <- (rev_involutive l1). apply spaces_rev. now rewrite Hl1.
Qed.

(** No encoding of a space rune starts another one. *)
Lemma space_runes_prefix_free (r r' : list ascii) :
  In r GoStrings.space_runes -> In r' GoStrings.space_runes ->
  GoStrings.bytes_prefix r r' = true -> r = r'.
Proof.
  intros Hr Hr'.
  assert (forallb (fun a =>
            forallb (fun a' =>
              implb (GoStrings.bytes_prefix a a') (bool_decide (a = a')))
              GoStrings.space_runes) GoStrings.space_runes = true) as Hall
    by (vm_compute; reflexivity).
  rewrite forallb_forall in Hall. specialize (Hall r Hr).
  rewrite forallb_forall in Hall. specialize (Hall r' Hr').
  intros Hp. rewrite Hp in Hall. cbn [implb] in Hall.
  now apply bool_decide_eq_true in Hall.
Qed.

Lemma bytes_prefix_same (r r' l : list ascii) :
  GoStrings.bytes_prefix r l = true -> GoStrings.bytes_prefix r' l = true ->
  GoStrings.bytes_prefix r r' = true \/ GoStrings.bytes_prefix r' r = true.
Proof.
  revert r' l. induction r as [|a r IH]; intros [|a' r'] [|x l]; cbn;
    auto; try discriminate.
  rewrite !andb_true_iff. intros [Ha Hr] [Ha' Hr'].
  unfold GoStrings.byte_eqb in *.
  apply Ascii.eqb_eq in Ha, Ha'. subst a a'. rewrite Ascii.eqb_refl.
  destruct (IH _ _ Hr Hr') as [H1 | H1]; [left | right]; now rewrite H1.
Qed.

Lemma spaces_trim_left (l : list ascii) :
  spaces GoStrings.space_runes l ->
  forall fuel, (length l <= fuel)%nat ->
    GoStrings.drop_runes GoStrings.space_runes fuel l = [].
Proof.
  intros (rs & Hrs & ->). induction Hrs as [|r rs Hr _ IH]; intros fuel Hfuel.
  { apply drop_runes_fixed, find_prefix_none_nil, space_runes_nonempty. }
  cbn [concat] in *.
  assert (r <> []) as Hne.
  { pose proof space_runes_nonempty as Hall. rewrite Forall_forall in Hall.
    apply Hall, list_elem_of_In, Hr. }
  rewrite length_app in Hfuel.
  destruct fuel as [|fuel]; [destruct r; [congruence | cbn in Hfuel; lia]|].
  cbn [GoStrings.drop_runes].
  assert (GoStrings.bytes_prefix r (r ++ concat rs) = true) as Hp.
  { apply bytes_prefix_spec. now exists (concat rs). }
  destruct (List.find _ GoStrings.space_runes) as [r'|] eqn:Hf.
  2:{ eapply List.find_none in Hf; [|exact Hr]. cbv beta in Hf. congruence. }
  apply List.find_some in Hf as [Hin' Hp'].
  assert (r' = r) as ->.
  { destruct (bytes_prefix_same _ _ _ Hp Hp') as [H1 | H1].
    - symmetry. now apply space_runes_prefix_free.
    - now apply space_runes_prefix_free. }
  rewrite drop_app_length. apply IH.
  destruct r; [congruence | cbn in Hfuel; lia].
Qed.

Lemma spaces_TrimSpace (s : string) :
  spaces GoStrings.space_runes (GoStrings.bytes s) ->
  GoStrings.TrimSpace s = "".
Proof.
  intros Hs. unfold GoStrings.TrimSpace, GoStrings.trim_left.
  now rewrite (spaces_trim_left _ Hs).
Qed.

(** A line feed is the encoding of a space rune, and no other encoding
    holds it. *)
Lemma space_runes_lf :
  Forall (fun r => r = [GoStrings.b 10] \/ ~ In (GoStrings.b 10) r)
    GoStrings.space_runes.
Proof.
  unfold GoStrings.space_runes.
  repeat (constructor;
          [first [left; reflexivity
                 |right; vm_compute; intuition discriminate]|]).
  constructor.
Qed.

Lemma app_eq_before {A : Type} (c : A) (r x a post : list A) :
  (r ++ x)%list = (a ++ c :: post)%list -> ~ In c r ->
  exists a', a = (r ++ a')%list /\ x = (a' ++ c :: post)%list.
Proof.
  revert a. induction r as [|y r IH]; intros a Heq Hc; cbn [app] in *.
  { now exists a. }
  destruct a as [|z a]; cbn [app] in Heq.
  { injection Heq as -> _. destruct Hc. now left. }
  injection Heq as -> Heq.
  destruct (IH a Heq) as (a' & -> & ->); [intros Hin; apply Hc; now right|].
  now exists a'.
Qed.

Lemma spaces_split_lf (a post : list ascii) :
  spaces GoStrings.space_runes (a ++ GoStrings.b 10 :: post) ->
  spaces GoStrings.space_runes a /\ spaces GoStrings.space_runes post.
Proof.
  intros (rs & Hrs & Heq). symmetry in Heq. revert a Heq.
  induction Hrs as [|r rs Hr Hrs IH]; intros a Heq; cbn [concat] in Heq.
  { destruct a; discriminate. }
  pose proof space_runes_lf as Hlf. rewrite Forall_forall in Hlf.
  destruct (Hlf r ltac:(now apply list_elem_of_In)) as [-> | Hno].
  - destruct a as [|z a]; cbn [app] in Heq.
    + injection Heq as <-. split; [apply spaces_nil | now exists rs].
    + injection Heq as <- Heq. destruct (IH a Heq) as [Ha Hpost].
      split; [|exact Hpost].
      change (GoStrings.b 10 :: a) with ([GoStrings.b 10] ++ a)%list.
      apply spaces_app; [now apply spaces_one | exact Ha].
  - apply app_eq_before in Heq as (a' & -> & Heq); [|exact Hno].
    destruct (IH a' Heq) as [Ha Hpost]. split; [|exact Hpost].
    apply spaces_app; [now apply spaces_one | exact Ha].
Qed.

(** A text that trims to nothing is made of lines that trim to nothing. *)
Lemma blank_text_blank_lines (ls : list string) :
  GoStrings.TrimSpace (GoStrings.Join ls "
") = "" ->
  Forall (fun l => GoStrings.TrimSpace l = "") ls.
Proof.
  intros Hblank. apply TrimSpace_empty_spaces in Hblank.
  induction ls as [|l ls IH]; [constructor|].
  destruct ls as [|l' ls].
  { constructor; [|constructor]. now apply spaces_TrimSpace. }
  change (GoStrings.Join (l :: l' :: ls) "
") with (l +:+ "
" +:+ GoStrings.Join (l' :: ls) "
") in Hblank.
  rewrite !bytes_app in Hblank.
  change (GoStrings.bytes "
") with [GoStrings.b 10] in Hblank. cbn [app] in Hblank.
  apply spaces_split_lf in Hblank as [Hl Hrest].
  constructor; [now apply spaces_TrimSpace | now apply IH].
Qed.

Lemma slice_line_at {P : string -> Prop} (lines : list string) (i i' k : Z) :
  Forall P (slice lines i i') ->
  0 <= i -> i <= k < i' -> i' <= len_slice lines ->
  P (line_at lines k).
Proof.
  unfold slice, line_at, len_slice. intros Hall Hi Hk Hlen.
  rewrite Forall_forall in Hall. apply Hall.
  assert (exists x, lines !! Z.to_nat k = Some x) as [x Hx].
  { apply lookup_lt_is_Some. lia. }
  rewrite (nth_lookup_Some _ _ _ _ Hx).
  apply (list_elem_of_lookup_2 _ (Z.to_nat k - Z.to_nat i)%nat).
  rewrite lookup_take_lt by lia. rewrite lookup_drop.
  now replace (Z.to_nat i + (Z.to_nat k - Z.to_nat i))%nat
    with (Z.to_nat k) by lia.
Qed.

Lemma chunk_loop_covers (path : string) (lines headings : list string)
    (chunkSize chunkOverlap : Z) (fuel : nat) :
  forall (i : Z) (chunks out : list chunk),
    0 <= i ->
    chunk_loop fuel path lines headings chunkSize chunkOverlap i chunks
    = Some out ->
    forall k,
      i <= k < len_slice lines ->
      GoStrings.TrimSpace (line_at lines k) <> "" ->
      exists c, In c out /\ StartLine c <= k + 1 <= EndLine c.
Proof.
  induction fuel as [|fuel IH]; intros i chunks out Hi; [discriminate|].
  cbn [chunk_loop].
  destruct (Z.ltb_spec i (len_slice lines)) as [E | E];
    [|intros _ k Hk; lia].
  assert (exists n, length lines = S n) as [n Hn].
  { unfold len_slice in E. destruct lines; [cbn in E; lia | eauto]. }
  pose proof (accept_lines_range (length lines) lines chunkSize i 0
                ltac:(lia)) as Hr.
  pose proof (accept_lines_progress n lines chunkSize i E) as Hp.
  rewrite <- Hn in Hp.
  set (i1 := accept_lines (length lines) lines chunkSize i 0) in *.
  destruct (Z.ltb_spec (i1 - 1) i) as [E1 | E1]; [lia|].
  set (text := GoStrings.TrimSpace (GoStrings.Join (slice lines i i1) "
")).
  match goal with
  | |- context [(chunks ++ [?c0])%list] => set (c := c0)
  end.
  set (chunks' := if negb (String.eqb text "") then (chunks ++ [c])%list
                  else chunks).
  assert (forall k, i <= k < i1 ->
            GoStrings.TrimSpace (line_at lines k) <> "" ->
            In c chunks' /\ StartLine c <= k + 1 <= EndLine c) as Hhere.
  { intros k Hk Hline. unfold chunks'.
    destruct (String.eqb_spec text "") as [Hblank | _]; cbn [negb].
    - apply blank_text_blank_lines in Hblank.
      destruct Hline.
      apply (slice_line_at (P := fun l => GoStrings.TrimSpace l = "")
               lines i i1 k Hblank); lia.
    - split; [apply in_or_app; right; now left|]. unfold c. cbn. lia. }
  destruct (Z.leb_spec (len_slice lines) i1) as [E2 | E2].
  { intros [= <-] k Hk Hline. exists c. apply Hhere; [lia | exact Hline]. }
  pose proof (resume_at_range lines chunkOverlap i i1 ltac:(lia)) as Hres.
  intros Hloop k Hk Hline.
  destruct (Z.lt_ge_cases k (resume_at lines chunkOverlap i i1)) as [Hlt | Hge].
  - destruct (Hhere k ltac:(lia) Hline) as [Hin Hc].
    apply chunk_loop_appends in Hloop as (new & -> & _); [|lia].
    exists c. split; [apply in_or_app; now left | exact Hc].
  - exact (IH (resume_at lines chunkOverlap i i1) chunks' out ltac:(lia)
             Hloop k ltac:(lia) Hline).
Qed.

(** X7: no text is lost.  When [chunkMarkdown] returns, every line of the
    content that is not blank lies within the lines of one of the chunks
    at least. *)
Theorem no_text_is_lost (fuel : nat) (path content : string)
    (chunkSize chunkOverlap : Z) (chunks : list chunk) :
  chunkMarkdown fuel path content chunkSize chunkOverlap = Some chunks ->
  forall (k : nat) (line : string),
    GoStrings.SplitLF content !! k = Some line ->
    GoStrings.TrimSpace line <> "" ->
    exists c, In c chunks /\ StartLine c <= Z.of_nat k + 1 <= EndLine c.
Proof.
  unfold chunkMarkdown. cbv zeta. intros Hrun k line Hk Hline.
  eapply (chunk_loop_covers _ _ _ _ _ _ 0); [lia | exact Hrun | |].
  - unfold len_slice. apply lookup_lt_Some in Hk. lia.
  - unfold line_at. rewrite Nat2Z.id.
    now rewrite (nth_lookup_Some _ _ _ _ Hk).
Qed.

Lemma no_text_is_lost_witness :
  exists c,
    In c [ {| Path := "doc.md"; Heading := "A"; StartLine := 1; EndLine := 2;
              Content := "# A
text" |};
           {| Path := "doc.md"; Heading := "A > B"; StartLine := 3;
              EndLine := 4; Content := "## B
more" |};
           {| Path := "doc.md"; Heading := "C"; StartLine := 5; EndLine := 6;
              Content := "# C
end" |} ]
    /\ StartLine c <= Z.of_nat 3 + 1 <= EndLine c.
Proof.
  apply (no_text_is_lost 4 "doc.md" heading_doc 12 0 _
           ltac:(vm_compute; reflexivity) 3%nat "more").
  - reflexivity.
  - vm_compute. discriminate.
Defined.

(** ** Valid UTF-8 is read back without loss *)

(** The bytes of one code point [r] in a valid sequence: the ranges of the
    first and second byte are those of the tables [first] and
    [acceptRanges]. *)
Definition encodes (r : Z) (enc : list ascii) : Prop :=
  match enc with
  | [a] => utf8.bv a < 128 /\ r = utf8.bv a
  | [a; b] =>
      194 <= utf8.bv a <= 223 /\ 128 <= utf8.bv b <= 191
      /\ r = (utf8.bv a - 192) * 64 + (utf8.bv b - 128)
  | [a; b; c] =>
      224 <= utf8.bv a <= 239 /\ 128 <= utf8.bv b <= 191
      /\ (utf8.bv a = 224 -> 160 <= utf8.bv b)
      /\ 128 <= utf8.bv c <= 191
      /\ r = ((utf8.bv a - 224) * 64 + (utf8.bv b - 128)) * 64
             + (utf8.bv c - 128)
  | [a; b; c; d] =>
      240 <= utf8.bv a <= 244 /\ 128 <= utf8.bv b <= 191
      /\ (utf8.bv a = 240 -> 144 <= utf8.bv b)
      /\ 128 <= utf8.bv c <= 191 /\ 128 <= utf8.bv d <= 191
      /\ r = (((utf8.bv a - 240) * 64 + (utf8.bv b - 128)) * 64
              + (utf8.bv c - 128)) * 64 + (utf8.bv d - 128)
  | _ => False
  end.

(** A code point has one encoding. *)
Lemma encodes_inj (r : Z) (enc enc' : list ascii) :
  encodes r enc -> encodes r enc' -> enc = enc'.
Proof.
  destruct enc as [|a [|b [|c [|d [|? ?]]]]]; try contradiction;
    destruct enc' as [|a' [|b' [|c' [|d' [|? ?]]]]]; try contradiction;
    cbn [encodes]; intros H1 H2;
    try (exfalso; lia);
    repeat match goal with
    | |- _ :: _ = _ :: _ => f_equal
    | |- ?x = ?y => apply bv_inj; lia
    end.
Qed.

Lemma first_ranges (s0 : Z) (sz : nat) (lo hi mask : Z) :
  utf8.first s0 = Some (sz, lo, hi, mask) ->
  128 <= lo /\ hi <= 191
  /\ ((sz = 2%nat /\ mask = 192 /\ 194 <= s0 <= 223)
      \/ (sz = 3%nat /\ mask = 224 /\ 224 <= s0 <= 239
          /\ (s0 = 224 -> 160 <= lo))
      \/ (sz = 4%nat /\ mask = 240 /\ 240 <= s0 <= 244
          /\ (s0 = 240 -> 144 <= lo))).
Proof.
  case_first; intros [= <- <- <- <-];
    repeat match goal with
    | H : (_ && _) = true |- _ => apply andb_true_iff in H as [? ?]
    | H : (_ && _) = false |- _ => apply andb_false_iff in H
    | H : (_ <=? _) = true |- _ => apply Z.leb_le in H
    | H : (_ <=? _) = false |- _ => apply Z.leb_gt in H
    | H : (_ =? _) = true |- _ => apply Z.eqb_eq in H
    | H : (_ =? _) = false |- _ => apply Z.eqb_neq in H
    end; lia.
Qed.

Lemma is_cont_range (c : ascii) :
  utf8.is_cont c = true -> 128 <= utf8.bv c <= 191.
Proof. unfold utf8.is_cont. rewrite andb_true_iff, !Z.leb_le. tauto. Qed.

(** A first rune that is not an invalid byte is read from its encoding. *)
Lemma DecodeRune_encodes (s0 : ascii) (rest : list ascii) :
  negb ((fst (utf8.DecodeRune s0 rest) =? utf8.RuneError)
        && (snd (utf8.DecodeRune s0 rest) =? 1)%nat) = true ->
  exists enc,
    s0 :: rest = (enc ++ drop (snd (utf8.DecodeRune s0 rest) - 1) rest)%list
    /\ encodes (fst (utf8.DecodeRune s0 rest)) enc.
Proof.
  unfold utf8.DecodeRune. destruct (Z.ltb_spec (utf8.bv s0) 128) as [Hlt | Hge].
  { intros _. exists [s0]. cbn [fst snd encodes]. rewrite drop_0. auto. }
  destruct (utf8.first (utf8.bv s0)) as [[[[sz lo] hi] mask]|] eqn:Ef;
    [|intros Hv; vm_compute in Hv; discriminate].
  apply first_ranges in Ef as (Hlo & Hhi & Hcases).
  destruct ((length (take (sz - 1) rest) =? sz - 1)%nat
            && utf8.accepted lo hi (take (sz - 1) rest)) eqn:Eacc;
    [|intros Hv; vm_compute in Hv; discriminate].
  intros _. cbn [fst snd].
  apply andb_true_iff in Eacc as [Hlen Hacc]. apply Nat.eqb_eq in Hlen.
  exists (s0 :: take (sz - 1) rest). split.
  { cbn [app]. now rewrite take_drop. }
  destruct Hcases as [(-> & -> & Hs0) | [(-> & -> & Hs0 & H224)
                                        | (-> & -> & Hs0 & H240)]];
    cbn [Nat.sub] in *.
  - destruct rest as [|s1 rest]; [discriminate|]. cbn [take] in *.
    rewrite take_0 in *. cbn [utf8.accepted forallb] in Hacc.
    rewrite andb_true_r, andb_true_iff, !Z.leb_le in Hacc.
    cbn [encodes utf8.rune_value fold_left]. lia.
  - destruct rest as [|s1 [|s2 rest]]; try discriminate. cbn [take] in *.
    rewrite take_0 in *. cbn [utf8.accepted forallb] in Hacc.
    rewrite andb_true_r, !andb_true_iff, !Z.leb_le in Hacc.
    destruct Hacc as [[? ?] Hc2%is_cont_range].
    cbn [encodes utf8.rune_value fold_left]. lia.
  - destruct rest as [|s1 [|s2 [|s3 rest]]]; try discriminate.
    cbn [take] in *. rewrite take_0 in *.
    cbn [utf8.accepted forallb] in Hacc.
    rewrite andb_true_r, !andb_true_iff, !Z.leb_le in Hacc.
    destruct Hacc as [[? ?] [Hc2%is_cont_range Hc3%is_cont_range]].
    cbn [encodes utf8.rune_value fold_left]. lia.
Qed.

(** Two valid byte sequences with the same runes are the same bytes. *)
Lemma runes_of_inj (n : nat) :
  forall a b : list ascii,
    (length a <= n)%nat ->
    valid_bytes a = true -> valid_bytes b = true ->
    utf8.runes_of a = utf8.runes_of b -> a = b.
Proof.
  induction n as [|n IH]; intros a b Hn Ha Hb Heq.
  - destruct a; [|simpl in Hn; lia].
    destruct b as [|s0 rest]; [reflexivity|].
    rewrite runes_of_cons in Heq. discriminate.
  - destruct a as [|s0 rest]; destruct b as [|s0' rest'];
      rewrite ?runes_of_cons in Heq; try discriminate; [reflexivity|].
    rewrite valid_bytes_cons in Ha, Hb.
    apply andb_true_iff in Ha as [Ha Hta], Hb as [Hb Htb].
    injection Heq as Hr Htl.
    destruct (DecodeRune_encodes _ _ Ha) as (enc & Hsplit & Henc).
    destruct (DecodeRune_encodes _ _ Hb) as (enc' & Hsplit' & Henc').
    rewrite Hr in Henc. rewrite (encodes_inj _ _ _ Henc Henc') in Hsplit.
    rewrite Hsplit, Hsplit'. f_equal.
    apply IH; try assumption.
    rewrite length_drop. simpl in Hn. lia.
Qed.

Lemma ValidString_runes_inj (s t : string) :
  utf8.ValidString s = true -> utf8.ValidString t = true ->
  utf8.runes s = utf8.runes t -> s = t.
Proof.
  rewrite !ValidString_valid_bytes. unfold utf8.runes. intros Hs Ht Heq.
  rewrite <- (of_bytes_bytes s), <- (of_bytes_bytes t). f_equal.
  exact (runes_of_inj _ _ _ (Nat.le_refl _) Hs Ht Heq).
Qed.

(** ** Glob patterns: literal patterns and the depth of a path *)

Lemma glob_tokens_literal (l : list Z) :
  Forall (fun c => c <> 42 /\ c <> 63) l ->
  glob_tokens l = map GChar l.
Proof.
  induction 1 as [|c l [H1 H2] _ IH]; [reflexivity|]. cbn [glob_tokens map].
  destruct (Z.eqb_spec c 42); [contradiction|].
  destruct (Z.eqb_spec c 63); [contradiction|]. now rewrite IH.
Qed.

Lemma glob_matches_literal (l s : list Z) :
  glob_matches (map GChar l) s <-> s = l.
Proof.
  revert s. induction l as [|c l IH]; intros s; cbn [map].
  - split; [intros Hm; now inversion Hm | intros ->; constructor].
  - split.
    + intros Hm. inversion Hm; subst. f_equal. now apply IH.
    + intros ->. constructor. now apply IH.
Qed.

Lemma globToRegex_valid (pattern : string) (re : regexp.Regexp) :
  globToRegex pattern = Some re -> utf8.ValidString pattern = true.
Proof.
  rewrite globToRegex_spec. now destruct (utf8.ValidString pattern).
Qed.

(** X8: a pattern without [*] and [?] matches exactly the paths that read,
    rune by rune, as the pattern.  Among the paths that are valid UTF-8
    that is one path, the pattern itself, which is matched. *)
Theorem literal_pattern_matches_only_itself (pattern path : string)
    (re : regexp.Regexp) :
  globToRegex pattern = Some re ->
  Forall (fun c => c <> 42 /\ c <> 63) (utf8.runes pattern) ->
  (regexp.MatchString re path = true
   <-> utf8.runes path = utf8.runes pattern)
  /\ (utf8.ValidString path = true ->
      regexp.MatchString re path = true <-> path = pattern)
  /\ regexp.MatchString re pattern = true.
Proof.
  intros Hre Hlit.
  assert (forall p, regexp.MatchString re p = true
                    <-> utf8.runes p = utf8.runes pattern) as Hrunes.
  { intros p. rewrite (MatchString_globToRegex _ _ _ Hre).
    unfold glob_match. rewrite (glob_tokens_literal _ Hlit).
    apply glob_matches_literal. }
  split; [apply Hrunes|]. split; [|now apply Hrunes].
  intros Hvalid. rewrite Hrunes. split; [|now intros ->].
  apply ValidString_runes_inj;
    [exact Hvalid | exact (globToRegex_valid _ _ Hre)].
Qed.

Lemma literal_pattern_matches_only_itself_witness :
  (regexp.MatchString
     [regexp.Lit 97; regexp.Lit 43; regexp.Lit 98; regexp.Lit 46;
      regexp.Lit 109; regexp.Lit 100] "a-b.md" = true
   <-> utf8.runes "a-b.md" = utf8.runes "a+b.md")
  /\ (regexp.MatchString
        [regexp.Lit 97; regexp.Lit 43; regexp.Lit 98; regexp.Lit 46;
         regexp.Lit 109; regexp.Lit 100] "a-b.md" = true
      <-> "a-b.md" = "a+b.md")
  /\ regexp.MatchString
       [regexp.Lit 97; regexp.Lit 43; regexp.Lit 98; regexp.Lit 46;
        regexp.Lit 109; regexp.Lit 100] "a+b.md" = true.
Proof.
  destruct (literal_pattern_matches_only_itself "a+b.md" "a-b.md"
              [regexp.Lit 97; regexp.Lit 43; regexp.Lit 98; regexp.Lit 46;
               regexp.Lit 109; regexp.Lit 100] eq_refl)
    as (Hrunes & Hvalid & Hself).
  - vm_compute. repeat (constructor; [split; discriminate|]). constructor.
  - split; [exact Hrunes|]. split; [exact (Hvalid eq_refl) | exact Hself].
Defined.

(** A path that is not valid UTF-8 is read with U+FFFD in the place of
    each invalid byte, and is matched by the pattern that has U+FFFD
    there, which is another string. *)
Lemma invalid_byte_is_read_as_replacement :
  utf8.runes GlobExample.raw_path = [65533; 46; 109; 100]
  /\ utf8.runes (String "239" (String "191" (String "189" ".md")))
     = [65533; 46; 109; 100]
  /\ utf8.ValidString GlobExample.raw_path = false
  /\ matchesAny GlobExample.raw_path
       (compilePatterns [String "239" (String "191" (String "189" ".md"))])
     = true.
Proof.
  repeat split; reflexivity.
Qed.

(** The number of separators in a sequence of runes. *)
Definition depth (l : list Z) : nat := length (List.filter (Z.eqb 47) l).

Definition token_depth (toks : list glob_token) : nat :=
  length (List.filter (fun t => match t with
                                | GChar r => r =? 47
                                | _ => false
                                end) toks).

Lemma depth_app (l k : list Z) : depth (l ++ k) = (depth l + depth k)%nat.
Proof. unfold depth. now rewrite List.filter_app, length_app. Qed.

Lemma depth_no_slash (seg : list Z) :
  Forall (fun r => r <> 47) seg -> depth seg = 0%nat.
Proof.
  induction 1 as [|r seg Hr _ IH]; [reflexivity|].
  unfold depth in *. cbn [List.filter].
  destruct (Z.eqb_spec 47 r); [congruence | exact IH].
Qed.

Lemma glob_tokens_depth (n : nat) :
  forall l : list Z,
    (length l <= n)%nat -> token_depth (glob_tokens l) = depth l.
Proof.
  induction n as [|n IH]; intros l Hn.
  { destruct l; [reflexivity | cbn in Hn; lia]. }
  destruct l as [|c l]; [reflexivity|]. cbn [length] in Hn.
  assert (forall t, (match t with GChar r => r =? 47 | _ => false end) = false ->
            token_depth (t :: glob_tokens l) = depth l) as Hskip.
  { intros t Ht. unfold token_depth. cbn [List.filter]. rewrite Ht.
    apply (IH l). lia. }
  destruct (loop_runes_cons c l)
    as [(-> & l' & -> & _ & Ht) | [(-> & _ & Ht) | [(-> & _ & Ht)
        | [(-> & _ & Ht) | [(_ & _ & Ht) | (_ & _ & Ht)]]]]];
    rewrite Ht.
  - unfold token_depth, depth. cbn [List.filter].
    change (47 =? 42) with false. cbv iota.
    apply (IH l'). cbn [length] in Hn. lia.
  - rewrite Hskip by reflexivity. reflexivity.
  - rewrite Hskip by reflexivity. reflexivity.
  - rewrite Hskip by reflexivity. reflexivity.
  - unfold token_depth, depth. cbn [List.filter].
    rewrite (Z.eqb_sym 47 c).
    destruct (c =? 47); cbn [length]; f_equal; apply (IH l); lia.
  - unfold token_depth, depth. cbn [List.filter].
    rewrite (Z.eqb_sym 47 c).
    destruct (c =? 47); cbn [length]; f_equal; apply (IH l); lia.
Qed.

Lemma glob_matches_depth (toks : list glob_token) (s : list Z) :
  glob_matches toks s ->
  ~ In GStarStar toks -> ~ In GQuestion toks ->
  depth s = token_depth toks.
Proof.
  induction 1 as [|r toks s _ IH|r toks s _ _ _|seg toks s Hseg _ IH
                  |seg toks s _ _ _]; intros Hss Hq.
  - reflexivity.
  - unfold depth, token_depth in *. cbn [List.filter].
    rewrite (Z.eqb_sym 47 r).
    destruct (r =? 47); cbn [length]; f_equal; apply IH;
      intros Hin; [apply Hss | apply Hq | apply Hss | apply Hq]; now right.
  - exfalso. apply Hq. now left.
  - rewrite depth_app, (depth_no_slash _ Hseg). cbn [Nat.add].
    unfold token_depth. cbn [List.filter]. apply IH;
      intros Hin; [apply Hss | apply Hq]; now right.
  - exfalso. apply Hss. now left.
Qed.

(** X9: [*] keeps to one segment.  A path matched by a pattern without
    [**] and [?] has as many separators as the pattern: it lies at the
    depth the pattern spells out. *)
Theorem single_star_keeps_the_depth (pattern path : string)
    (re : regexp.Regexp) :
  globToRegex pattern = Some re ->
  ~ In GStarStar (glob_tokens (utf8.runes pattern)) ->
  ~ In GQuestion (glob_tokens (utf8.runes pattern)) ->
  regexp.MatchString re path = true ->
  depth (utf8.runes path) = depth (utf8.runes pattern).
Proof.
  intros Hre Hss Hq Hm.
  apply (MatchString_globToRegex _ _ _ Hre) in Hm.
  rewrite (glob_matches_depth _ _ Hm Hss Hq).
  now apply (glob_tokens_depth (length (utf8.runes pattern))).
Qed.

Lemma single_star_keeps_the_depth_witness :
  depth (utf8.runes "notes/2024/todo.md") = depth (utf8.runes "notes/*/*.md").
Proof.
  apply (single_star_keeps_the_depth "notes/*/*.md" "notes/2024/todo.md"
           (default [] (globToRegex "notes/*/*.md"))).
  - reflexivity.
  - vm_compute. intuition discriminate.
  - vm_compute. intuition discriminate.
  - reflexivity.
Defined.

Lemma glob_matches_depth_le (toks : list glob_token) (s : list Z) :
  glob_matches toks s -> (token_depth toks <= depth s)%nat.
Proof.
  induction 1 as [|r toks s _ IH|r toks s _ _ IH|seg toks s _ _ IH
                  |seg toks s _ _ IH].
  - reflexivity.
  - unfold depth, token_depth in *. cbn [List.filter].
    rewrite (Z.eqb_sym 47 r). destruct (r =? 47); cbn [length]; lia.
  - unfold depth, token_depth in *. cbn [List.filter].
    destruct (47 =? r); cbn [length]; lia.
  - rewrite depth_app. unfold token_depth in *. cbn [List.filter]. lia.
  - rewrite depth_app. unfold token_depth in *. cbn [List.filter]. lia.
Qed.

(** X10: a pattern matches no path above its own depth.  Every separator
    written in a pattern stands for a separator of the path, whatever
    [*], [**] and [?] match: a matched path has at least as many
    separators as the pattern, so [**/*.md] matches no file at the root
    of the vault. *)
Theorem pattern_depth_is_a_lower_bound (pattern path : string)
    (re : regexp.Regexp) :
  globToRegex pattern = Some re ->
  regexp.MatchString re path = true ->
  (depth (utf8.runes pattern) <= depth (utf8.runes path))%nat.
Proof.
  intros Hre Hm.
  apply (MatchString_globToRegex _ _ _ Hre) in Hm.
  apply glob_matches_depth_le in Hm.
  now rewrite (glob_tokens_depth (length (utf8.runes pattern))) in Hm.
Qed.

Lemma pattern_depth_is_a_lower_bound_witness :
  (depth (utf8.runes "**/*.md") <= depth (utf8.runes "notes/2024/todo.md"))%nat.
Proof.
  apply (pattern_depth_is_a_lower_bound "**/*.md" "notes/2024/todo.md"
           (default [] (globToRegex "**/*.md"))).
  - reflexivity.
  - reflexivity.
Defined.

(** ** Point ids *)

(** No byte of the string is a colon. *)
Definition no_colon (s : string) : Prop :=
  ~ In ":"%char (GoStrings.bytes s).

Lemma pretty_N_go_no_colon (x : N) :
  forall s, no_colon s -> no_colon (pretty_N_go x s).
Proof.
  induction (N.lt_wf_0 x) as [x _ IH]. intros s Hs.
  destruct (decide (x = 0%N)) as [-> | Hx]; [now rewrite pretty_N_go_0|].
  rewrite pretty_N_go_step by lia.
  apply IH; [apply N.div_lt; lia|].
  unfold no_colon. cbn. intros [Hc | Hin]; [|exact (Hs Hin)].
  revert Hc. unfold pretty_N_char. repeat case_match; discriminate.
Qed.

Lemma pretty_Z_no_colon (z : Z) : no_colon (pretty z).
Proof.
  unfold pretty, pretty_Z. destruct z as [|p|p].
  - unfold no_colon. cbn. intros [[=] | []].
  - unfold pretty, pretty_N. cbn.
    apply pretty_N_go_no_colon. intros [].
  - unfold pretty, pretty_N, no_colon. cbn. intros [[=] | Hin].
    revert Hin. apply pretty_N_go_no_colon. intros [].
Qed.

Lemma split_at_last {A : Type} (x : A) (l1 l2 t1 t2 : list A) :
  (l1 ++ x :: t1)%list = (l2 ++ x :: t2)%list ->
  ~ In x t1 -> ~ In x t2 -> l1 = l2 /\ t1 = t2.
Proof.
  revert l2. induction l1 as [|a l1 IH]; intros [|b l2]; cbn [app].
  - now intros [= <-].
  - intros [= <- ->] Hn _. destruct Hn. apply in_elt.
  - intros [= -> <-] _ Hn. destruct Hn. apply in_elt.
  - intros [= <- Heq] H1 H2. destruct (IH _ Heq H1 H2) as [-> ->]. auto.
Qed.

Lemma key_bytes_inj (p1 p2 s1 s2 e1 e2 : list ascii) :
  (p1 ++ ":"%char :: s1 ++ ":"%char :: e1)%list
  = (p2 ++ ":"%char :: s2 ++ ":"%char :: e2)%list ->
  ~ In ":"%char s1 -> ~ In ":"%char e1 ->
  ~ In ":"%char s2 -> ~ In ":"%char e2 ->
  p1 = p2 /\ s1 = s2 /\ e1 = e2.
Proof.
  intros Heq Hs1 He1 Hs2 He2.
  change (p1 ++ ":"%char :: s1 ++ ":"%char :: e1)%list
    with (p1 ++ (":"%char :: s1) ++ ":"%char :: e1)%list in Heq.
  change (p2 ++ ":"%char :: s2 ++ ":"%char :: e2)%list
    with (p2 ++ (":"%char :: s2) ++ ":"%char :: e2)%list in Heq.
  rewrite !app_assoc in Heq.
  apply split_at_last in Heq as [Heq ->]; [|exact He1|exact He2].
  apply split_at_last in Heq as [-> ->]; auto.
Qed.

(** X11: two positions get the same point id only when they are the same
    path and the same lines, or when the digest collides.  The colons of
    the hashed text cannot be taken for part of the path or of a number:
    the text determines the path, the start line and the end line. *)
Theorem same_id_same_lines `{GoRuntime} (path1 path2 : string)
    (start1 end1 start2 end2 : Z) :
  hashPointID path1 start1 end1 = hashPointID path2 start2 end2 ->
  (path1 = path2 /\ start1 = start2 /\ end1 = end2)
  \/ exists a b, a <> b /\ sha1_hex a = sha1_hex b.
Proof.
  unfold hashPointID. intros Hid.
  match type of Hid with
  | sha1_hex ?a = sha1_hex ?b => destruct (decide (a = b)) as [Heq | Hne]
  end; [left | right; eauto].
  apply (f_equal GoStrings.bytes) in Heq. rewrite !bytes_app in Heq.
  change (GoStrings.bytes ":") with [":"%char] in Heq. cbn [app] in Heq.
  apply key_bytes_inj in Heq as (Hp & Hs & He); try apply pretty_Z_no_colon.
  apply (f_equal GoStrings.of_bytes) in Hp, Hs, He.
  rewrite !of_bytes_bytes in Hp, Hs, He.
  apply (inj pretty) in He, Hs. auto.
Qed.

Lemma same_id_same_lines_witness :
  ("a:1" = "a:1" /\ 2 = 2 /\ 3 = 3)
  \/ exists a b, a <> b
                 /\ sha1_hex (GoRuntime := Example.runtime) a
                    = sha1_hex (GoRuntime := Example.runtime) b.
Proof.
  apply (same_id_same_lines (H := Example.runtime) "a:1" "a:1" 2 3 2 3).
  reflexivity.
Defined.

(** ** Indexer: run-time panics *)

Section RunFacts.

Context `{GoRuntime}.
Context {float64 Remote : Type}.

Variable cfg : config.RagConfig.
Variable workspace : string.
Variable embedder : EmbeddingClient float64 Remote.
Variable qdrant : QdrantClient float64 Remote.
Variable fs : FileSystem.

(** The computation does not stop on a panic. *)
Definition never_panics {A : Type} (m : M float64 Remote A) : Prop :=
  forall r o r' evs, m r = (o, r', evs) -> o <> Panicked.

Lemma never_panics_ret {A : Type} (a : A) :
  never_panics (mret a : M float64 Remote A).
Proof. intros r o r' evs [= <- _ _]. discriminate. Qed.

Lemma never_panics_fail {A : Type} (e : error) :
  never_panics (fail e : M float64 Remote A).
Proof. intros r o r' evs [= <- _ _]. discriminate. Qed.

Lemma never_panics_out_of_fuel {A : Type} :
  never_panics (out_of_fuel : M float64 Remote A).
Proof. intros r o r' evs [= <- _ _]. discriminate. Qed.

Lemma never_panics_bind {A B : Type} (m : M float64 Remote A)
    (k : A -> M float64 Remote B) :
  never_panics m -> (forall a, never_panics (k a)) -> never_panics (m ≫= k).
Proof.
  intros Hm Hk r o r' evs Hrun.
  apply bind_inv in Hrun as (o1 & r1 & evs1 & Hm1 & Hrest).
  specialize (Hm _ _ _ _ Hm1).
  destruct o1 as [a|e| |]; [|destruct Hrest as (-> & _); discriminate
                            |contradiction
                            |destruct Hrest as (-> & _); discriminate].
  destruct Hrest as (evs2 & Hk1 & _). exact (Hk a _ _ _ _ Hk1).
Qed.

Lemma never_panics_remote_call (file : option string) (c : call float64)
    (op : Remote -> option error * Remote) :
  never_panics (remote_call file c op).
Proof.
  intros r o r' evs. unfold remote_call. destruct (op r) as [[e|] r1];
    intros [= <- _ _]; discriminate.
Qed.

Lemma never_panics_call_EmbedBatch (file : option string)
    (texts : list string) :
  never_panics (call_EmbedBatch embedder file texts).
Proof.
  intros r o r' evs. unfold call_EmbedBatch.
  destruct (EmbedBatch embedder texts r) as [[e|embeddings] r1];
    intros [= <- _ _]; discriminate.
Qed.

Lemma never_panics_call_ReadFile (file : option string) (path : string) :
  never_panics (call_ReadFile (Remote := Remote) (float64 := float64)
                  fs file path).
Proof.
  intros r o r' evs. unfold call_ReadFile.
  destruct (ReadFile fs path); intros [= <- _ _]; discriminate.
Qed.

Lemma never_panics_ensureCollection (reindexAll : bool)
    (file : option string) (dim : Z) (state : indexState) :
  never_panics (ensureCollection qdrant reindexAll file dim state).
Proof.
  unfold ensureCollection. destruct (dim <=? 0); [apply never_panics_fail|].
  apply never_panics_bind; [apply never_panics_remote_call|].
  intros _. apply never_panics_ret.
Qed.

Lemma never_panics_remove_missing (currentFiles : gmap string Z)
    (paths : list string) :
  forall state summary,
    never_panics (remove_missing qdrant currentFiles paths state summary).
Proof.
  induction paths as [|path rest IH]; intros state summary;
    cbn [remove_missing]; [apply never_panics_ret|].
  destruct (currentFiles !! path); [apply IH|].
  apply never_panics_bind; [apply never_panics_remote_call|].
  intros _. apply IH.
Qed.

Lemma slice_length {A : Type} (l : list A) (lo hi : Z) :
  0 <= lo <= hi -> hi <= len_slice l -> len_slice (slice l lo hi) = hi - lo.
Proof.
  intros Hlo Hhi. unfold slice, len_slice in *.
  rewrite length_take, length_drop. lia.
Qed.

(** With a positive batch size every batch holds a chunk, so neither the
    slice expression nor [embeddings[0]] is out of range. *)
Lemma never_panics_embed_batches (fuel : nat) (reindexAll : bool)
    (file : fileEntry) (chunks : list chunk) :
  0 < BatchSize embedder ->
  forall start state summary,
    0 <= start ->
    never_panics (embed_batches cfg embedder qdrant fuel reindexAll file
                    chunks start state summary).
Proof.
  intros Hbs.
  induction fuel as [|fuel IH]; intros start state summary Hstart;
    cbn [embed_batches];
    (destruct (Z.ltb_spec start (len_slice chunks)) as [Hlt | Hge];
     [|apply never_panics_ret]).
  - apply never_panics_out_of_fuel.
  - cbv zeta.
    set (end_ := if len_slice chunks <? start + BatchSize embedder
                 then len_slice chunks else start + BatchSize embedder).
    assert (start < end_ <= len_slice chunks) as Hend.
    { subst end_.
      destruct (Z.ltb_spec (len_slice chunks) (start + BatchSize embedder));
        lia. }
    replace (end_ <? start) with false by (symmetry; apply Z.ltb_ge; lia).
    apply never_panics_bind; [apply never_panics_call_EmbedBatch|].
    intros embeddings.
    destruct (Z.eqb_spec (len_slice embeddings)
                (len_slice (slice chunks start end_))) as [Hsame | Hdiff];
      cbn [negb]; [|apply never_panics_fail].
    rewrite slice_length in Hsame by lia.
    apply never_panics_bind.
    + destruct (EmbeddingDimension state =? 0); [|apply never_panics_ret].
      destruct embeddings as [|first rest];
        [unfold len_slice in Hsame; cbn in Hsame; lia|].
      destruct (_ && _); [apply never_panics_fail|].
      apply never_panics_ensureCollection.
    + intros state'.
      apply never_panics_bind; [apply never_panics_remote_call|].
      intros _. apply IH. lia.
Qed.

Lemma never_panics_index_file (fuel : nat) (reindexAll : bool)
    (file : fileEntry) (state : indexState) (summary : IndexSummary) :
  0 < BatchSize embedder ->
  never_panics (index_file cfg embedder qdrant fs fuel reindexAll file
                  state summary).
Proof.
  intros Hbs. unfold index_file. cbv zeta.
  destruct (negb reindexAll && _); [apply never_panics_ret|].
  apply never_panics_bind; [apply never_panics_call_ReadFile|].
  intros content.
  destruct (chunkMarkdown _ _ _ _ _) as [chunks|];
    [|apply never_panics_out_of_fuel].
  destruct (len_slice chunks =? 0); [apply never_panics_ret|].
  apply never_panics_bind; [apply never_panics_remote_call|]. intros _.
  apply never_panics_bind;
    [apply never_panics_embed_batches; [exact Hbs | lia]|].
  intros [st su]. apply never_panics_ret.
Qed.

Lemma never_panics_index_files (fuel : nat) (reindexAll : bool)
    (files : list fileEntry) :
  0 < BatchSize embedder ->
  forall state summary,
    never_panics (index_files cfg embedder qdrant fs fuel reindexAll files
                    state summary).
Proof.
  intros Hbs. induction files as [|file rest IH]; intros state summary;
    cbn [index_files]; [apply never_panics_ret|].
  apply never_panics_bind; [now apply never_panics_index_file|].
  intros [st su]. apply IH.
Qed.

Lemma never_panics_saveIndexState (path : string) (state : indexState) :
  never_panics (saveIndexState (Remote := Remote) (float64 := float64)
                  fs path state).
Proof.
  unfold saveIndexState. cbv zeta.
  destruct (json_MarshalIndent _); [apply never_panics_fail|].
  intros r o r' evs. destruct (MkdirAll_WriteFile fs path s);
    intros [= <- _ _]; discriminate.
Qed.

Lemma never_panics_run (fuel : nat) (opts : IndexOptions) :
  0 < BatchSize embedder ->
  never_panics (run cfg workspace embedder qdrant fs fuel opts).
Proof.
  intros Hbs. unfold run. cbv zeta.
  destruct (String.eqb _ ""); [apply never_panics_fail|].
  destruct (negb _); [apply never_panics_fail|].
  destruct (listMarkdownFiles _ _ _ _) as [e|files]; [apply never_panics_fail|].
  unfold run_passes.
  apply never_panics_bind.
  - unfold sync_passes. cbv zeta.
    apply never_panics_bind.
    + destruct (0 <? _); [apply never_panics_ensureCollection
                         |apply never_panics_ret].
    + intros st. apply never_panics_bind; [apply never_panics_remove_missing|].
      intros [st' su]. now apply never_panics_index_files.
  - intros [st su]. apply never_panics_bind;
      [apply never_panics_saveIndexState|].
    intros _. apply never_panics_ret.
Qed.

(** X12: with a positive batch size, as every client made by
    [NewEmbeddingClient] has, a run never stops on a run-time panic: no
    slice or index expression of the batch loop is out of range, whatever
    the embedding client and the vector store answer. *)
Theorem run_never_panics (fuel : nat) (opts : IndexOptions) (r : Remote)
    (o : outcome IndexSummary) (r' : Remote) (evs : list (event float64)) :
  0 < BatchSize embedder ->
  run cfg workspace embedder qdrant fs fuel opts r = (o, r', evs) ->
  o <> Panicked.
Proof.
  intros Hbs Hrun. exact (never_panics_run fuel opts Hbs r o r' evs Hrun).
Qed.

(** ** Indexer: the batches sent to the clients *)

(** A point as the batch loop builds it: its id is the digest of the path
    and lines in its payload, and it is sent while its file is processed. *)
Definition point_keyed (file : option string) (pt : QdrantPoint float64)
    : Prop :=
  ID pt = hashPointID (payload_path (Payload pt))
            (payload_start_line (Payload pt)) (payload_end_line (Payload pt))
  /\ file = Some (payload_path (Payload pt)).

(** A batch holds at least one and at most [BatchSize] items, when the
    batch size is positive ([sized]); its points are keyed in any case. *)
Definition batch_event (sized : Prop) (ev : event float64) : Prop :=
  match what ev with
  | CallEmbedBatch texts => sized -> 0 < len_slice texts <= BatchSize embedder
  | CallUpsert points =>
      (sized -> 0 < len_slice points <= BatchSize embedder)
      /\ Forall (point_keyed (during ev)) points
  | _ => True
  end.

Lemma make_points_keyed (file : fileEntry) (batch : list chunk)
    (embeddings : list (list float64)) :
  Forall (fun c => Path c = RelPath file) batch ->
  Forall (point_keyed (Some (RelPath file)))
    (make_points file batch embeddings).
Proof.
  intros Hb. revert embeddings.
  induction Hb as [|c batch Hc _ IH]; intros [|emb embeddings];
    cbn [make_points zip_with]; try constructor; [|apply IH].
  unfold point_keyed. cbn. now rewrite Hc.
Qed.

Lemma make_points_length (file : fileEntry) (batch : list chunk)
    (embeddings : list (list float64)) :
  len_slice embeddings = len_slice batch ->
  len_slice (make_points file batch embeddings) = len_slice batch.
Proof.
  unfold len_slice, make_points. intros Hlen. rewrite length_zip_with. lia.
Qed.

Lemma emits_batches (sized : Prop) (fuel : nat) (reindexAll : bool)
    (file : fileEntry) (chunks : list chunk) :
  (sized -> 0 < BatchSize embedder) ->
  Forall (fun c => Path c = RelPath file) chunks ->
  forall start state summary,
    0 <= start ->
    emits (batch_event sized) (fun _ => True)
      (embed_batches cfg embedder qdrant fuel reindexAll file chunks
         start state summary).
Proof.
  intros Hbs Hchunks.
  induction fuel as [|fuel IH]; intros start state summary Hstart;
    cbn [embed_batches];
    (destruct (Z.ltb_spec start (len_slice chunks)) as [Hlt | Hge];
     [|now apply emits_ret]).
  - apply emits_out_of_fuel.
  - cbv zeta.
    set (end_ := if len_slice chunks <? start + BatchSize embedder
                 then len_slice chunks else start + BatchSize embedder).
    assert (end_ <= len_slice chunks /\ end_ <= start + BatchSize embedder
            /\ (sized -> start < end_)) as (Hend & Hsize & Hpos).
    { subst end_.
      destruct (Z.ltb_spec (len_slice chunks) (start + BatchSize embedder));
        (split; [lia|]); (split; [lia|]); intros Hs; specialize (Hbs Hs); lia. }
    destruct (Z.ltb_spec end_ start) as [Hneg | Hle]; [apply emits_panic|].
    pose proof (slice_length chunks start end_ ltac:(lia) ltac:(lia)) as Hlen.
    eapply emits_bind.
    { apply emits_call_EmbedBatch. intros e. unfold batch_event. cbn [what].
      intros Hs. specialize (Hpos Hs).
      unfold len_slice in *. rewrite length_map. lia. }
    intros embeddings _.
    destruct (Z.eqb_spec (len_slice embeddings)
                (len_slice (slice chunks start end_))) as [Hsame | Hdiff];
      cbn [negb]; [|apply emits_fail].
    eapply emits_bind with (Q1 := fun _ => True).
    + destruct (EmbeddingDimension state =? 0); [|now apply emits_ret].
      destruct embeddings as [|first rest]; [apply emits_panic|].
      destruct (_ && _); [apply emits_fail|].
      eapply emits_weaken; [| |apply emits_ensureCollection];
        [intros ev Hev; exact Hev | auto | intros e; exact I].
    + intros state' _.
      eapply emits_bind.
      * apply emits_remote_call. intros e. unfold batch_event.
        cbn [what during]. rewrite (make_points_length _ _ _ Hsame).
        split; [intros Hs; specialize (Hpos Hs); lia|].
        apply make_points_keyed. now apply Forall_slice.
      * intros _ _. apply IH. lia.
Qed.

Lemma emits_batches_index_file (sized : Prop) (fuel : nat)
    (reindexAll : bool) (file : fileEntry) (state : indexState)
    (summary : IndexSummary) :
  (sized -> 0 < BatchSize embedder) ->
  emits (batch_event sized) (fun _ => True)
    (index_file cfg embedder qdrant fs fuel reindexAll file state summary).
Proof.
  intros Hbs. unfold index_file. cbv zeta.
  destruct (negb reindexAll && _); [now apply emits_ret|].
  eapply emits_bind; [apply emits_call_ReadFile; intros e; exact I|].
  intros content _.
  destruct (chunkMarkdown _ _ _ _ _) as [chunks|] eqn:Hchunks;
    [|apply emits_out_of_fuel].
  destruct (len_slice chunks =? 0); [now apply emits_ret|].
  eapply emits_bind; [apply emits_remote_call; intros e; exact I|].
  intros _ _.
  eapply emits_bind.
  { apply emits_batches; [exact Hbs | | lia].
    eapply chunkMarkdown_paths, Hchunks. }
  intros [st su] _. now apply emits_ret.
Qed.

Lemma emits_batches_index_files (sized : Prop) (fuel : nat)
    (reindexAll : bool) (files : list fileEntry) :
  (sized -> 0 < BatchSize embedder) ->
  forall state summary,
    emits (batch_event sized) (fun _ => True)
      (index_files cfg embedder qdrant fs fuel reindexAll files state summary).
Proof.
  intros Hbs. induction files as [|file rest IH]; intros state summary;
    cbn [index_files]; [now apply emits_ret|].
  eapply emits_bind; [now apply emits_batches_index_file|].
  intros [st su] _. apply IH.
Qed.

Lemma emits_batches_remove_missing (sized : Prop)
    (currentFiles : gmap string Z) (paths : list string) :
  forall state summary,
    emits (batch_event sized) (fun _ => True)
      (remove_missing qdrant currentFiles paths state summary).
Proof.
  induction paths as [|path rest IH]; intros state summary;
    cbn [remove_missing]; [now apply emits_ret|].
  destruct (currentFiles !! path); [apply IH|].
  eapply emits_bind; [apply emits_remote_call; intros e; exact I|].
  intros _ _. apply IH.
Qed.

Lemma run_batches (sized : Prop) (fuel : nat) (opts : IndexOptions) :
  (sized -> 0 < BatchSize embedder) ->
  emits (batch_event sized) (fun _ => True)
    (run cfg workspace embedder qdrant fs fuel opts).
Proof.
  intros Hbs. unfold run. cbv zeta.
  destruct (String.eqb _ ""); [apply emits_fail|].
  destruct (negb _); [apply emits_fail|].
  destruct (listMarkdownFiles _ _ _ _) as [e|files]; [apply emits_fail|].
  unfold run_passes.
  eapply emits_bind with (Q1 := fun _ => True).
  - unfold sync_passes. cbv zeta.
    eapply emits_bind with (Q1 := fun _ => True).
    + destruct (0 <? _); [|now apply emits_ret].
      eapply emits_weaken; [| |apply emits_ensureCollection];
        [intros ev Hev; exact Hev | auto | intros e; exact I].
    + intros st _.
      eapply emits_bind; [apply emits_batches_remove_missing|].
      intros [st' su] _. now apply emits_batches_index_files.
  - intros [st su] _.
    eapply emits_bind with (Q1 := fun _ => True).
    + intros r o r' evs Hsave. split; [|auto].
      apply saveIndexState_events in Hsave.
      eapply Forall_impl; [exact Hsave|].
      intros ev (path & st0 & Hev). unfold batch_event. now rewrite Hev.
    + intros _ _. now apply emits_ret.
Qed.

(** X13: with a positive batch size, every call to the embedding client
    carries between one and [BatchSize] texts and every upsert between one
    and [BatchSize] points; an empty batch is never sent. *)
Theorem run_sends_bounded_batches (fuel : nat) (opts : IndexOptions)
    (r : Remote) (o : outcome IndexSummary) (r' : Remote)
    (evs : list (event float64)) :
  0 < BatchSize embedder ->
  run cfg workspace embedder qdrant fs fuel opts r = (o, r', evs) ->
  Forall (fun ev =>
            match what ev with
            | CallEmbedBatch texts =>
                0 < len_slice texts <= BatchSize embedder
            | CallUpsert points =>
                0 < len_slice points <= BatchSize embedder
            | _ => True
            end) evs.
Proof.
  intros Hbs Hrun.
  destruct (run_batches True fuel opts (fun _ => Hbs) _ _ _ _ Hrun)
    as [Hevs _].
  eapply Forall_impl; [exact Hevs|].
  intros ev. unfold batch_event. destruct (what ev); tauto.
Qed.

(** X14: the id of every point a run upserts is the digest of the path,
    start line and end line in the point's payload, and the path is that of
    the file being processed; so the points of the same lines of a file
    get the same id in every run. *)
Theorem upserted_points_are_keyed_by_lines (fuel : nat) (opts : IndexOptions)
    (r : Remote) (o : outcome IndexSummary) (r' : Remote)
    (evs : list (event float64)) :
  run cfg workspace embedder qdrant fs fuel opts r = (o, r', evs) ->
  forall ev points pt,
    In ev evs -> what ev = CallUpsert points -> In pt points ->
    ID pt = hashPointID (payload_path (Payload pt))
              (payload_start_line (Payload pt))
              (payload_end_line (Payload pt))
    /\ during ev = Some (payload_path (Payload pt)).
Proof.
  intros Hrun ev points pt Hev Hwhat Hpt.
  destruct (run_batches False fuel opts ltac:(tauto) _ _ _ _ Hrun)
    as [Hevs _].
  rewrite Forall_forall in Hevs.
  specialize (Hevs ev ltac:(now apply list_elem_of_In)).
  unfold batch_event in Hevs. rewrite Hwhat in Hevs.
  destruct Hevs as [_ Hpts]. rewrite Forall_forall in Hpts.
  exact (Hpts pt ltac:(now apply list_elem_of_In)).
Qed.

(** ** Indexer: the summary and the manifest of a run that returns *)

(** The files a summary counts as new, updated or skipped. *)
Definition counted (s : IndexSummary) : Z :=
  IndexedFiles s + UpdatedFiles s + SkippedFiles s.

Definition record_file (m : gmap string Z) (f : fileEntry) : gmap string Z :=
  <[RelPath f := MTime f]> m.

Lemma foldl_record_lookup (files : list fileEntry) :
  forall (m : gmap string Z) (k : string),
    foldl record_file m files !! k
    = match current_files files !! k with
      | Some v => Some v
      | None => m !! k
      end.
Proof.
  unfold current_files. fold record_file.
  induction files as [|f files IH]; intros m k; cbn [foldl].
  { now rewrite lookup_empty. }
  rewrite (IH (record_file m f)), (IH (record_file ∅ f)).
  destruct (foldl record_file ∅ files !! k); [reflexivity|].
  unfold record_file.
  destruct (decide (RelPath f = k)) as [-> | Hne].
  - now rewrite !lookup_insert_eq.
  - rewrite !lookup_insert_ne by exact Hne. now rewrite lookup_empty.
Qed.

(** What the batch loop leaves as it is. *)
Definition batches_keep (state : indexState) (summary : IndexSummary)
    (p : indexState * IndexSummary) : Prop :=
  Files p.1 = Files state
  /\ TotalFiles p.2 = TotalFiles summary
  /\ IndexedFiles p.2 = IndexedFiles summary
  /\ UpdatedFiles p.2 = UpdatedFiles summary
  /\ RemovedFiles p.2 = RemovedFiles summary
  /\ SkippedFiles p.2 = SkippedFiles summary
  /\ Chunks summary <= Chunks p.2.

Lemma batches_keep_refl (state : indexState) (summary : IndexSummary) :
  batches_keep state summary (state, summary).
Proof. unfold batches_keep. cbn. repeat apply conj; try reflexivity; lia. Qed.

Lemma emits_batches_keep (fuel : nat) (reindexAll : bool) (file : fileEntry)
    (chunks : list chunk) :
  forall start state summary,
    emits (fun _ => True) (batches_keep state summary)
      (embed_batches cfg embedder qdrant fuel reindexAll file chunks
         start state summary).
Proof.
  induction fuel as [|fuel IH]; intros start state summary;
    cbn [embed_batches];
    (destruct (start <? len_slice chunks);
     [|apply emits_ret, batches_keep_refl]).
  - apply emits_out_of_fuel.
  - cbv zeta. destruct (_ <? start); [apply emits_panic|].
    eapply emits_bind; [apply emits_call_EmbedBatch; intros e; exact I|].
    intros embeddings _.
    destruct (negb _); [apply emits_fail|].
    eapply emits_bind with (Q1 := fun st => Files st = Files state).
    + destruct (EmbeddingDimension state =? 0); [|now apply emits_ret].
      destruct embeddings as [|first rest]; [apply emits_panic|].
      destruct (_ && _); [apply emits_fail|].
      apply emits_ensureCollection. intros e. exact I.
    + intros state' Hst.
      eapply emits_bind; [apply emits_remote_call; intros e; exact I|].
      intros _ _. eapply emits_weaken; [| |apply IH]; [auto|].
      intros [st su]. unfold batches_keep. cbn.
      intros (H1 & H2 & H3 & H4 & H5 & H6 & H7).
      rewrite H1, H2, H3, H4, H5, H6, Hst.
      repeat apply conj; try reflexivity. unfold len_slice in H7. lia.
Qed.

(** What the pass over one file does to the manifest and the summary. *)
Definition file_recorded (reindexAll : bool) (file : fileEntry)
    (state : indexState) (summary : IndexSummary)
    (p : indexState * IndexSummary) : Prop :=
  Files p.1 = record_file (Files state) file
  /\ TotalFiles p.2 = TotalFiles summary
  /\ RemovedFiles p.2 = RemovedFiles summary
  /\ IndexedFiles summary <= IndexedFiles p.2
  /\ UpdatedFiles summary <= UpdatedFiles p.2
  /\ SkippedFiles summary <= SkippedFiles p.2
  /\ Chunks summary <= Chunks p.2
  /\ counted p.2 <= counted summary + 1
  /\ (reindexAll = true ->
      UpdatedFiles p.2 = UpdatedFiles summary
      /\ SkippedFiles p.2 = SkippedFiles summary).

Lemma emits_file_recorded (fuel : nat) (reindexAll : bool) (file : fileEntry)
    (state : indexState) (summary : IndexSummary) :
  emits (fun _ => True) (file_recorded reindexAll file state summary)
    (index_file cfg embedder qdrant fs fuel reindexAll file state summary).
Proof.
  unfold index_file. cbv zeta.
  destruct (negb reindexAll && _) eqn:Hskip.
  { apply emits_ret. unfold file_recorded, record_file, counted. cbn.
    apply andb_true_iff in Hskip as [Hinc Hsame].
    destruct (Files state !! RelPath file) as [prev|] eqn:Hprev;
      [|discriminate].
    apply Z.eqb_eq in Hsame. subst prev.
    rewrite (insert_id _ _ _ Hprev).
    repeat apply conj; try lia; try reflexivity.
    intros ->. discriminate. }
  eapply emits_bind; [apply emits_call_ReadFile; intros e; exact I|].
  intros content _.
  destruct (chunkMarkdown _ _ _ _ _) as [chunks|]; [|apply emits_out_of_fuel].
  destruct (len_slice chunks =? 0).
  { apply emits_ret. unfold file_recorded, record_file, counted. cbn.
    repeat apply conj; try lia; try reflexivity. }
  eapply emits_bind; [apply emits_remote_call; intros e; exact I|].
  intros _ _.
  eapply emits_bind; [apply emits_batches_keep|].
  intros [st su]. unfold batches_keep. cbn.
  intros (H1 & H2 & H3 & H4 & H5 & H6 & H7).
  apply emits_ret. unfold file_recorded, record_file, counted.
  destruct (bool_decide _ && negb reindexAll) eqn:Hupd; cbn;
    rewrite ?H1, ?H2, ?H3, ?H4, ?H5, ?H6;
    repeat apply conj; try lia; try reflexivity.
  intros ->. rewrite andb_false_r in Hupd. discriminate.
Qed.

Definition files_recorded (reindexAll : bool) (files : list fileEntry)
    (state : indexState) (summary : IndexSummary)
    (p : indexState * IndexSummary) : Prop :=
  Files p.1 = foldl record_file (Files state) files
  /\ TotalFiles p.2 = TotalFiles summary
  /\ RemovedFiles p.2 = RemovedFiles summary
  /\ IndexedFiles summary <= IndexedFiles p.2
  /\ UpdatedFiles summary <= UpdatedFiles p.2
  /\ SkippedFiles summary <= SkippedFiles p.2
  /\ Chunks summary <= Chunks p.2
  /\ counted p.2 <= counted summary + len_slice files
  /\ (reindexAll = true ->
      UpdatedFiles p.2 = UpdatedFiles summary
      /\ SkippedFiles p.2 = SkippedFiles summary).

Lemma emits_files_recorded (fuel : nat) (reindexAll : bool)
    (files : list fileEntry) :
  forall state summary,
    emits (fun _ => True) (files_recorded reindexAll files state summary)
      (index_files cfg embedder qdrant fs fuel reindexAll files state summary).
Proof.
  induction files as [|file rest IH]; intros state summary;
    cbn [index_files].
  { apply emits_ret. unfold files_recorded, len_slice. cbn.
    repeat apply conj; try lia; try reflexivity. }
  eapply emits_bind; [apply emits_file_recorded|].
  intros [st su] (H1 & H2 & H3 & H4 & H5 & H6 & H7 & H8 & H9). cbn in *.
  eapply emits_weaken; [| |apply IH]; [auto|].
  intros [st' su'] (G1 & G2 & G3 & G4 & G5 & G6 & G7 & G8 & G9). cbn in *.
  unfold files_recorded, len_slice in *. cbn [length fst snd foldl].
  rewrite G1, H1, G2, H2, G3, H3.
  repeat apply conj; try lia; try reflexivity.
  intros Hre. destruct (H9 Hre), (G9 Hre). split; lia.
Qed.

(** The removal pass changes only the file set and [RemovedFiles]. *)
Definition removal_keeps (summary : IndexSummary)
    (p : indexState * IndexSummary) : Prop :=
  TotalFiles p.2 = TotalFiles summary
  /\ IndexedFiles p.2 = IndexedFiles summary
  /\ UpdatedFiles p.2 = UpdatedFiles summary
  /\ SkippedFiles p.2 = SkippedFiles summary
  /\ Chunks p.2 = Chunks summary.

Lemma emits_removal_keeps (currentFiles : gmap string Z)
    (paths : list string) :
  forall state summary,
    emits (fun _ => True) (removal_keeps summary)
      (remove_missing qdrant currentFiles paths state summary).
Proof.
  induction paths as [|path rest IH]; intros state summary;
    cbn [remove_missing].
  { apply emits_ret. unfold removal_keeps. cbn. auto. }
  destruct (currentFiles !! path); [apply IH|].
  eapply emits_bind; [apply emits_remote_call; intros e; exact I|].
  intros _ _. eapply emits_weaken; [| |apply IH]; [auto|].
  intros [st su]. unfold removal_keeps. cbn. auto.
Qed.

Lemma range_keys_empty : range_keys (∅ : gmap string Z) = [].
Proof.
  apply Permutation.Permutation_nil. symmetry.
  rewrite range_keys_perm, map_to_list_empty. reflexivity.
Qed.

(** The manifest and the summary at the end of the passes. *)
Lemma sync_passes_recorded (fuel : nat) (reindexAll : bool)
    (files : list fileEntry) (state : indexState) (r : Remote)
    (st : indexState) (su : IndexSummary) (r' : Remote)
    (evs : list (event float64)) :
  sync_passes cfg embedder qdrant fs fuel reindexAll files state r
  = (Returned (st, su), r', evs) ->
  Files st = current_files files
  /\ TotalFiles su = len_slice files
  /\ 0 <= IndexedFiles su /\ 0 <= UpdatedFiles su /\ 0 <= SkippedFiles su
  /\ 0 <= RemovedFiles su /\ 0 <= Chunks su
  /\ counted su <= len_slice files
  /\ (reindexAll = true ->
      UpdatedFiles su = 0 /\ SkippedFiles su = 0 /\ RemovedFiles su = 0).
Proof.
  unfold sync_passes. cbv zeta. intros Hrun.
  apply bind_inv in Hrun as (o1 & r1 & evs1 & Hensure & Hrest).
  destruct o1 as [st1|e| |]; try (destruct Hrest as [[=] _]).
  destruct Hrest as (evs2 & Hrest & _).
  assert (Files st1 = Files state) as Hst1.
  { destruct (0 <? _).
    - eapply (emits_ensureCollection qdrant (fun _ => True)); eauto.
    - apply ret_inv in Hensure as ([= <-] & _). reflexivity. }
  set (state1 := if reindexAll then set_Files ∅ st1 else st1) in *.
  assert (Files state1 = start_files reindexAll state) as Hstart.
  { unfold state1, start_files. destruct reindexAll; [reflexivity | exact Hst1]. }
  apply bind_inv in Hrest as (o2 & r2 & evs3 & Hremove & Hrest).
  destruct o2 as [[st2 su2]|e| |]; try (destruct Hrest as [[=] _]).
  destruct Hrest as (evs4 & Hindex & _).
  destruct (remove_missing_spec qdrant _ _ _ _ _ _ _ _ Hremove)
    as [_ Hpost].
  destruct (Hpost _ eq_refl) as (_ & Hfiles2 & Hremoved & _).
  destruct (emits_removal_keeps _ _ _ _ _ _ _ _ Hremove) as [_ Hkeeps].
  destruct (Hkeeps _ eq_refl) as (K1 & K2 & K3 & K4 & K5).
  destruct (emits_files_recorded _ _ _ _ _ _ _ _ _ Hindex) as [_ Hrec].
  destruct (Hrec _ eq_refl) as (F1 & F2 & F3 & F4 & F5 & F6 & F7 & F8 & F9).
  cbn [fst snd] in *. cbn in K1, K2, K3, K4, K5, Hremoved.
  unfold counted in *. rewrite Hstart in Hfiles2, Hremoved.
  split.
  { apply map_eq. intros k. rewrite F1, foldl_record_lookup.
    destruct (current_files files !! k) as [v|] eqn:Hk; [reflexivity|].
    rewrite Hfiles2.
    destruct (decide (k ∈ missing (current_files files)
                        (range_keys (start_files reindexAll state))))
      as [Hin | Hnot].
    - now rewrite bool_decide_eq_true_2.
    - rewrite bool_decide_eq_false_2 by exact Hnot.
      destruct (start_files reindexAll state !! k) as [v|] eqn:Hs;
        [|reflexivity].
      exfalso. apply Hnot, missing_In. split; [|exact Hk].
      apply range_keys_elem_of. eauto. }
  repeat apply conj; try lia.
  intros ->. destruct (F9 eq_refl) as [G1 G2].
  cbn [start_files] in Hremoved. rewrite range_keys_empty in Hremoved.
  cbn in Hremoved. repeat apply conj; lia.
Qed.

(** X15: the summary of a run that returns adds up.  [TotalFiles] is the
    number of files found, no counter is negative, at most that many files
    are counted as new, updated or skipped together (a file without chunks
    is counted as none of them), and a full rebuild counts no file as
    updated, skipped or removed. *)
Theorem run_summary_adds_up (fuel : nat) (opts : IndexOptions) (r : Remote)
    (summary : IndexSummary) (r' : Remote) (evs : list (event float64)) :
  run cfg workspace embedder qdrant fs fuel opts r
  = (Returned summary, r', evs) ->
  exists files,
    listMarkdownFiles fs (expandHome fs (config.VaultPath cfg))
      (config.IncludePatterns cfg) (config.ExcludePatterns cfg) = inr files
    /\ TotalFiles summary = len_slice files
    /\ 0 <= IndexedFiles summary /\ 0 <= UpdatedFiles summary
    /\ 0 <= SkippedFiles summary /\ 0 <= RemovedFiles summary
    /\ 0 <= Chunks summary
    /\ IndexedFiles summary + UpdatedFiles summary + SkippedFiles summary
       <= TotalFiles summary
    /\ (reindexAll_of cfg embedder qdrant opts
          (loadIndexState fs (statePath workspace)) = true ->
        UpdatedFiles summary = 0 /\ SkippedFiles summary = 0
        /\ RemovedFiles summary = 0).
Proof.
  intros Hrun.
  apply run_inv in Hrun as [[[e [=]] _] | (files & Hlist & Hpasses)].
  exists files. split; [exact Hlist|].
  apply run_passes_inv in Hpasses as (o1 & r1 & evs1 & Hsync & Hrest).
  destruct o1 as [[st su]|e| |]; try (destruct Hrest as [[=] _]).
  destruct Hrest as (o2 & evs2 & _ & _ & Ho).
  assert (su = summary) as -> by (destruct o2; congruence).
  apply sync_passes_recorded in Hsync
    as (_ & H1 & H2 & H3 & H4 & H5 & H6 & H7 & H8).
  unfold counted in H7. repeat apply conj; try lia. exact H8.
Qed.

(** X16: the manifest a run hands to [saveIndexState] is the scan it
    made.  In a run that returns, the last call is that one, it succeeds,
    and its manifest has as file set exactly the files found, each with its
    marker, and as settings those of the configuration.  For this manifest
    value the rebuild test of [run] under the same configuration, without
    the reindex option, is negative, and when the scan lists each relative
    path once the test for an unchanged file is positive for every file of
    the scan.  The statement is about the value that is written: what
    [loadIndexState] decodes from the written file is not part of it. *)
Theorem run_saves_the_scan (fuel : nat) (opts : IndexOptions) (r : Remote)
    (summary : IndexSummary) (r' : Remote) (evs : list (event float64))
    (files : list fileEntry) :
  run cfg workspace embedder qdrant fs fuel opts r
  = (Returned summary, r', evs) ->
  listMarkdownFiles fs (expandHome fs (config.VaultPath cfg))
    (config.IncludePatterns cfg) (config.ExcludePatterns cfg) = inr files ->
  exists before saved,
    evs = (before ++ [ {| during := None;
                          what := CallSaveIndexState (statePath workspace) saved;
                          failure := None |} ])%list
    /\ Files saved = current_files files
    /\ UpdatedAt saved = Now_RFC3339 fs
    /\ Collection saved = qdrant_Collection qdrant
    /\ EmbeddingModel saved = Model embedder
    /\ ChunkSize saved = config.ChunkSize cfg
    /\ ChunkOverlap saved = config.ChunkOverlap cfg
    /\ IncludePatterns saved = config.IncludePatterns cfg
    /\ ExcludePatterns saved = config.ExcludePatterns cfg
    /\ reindexAll_of cfg embedder qdrant {| ReindexAll := false |} (Some saved)
       = false
    /\ (NoDup (map RelPath files) ->
        forall f, In f files -> unchanged saved f = true).
Proof.
  intros Hrun Hlist.
  apply run_inv in Hrun as [[[e [=]] _] | (files' & Hlist' & Hpasses)].
  rewrite Hlist in Hlist'. injection Hlist' as <-.
  apply run_passes_inv in Hpasses as (o1 & r1 & evs1 & Hsync & Hrest).
  destruct o1 as [[st su]|e| |]; try (destruct Hrest as [[=] _]).
  destruct Hrest as (o2 & evs2 & Hsave & -> & Ho).
  destruct o2 as [[]|e| |]; try discriminate.
  apply saveIndexState_inv in Hsave as [_ Hsaved].
  specialize (Hsaved tt eq_refl). subst evs2.
  apply sync_passes_recorded in Hsync as (Hfiles & _).
  eexists evs1, _. split; [reflexivity|].
  cbn [Files UpdatedAt Collection EmbeddingModel ChunkSize ChunkOverlap
       IncludePatterns ExcludePatterns set_UpdatedAt stamp].
  repeat apply conj; try reflexivity; try exact Hfiles.
  - destruct (reindexAll_of _ _ _ _ _) eqn:Hre; [|reflexivity].
    apply reindexAll_of_spec in Hre
      as [[=] | [[=] | (saved & [= <-] & Hdrift)]].
    unfold drifted in Hdrift. cbn in Hdrift. tauto.
  - intros Hnodup f Hf. unfold unchanged. cbn [Files set_UpdatedAt stamp].
    rewrite Hfiles.
    assert (current_files files !! RelPath f = Some (MTime f)) as ->;
      [|apply Z.eqb_refl].
    clear -Hnodup Hf. unfold current_files. fold record_file.
    assert (forall m, foldl record_file m files !! RelPath f
                      = Some (MTime f)) as Hall; [|apply Hall].
    induction files as [|g files IH]; [destruct Hf|]. intros m. cbn [foldl].
    apply NoDup_cons in Hnodup as [Hg Hnodup]. destruct Hf as [-> | Hf].
    + rewrite foldl_record_lookup.
      destruct (current_files files !! RelPath f) as [v|] eqn:Hk.
      * exfalso. apply Hg. apply list_elem_of_In.
        destruct (In_dec string_dec (RelPath f) (map RelPath files))
          as [Hin | Hnin]; [exact Hin|].
        apply current_files_lookup in Hnin. congruence.
      * unfold record_file. apply lookup_insert_eq.
    + now apply IH.
Qed.

(** ** Indexer: a file without text *)

(** The file can be read and its content gives no chunk. *)
Definition blank (fuel : nat) (f : fileEntry) : Prop :=
  exists content,
    ReadFile fs (AbsPath f) = inr content
    /\ chunkMarkdown fuel (RelPath f) content (config.ChunkSize cfg)
         (config.ChunkOverlap cfg) = Some [].

(** The event is recorded for the file, and it is the reading of the file
    when the file is blank. *)
Definition reads_if_blank (fuel : nat) (f : fileEntry) (ev : event float64)
    : Prop :=
  during ev = Some (RelPath f)
  /\ (blank fuel f -> what ev = CallReadFile (AbsPath f)).

Lemma emits_read_content (P : event float64 -> Prop) (file : option string)
    (path : string) :
  (forall e, P {| during := file; what := CallReadFile path; failure := e |}) ->
  emits P (fun content => ReadFile fs path = inr content)
    (call_ReadFile (Remote := Remote) fs file path).
Proof.
  intros HP r o r' evs. unfold call_ReadFile.
  destruct (ReadFile fs path) as [e | v];
    intros [= <- <- <-]; (split; [repeat constructor; apply HP|]).
  - discriminate.
  - now intros a [= <-].
Qed.

Lemma emits_index_file_blank (fuel : nat) (reindexAll : bool)
    (f : fileEntry) (state : indexState) (summary : IndexSummary) :
  emits (reads_if_blank fuel f) (fun _ => True)
    (index_file cfg embedder qdrant fs fuel reindexAll f state summary).
Proof.
  unfold index_file. cbv zeta.
  destruct (negb reindexAll && _); [now apply emits_ret|].
  eapply emits_bind; [apply emits_read_content; now split|].
  intros content Hread. cbv beta in Hread.
  destruct (chunkMarkdown _ _ _ _ _) as [chunks|] eqn:Hchunks;
    [|apply emits_out_of_fuel].
  destruct (len_slice chunks =? 0) eqn:Hlen; [now apply emits_ret|].
  assert (~ blank fuel f) as Hnot.
  { intros (content' & Hread' & Hchunks').
    rewrite Hread in Hread'. injection Hread' as <-.
    rewrite Hchunks in Hchunks'. injection Hchunks' as ->. discriminate. }
  assert (forall ev, belongs_to (RelPath f) ev -> reads_if_blank fuel f ev)
    as Hweak.
  { intros ev [Hd _]. split; [exact Hd | intros Hb; destruct (Hnot Hb)]. }
  eapply emits_bind with (Q1 := fun _ => True).
  { apply emits_remote_call. intros e. apply Hweak. now split. }
  intros _ _.
  eapply emits_bind with (Q1 := fun _ => True).
  { eapply emits_weaken; [exact Hweak | |apply emits_embed_batches].
    - auto.
    - eapply chunkMarkdown_paths, Hchunks. }
  intros [st' su'] _. now apply emits_ret.
Qed.

Lemma emits_index_files_blank (fuel : nat) (reindexAll : bool)
    (files : list fileEntry) :
  forall state summary,
    emits (fun ev => exists g, In g files /\ reads_if_blank fuel g ev)
      (fun _ => True)
      (index_files cfg embedder qdrant fs fuel reindexAll files state summary).
Proof.
  induction files as [|f files IH]; intros state summary;
    cbn [index_files]; [now apply emits_ret|].
  eapply emits_bind with (Q1 := fun _ => True).
  - eapply emits_weaken; [| |apply emits_index_file_blank]; [|auto].
    intros ev Hev. exists f. split; [now left | exact Hev].
  - intros [st su] _.
    eapply emits_weaken; [| |apply IH]; [|auto].
    intros ev (g & Hg & Hev). exists g. split; [now right | exact Hev].
Qed.

(** X17: a file of the scan whose content gives no chunk is only read.
    In a run over files of distinct paths, every call made for such a file
    is the read of it: no text of it is embedded, no upserted point carries
    its path, and no delete-by-path names its path.  Calls on the whole
    collection are not excluded: [EnsureCollection] deletes and recreates
    it in a full rebuild or when the vector size differs. *)
Theorem blank_file_is_only_read (fuel : nat) (opts : IndexOptions)
    (r : Remote) (o : outcome IndexSummary) (r' : Remote)
    (evs : list (event float64)) (files : list fileEntry) (f : fileEntry) :
  run cfg workspace embedder qdrant fs fuel opts r = (o, r', evs) ->
  listMarkdownFiles fs (expandHome fs (config.VaultPath cfg))
    (config.IncludePatterns cfg) (config.ExcludePatterns cfg) = inr files ->
  NoDup (map RelPath files) ->
  In f files ->
  blank fuel f ->
  Forall (fun ev =>
            (during ev = Some (RelPath f) ->
             what ev = CallReadFile (AbsPath f))
            /\ what ev <> CallDeleteByPath (RelPath f)
            /\ forall points,
                 what ev = CallUpsert points ->
                 Forall (fun pt => payload_path (Payload pt) <> RelPath f)
                   points) evs.
Proof.
  intros Hrun Hlist Hnd Hf Hblank.
  apply run_inv in Hrun as [[_ ->] | (files' & Hlist' & Hrun)];
    [constructor|].
  rewrite Hlist in Hlist'. injection Hlist' as <-.
  apply run_passes_inv in Hrun as (o1 & r1 & evs1 & Hsync & Hrest).
  set (spared := fun ev : event float64 =>
         (during ev = Some (RelPath f) -> what ev = CallReadFile (AbsPath f))
         /\ what ev <> CallDeleteByPath (RelPath f)
         /\ forall points,
              what ev = CallUpsert points ->
              Forall (fun pt => payload_path (Payload pt) <> RelPath f)
                points).
  assert (forall ev, during ev = None ->
            (forall p, what ev = CallDeleteByPath p -> p <> RelPath f) ->
            (forall points, what ev <> CallUpsert points) -> spared ev)
    as Hnone.
  { intros ev Hd Hdel Hup. split; [rewrite Hd; discriminate|]. split.
    - intros Hw. now apply (Hdel _ Hw).
    - intros points Hw. destruct (Hup _ Hw). }
  assert (Forall spared evs1) as Hevs1.
  { destruct (sync_passes_inv _ _ _ _ _ _ _ _ _ _ _ _ Hsync) as [Hpass _].
    assert (Forall (fun ev =>
                      during ev = None
                      \/ exists g, In g files /\ reads_if_blank fuel g ev)
              evs1) as Hread.
    { clear Hpass. unfold sync_passes in Hsync. cbv zeta in Hsync.
      apply bind_inv in Hsync as (o2 & r2 & evsA & Hens & Hrest2).
      assert (Forall (fun ev => during ev = None
                                \/ exists g, In g files
                                             /\ reads_if_blank fuel g ev) evsA)
        as HA.
      { destruct (0 <? _).
        - eapply (emits_ensureCollection qdrant); [|exact Hens].
          intros e. now left.
        - apply ret_inv in Hens as (_ & _ & ->). constructor. }
      destruct o2 as [st2|e| |];
        try (destruct Hrest2 as (_ & _ & ->); exact HA).
      destruct Hrest2 as (evs2 & Hk & ->). apply Forall_app. split; [exact HA|].
      apply bind_inv in Hk as (o3 & r3 & evsB & Hrem & Hrest3).
      assert (Forall (fun ev => during ev = None
                                \/ exists g, In g files
                                             /\ reads_if_blank fuel g ev) evsB)
        as HB.
      { destruct (remove_missing_spec qdrant _ _ _ _ _ _ _ _ Hrem) as [HevB _].
        eapply Forall_impl; [exact HevB|]. intros ev [Hd _]. now left. }
      destruct o3 as [[st3 su3]|e| |];
        try (destruct Hrest3 as (_ & _ & ->); exact HB).
      destruct Hrest3 as (evsC & Hfiles & ->).
      apply Forall_app. split; [exact HB|].
      destruct (emits_index_files_blank _ _ _ _ _ _ _ _ _ Hfiles) as [HC _].
      eapply Forall_impl; [exact HC|]. intros ev Hev. now right. }
    rewrite Forall_forall in Hpass, Hread. apply Forall_forall.
    intros ev Hev. specialize (Hpass ev Hev). specialize (Hread ev Hev).
    destruct Hpass
      as [[Hd (dim & rec & Hw)] | [[Hd (p & Hw & Hcur)] | (st & _ & Hfe)]].
    - apply Hnone; [exact Hd| |]; intros ?; rewrite Hw; discriminate.
    - apply Hnone; [exact Hd| |].
      + intros p'. rewrite Hw. intros [= <-] ->.
        apply current_files_lookup in Hcur. apply Hcur. now apply in_map.
      + intros points. rewrite Hw. discriminate.
    - destruct Hfe as (g & Hg & [Hd Hw] & _).
      destruct (decide (RelPath g = RelPath f)) as [Heq | Hne].
      + assert (g = f) as -> by (eapply (NoDup_map_inj RelPath); eauto).
        destruct Hread as [Hnone' | (g' & Hg' & Hd' & Hb')];
          [rewrite Hd in Hnone'; discriminate|].
        assert (g' = f) as ->.
        { eapply (NoDup_map_inj RelPath); eauto. congruence. }
        specialize (Hb' Hblank). split; [auto|]. split.
        * rewrite Hb'. discriminate.
        * intros points. rewrite Hb'. discriminate.
      + split; [rewrite Hd; congruence|]. split.
        * intros Heq. rewrite Heq in Hw. congruence.
        * intros points Heq. rewrite Heq in Hw.
          eapply Forall_impl; [exact Hw|]. intros pt ->. exact Hne. }
  destruct o1 as [[st1 su1] | e | |];
    try (destruct Hrest as (_ & _ & ->); exact Hevs1).
  destruct Hrest as (o2 & evs2 & Hsave & -> & _).
  apply Forall_app. split; [exact Hevs1|].
  apply saveIndexState_inv in Hsave as [Hsave _].
  eapply Forall_impl; [exact Hsave|]. intros ev [Hd (p & st0 & Hw)].
  apply Hnone; [exact Hd| |]; intros ?; rewrite Hw; discriminate.
Qed.

End RunFacts.

Lemma run_never_panics_witness : Example.incremental.1.1 <> Panicked.
Proof.
  apply (run_never_panics (H := Example.runtime) (Example.cfg 3) "/ws"
           (Example.embedder 3) (Example.qdrant false) (Example.fs true) 10
           {| ReindexAll := false |} tt _ tt Example.incremental.2).
  - reflexivity.
  - vm_compute. reflexivity.
Defined.

Lemma run_sends_bounded_batches_witness :
  Forall (fun ev =>
            match what ev with
            | CallEmbedBatch texts => 0 < len_slice texts <= 16
            | CallUpsert points => 0 < len_slice points <= 16
            | _ => True
            end) Example.full.2.
Proof.
  apply (run_sends_bounded_batches (H := Example.runtime) (Example.cfg 3)
           "/ws" (Example.embedder 3) (Example.qdrant false) (Example.fs true)
           10 {| ReindexAll := true |} tt Example.full.1.1 tt).
  - reflexivity.
  - vm_compute. reflexivity.
Defined.

(** The point the incremental run upserts for [b.md]. *)
Definition point_b : QdrantPoint Z :=
  {| ID := "b.md:1:1"; Vector := [0; 0; 0];
     Payload := {| payload_path := "b.md"; payload_heading := "b";
                   payload_start_line := 1; payload_end_line := 1;
                   payload_content := "hello"; payload_mtime := 20 |} |}.

Lemma upserted_points_are_keyed_by_lines_witness :
  ID point_b = hashPointID (H := Example.runtime) "b.md" 1 1
  /\ Some "b.md" = Some (payload_path (Payload point_b)).
Proof.
  apply (upserted_points_are_keyed_by_lines (H := Example.runtime)
           (Example.cfg 3) "/ws" (Example.embedder 3) (Example.qdrant false)
           (Example.fs true) 10 {| ReindexAll := false |} tt
           Example.incremental.1.1 tt Example.incremental.2
           ltac:(vm_compute; reflexivity)
           {| during := Some "b.md"; what := CallUpsert [point_b];
              failure := None |}
           [point_b] point_b).
  - vm_compute. do 5 right. left. reflexivity.
  - reflexivity.
  - now left.
Defined.

Lemma run_summary_adds_up_witness :
  exists files,
    listMarkdownFiles (H := Example.runtime) (Example.fs true) "/vault" [] []
    = inr files
    /\ 2 = len_slice files
    /\ 0 <= 1 /\ 0 <= 0 /\ 0 <= 1 /\ 0 <= 1 /\ 0 <= 1
    /\ 1 + 0 + 1 <= 2
    /\ (false = true -> 0 = 0 /\ 1 = 0 /\ 1 = 0).
Proof.
  apply (run_summary_adds_up (H := Example.runtime) (Example.cfg 3) "/ws"
           (Example.embedder 3) (Example.qdrant false) (Example.fs true) 10
           {| ReindexAll := false |} tt
           {| TotalFiles := 2; IndexedFiles := 1; UpdatedFiles := 0;
              RemovedFiles := 1; SkippedFiles := 1; Chunks := 1 |}
           tt Example.incremental.2).
  vm_compute. reflexivity.
Defined.

Lemma run_saves_the_scan_witness :
  exists before saved,
    Example.incremental.2
    = (before ++ [ {| during := None;
                      what := CallSaveIndexState "/ws/rag/index_state.json" saved;
                      failure := None |} ])%list
    /\ Files saved = current_files Example.files
    /\ reindexAll_of (Example.cfg 3) (Example.embedder 3)
         (Example.qdrant false) {| ReindexAll := false |} (Some saved) = false
    /\ unchanged saved Example.file_a = true.
Proof.
  destruct (run_saves_the_scan (H := Example.runtime) (Example.cfg 3) "/ws"
              (Example.embedder 3) (Example.qdrant false) (Example.fs true) 10
              {| ReindexAll := false |} tt
              {| TotalFiles := 2; IndexedFiles := 1; UpdatedFiles := 0;
                 RemovedFiles := 1; SkippedFiles := 1; Chunks := 1 |}
              tt Example.incremental.2 Example.files)
    as (before & saved & Hevs & Hfiles & _ & _ & _ & _ & _ & _ & _ & Hre & Hun).
  - vm_compute. reflexivity.
  - reflexivity.
  - exists before, saved. split; [exact Hevs|]. split; [exact Hfiles|].
    split; [exact Hre|]. apply Hun; [|now left].
    apply (bool_decide_unpack _). vm_compute. exact I.
Defined.

(** The vault of the example after [b.md] was emptied to a single space. *)
Definition emptied_fs : FileSystem :=
  {| UserHomeDir := UserHomeDir (Example.fs true);
     Stat_IsDir := Stat_IsDir (Example.fs true);
     WalkDir := WalkDir (Example.fs true);
     ReadFile := fun path =>
       if String.eqb path "/vault/b.md" then inr " "
       else ReadFile (Example.fs true) path;
     Now_RFC3339 := Now_RFC3339 (Example.fs true);
     MkdirAll_WriteFile := MkdirAll_WriteFile (Example.fs true) |}.

Definition file_b : fileEntry :=
  {| AbsPath := "/vault/b.md"; RelPath := "b.md"; MTime := 20 |}.

Definition emptied :=
  Eval vm_compute in
    run (H := Example.runtime) (Example.cfg 3) "/ws" (Example.embedder 3)
      (Example.qdrant false) emptied_fs 10 {| ReindexAll := false |} tt.

Lemma blank_file_is_only_read_witness :
  Forall (fun ev =>
            (during ev = Some "b.md" -> what ev = CallReadFile "/vault/b.md")
            /\ what ev <> CallDeleteByPath "b.md"
            /\ forall points,
                 what ev = CallUpsert points ->
                 Forall (fun pt => payload_path (Payload pt) <> "b.md")
                   points) emptied.2.
Proof.
  apply (blank_file_is_only_read (H := Example.runtime)
           (Example.cfg 3) "/ws" (Example.embedder 3) (Example.qdrant false)
           emptied_fs 10 {| ReindexAll := false |} tt emptied.1.1 tt
           emptied.2 Example.files file_b).
  - vm_compute. reflexivity.
  - vm_compute. reflexivity.
  - apply (bool_decide_unpack _). vm_compute. exact I.
  - right. left. reflexivity.
  - exists " ". split; vm_compute; reflexivity.
Defined.

(** * The clients and the service *)

(** ** Settings of the clients *)

Module vectordb.

(** Modelled from the spec: [config.RagVectorDBConfig] is declared in a
    package that is not among the sources; these are the fields
    [NewQdrantClient] reads, with the types its uses of them require. *)
Record RagVectorDBConfig := {
  URL : string;
  Collection : string;
  TimeoutSeconds : Z
}.

End vectordb.

Module embedding.

(** Modelled from the spec: [config.RagEmbeddingConfig] is declared in a
    package that is not among the sources; these are the fields
    [NewEmbeddingClient] reads, with the types its uses of them require. *)
Record RagEmbeddingConfig := {
  APIKey : string;
  APIBase : string;
  Model : string;
  BatchSize : Z;
  TimeoutSeconds : Z
}.

End embedding.

(** [strings.TrimRight(s, "/")]: the trailing [/] bytes are removed. *)
Definition TrimRight_slash (s : string) : string :=
  GoStrings.of_bytes
    (rev (GoFilepath.strip_leading_slashes (rev (GoStrings.bytes s)))).

Lemma strip_leading_slashes_spec (l : list ascii) :
  exists k : nat,
    l = (replicate k GoFilepath.slash
         ++ GoFilepath.strip_leading_slashes l)%list
    /\ GoStrings.bytes_prefix [GoFilepath.slash]
         (GoFilepath.strip_leading_slashes l) = false.
Proof.
  induction l as [|ch l (k & Hk & Hhead)]; [now exists 0%nat|].
  cbn [GoFilepath.strip_leading_slashes].
  destruct (GoStrings.byte_eqb ch GoFilepath.slash) eqn:Hch.
  - apply Ascii.eqb_eq in Hch. subst ch. exists (S k). cbn [replicate app].
    split; [now rewrite <- Hk | exact Hhead].
  - exists 0%nat. split; [reflexivity|]. cbn [GoStrings.bytes_prefix].
    unfold GoStrings.byte_eqb in *. rewrite Ascii.eqb_sym, Hch. reflexivity.
Qed.

(** What is returned ends with no [/], and the input is what is returned
    followed by [/] bytes only. *)
Lemma TrimRight_slash_spec (s : string) :
  GoStrings.HasSuffix (TrimRight_slash s) "/" = false
  /\ exists k : nat,
       s = TrimRight_slash s
           +:+ GoStrings.of_bytes (replicate k GoFilepath.slash).
Proof.
  unfold TrimRight_slash, GoStrings.HasSuffix.
  destruct (strip_leading_slashes_spec (rev (GoStrings.bytes s)))
    as (k & Hk & Hhead).
  rewrite bytes_of_bytes, rev_involutive. split; [exact Hhead|].
  exists k. rewrite <- of_bytes_app, <- (of_bytes_bytes s) at 1. f_equal.
  rewrite <- (rev_involutive (GoStrings.bytes s)), Hk at 1.
  rewrite rev_app_distr. f_equal.
  clear. induction k as [|k IH]; [reflexivity|].
  cbn [replicate rev]. rewrite IH. clear.
  induction k as [|k IH]; [reflexivity|]. cbn [replicate app]. now rewrite IH.
Qed.

(** ** Durations *)

Module GoTime.

(** The value that a signed 64-bit integer holds after an operation whose
    exact result is [z]: Go's integer arithmetic wraps around. *)
Definition int64 (z : Z) : Z := (z + 2 ^ 63) mod 2 ^ 64 - 2 ^ 63.

(** [time.Second]: a [time.Duration] is an [int64] number of
    nanoseconds. *)
Definition Second : Z := 1000000000.

End GoTime.

Lemma int64_range (z : Z) : - 2 ^ 63 <= GoTime.int64 z < 2 ^ 63.
Proof.
  unfold GoTime.int64.
  pose proof (Z.mod_pos_bound (z + 2 ^ 63) (2 ^ 64) ltac:(lia)). lia.
Qed.

Lemma int64_exact (z : Z) : - 2 ^ 63 <= z < 2 ^ 63 -> GoTime.int64 z = z.
Proof.
  intros Hz. unfold GoTime.int64. rewrite Z.mod_small; lia.
Qed.

Lemma int64_wraps (z : Z) :
  2 ^ 63 <= z < 2 ^ 63 + 2 ^ 64 -> GoTime.int64 z = z - 2 ^ 64.
Proof.
  intros Hz. unfold GoTime.int64.
  replace (z + 2 ^ 63) with (z - 2 ^ 63 + 1 * 2 ^ 64) by lia.
  rewrite Z.mod_add by lia. rewrite Z.mod_small; lia.
Qed.

(** The test [if n <= 0 { n = default }] of the constructors. *)
Lemma default_positive (configured default : Z) :
  (if configured <=? 0 then default else configured)
  = (if 0 <? configured then configured else default).
Proof.
  destruct (Z.leb_spec configured 0), (Z.ltb_spec 0 configured); lia.
Qed.

Module types.

(** A result of a search, with the type of the scores as parameter. *)
Record SearchResult (float64 : Type) := {
  Path : string;
  Heading : string;
  StartLine : Z;
  EndLine : Z;
  Content : string;
  Score : float64
}.

Arguments Path {float64} _.
Arguments Heading {float64} _.
Arguments StartLine {float64} _.
Arguments EndLine {float64} _.
Arguments Content {float64} _.
Arguments Score {float64} _.

End types.

(** ** The vector-store client *)

Module QdrantHTTP.

(** A request as [doRequest] builds it: the method, [baseURL + path] and
    the marshalled body, if any.  The header is always the same. *)
Record Request := {
  Method : string;
  URL : string;
  ReqBody : option string
}.

(** What [httpClient.Do] answers when it returns no error: the status and
    the result of [io.ReadAll] on the body. *)
Record Response := {
  StatusCode : Z;
  RespBody : error + string
}.

(** One call of [httpClient.Do]: the request and what came back. *)
Definition exchange : Type := Request * (error + Response).

(** [httpClient_Timeout] is the [Timeout] of the [http.Client] the client
    holds, a [time.Duration]. *)
Record QdrantClient := {
  baseURL : string;
  collection : string;
  httpClient_Timeout : Z
}.

Definition NewQdrantClient (cfg : vectordb.RagVectorDBConfig)
    : error + QdrantClient :=
  if String.eqb (vectordb.URL cfg) "" then inl "vector_db url is required"
  else if String.eqb (vectordb.Collection cfg) ""
  then inl "vector_db collection is required"
  else
    let timeout := vectordb.TimeoutSeconds cfg in
    let timeout := if timeout <=? 0 then 30 else timeout in
    inr {| baseURL := TrimRight_slash (vectordb.URL cfg);
           collection := vectordb.Collection cfg;
           httpClient_Timeout := GoTime.int64 (timeout * GoTime.Second) |}.

Section Client.

Variable float64 : Type.

(** The state of the server. *)
Variable Remote : Type.

(** The values of the [map[string]interface{}] literals the client sends. *)
Inductive Body :=
| CreateBody (dimension : Z)
| PointsBody (points : list (QdrantPoint float64))
| DeleteFilterBody (path : string)
| SearchBody (vector : list float64) (limit : Z) (minSimilarity : float64).

(** [json.Marshal], the error of [http.NewRequestWithContext] for a method
    and a URL, [httpClient.Do], and [json.Unmarshal] into the response
    structure of [getCollectionDimension], of which the size is read. *)
Variable json_Marshal : Body -> error + string.
Variable NewRequest_error : string -> string -> option error.
Variable Do : Request -> Remote -> (error + Response) * Remote.
Variable decode_size : string -> error + Z.

Definition Collection (c : QdrantClient) : string := collection c.

(** [doRequest]: the error, or the value decoded into [out] when [out] is
    given; with the state of the server and the exchange made, if any. *)
Definition doRequest {A : Type} (c : QdrantClient) (method path : string)
    (body : option Body) (out : option (string -> error + A)) (r : Remote)
    : (error + option A) * Remote * list exchange :=
  match match body with
        | Some b =>
            match json_Marshal b with
            | inl e => inl e
            | inr data => inr (Some data)
            end
        | None => inr None
        end with
  | inl e => (inl ("failed to marshal qdrant request: " +:+ e), r, [])
  | inr reader =>
      match NewRequest_error method (baseURL c +:+ path) with
      | Some e => (inl ("failed to create qdrant request: " +:+ e), r, [])
      | None =>
          let req := {| Method := method; URL := baseURL c +:+ path;
                        ReqBody := reader |} in
          match Do req r with
          | (inl e, r') =>
              (inl ("qdrant request failed: " +:+ e), r', [(req, inl e)])
          | (inr resp, r') =>
              match RespBody resp with
              | inl e =>
                  (inl ("failed to read qdrant response: " +:+ e), r',
                   [(req, inr resp)])
              | inr data =>
                  if 300 <=? StatusCode resp then
                    (inl ("qdrant API error: " +:+ pretty (StatusCode resp)
                          +:+ " " +:+ data), r', [(req, inr resp)])
                  else
                    match out with
                    | None => (inr None, r', [(req, inr resp)])
                    | Some decode =>
                        match decode data with
                        | inl e =>
                            (inl ("failed to parse qdrant response: " +:+ e),
                             r', [(req, inr resp)])
                        | inr a => (inr (Some a), r', [(req, inr resp)])
                        end
                    end
              end
          end
      end
  end.

(** The error of a [doRequest] that decodes nothing. *)
Definition error_of {A : Type} (res : error + option A) : option error :=
  match res with
  | inl e => Some e
  | inr _ => None
  end.

Definition deleteCollection (c : QdrantClient) (r : Remote)
    : option error * Remote * list exchange :=
  match doRequest (A := unit) c "DELETE" ("/collections/" +:+ collection c)
          None None r with
  | (res, r', log) => (error_of res, r', log)
  end.

Definition createCollection (c : QdrantClient) (dimension : Z) (r : Remote)
    : option error * Remote * list exchange :=
  match doRequest (A := unit) c "PUT" ("/collections/" +:+ collection c)
          (Some (CreateBody dimension)) None r with
  | (res, r', log) => (error_of res, r', log)
  end.

(** [getCollectionDimension]: whether the collection exists, its size,
    and the error.  A response that decodes leaves zero in a size it does
    not hold. *)
Definition getCollectionDimension (c : QdrantClient) (r : Remote)
    : (bool * Z * option error) * Remote * list exchange :=
  match doRequest c "GET" ("/collections/" +:+ collection c) None
          (Some decode_size) r with
  | (inl err, r', log) =>
      if GoStrings.Contains err "404" then ((false, 0, None), r', log)
      else ((false, 0, Some err), r', log)
  | (inr size, r', log) => ((true, default 0 size, None), r', log)
  end.

Definition EnsureCollection (c : QdrantClient) (dimension : Z)
    (recreate : bool) (r : Remote) : option error * Remote * list exchange :=
  if dimension <=? 0 then
    (Some ("invalid vector dimension: " +:+ pretty dimension), r, [])
  else if recreate then
    match deleteCollection c r with
    | (_, r1, log1) =>
        match createCollection c dimension r1 with
        | (e, r2, log2) => (e, r2, (log1 ++ log2)%list)
        end
    end
  else
    match getCollectionDimension c r with
    | ((_, _, Some err), r1, log1) => (Some err, r1, log1)
    | ((exists_, currentDim, None), r1, log1) =>
        if negb exists_ then
          match createCollection c dimension r1 with
          | (e, r2, log2) => (e, r2, (log1 ++ log2)%list)
          end
        else if (0 <? currentDim) && negb (currentDim =? dimension) then
          match deleteCollection c r1 with
          | (Some err, r2, log2) => (Some err, r2, (log1 ++ log2)%list)
          | (None, r2, log2) =>
              match createCollection c dimension r2 with
              | (e, r3, log3) => (e, r3, (log1 ++ log2 ++ log3)%list)
              end
          end
        else (None, r1, log1)
    end.

Definition Upsert (c : QdrantClient) (points : list (QdrantPoint float64))
    (r : Remote) : option error * Remote * list exchange :=
  if len_slice points =? 0 then (None, r, [])
  else
    match doRequest (A := unit) c "PUT"
            ("/collections/" +:+ collection c +:+ "/points?wait=true")
            (Some (PointsBody points)) None r with
    | (res, r', log) => (error_of res, r', log)
    end.

Definition DeleteByPath (c : QdrantClient) (path : string) (r : Remote)
    : option error * Remote * list exchange :=
  if String.eqb path "" then (None, r, [])
  else
    match doRequest (A := unit) c "POST"
            ("/collections/" +:+ collection c +:+ "/points/delete?wait=true")
            (Some (DeleteFilterBody path)) None r with
    | (res, r', log) => (error_of res, r', log)
    end.


(** *** What the requests of the client guarantee *)

(** The exchange was answered, with a body that could be read and a status
    below 300. *)
Definition answered_ok (x : exchange) : Prop :=
  exists resp data,
    x.2 = inr resp /\ RespBody resp = inr data /\ StatusCode resp < 300.

Lemma doRequest_inv {A : Type} (c : QdrantClient) (method path : string)
    (body : option Body) (out : option (string -> error + A)) (r : Remote)
    (res : error + option A) (r' : Remote) (log : list exchange) :
  doRequest c method path body out r = (res, r', log) ->
  (log = [] /\ r' = r /\ exists e, res = inl e)
  \/ exists req reader,
       log = [(req, (Do req r).1)] /\ r' = (Do req r).2
       /\ req = {| Method := method; URL := baseURL c +:+ path;
                   ReqBody := reader |}
       /\ match body with
          | Some b => exists data, json_Marshal b = inr data
                                   /\ reader = Some data
          | None => reader = None
          end
       /\ match (Do req r).1 with
          | inl e => res = inl ("qdrant request failed: " +:+ e)
          | inr resp =>
              match RespBody resp with
              | inl e => res = inl ("failed to read qdrant response: " +:+ e)
              | inr data =>
                  if 300 <=? StatusCode resp then
                    res = inl ("qdrant API error: " +:+ pretty (StatusCode resp)
                               +:+ " " +:+ data)
                  else
                    match out with
                    | None => res = inr None
                    | Some decode =>
                        match decode data with
                        | inl e =>
                            res = inl ("failed to parse qdrant response: "
                                       +:+ e)
                        | inr a => res = inr (Some a)
                        end
                    end
              end
          end.
Proof.
  unfold doRequest.
  destruct body as [b|].
  - destruct (json_Marshal b) as [e|data] eqn:Hm.
    { intros [= <- <- <-]. left. eauto. }
    destruct (NewRequest_error method (baseURL c +:+ path)).
    { intros [= <- <- <-]. left. eauto. }
    cbv zeta.
    set (req := {| Method := method; URL := baseURL c +:+ path;
                   ReqBody := Some data |}).
    intros Hrun. right. exists req, (Some data).
    destruct (Do req r) as [[e|resp] r1]; cbn [fst snd].
    { injection Hrun as <- <- <-. repeat split; eauto. }
    destruct (RespBody resp) as [e|body].
    { injection Hrun as <- <- <-. repeat split; eauto. }
    destruct (300 <=? StatusCode resp).
    { injection Hrun as <- <- <-. repeat split; eauto. }
    destruct out as [decode|].
    + destruct (decode body); injection Hrun as <- <- <-; repeat split; eauto.
    + injection Hrun as <- <- <-. repeat split; eauto.
  - destruct (NewRequest_error method (baseURL c +:+ path)).
    { intros [= <- <- <-]. left. eauto. }
    cbv zeta.
    set (req := {| Method := method; URL := baseURL c +:+ path;
                   ReqBody := None |}).
    intros Hrun. right. exists req, None.
    destruct (Do req r) as [[e|resp] r1]; cbn [fst snd].
    { injection Hrun as <- <- <-. repeat split; eauto. }
    destruct (RespBody resp) as [e|body].
    { injection Hrun as <- <- <-. repeat split; eauto. }
    destruct (300 <=? StatusCode resp).
    { injection Hrun as <- <- <-. repeat split; eauto. }
    destruct out as [decode|].
    + destruct (decode body); injection Hrun as <- <- <-; repeat split; eauto.
    + injection Hrun as <- <- <-. repeat split; eauto.
Qed.

(** X18: a request succeeds only on an answer below 300.  When [doRequest]
    returns no error it has made exactly one exchange, with the method and
    URL asked for, and the answer had a readable body and a status below
    300; an answer of status 300 or more is always an error. *)
Theorem doRequest_succeeds_below_300 {A : Type} (c : QdrantClient)
    (method path : string) (body : option Body)
    (out : option (string -> error + A)) (r : Remote)
    (res : error + option A) (r' : Remote) (log : list exchange) :
  doRequest c method path body out r = (res, r', log) ->
  (length log <= 1)%nat
  /\ (forall a, res = inr a ->
        exists req,
          log = [(req, (Do req r).1)] /\ r' = (Do req r).2
          /\ Method req = method /\ URL req = baseURL c +:+ path
          /\ answered_ok (req, (Do req r).1))
  /\ (forall req resp,
        In (req, inr resp) log -> 300 <= StatusCode resp ->
        exists e, res = inl e).
Proof.
  intros Hrun.
  apply doRequest_inv in Hrun
    as [(-> & -> & e & ->) | (req & reader & -> & -> & Hreq & _ & Hres)].
  { split; [cbn; lia|]. split; [discriminate | intros ? ? []]. }
  split; [cbn; lia|]. split.
  - intros a ->. exists req.
    split; [reflexivity|]. split; [reflexivity|].
    split; [now rewrite Hreq|]. split; [now rewrite Hreq|].
    unfold answered_ok. cbn [snd].
    destruct (Do req r).1 as [e|resp]; [discriminate|].
    destruct (RespBody resp) as [e|data] eqn:Hbody; [discriminate|].
    destruct (Z.leb_spec 300 (StatusCode resp)); [discriminate|].
    exists resp, data. auto.
  - intros req' resp [[= <- Hresp] | []] Hstatus. rewrite Hresp in Hres.
    destruct (RespBody resp); [eauto|].
    destruct (Z.leb_spec 300 (StatusCode resp)); [eauto | lia].
Qed.

(** The URL of the collection. *)
Definition collection_url (c : QdrantClient) : string :=
  baseURL c +:+ "/collections/" +:+ collection c.

(** The exchange created the collection with [dimension]. *)
Definition created (c : QdrantClient) (dimension : Z) (x : exchange) : Prop :=
  Method x.1 = "PUT" /\ URL x.1 = collection_url c
  /\ (exists data, json_Marshal (CreateBody dimension) = inr data
                   /\ ReqBody x.1 = Some data)
  /\ answered_ok x.

(** The exchange asked for the collection and was told its [size]. *)
Definition reported (c : QdrantClient) (size : Z) (x : exchange) : Prop :=
  Method x.1 = "GET" /\ URL x.1 = collection_url c
  /\ exists resp data,
       x.2 = inr resp /\ RespBody resp = inr data /\ StatusCode resp < 300
       /\ decode_size data = inr size.

Definition sent_with (method : string) (log : list exchange) : Prop :=
  Forall (fun x : exchange => Method x.1 = method) log.

Lemma doRequest_method {A : Type} (c : QdrantClient) (method path : string)
    (body : option Body) (out : option (string -> error + A)) (r : Remote)
    (res : error + option A) (r' : Remote) (log : list exchange) :
  doRequest c method path body out r = (res, r', log) ->
  sent_with method log.
Proof.
  intros Hrun. unfold sent_with.
  apply doRequest_inv in Hrun
    as [(-> & _) | (req & reader & -> & _ & -> & _)]; repeat constructor.
Qed.

Lemma deleteCollection_method (c : QdrantClient) (r : Remote)
    (e : option error) (r' : Remote) (log : list exchange) :
  deleteCollection c r = (e, r', log) -> sent_with "DELETE" log.
Proof.
  unfold deleteCollection.
  destruct (doRequest _ _ _ _ _ _) as [[res r1] log1] eqn:Hreq.
  intros [= _ _ <-]. exact (doRequest_method _ _ _ _ _ _ _ _ _ Hreq).
Qed.

Lemma createCollection_inv (c : QdrantClient) (dimension : Z) (r : Remote)
    (e : option error) (r' : Remote) (log : list exchange) :
  createCollection c dimension r = (e, r', log) ->
  sent_with "PUT" log
  /\ (e = None -> exists x, log = [x] /\ created c dimension x).
Proof.
  unfold createCollection.
  destruct (doRequest _ _ _ _ _ _) as [[res r1] log1] eqn:Hreq.
  intros [= <- <- <-].
  split; [exact (doRequest_method _ _ _ _ _ _ _ _ _ Hreq)|].
  intros Hok. destruct res as [err|a]; [discriminate|].
  apply doRequest_inv in Hreq
    as [(_ & _ & e & [=]) | (req & reader & -> & _ & Hreq & Hbody & Hres)].
  eexists. split; [reflexivity|]. unfold created, collection_url. cbn [fst snd].
  destruct Hbody as (data & Hm & ->).
  split; [now rewrite Hreq|]. split; [now rewrite Hreq|].
  split; [exists data; split; [exact Hm | now rewrite Hreq]|].
  unfold answered_ok. cbn [snd].
  destruct (Do req r).1 as [e|resp]; [discriminate|].
  destruct (RespBody resp) as [e|body] eqn:Hb; [discriminate|].
  destruct (Z.leb_spec 300 (StatusCode resp)); [discriminate|].
  exists resp, body. auto.
Qed.

Lemma getCollectionDimension_inv (c : QdrantClient) (r : Remote)
    (found : bool) (size : Z) (e : option error) (r' : Remote)
    (log : list exchange) :
  getCollectionDimension c r = ((found, size, e), r', log) ->
  sent_with "GET" log
  /\ (e = None -> found = true -> exists x, log = [x] /\ reported c size x).
Proof.
  unfold getCollectionDimension.
  destruct (doRequest _ _ _ _ _ _) as [[res r1] log1] eqn:Hreq.
  pose proof (doRequest_method _ _ _ _ _ _ _ _ _ Hreq) as Hm.
  destruct res as [err|a].
  { destruct (GoStrings.Contains err "404"); intros [= <- <- <- <- <-];
      (split; [exact Hm | discriminate]). }
  intros [= <- <- <- <- <-]. split; [exact Hm|]. intros _ _.
  apply doRequest_inv in Hreq
    as [(_ & _ & e & [=]) | (req & reader & -> & _ & Hreq & _ & Hres)].
  eexists. split; [reflexivity|]. unfold reported, collection_url.
  cbn [fst snd].
  split; [now rewrite Hreq|]. split; [now rewrite Hreq|].
  destruct (Do req r).1 as [e|resp]; [discriminate|].
  destruct (RespBody resp) as [e|body] eqn:Hb; [discriminate|].
  destruct (Z.leb_spec 300 (StatusCode resp)); [discriminate|].
  destruct (decode_size body) as [e|sz] eqn:Hd; [discriminate|].
  injection Hres as ->. exists resp, body. cbn [default]. auto.
Qed.

(** X19: when [EnsureCollection] returns no error, the dimension is
    positive and either its last exchange created the collection with that
    dimension, or, without [recreate], its only exchange is a GET that
    reported the collection with that very size or with no positive size
    at all. *)
Theorem EnsureCollection_success (c : QdrantClient) (dimension : Z)
    (recreate : bool) (r r' : Remote) (log : list exchange) :
  EnsureCollection c dimension recreate r = (None, r', log) ->
  0 < dimension
  /\ ((exists before x, log = (before ++ [x])%list /\ created c dimension x)
      \/ (recreate = false
          /\ exists x size,
               log = [x] /\ reported c size x
               /\ (size <= 0 \/ size = dimension))).
Proof.
  unfold EnsureCollection.
  destruct (Z.leb_spec dimension 0) as [Hd | Hd]; [discriminate|].
  intros Hrun. split; [exact Hd|].
  destruct recreate.
  { destruct (deleteCollection c r) as [[e1 r1] log1].
    destruct (createCollection c dimension r1) as [[e2 r2] log2] eqn:Hc.
    injection Hrun as -> _ <-.
    apply createCollection_inv in Hc as [_ Hc].
    destruct (Hc eq_refl) as (x & -> & Hx). left. eauto. }
  destruct (getCollectionDimension c r) as [[[[found size] e] r1] log1] eqn:Hg.
  destruct e as [err|]; [discriminate|].
  apply getCollectionDimension_inv in Hg as [_ Hg]. specialize (Hg eq_refl).
  destruct found; cbn [negb] in Hrun.
  2:{ destruct (createCollection c dimension r1) as [[e2 r2] log2] eqn:Hc.
      injection Hrun as -> _ <-.
      apply createCollection_inv in Hc as [_ Hc].
      destruct (Hc eq_refl) as (x' & -> & Hx'). left. eauto. }
  destruct (Hg eq_refl) as (x & -> & Hx).
  destruct ((0 <? size) && negb (size =? dimension)) eqn:Hdiff.
  - destruct (deleteCollection c r1) as [[[err|] r2] log2]; [discriminate|].
    destruct (createCollection c dimension r2) as [[e3 r3] log3] eqn:Hc.
    injection Hrun as -> _ <-.
    apply createCollection_inv in Hc as [_ Hc].
    destruct (Hc eq_refl) as (x' & -> & Hx').
    left. exists ([x] ++ log2)%list, x'. rewrite <- app_assoc. auto.
  - injection Hrun as _ <-. right. split; [reflexivity|].
    exists x, size. split; [reflexivity|]. split; [exact Hx|].
    apply andb_false_iff in Hdiff as [Hs | Hs].
    + apply Z.ltb_ge in Hs. now left.
    + apply negb_false_iff, Z.eqb_eq in Hs. now right.
Qed.

Lemma sent_with_other (method other : string) (log : list exchange)
    (x : exchange) :
  sent_with method log -> In x log -> Method x.1 = other -> method = other.
Proof.
  unfold sent_with. rewrite Forall_forall. intros Hall Hin Hx.
  rewrite <- (Hall x ltac:(now apply list_elem_of_In)). exact Hx.
Qed.

(** X20: [EnsureCollection] deletes the collection only when it is asked
    to recreate it, or when its GET was answered with a positive size
    other than the dimension asked for; a collection of the right size is
    never deleted without [recreate]. *)
Theorem EnsureCollection_deletes_only_on_mismatch (c : QdrantClient)
    (dimension : Z) (recreate : bool) (r : Remote) (e : option error)
    (r' : Remote) (log : list exchange) :
  EnsureCollection c dimension recreate r = (e, r', log) ->
  (exists x, In x log /\ Method x.1 = "DELETE") ->
  recreate = true
  \/ exists x size rest,
       log = x :: rest /\ reported c size x
       /\ 0 < size /\ size <> dimension.
Proof.
  unfold EnsureCollection.
  destruct (Z.leb_spec dimension 0) as [Hd | Hd].
  { intros [= _ _ <-] (x & [] & _). }
  destruct recreate; [now left|].
  intros Hrun (x & Hin & Hx). right.
  destruct (getCollectionDimension c r) as [[[[found size] e1] r1] log1] eqn:Hg.
  apply getCollectionDimension_inv in Hg as [Hget Hg].
  assert (forall y, In y log1 -> Method y.1 = "DELETE" -> False) as Hnoget.
  { intros y Hy Hm.
    pose proof (sent_with_other _ _ _ _ Hget Hy Hm). discriminate. }
  destruct e1 as [err|].
  { injection Hrun as _ _ <-. destruct (Hnoget x Hin Hx). }
  specialize (Hg eq_refl).
  destruct found; cbn [negb] in Hrun.
  2:{ destruct (createCollection c dimension r1) as [[e2 r2] log2] eqn:Hc.
      injection Hrun as _ _ <-.
      apply createCollection_inv in Hc as [Hput _].
      apply in_app_or in Hin as [Hin | Hin]; [destruct (Hnoget x Hin Hx)|].
      pose proof (sent_with_other _ _ _ _ Hput Hin Hx). discriminate. }
  destruct (Hg eq_refl) as (x0 & -> & Hx0).
  destruct ((0 <? size) && negb (size =? dimension)) eqn:Hdiff.
  - apply andb_true_iff in Hdiff as [Hpos Hne].
    apply Z.ltb_lt in Hpos. apply negb_true_iff, Z.eqb_neq in Hne.
    destruct (deleteCollection c r1) as [[[err|] r2] log2].
    + injection Hrun as _ _ <-. exists x0, size, log2. auto.
    + destruct (createCollection c dimension r2) as [[e3 r3] log3].
      injection Hrun as _ _ <-. exists x0, size, (log2 ++ log3)%list. auto.
  - injection Hrun as _ _ <-. destruct (Hnoget x Hin Hx).
Qed.

Lemma Contains_append_r (s t sub : string) :
  GoStrings.Contains t sub = true -> GoStrings.Contains (s +:+ t) sub = true.
Proof.
  rewrite !Contains_spec. intros (pre & post & ->).
  exists (s +:+ pre), post.
  induction s as [|x s IH]; [reflexivity|].
  change (String x (s +:+ pre +:+ sub +:+ post)
          = String x ((s +:+ pre) +:+ sub +:+ post)).
  now f_equal.
Qed.

(** X21: a collection taken for missing is created.  The GET counts as
    not found whenever the error of the request holds the text [404]:
    when the request fails with such an error, when the answer has status
    404, and also when an answer of any status from 300 on has [404]
    somewhere in its body.  [EnsureCollection] then goes on to create the
    collection: its answer is the one of [createCollection]. *)
Theorem EnsureCollection_creates_on_404 (c : QdrantClient) (dimension : Z)
    (r r1 : Remote) (answer : error + Response) :
  0 < dimension ->
  NewRequest_error "GET" (collection_url c) = None ->
  Do {| Method := "GET"; URL := collection_url c; ReqBody := None |} r
  = (answer, r1) ->
  match answer with
  | inl e => GoStrings.Contains e "404" = true
  | inr resp =>
      exists data,
        RespBody resp = inr data
        /\ (StatusCode resp = 404
            \/ (300 <= StatusCode resp
                /\ GoStrings.Contains data "404" = true))
  end ->
  EnsureCollection c dimension false r
  = match createCollection c dimension r1 with
    | (e, r2, log2) =>
        (e, r2,
         ({| Method := "GET"; URL := collection_url c; ReqBody := None |},
          answer) :: log2)
    end.
Proof.
  intros Hd Hnew Hdo Hanswer. unfold EnsureCollection.
  replace (dimension <=? 0) with false by (symmetry; apply Z.leb_gt; lia).
  unfold getCollectionDimension, doRequest.
  change (baseURL c +:+ "/collections/" +:+ collection c)
    with (collection_url c).
  rewrite Hnew. cbv zeta. rewrite Hdo.
  destruct answer as [e|resp].
  - rewrite (Contains_append_r "qdrant request failed: " e "404" Hanswer).
    cbn [negb].
    destruct (createCollection c dimension r1) as [[e2 r2] log2]. reflexivity.
  - destruct Hanswer as (data & Hbody & Hstatus). rewrite Hbody.
    assert (300 <= StatusCode resp) as Hle by (destruct Hstatus; lia).
    replace (300 <=? StatusCode resp) with true
      by (symmetry; apply Z.leb_le; exact Hle).
    cbv iota.
    assert (GoStrings.Contains
              ("qdrant API error: " +:+ pretty (StatusCode resp) +:+ " "
               +:+ data) "404" = true) as ->.
    { apply Contains_append_r. destruct Hstatus as [-> | [_ Hdata]].
      - apply Contains_spec. exists "", (" " +:+ data). reflexivity.
      - now do 2 apply Contains_append_r. }
    cbn [negb].
    destruct (createCollection c dimension r1) as [[e2 r2] log2]. reflexivity.
Qed.

(** *** Search *)

(** A decoded JSON value, as far as the type assertions of [Search] tell
    values apart: a string, a number, anything else. *)
Inductive JSONValue :=
| JSONString (v : string)
| JSONNumber (v : float64)
| JSONOther.

(** An element of [result] in the answer to a search. *)
Record hit := {
  hit_Score : float64;
  hit_Payload : gmap string JSONValue
}.

(** [json.Unmarshal] into the response structure of [Search], of which
    [result] is read, and the conversion [int(v)] of a number. *)
Variable decode_hits : string -> error + list hit.
Variable int_of_float64 : float64 -> Z.

(** [payload[key].(string)], the zero value when the assertion fails. *)
Definition payload_string (p : gmap string JSONValue) (key : string)
    : string :=
  match p !! key with
  | Some (JSONString v) => v
  | _ => ""
  end.

(** [int(payload[key].(float64))], the zero value when the assertion
    fails. *)
Definition payload_int (p : gmap string JSONValue) (key : string) : Z :=
  match p !! key with
  | Some (JSONNumber v) => int_of_float64 v
  | _ => 0
  end.

(** The body of the loop over [resp.Result]. *)
Definition result_of (item : hit) : types.SearchResult float64 :=
  {| types.Path := payload_string (hit_Payload item) "path";
     types.Heading := payload_string (hit_Payload item) "heading";
     types.StartLine := payload_int (hit_Payload item) "start_line";
     types.EndLine := payload_int (hit_Payload item) "end_line";
     types.Content := payload_string (hit_Payload item) "content";
     types.Score := hit_Score item |}.

Definition Search (c : QdrantClient) (vector : list float64) (limit : Z)
    (minSimilarity : float64) (r : Remote)
    : (error + list (types.SearchResult float64)) * Remote * list exchange :=
  if len_slice vector =? 0 then (inl "empty query vector", r, [])
  else
    let limit := if limit <=? 0 then 5 else limit in
    match doRequest c "POST"
            ("/collections/" +:+ collection c +:+ "/points/search")
            (Some (SearchBody vector limit minSimilarity))
            (Some decode_hits) r with
    | (inl err, r', log) => (inl err, r', log)
    | (inr resp, r', log) => (inr (map result_of (default [] resp)), r', log)
    end.

(** The search request of a client for a vector, a limit and a threshold,
    with the marshalled body [data]. *)
Definition search_request (c : QdrantClient) (vector : list float64)
    (limit : Z) (minSimilarity : float64) (x : exchange) : Prop :=
  exists data,
    json_Marshal (SearchBody vector limit minSimilarity) = inr data
    /\ x.1 = {| Method := "POST";
                URL := baseURL c +:+ "/collections/" +:+ collection c
                       +:+ "/points/search";
                ReqBody := Some data |}.

Lemma Search_inv (c : QdrantClient) (vector : list float64) (limit : Z)
    (minSimilarity : float64) (r : Remote)
    (res : error + list (types.SearchResult float64)) (r' : Remote)
    (log : list exchange) :
  Search c vector limit minSimilarity r = (res, r', log) ->
  vector <> [] ->
  exists res0,
    doRequest c "POST" ("/collections/" +:+ collection c +:+ "/points/search")
      (Some (SearchBody vector (if 0 <? limit then limit else 5)
               minSimilarity))
      (Some decode_hits) r = (res0, r', log)
    /\ res = match res0 with
             | inl err => inl err
             | inr resp => inr (map result_of (default [] resp))
             end.
Proof.
  unfold Search. destruct vector as [|v vector]; [easy|].
  change (len_slice (v :: vector) =? 0) with false. cbv iota zeta.
  assert ((if limit <=? 0 then 5 else limit)
          = (if 0 <? limit then limit else 5)) as ->.
  { destruct (Z.leb_spec limit 0), (Z.ltb_spec 0 limit); lia. }
  destruct (doRequest _ _ _ _ _ _) as [[res0 r0] log0].
  intros Hres _. exists res0. destruct res0; injection Hres as <- <- <-; auto.
Qed.

(** X22: [Search] never sends an empty vector nor a limit that is not
    positive: a limit of zero or less is replaced by 5.  It makes at most
    one exchange, and a successful search returns one result for each hit
    of the answer, in the order of the answer, with its score. *)
Theorem Search_sends_a_positive_limit (c : QdrantClient)
    (vector : list float64) (limit : Z) (minSimilarity : float64)
    (r : Remote) (res : error + list (types.SearchResult float64))
    (r' : Remote) (log : list exchange) :
  Search c vector limit minSimilarity r = (res, r', log) ->
  (vector = [] -> res = inl "empty query vector" /\ log = [] /\ r' = r)
  /\ (length log <= 1)%nat
  /\ (forall x, In x log ->
        vector <> []
        /\ search_request c vector (if 0 <? limit then limit else 5)
             minSimilarity x)
  /\ (forall results, res = inr results ->
        exists x resp body hits,
          log = [(x, inr resp)] /\ StatusCode resp < 300
          /\ RespBody resp = inr body /\ decode_hits body = inr hits
          /\ results = map result_of hits
          /\ map types.Score results = map hit_Score hits).
Proof.
  unfold Search. destruct vector as [|v vector].
  { intros [= <- <- <-]. repeat apply conj; auto; try easy. }
  change (len_slice (v :: vector) =? 0) with false. cbv iota zeta.
  assert ((if limit <=? 0 then 5 else limit)
          = (if 0 <? limit then limit else 5)) as ->.
  { destruct (Z.leb_spec limit 0), (Z.ltb_spec 0 limit); lia. }
  set (lim := if 0 <? limit then limit else 5).
  destruct (doRequest _ _ _ _ _ _) as [[res0 r0] log0] eqn:Hreq.
  apply doRequest_inv in Hreq.
  intros Hres. split; [discriminate|].
  destruct Hreq as [(-> & -> & e & ->) | (req & reader & -> & -> & Hr & Hm & Hout)].
  { injection Hres as <- <- <-.
    split; [cbn; lia|]. split; [intros x []|discriminate]. }
  destruct Hm as (data & Hdata & ->).
  assert (log = [(req, (Do req r).1)]) as ->.
  { destruct res0; now injection Hres as _ _ <-. }
  split; [cbn; lia|]. split.
  - intros x [<- | []]. split; [discriminate|].
    exists data. split; [exact Hdata|]. cbn [fst]. now rewrite Hr.
  - intros results ->.
    destruct (Do req r).1 as [e|resp]; [destruct res0; discriminate|].
    destruct (RespBody resp) as [e|body] eqn:Hbody;
      [destruct res0; discriminate|].
    destruct (Z.leb_spec 300 (StatusCode resp)) as [Hs | Hs];
      [destruct res0; discriminate|].
    destruct (decode_hits body) as [e|hits] eqn:Hhits;
      [destruct res0; discriminate|].
    subst res0. injection Hres as <- _.
    exists req, resp, body, hits. cbn [default].
    repeat apply conj; try reflexivity; try assumption.
    rewrite map_map. reflexivity.
Qed.

End Client.

Arguments doRequest {float64 Remote} _ _ _ {A} _ _ _ _ _ _.
Arguments deleteCollection {float64 Remote} _ _ _ _ _.
Arguments createCollection {float64 Remote} _ _ _ _ _ _.
Arguments getCollectionDimension {float64 Remote} _ _ _ _ _.
Arguments EnsureCollection {float64 Remote} _ _ _ _ _ _ _ _.
Arguments Upsert {float64 Remote} _ _ _ _ _ _.
Arguments DeleteByPath {float64 Remote} _ _ _ _ _ _.
Arguments JSONString {float64} _.
Arguments JSONNumber {float64} _.
Arguments JSONOther {float64}.
Arguments hit_Score {float64} _.
Arguments hit_Payload {float64} _.
Arguments result_of {float64} _ _.
Arguments search_request {float64} _ _ _ _ _ _.
Arguments Search {float64 Remote} _ _ _ _ _ _ _ _ _ _.

(** X23: [NewQdrantClient] refuses an empty URL, then an empty collection
    name, with an error of its own for each; otherwise the client keeps
    the collection name, its base URL is the configured URL without the
    [/] bytes at its end, and the time-out of its HTTP client is the
    [int64] product of [time.Second] and the configured seconds, 30 when
    these are not positive.  That is the configured time, a positive
    duration, up to 9223372036 seconds; from 9223372037 to 18446744073
    seconds the product wraps and the time-out is negative. *)
Theorem NewQdrantClient_result (cfg : vectordb.RagVectorDBConfig) :
  match NewQdrantClient cfg with
  | inl e =>
      (vectordb.URL cfg = "" /\ e = "vector_db url is required")
      \/ (vectordb.URL cfg <> "" /\ vectordb.Collection cfg = ""
          /\ e = "vector_db collection is required")
  | inr c =>
      vectordb.URL cfg <> "" /\ vectordb.Collection cfg <> ""
      /\ collection c = vectordb.Collection cfg
      /\ httpClient_Timeout c
         = GoTime.int64
             ((if 0 <? vectordb.TimeoutSeconds cfg
               then vectordb.TimeoutSeconds cfg else 30) * GoTime.Second)
      /\ (vectordb.TimeoutSeconds cfg <= 9223372036 ->
          httpClient_Timeout c
          = (if 0 <? vectordb.TimeoutSeconds cfg
             then vectordb.TimeoutSeconds cfg else 30) * 1000000000
          /\ 0 < httpClient_Timeout c)
      /\ (9223372036 < vectordb.TimeoutSeconds cfg <= 18446744073 ->
          httpClient_Timeout c
          = vectordb.TimeoutSeconds cfg * 1000000000 - 2 ^ 64
          /\ httpClient_Timeout c < 0)
      /\ GoStrings.HasSuffix (baseURL c) "/" = false
      /\ exists k : nat,
           vectordb.URL cfg
           = baseURL c +:+ GoStrings.of_bytes (replicate k GoFilepath.slash)
  end.
Proof.
  unfold NewQdrantClient.
  destruct (String.eqb_spec (vectordb.URL cfg) ""); [now left|].
  destruct (String.eqb_spec (vectordb.Collection cfg) ""); [right; auto|].
  cbn [collection httpClient_Timeout baseURL].
  destruct (TrimRight_slash_spec (vectordb.URL cfg)) as [Hsuffix Hk].
  rewrite default_positive. unfold GoTime.Second.
  repeat apply conj; try assumption; try reflexivity.
  - intros Hle. rewrite int64_exact.
    + destruct (Z.ltb_spec 0 (vectordb.TimeoutSeconds cfg)); lia.
    + destruct (Z.ltb_spec 0 (vectordb.TimeoutSeconds cfg)); lia.
  - intros Hgt. destruct (Z.ltb_spec 0 (vectordb.TimeoutSeconds cfg)); [|lia].
    rewrite int64_wraps; lia.
Qed.

(** The time-outs of three settings: none, one minute, and the first
    number of seconds whose product with [time.Second] wraps. *)
Lemma NewQdrantClient_timeouts :
  NewQdrantClient {| vectordb.URL := "http://db/";
                     vectordb.Collection := "notes";
                     vectordb.TimeoutSeconds := 0 |}
  = inr {| baseURL := "http://db"; collection := "notes";
           httpClient_Timeout := 30000000000 |}
  /\ NewQdrantClient {| vectordb.URL := "http://db/";
                        vectordb.Collection := "notes";
                        vectordb.TimeoutSeconds := 60 |}
     = inr {| baseURL := "http://db"; collection := "notes";
              httpClient_Timeout := 60000000000 |}
  /\ NewQdrantClient {| vectordb.URL := "http://db/";
                        vectordb.Collection := "notes";
                        vectordb.TimeoutSeconds := 9223372037 |}
     = inr {| baseURL := "http://db"; collection := "notes";
              httpClient_Timeout := -9223372036709551616 |}.
Proof.
  repeat split; reflexivity.
Qed.

End QdrantHTTP.

(** ** The embedding client *)

Module EmbeddingHTTP.

(** The POST request [EmbedBatch] builds: the URL, the [Authorization]
    header when there is an API key, and the marshalled body. *)
Record Request := {
  URL : string;
  Authorization : option string;
  ReqBody : string
}.

Record Response := {
  StatusCode : Z;
  RespBody : error + string
}.

Definition exchange : Type := Request * (error + Response).

(** [httpClient_Timeout] is the [Timeout] of the [http.Client] the client
    holds, a [time.Duration]. *)
Record EmbeddingClient := {
  apiKey : string;
  apiBase : string;
  model : string;
  batchSize : Z;
  httpClient_Timeout : Z
}.

Definition BatchSize (c : EmbeddingClient) : Z := batchSize c.
Definition Model (c : EmbeddingClient) : string := model c.

Definition NewEmbeddingClient (cfg : embedding.RagEmbeddingConfig)
    : error + EmbeddingClient :=
  if String.eqb (embedding.APIBase cfg) ""
  then inl "embedding api_base is required"
  else if String.eqb (embedding.Model cfg) ""
  then inl "embedding model is required"
  else
    let batchSize := embedding.BatchSize cfg in
    let batchSize := if batchSize <=? 0 then 16 else batchSize in
    let timeout := embedding.TimeoutSeconds cfg in
    let timeout := if timeout <=? 0 then 60 else timeout in
    inr {| apiKey := embedding.APIKey cfg;
           apiBase := TrimRight_slash (embedding.APIBase cfg);
           model := embedding.Model cfg;
           batchSize := batchSize;
           httpClient_Timeout := GoTime.int64 (timeout * GoTime.Second) |}.

Section Client.

Variable float64 : Type.
Variable Remote : Type.

(** An element of [data] in the response. *)
Record item := {
  Embedding : list float64;
  Index : Z
}.

(** [json.Marshal] of the request body for a model and its inputs, the
    error of [http.NewRequestWithContext], [httpClient.Do], and
    [json.Unmarshal] into the response structure, of which [data] is
    read. *)
Variable json_Marshal : string -> list string -> error + string.
Variable NewRequest_error : string -> string -> option error.
Variable Do : Request -> Remote -> (error + Response) * Remote.
Variable decode_data : string -> error + list item.

(** The body of the loop that fills [embeddings]: an item whose index is
    out of range is skipped. *)
Definition place_item (embeddings : list (list float64)) (it : item)
    : list (list float64) :=
  if (Index it <? 0) || (len_slice embeddings <=? Index it) then embeddings
  else <[Z.to_nat (Index it) := Embedding it]> embeddings.

(** [make([][]float64, len(data))] followed by the loop over [data]. *)
Definition place (data : list item) : list (list float64) :=
  foldl place_item (replicate (length data) []) data.

Definition EmbedBatch (c : EmbeddingClient) (inputs : list string)
    (r : Remote) : (error + list (list float64)) * Remote * list exchange :=
  if len_slice inputs =? 0 then (inr [], r, [])
  else
    match json_Marshal (model c) inputs with
    | inl e => (inl ("failed to marshal embedding request: " +:+ e), r, [])
    | inr jsonData =>
        match NewRequest_error "POST" (apiBase c +:+ "/embeddings") with
        | Some e =>
            (inl ("failed to create embedding request: " +:+ e), r, [])
        | None =>
            let req :=
              {| URL := apiBase c +:+ "/embeddings";
                 Authorization :=
                   if negb (String.eqb (apiKey c) "")
                   then Some ("Bearer " +:+ apiKey c) else None;
                 ReqBody := jsonData |} in
            match Do req r with
            | (inl e, r') =>
                (inl ("embedding request failed: " +:+ e), r', [(req, inl e)])
            | (inr resp, r') =>
                match RespBody resp with
                | inl e =>
                    (inl ("failed to read embedding response: " +:+ e), r',
                     [(req, inr resp)])
                | inr body =>
                    if negb (StatusCode resp =? 200) then
                      (inl ("embedding API error: "
                            +:+ pretty (StatusCode resp) +:+ " " +:+ body),
                       r', [(req, inr resp)])
                    else
                      match decode_data body with
                      | inl e =>
                          (inl ("failed to parse embedding response: " +:+ e),
                           r', [(req, inr resp)])
                      | inr data =>
                          if len_slice data =? 0 then
                            (inl "embedding response missing data", r',
                             [(req, inr resp)])
                          else (inr (place data), r', [(req, inr resp)])
                      end
                end
            end
        end
    end.

(** *** The vectors are put where their index says *)

Lemma place_item_length (embeddings : list (list float64)) (it : item) :
  length (place_item embeddings it) = length embeddings.
Proof.
  unfold place_item. destruct (_ || _); [reflexivity|].
  apply length_insert.
Qed.

Lemma foldl_place_length (data : list item) :
  forall embeddings,
    length (foldl place_item embeddings data) = length embeddings.
Proof.
  induction data as [|it data IH]; intros embeddings; cbn [foldl];
    [reflexivity|].
  now rewrite IH, place_item_length.
Qed.

Lemma place_length (data : list item) : length (place data) = length data.
Proof. unfold place. now rewrite foldl_place_length, length_replicate. Qed.

(** A slot no later item is aimed at keeps its value. *)
Lemma foldl_place_other (data : list item) (k : nat) :
  Forall (fun it => Index it <> Z.of_nat k) data ->
  forall embeddings,
    foldl place_item embeddings data !! k = embeddings !! k.
Proof.
  induction 1 as [|it data Hit _ IH]; intros embeddings; cbn [foldl];
    [reflexivity|].
  rewrite IH. unfold place_item. destruct (_ || _) eqn:Hout; [reflexivity|].
  apply orb_false_iff in Hout as [Hneg _]. apply Z.ltb_ge in Hneg.
  apply list_lookup_insert_ne. lia.
Qed.

Lemma foldl_place_last (data : list item) (it : item) :
  forall embeddings,
    0 <= Index it < len_slice embeddings ->
    Forall (fun it' => Index it' <> Index it) data ->
    foldl place_item (place_item embeddings it) data !! Z.to_nat (Index it)
    = Some (Embedding it).
Proof.
  intros embeddings Hrange Hlater.
  rewrite foldl_place_other.
  - unfold place_item.
    replace (Index it <? 0) with false by (symmetry; apply Z.ltb_ge; lia).
    replace (len_slice embeddings <=? Index it) with false
      by (symmetry; apply Z.leb_gt; lia).
    cbn [orb]. apply list_lookup_insert_eq. unfold len_slice in Hrange. lia.
  - eapply Forall_impl; [exact Hlater|]. cbv beta. intros it' Hne. lia.
Qed.

(** X24: [EmbedBatch] orders the vectors by the index the response gives
    them, not by their position in it.  The result has one entry for each
    item of the response; an item whose index is in range and is not
    repeated later in the response is found at its index; an index that no
    item has keeps the empty vector. *)
Theorem place_orders_by_index (data : list item) :
  length (place data) = length data
  /\ (forall before it after,
        data = (before ++ it :: after)%list ->
        0 <= Index it < len_slice data ->
        Forall (fun it' => Index it' <> Index it) after ->
        place data !! Z.to_nat (Index it) = Some (Embedding it))
  /\ (forall k : nat,
        (k < length data)%nat ->
        Forall (fun it => Index it <> Z.of_nat k) data ->
        place data !! k = Some []).
Proof.
  split; [apply place_length|]. split.
  - intros before it after -> Hrange Hlater. unfold place.
    rewrite foldl_app. cbn [foldl].
    apply foldl_place_last; [|exact Hlater].
    unfold len_slice in *.
    now rewrite foldl_place_length, length_replicate.
  - intros k Hk Hnone. unfold place.
    rewrite (foldl_place_other _ _ Hnone).
    now apply lookup_replicate_2.
Qed.

(** *** What a call has done *)

(** The request of a client for some inputs, once they are marshalled. *)
Definition request_for (c : EmbeddingClient) (inputs : list string)
    (req : Request) : Prop :=
  json_Marshal (model c) inputs = inr (ReqBody req)
  /\ URL req = apiBase c +:+ "/embeddings"
  /\ Authorization req
     = if negb (String.eqb (apiKey c) "")
       then Some ("Bearer " +:+ apiKey c) else None.

Lemma EmbedBatch_inv (c : EmbeddingClient) (inputs : list string)
    (r : Remote) (res : error + list (list float64)) (r' : Remote)
    (log : list exchange) :
  inputs <> [] ->
  EmbedBatch c inputs r = (res, r', log) ->
  (log = [] /\ r' = r /\ exists e, res = inl e)
  \/ exists req,
       log = [(req, (Do req r).1)] /\ r' = (Do req r).2
       /\ request_for c inputs req
       /\ forall embeddings, res = inr embeddings ->
            exists resp body data,
              (Do req r).1 = inr resp /\ StatusCode resp = 200
              /\ RespBody resp = inr body /\ decode_data body = inr data
              /\ data <> [] /\ embeddings = place data.
Proof.
  unfold EmbedBatch.
  destruct inputs as [|input inputs]; [easy|]. intros _.
  change (len_slice (input :: inputs) =? 0) with false. cbv iota.
  destruct (json_Marshal _ _) as [e|jsonData] eqn:Hm;
    [intros [= <- <- <-]; left; eauto|].
  destruct (NewRequest_error _ _); [intros [= <- <- <-]; left; eauto|].
  cbv zeta.
  match goal with |- context [Do ?q r] => set (req := q) end.
  intros Hrun. right. exists req.
  assert (request_for c (input :: inputs) req) as Hreq.
  { unfold request_for. now rewrite Hm. }
  destruct (Do req r) as [[e|resp] r1]; cbn [fst snd].
  { injection Hrun as <- <- <-. repeat apply conj; auto; try discriminate. }
  destruct (RespBody resp) as [e|body] eqn:Hbody.
  { injection Hrun as <- <- <-. repeat apply conj; auto; try discriminate. }
  destruct (Z.eqb_spec (StatusCode resp) 200) as [Hstatus | Hstatus];
    cbn [negb] in Hrun.
  2:{ injection Hrun as <- <- <-. repeat apply conj; auto; try discriminate. }
  destruct (decode_data body) as [e|data] eqn:Hdata.
  { injection Hrun as <- <- <-. repeat apply conj; auto; try discriminate. }
  destruct data as [|it data].
  { injection Hrun as <- <- <-. repeat apply conj; auto; try discriminate. }
  change (len_slice (it :: data) =? 0) with false in Hrun.
  injection Hrun as <- <- <-. repeat apply conj; auto.
  intros embeddings [= <-]. exists resp, body, (it :: data).
  repeat apply conj; auto; try discriminate.
Qed.

(** X25: what a successful [EmbedBatch] has done.  For no input it
    returns no vector and sends nothing.  Otherwise it made one exchange,
    answered with status 200 exactly, and returns one vector for each item
    of the response, at least one: the number of inputs plays no part. *)
Theorem EmbedBatch_success (c : EmbeddingClient) (inputs : list string)
    (r : Remote) (embeddings : list (list float64)) (r' : Remote)
    (log : list exchange) :
  EmbedBatch c inputs r = (inr embeddings, r', log) ->
  (inputs = [] /\ embeddings = [] /\ log = [] /\ r' = r)
  \/ (inputs <> []
      /\ exists req resp body data,
           log = [(req, inr resp)] /\ Do req r = (inr resp, r')
           /\ URL req = apiBase c +:+ "/embeddings"
           /\ StatusCode resp = 200 /\ RespBody resp = inr body
           /\ decode_data body = inr data
           /\ embeddings = place data
           /\ (0 < length embeddings)%nat
           /\ length embeddings = length data).
Proof.
  unfold EmbedBatch.
  destruct inputs as [|input inputs]; [intros [= <- <- <-]; now left|].
  change (len_slice (input :: inputs) =? 0) with false. cbv iota.
  destruct (json_Marshal _ _) as [e|jsonData]; [discriminate|].
  destruct (NewRequest_error _ _); [discriminate|].
  cbv zeta.
  match goal with |- context [Do ?q r] => set (req := q) end.
  destruct (Do req r) as [[e|resp] r1] eqn:Hdo; [discriminate|].
  destruct (RespBody resp) as [e|body] eqn:Hbody; [discriminate|].
  destruct (Z.eqb_spec (StatusCode resp) 200) as [Hstatus | Hstatus];
    cbn [negb]; [|discriminate].
  destruct (decode_data body) as [e|data] eqn:Hdata; [discriminate|].
  destruct (Z.eqb_spec (len_slice data) 0) as [Hnone | Hsome]; [discriminate|].
  intros [= <- <- <-]. right. split; [discriminate|].
  exists req, resp, body, data. rewrite place_length.
  repeat apply conj; try reflexivity; try assumption.
  unfold len_slice in Hsome. lia.
Qed.

End Client.

Arguments place_item {float64} _ _.
Arguments place {float64} _.
Arguments EmbedBatch {float64 Remote} _ _ _ _ _ _ _.

Lemma NewEmbeddingClient_sized (cfg : embedding.RagEmbeddingConfig)
    (c : EmbeddingClient) :
  NewEmbeddingClient cfg = inr c ->
  0 < batchSize c
  /\ batchSize c
     = (if 0 <? embedding.BatchSize cfg then embedding.BatchSize cfg else 16).
Proof.
  unfold NewEmbeddingClient.
  destruct (String.eqb (embedding.APIBase cfg) ""); [discriminate|].
  destruct (String.eqb (embedding.Model cfg) ""); [discriminate|].
  intros [= <-]. cbn [batchSize].
  destruct (Z.leb_spec (embedding.BatchSize cfg) 0),
    (Z.ltb_spec 0 (embedding.BatchSize cfg)); lia.
Qed.

(** X26: [NewEmbeddingClient] refuses an empty API base, then an empty
    model, with an error of its own for each; otherwise the client keeps
    the model and the key, has a positive batch size, the configured one
    when that is positive and 16 otherwise, its base URL is the configured
    one without the [/] bytes at its end, and the time-out of its HTTP
    client is the [int64] product of [time.Second] and the configured
    seconds, 60 when these are not positive.  That is the configured time,
    a positive duration, up to 9223372036 seconds; from 9223372037 to
    18446744073 seconds the product wraps and the time-out is negative. *)
Theorem NewEmbeddingClient_result (cfg : embedding.RagEmbeddingConfig) :
  match NewEmbeddingClient cfg with
  | inl e =>
      (embedding.APIBase cfg = "" /\ e = "embedding api_base is required")
      \/ (embedding.APIBase cfg <> "" /\ embedding.Model cfg = ""
          /\ e = "embedding model is required")
  | inr c =>
      embedding.APIBase cfg <> "" /\ embedding.Model cfg <> ""
      /\ model c = embedding.Model cfg /\ apiKey c = embedding.APIKey cfg
      /\ 0 < batchSize c
      /\ batchSize c
         = (if 0 <? embedding.BatchSize cfg
            then embedding.BatchSize cfg else 16)
      /\ httpClient_Timeout c
         = GoTime.int64
             ((if 0 <? embedding.TimeoutSeconds cfg
               then embedding.TimeoutSeconds cfg else 60) * GoTime.Second)
      /\ (embedding.TimeoutSeconds cfg <= 9223372036 ->
          httpClient_Timeout c
          = (if 0 <? embedding.TimeoutSeconds cfg
             then embedding.TimeoutSeconds cfg else 60) * 1000000000
          /\ 0 < httpClient_Timeout c)
      /\ (9223372036 < embedding.TimeoutSeconds cfg <= 18446744073 ->
          httpClient_Timeout c
          = embedding.TimeoutSeconds cfg * 1000000000 - 2 ^ 64
          /\ httpClient_Timeout c < 0)
      /\ GoStrings.HasSuffix (apiBase c) "/" = false
      /\ exists k : nat,
           embedding.APIBase cfg
           = apiBase c +:+ GoStrings.of_bytes (replicate k GoFilepath.slash)
  end.
Proof.
  unfold NewEmbeddingClient.
  destruct (String.eqb_spec (embedding.APIBase cfg) ""); [now left|].
  destruct (String.eqb_spec (embedding.Model cfg) ""); [right; auto|].
  cbn [model batchSize apiBase apiKey httpClient_Timeout].
  destruct (TrimRight_slash_spec (embedding.APIBase cfg)) as [Hsuffix Hk].
  rewrite !default_positive. unfold GoTime.Second.
  repeat apply conj; try assumption; try reflexivity.
  - destruct (Z.ltb_spec 0 (embedding.BatchSize cfg)); lia.
  - intros Hle. rewrite int64_exact.
    + destruct (Z.ltb_spec 0 (embedding.TimeoutSeconds cfg)); lia.
    + destruct (Z.ltb_spec 0 (embedding.TimeoutSeconds cfg)); lia.
  - intros Hgt.
    destruct (Z.ltb_spec 0 (embedding.TimeoutSeconds cfg)); [|lia].
    rewrite int64_wraps; lia.
Qed.

(** The time-outs of two settings: none, and the first number of seconds
    whose product with [time.Second] wraps. *)
Lemma NewEmbeddingClient_timeouts :
  NewEmbeddingClient {| embedding.APIKey := "k";
                        embedding.APIBase := "http://embed/";
                        embedding.Model := "m";
                        embedding.BatchSize := 0;
                        embedding.TimeoutSeconds := 0 |}
  = inr {| apiKey := "k"; apiBase := "http://embed"; model := "m";
           batchSize := 16; httpClient_Timeout := 60000000000 |}
  /\ NewEmbeddingClient {| embedding.APIKey := "k";
                           embedding.APIBase := "http://embed/";
                           embedding.Model := "m";
                           embedding.BatchSize := 4;
                           embedding.TimeoutSeconds := 9223372037 |}
     = inr {| apiKey := "k"; apiBase := "http://embed"; model := "m";
              batchSize := 4; httpClient_Timeout := -9223372036709551616 |}.
Proof.
  split; reflexivity.
Qed.

End EmbeddingHTTP.

(** ** The service *)

Module RagService.

(** Modelled from the spec: [config.Config] and [config.RagConfig] are
    declared in a package that is not among the sources.  This is
    [cfg.RAG] as [NewService] and the methods of [Service] read it, with
    the types their uses require; the fields the indexer reads are the
    record [config.RagConfig] above, kept here as [Indexing]. *)
Record RagConfig (float64 : Type) := {
  Enabled : bool;
  Embedding : embedding.RagEmbeddingConfig;
  VectorDB : vectordb.RagVectorDBConfig;
  Trigger : RagTriggerConfig;
  TopK : Z;
  MinSimilarity : float64;
  SnippetMaxChars : Z;
  Indexing : config.RagConfig
}.

Arguments Enabled {float64} _.
Arguments Embedding {float64} _.
Arguments VectorDB {float64} _.
Arguments Trigger {float64} _.
Arguments TopK {float64} _.
Arguments MinSimilarity {float64} _.
Arguments SnippetMaxChars {float64} _.
Arguments Indexing {float64} _.

Record Service (float64 : Type) := {
  cfg : RagConfig float64;
  workspace : string;
  embedder : EmbeddingHTTP.EmbeddingClient;
  qdrant : QdrantHTTP.QdrantClient
}.

Arguments cfg {float64} _.
Arguments workspace {float64} _.
Arguments embedder {float64} _.
Arguments qdrant {float64} _.

(** [NewService], on [cfg.RAG]. *)
Definition NewService {float64 : Type} (rag : RagConfig float64)
    (workspace : string) : error + Service float64 :=
  if negb (Enabled rag) then inl "rag is disabled"
  else
    match EmbeddingHTTP.NewEmbeddingClient (Embedding rag) with
    | inl err => inl err
    | inr embedder =>
        match QdrantHTTP.NewQdrantClient (VectorDB rag) with
        | inl err => inl err
        | inr qdrant =>
            inr {| cfg := rag; workspace := workspace;
                   embedder := embedder; qdrant := qdrant |}
        end
    end.

Definition Config {float64 : Type} (s : Service float64)
    : RagConfig float64 := cfg s.

Section Methods.

Context `{GoRuntime}.
Variable float64 : Type.

(** The state of what the two clients talk to. *)
Variable Remote : Type.

(** What the embedding client calls, as in [EmbeddingHTTP]. *)
Variable embed_Marshal : string -> list string -> error + string.
Variable embed_NewRequest_error : string -> string -> option error.
Variable embed_Do :
  EmbeddingHTTP.Request -> Remote -> (error + EmbeddingHTTP.Response) * Remote.
Variable decode_data : string -> error + list (EmbeddingHTTP.item float64).

(** What the vector-store client calls, as in [QdrantHTTP]. *)
Variable store_Marshal : QdrantHTTP.Body float64 -> error + string.
Variable store_NewRequest_error : string -> string -> option error.
Variable store_Do :
  QdrantHTTP.Request -> Remote -> (error + QdrantHTTP.Response) * Remote.
Variable decode_size : string -> error + Z.
Variable decode_hits : string -> error + list (QdrantHTTP.hit float64).
Variable int_of_float64 : float64 -> Z.

(** [EmbedBatch] of the embedding client, with what it calls. *)
Definition embedder_EmbedBatch (c : EmbeddingHTTP.EmbeddingClient) :=
  EmbeddingHTTP.EmbedBatch embed_Marshal embed_NewRequest_error embed_Do
    decode_data c.

(** The exchanges of a call, with the client that made each. *)
Definition exchange : Type :=
  EmbeddingHTTP.exchange + QdrantHTTP.exchange.

Definition Search (s : Service float64) (query : string) (r : Remote)
    : (error + list (types.SearchResult float64)) * Remote * list exchange :=
  let query := GoStrings.TrimSpace query in
  if String.eqb query "" then (inr [], r, [])
  else
    match embedder_EmbedBatch (embedder s) [query] r with
    | (inl err, r1, log1) => (inl err, r1, map inl log1)
    | (inr embeddings, r1, log1) =>
        if (len_slice embeddings =? 0)
           || (len_slice (hd [] embeddings) =? 0)
        then (inl "embedding returned empty vector", r1, map inl log1)
        else
          match QdrantHTTP.Search store_Marshal store_NewRequest_error
                  store_Do decode_hits int_of_float64 (qdrant s)
                  (hd [] embeddings) (TopK (cfg s)) (MinSimilarity (cfg s))
                  r1 with
          | (res, r2, log2) => (res, r2, (map inl log1 ++ map inr log2)%list)
          end
    end.

(** The clients as the indexer calls them: the exchanges are not kept. *)
Definition indexer_embedder (c : EmbeddingHTTP.EmbeddingClient)
    : EmbeddingClient float64 Remote :=
  {| Model := EmbeddingHTTP.Model c;
     BatchSize := EmbeddingHTTP.BatchSize c;
     EmbedBatch := fun inputs r => (embedder_EmbedBatch c inputs r).1 |}.

Definition indexer_qdrant (c : QdrantHTTP.QdrantClient)
    : QdrantClient float64 Remote :=
  {| qdrant_Collection := QdrantHTTP.Collection c;
     EnsureCollection := fun dimension recreate r =>
       (QdrantHTTP.EnsureCollection store_Marshal store_NewRequest_error
          store_Do decode_size c dimension recreate r).1;
     Upsert := fun points r =>
       (QdrantHTTP.Upsert store_Marshal store_NewRequest_error store_Do
          c points r).1;
     DeleteByPath := fun path r =>
       (QdrantHTTP.DeleteByPath store_Marshal store_NewRequest_error store_Do
          c path r).1 |}.

(** [Index]: the indexer is made of the fields of the service and run. *)
Definition Index (s : Service float64) (fs : FileSystem) (fuel : nat)
    (opts : IndexOptions) : M float64 Remote IndexSummary :=
  run (Indexing (cfg s)) (workspace s) (indexer_embedder (embedder s))
    (indexer_qdrant (qdrant s)) fs fuel opts.

(** *** A search asks the embedding service, then the store *)

(** X27: a search for a blank query makes no exchange and returns no
    result and no error.  Otherwise the embedding service is asked first,
    for the trimmed query alone; the store is asked only after an answer
    of status 200 whose first vector is not empty, once, for that vector,
    with the configured threshold and a positive limit; and results come
    only from the store. *)
Theorem Search_embeds_then_asks (s : Service float64) (query : string)
    (r : Remote) (res : error + list (types.SearchResult float64))
    (r' : Remote) (log : list exchange) :
  Search s query r = (res, r', log) ->
  (GoStrings.TrimSpace query = "" -> res = inr [] /\ log = [] /\ r' = r)
  /\ (forall x, In (inl x) log ->
        GoStrings.TrimSpace query <> ""
        /\ EmbeddingHTTP.request_for embed_Marshal (embedder s)
             [GoStrings.TrimSpace query] x.1
        /\ exists rest, log = inl x :: map inr rest)
  /\ (forall y, In (inr y) log ->
        exists x resp body data,
          log = [inl (x, inr resp); inr y]
          /\ EmbeddingHTTP.StatusCode resp = 200
          /\ EmbeddingHTTP.RespBody resp = inr body
          /\ decode_data body = inr data
          /\ hd [] (EmbeddingHTTP.place data) <> []
          /\ QdrantHTTP.search_request store_Marshal (qdrant s)
               (hd [] (EmbeddingHTTP.place data))
               (if 0 <? TopK (cfg s) then TopK (cfg s) else 5)
               (MinSimilarity (cfg s)) y)
  /\ (forall results, res = inr results ->
        GoStrings.TrimSpace query <> "" -> exists y, In (inr y) log).
Proof.
  unfold Search. cbv zeta. set (q := GoStrings.TrimSpace query).
  destruct (String.eqb_spec q "") as [Hq | Hq].
  { intros [= <- <- <-]. repeat apply conj; auto; try easy. }
  destruct (embedder_EmbedBatch (embedder s) [q] r) as [[res1 r1] log1] eqn:He.
  unfold embedder_EmbedBatch in He.
  apply EmbeddingHTTP.EmbedBatch_inv in He; [|discriminate].
  destruct He as [(-> & -> & e & ->) | (req & -> & -> & Hreq & Hres)].
  { intros [= <- <- <-]. repeat apply conj; try easy. }
  set (x := (req, (embed_Do req r).1)) in *.
  assert (forall res0 r0,
            (res0, r0, map inl [x]) = (res, r', log) ->
            (forall results, res0 <> inr results) ->
            (q = "" -> res = inr [] /\ log = [] /\ r' = r)
            /\ (forall x0, In (inl x0) log ->
                  q <> ""
                  /\ EmbeddingHTTP.request_for embed_Marshal (embedder s)
                       [q] x0.1
                  /\ exists rest, log = inl x0 :: map inr rest)
            /\ (forall y, In (inr y) log ->
                  exists x0 resp body data,
                    log = [inl (x0, inr resp); inr y]
                    /\ EmbeddingHTTP.StatusCode resp = 200
                    /\ EmbeddingHTTP.RespBody resp = inr body
                    /\ decode_data body = inr data
                    /\ hd [] (EmbeddingHTTP.place data) <> []
                    /\ QdrantHTTP.search_request store_Marshal (qdrant s)
                         (hd [] (EmbeddingHTTP.place data))
                         (if 0 <? TopK (cfg s) then TopK (cfg s) else 5)
                         (MinSimilarity (cfg s)) y)
            /\ (forall results, res = inr results ->
                  q <> "" -> exists y, In (inr y) log)) as Hstop.
  { intros res0 r0 [= <- <- <-] Hno. split; [easy|]. split; [|split].
    - intros x0 [[= <-] | []]. split; [exact Hq|]. split; [exact Hreq|].
      now exists [].
    - intros y [[=] | []].
    - intros results Hr. destruct (Hno _ Hr). }
  destruct res1 as [err|embeddings]; [intros Hrun; now apply (Hstop _ _ Hrun)|].
  destruct (Hres _ eq_refl)
    as (resp & body & data & Hdo & Hstatus & Hbody & Hdata & Hne & ->).
  destruct ((len_slice (EmbeddingHTTP.place data) =? 0)
            || (len_slice (hd [] (EmbeddingHTTP.place data)) =? 0))
    eqn:Hempty; [intros Hrun; now apply (Hstop _ _ Hrun)|].
  apply orb_false_elim in Hempty as [_ Hvector].
  assert (hd [] (EmbeddingHTTP.place data) <> []) as Hv.
  { intros Hnil. rewrite Hnil in Hvector. discriminate. }
  destruct (QdrantHTTP.Search _ _ _ _ _ _ _ _ _ _) as [[res2 r2] log2] eqn:Hs.
  apply QdrantHTTP.Search_inv in Hs as (res0 & Hs & Hres2); [|exact Hv].
  apply QdrantHTTP.doRequest_inv in Hs
    as [(-> & -> & e & ->) | (req2 & reader & -> & -> & Hreq2 & Hm & _)].
  { subst res2. cbn [map app]. intros Hrun.
    now apply (Hstop _ _ Hrun). }
  destruct Hm as (data2 & Hdata2 & ->).
  intros [= <- <- <-]. clear Hstop. cbn [map app].
  split; [easy|]. split; [|split].
  - intros x0 [[= <-] | [[=] | []]]. split; [exact Hq|]. split; [exact Hreq|].
    now exists [(req2, (store_Do req2 (embed_Do req r).2).1)].
  - intros y [[=] | [[= <-] | []]].
    exists req, resp, body, data. unfold x. rewrite Hdo.
    repeat apply conj; try reflexivity; try assumption.
    exists data2. split; [exact Hdata2|]. cbn [fst]. now rewrite Hreq2.
  - intros results _ _. eexists. right. left. reflexivity.
Qed.

(** *** Indexing with a service *)

(** [NewService] makes a service only when the settings enable it, and
    its clients are the ones the two constructors make. *)
Lemma NewService_inv (rag : RagConfig float64) (ws : string)
    (s : Service float64) :
  NewService rag ws = inr s ->
  Enabled rag = true
  /\ EmbeddingHTTP.NewEmbeddingClient (Embedding rag) = inr (embedder s)
  /\ QdrantHTTP.NewQdrantClient (VectorDB rag) = inr (qdrant s)
  /\ cfg s = rag /\ workspace s = ws.
Proof.
  unfold NewService. destruct (Enabled rag); [|discriminate]. cbn [negb].
  destruct (EmbeddingHTTP.NewEmbeddingClient _); [discriminate|].
  destruct (QdrantHTTP.NewQdrantClient _); [discriminate|].
  intros [= <-]. auto.
Qed.

(** X28: indexing with a service made by [NewService] never stops on a
    run-time panic, and every batch it sends to the embedding service and
    to the store holds at least one item and at most the configured batch
    size, or 16 when the configured size is not positive. *)
Theorem Index_of_a_new_service (rag : RagConfig float64) (ws : string)
    (s : Service float64) (fs : FileSystem) (fuel : nat)
    (opts : IndexOptions) (r : Remote) (o : outcome IndexSummary)
    (r' : Remote) (evs : list (event float64)) :
  NewService rag ws = inr s ->
  Index s fs fuel opts r = (o, r', evs) ->
  let size :=
    if 0 <? embedding.BatchSize (Embedding rag)
    then embedding.BatchSize (Embedding rag) else 16 in
  o <> Panicked
  /\ Forall (fun ev =>
               match what ev with
               | CallEmbedBatch texts => 0 < len_slice texts <= size
               | CallUpsert points => 0 < len_slice points <= size
               | _ => True
               end) evs.
Proof.
  clear decode_hits int_of_float64. intros Hnew Hrun size.
  apply NewService_inv in Hnew as (_ & Hemb & _ & _ & _).
  pose proof (EmbeddingHTTP.NewEmbeddingClient_sized _ _ Hemb)
    as [Hpos Hsize].
  fold size in Hsize. unfold Index in Hrun.
  assert (0 < BatchSize (indexer_embedder (embedder s))) as Hbs
    by exact Hpos.
  split; [exact (never_panics_run _ _ _ _ _ fuel opts Hbs r o r' evs Hrun)|].
  destruct (run_batches _ _ _ _ _ True fuel opts (fun _ => Hbs) _ _ _ _ Hrun)
    as [Hevs _].
  eapply Forall_impl; [exact Hevs|].
  intros ev. unfold batch_event. cbn [BatchSize indexer_embedder].
  unfold EmbeddingHTTP.BatchSize. rewrite Hsize.
  destruct (what ev); tauto.
Qed.

End Methods.

Arguments Search {float64 Remote} _ _ _ _ _ _ _ _ _ _ _ _.
Arguments Index {H float64 Remote} _ _ _ _ _ _ _ _ _ _ _ _ _.

End RagService.

(** * The clients against a small server *)

Module ClientExample.

(** The server holds at most one collection: its state is the body that
    created the collection, if there is one. *)
Definition Remote : Type := option string.

Definition client : QdrantHTTP.QdrantClient :=
  {| QdrantHTTP.baseURL := "http://db"; QdrantHTTP.collection := "notes";
     QdrantHTTP.httpClient_Timeout := 30000000000 |}.

(** The body of a creation is the decimal size; the other bodies are a
    word. *)
Definition store_Marshal (b : QdrantHTTP.Body Z) : error + string :=
  match b with
  | QdrantHTTP.CreateBody _ dimension => inr (pretty dimension)
  | QdrantHTTP.PointsBody _ _ => inr "points"
  | QdrantHTTP.DeleteFilterBody _ _ => inr "filter"
  | QdrantHTTP.SearchBody _ _ _ _ => inr "search"
  end.

Definition ok : QdrantHTTP.Response :=
  {| QdrantHTTP.StatusCode := 200; QdrantHTTP.RespBody := inr "ok" |}.

(** A GET answers with the body that created the collection, or 404; a
    DELETE removes the collection; a PUT on the collection creates it; a
    POST is a search. *)
Definition store_Do (req : QdrantHTTP.Request) (r : Remote)
    : (error + QdrantHTTP.Response) * Remote :=
  if String.eqb (QdrantHTTP.Method req) "GET" then
    match r with
    | Some body =>
        (inr {| QdrantHTTP.StatusCode := 200;
                QdrantHTTP.RespBody := inr body |}, r)
    | None =>
        (inr {| QdrantHTTP.StatusCode := 404;
                QdrantHTTP.RespBody := inr "Not found" |}, r)
    end
  else if String.eqb (QdrantHTTP.Method req) "DELETE" then (inr ok, None)
  else if String.eqb (QdrantHTTP.Method req) "PUT" then
    if String.eqb (QdrantHTTP.URL req) "http://db/collections/notes"
    then (inr ok, QdrantHTTP.ReqBody req)
    else (inr ok, r)
  else
    (inr {| QdrantHTTP.StatusCode := 200;
            QdrantHTTP.RespBody := inr "hits" |}, r).

Definition decode_size (body : string) : error + Z :=
  if String.eqb body "3" then inr 3
  else if String.eqb body "2" then inr 2
  else inl "invalid character".

(** The answer to a search holds one hit, for the first line of [a.md]. *)
Definition the_hit : QdrantHTTP.hit Z :=
  {| QdrantHTTP.hit_Score := 9;
     QdrantHTTP.hit_Payload :=
       <["path" := QdrantHTTP.JSONString "a.md"]>
         (<["start_line" := QdrantHTTP.JSONNumber 1]> ∅) |}.

Definition decode_hits (body : string) : error + list (QdrantHTTP.hit Z) :=
  if String.eqb body "hits" then inr [the_hit] else inl "invalid character".

Definition embedding_client : EmbeddingHTTP.EmbeddingClient :=
  {| EmbeddingHTTP.apiKey := "key"; EmbeddingHTTP.apiBase := "http://embed";
     EmbeddingHTTP.model := "embed-small"; EmbeddingHTTP.batchSize := 16;
     EmbeddingHTTP.httpClient_Timeout := 60000000000 |}.

Definition embed_Marshal (model : string) (inputs : list string)
    : error + string :=
  inr (GoStrings.Join inputs ",").

(** The embedding service answers every request with the same two
    vectors, the second one first. *)
Definition embed_Do (req : EmbeddingHTTP.Request) (r : Remote)
    : (error + EmbeddingHTTP.Response) * Remote :=
  (inr {| EmbeddingHTTP.StatusCode := 200;
          EmbeddingHTTP.RespBody := inr "vectors" |}, r).

Definition decode_data (body : string)
    : error + list (EmbeddingHTTP.item Z) :=
  inr [ {| EmbeddingHTTP.Embedding := [0; 0; 2]; EmbeddingHTTP.Index := 1 |};
        {| EmbeddingHTTP.Embedding := [0; 0; 1]; EmbeddingHTTP.Index := 0 |} ].

Definition no_error (method url : string) : option error := None.

(** The collection is asked for when it exists with size 3. *)
Definition asked :=
  Eval vm_compute in
    QdrantHTTP.doRequest store_Marshal no_error store_Do client "GET"
      "/collections/notes" None (Some decode_size) (Some "3").

(** The collection is ensured with size 3 when there is none, and when
    there is one of size 2. *)
Definition ensured :=
  Eval vm_compute in
    QdrantHTTP.EnsureCollection store_Marshal no_error store_Do decode_size
      client 3 false None.

Definition resized :=
  Eval vm_compute in
    QdrantHTTP.EnsureCollection store_Marshal no_error store_Do decode_size
      client 3 false (Some "2").

(** A search with a limit of zero. *)
Definition searched :=
  Eval vm_compute in
    QdrantHTTP.Search store_Marshal no_error store_Do decode_hits
      (fun v => v) client [0; 0; 1] 0 5 (Some "3").

(** Two texts are embedded. *)
Definition embedded :=
  Eval vm_compute in
    EmbeddingHTTP.EmbedBatch embed_Marshal no_error embed_Do decode_data
      embedding_client ["a"; "b"] None.

Lemma doRequest_succeeds_below_300_witness :
  exists req,
    asked.2 = [(req, (store_Do req (Some "3")).1)]
    /\ QdrantHTTP.Method req = "GET"
    /\ QdrantHTTP.URL req = "http://db/collections/notes".
Proof.
  destruct (QdrantHTTP.doRequest_succeeds_below_300 Z Remote store_Marshal
              no_error store_Do client "GET" "/collections/notes" None
              (Some decode_size) (Some "3") asked.1.1 asked.1.2 asked.2
              ltac:(vm_compute; reflexivity))
    as (_ & Hok & _).
  destruct (Hok (Some 3) eq_refl) as (req & Hlog & _ & Hmethod & Hurl & _).
  exists req. auto.
Defined.

Lemma EnsureCollection_success_witness :
  0 < 3
  /\ ((exists before x,
         ensured.2 = (before ++ [x])%list
         /\ QdrantHTTP.created Z store_Marshal client 3 x)
      \/ (false = false
          /\ exists x size,
               ensured.2 = [x] /\ QdrantHTTP.reported decode_size client size x
               /\ (size <= 0 \/ size = 3))).
Proof.
  apply (QdrantHTTP.EnsureCollection_success Z Remote store_Marshal no_error
           store_Do decode_size client 3 false None ensured.1.2 ensured.2).
  vm_compute. reflexivity.
Defined.

Lemma EnsureCollection_deletes_only_on_mismatch_witness :
  false = true
  \/ exists x size rest,
       resized.2 = x :: rest /\ QdrantHTTP.reported decode_size client size x
       /\ 0 < size /\ size <> 3.
Proof.
  apply (QdrantHTTP.EnsureCollection_deletes_only_on_mismatch Z Remote
           store_Marshal no_error store_Do decode_size client 3 false
           (Some "2") resized.1.1 resized.1.2 resized.2).
  - vm_compute. reflexivity.
  - eexists. split; [right; left; reflexivity | reflexivity].
Defined.

Lemma EnsureCollection_creates_on_404_witness :
  QdrantHTTP.EnsureCollection store_Marshal no_error store_Do decode_size
    client 3 false None
  = match QdrantHTTP.createCollection store_Marshal no_error store_Do client
            3 None with
    | (e, r2, log2) =>
        (e, r2,
         ({| QdrantHTTP.Method := "GET";
             QdrantHTTP.URL := QdrantHTTP.collection_url client;
             QdrantHTTP.ReqBody := None |},
          inr {| QdrantHTTP.StatusCode := 404;
                 QdrantHTTP.RespBody := inr "Not found" |}) :: log2)
    end.
Proof.
  apply (QdrantHTTP.EnsureCollection_creates_on_404 Z Remote store_Marshal
           no_error store_Do decode_size client 3 None None
           (inr {| QdrantHTTP.StatusCode := 404;
                   QdrantHTTP.RespBody := inr "Not found" |})).
  - lia.
  - reflexivity.
  - reflexivity.
  - exists "Not found". split; [reflexivity | left; reflexivity].
Defined.

Lemma Search_sends_a_positive_limit_witness :
  exists x,
    searched.2 = [x]
    /\ QdrantHTTP.search_request store_Marshal client [0; 0; 1] 5 5 x.
Proof.
  destruct (QdrantHTTP.Search_sends_a_positive_limit Z Remote store_Marshal
              no_error store_Do decode_hits (fun v => v) client [0; 0; 1] 0 5
              (Some "3") searched.1.1 searched.1.2 searched.2
              ltac:(vm_compute; reflexivity))
    as (_ & _ & Hrequest & Hresults).
  destruct (Hresults _ eq_refl) as (x & resp & _ & _ & Hlog & _).
  exists (x, inr resp). split; [exact Hlog|].
  apply Hrequest. rewrite Hlog. now left.
Defined.

Lemma EmbedBatch_success_witness :
  (["a"; "b"] = [] /\ [[0; 0; 1]; [0; 0; 2]] = [] /\ embedded.2 = []
   /\ embedded.1.2 = None)
  \/ (["a"; "b"] <> []
      /\ exists req resp body data,
           embedded.2 = [(req, inr resp)]
           /\ embed_Do req None = (inr resp, embedded.1.2)
           /\ EmbeddingHTTP.URL req = "http://embed" +:+ "/embeddings"
           /\ EmbeddingHTTP.StatusCode resp = 200
           /\ EmbeddingHTTP.RespBody resp = inr body
           /\ decode_data body = inr data
           /\ [[0; 0; 1]; [0; 0; 2]] = EmbeddingHTTP.place data
           /\ (0 < 2)%nat
           /\ 2%nat = length data).
Proof.
  apply (EmbeddingHTTP.EmbedBatch_success Z Remote embed_Marshal no_error
           embed_Do decode_data embedding_client ["a"; "b"] None
           [[0; 0; 1]; [0; 0; 2]] embedded.1.2 embedded.2).
  vm_compute. reflexivity.
Defined.

(** The settings of a service over the two servers; no batch size, no
    timeout and no number of results are configured. *)
Definition rag : RagService.RagConfig Z :=
  {| RagService.Enabled := true;
     RagService.Embedding :=
       {| embedding.APIKey := "key"; embedding.APIBase := "http://embed/";
          embedding.Model := "embed-small"; embedding.BatchSize := 0;
          embedding.TimeoutSeconds := 0 |};
     RagService.VectorDB :=
       {| vectordb.URL := "http://db//"; vectordb.Collection := "notes";
          vectordb.TimeoutSeconds := 0 |};
     RagService.Trigger :=
       {| ForcePrefixes := []; SkipPrefixes := []; Auto := false;
          AutoKeywords := [] |};
     RagService.TopK := 0;
     RagService.MinSimilarity := 5;
     RagService.SnippetMaxChars := 0;
     RagService.Indexing := Example.cfg 3 |}.

Definition service : RagService.Service Z :=
  {| RagService.cfg := rag; RagService.workspace := "/ws";
     RagService.embedder := embedding_client; RagService.qdrant := client |}.

(** A search for a query between spaces. *)
Definition found :=
  Eval vm_compute in
    RagService.Search embed_Marshal no_error embed_Do decode_data
      store_Marshal no_error store_Do decode_hits (fun v => v) service
      " a " (Some "3").

(** The vault of the example is indexed through the two clients. *)
Definition indexed :=
  Eval vm_compute in
    RagService.Index (H := Example.runtime) embed_Marshal no_error embed_Do
      decode_data store_Marshal no_error store_Do decode_size service
      (Example.fs true) 10 {| ReindexAll := false |} None.

Lemma Search_embeds_then_asks_witness :
  exists y, In (inr y) found.2.
Proof.
  destruct (RagService.Search_embeds_then_asks Z Remote embed_Marshal
              no_error embed_Do decode_data store_Marshal no_error store_Do
              decode_hits (fun v => v) service " a " (Some "3") found.1.1
              found.1.2 found.2 ltac:(vm_compute; reflexivity))
    as (_ & _ & _ & Hresults).
  apply (Hresults
           [ {| types.Path := "a.md"; types.Heading := "";
                types.StartLine := 1; types.EndLine := 0;
                types.Content := ""; types.Score := 9 |} ]).
  - reflexivity.
  - vm_compute. discriminate.
Defined.

Lemma Index_of_a_new_service_witness :
  indexed.1.1 <> Panicked
  /\ Forall (fun ev =>
               match what ev with
               | CallEmbedBatch texts => 0 < len_slice texts <= 16
               | CallUpsert points => 0 < len_slice points <= 16
               | _ => True
               end) indexed.2.
Proof.
  apply (RagService.Index_of_a_new_service (H := Example.runtime) Z Remote
           embed_Marshal no_error embed_Do decode_data store_Marshal no_error
           store_Do decode_size rag "/ws" service (Example.fs true) 10
           {| ReindexAll := false |} None indexed.1.1 indexed.1.2 indexed.2).
  - vm_compute. reflexivity.
  - vm_compute. reflexivity.
Defined.

End ClientExample.
